(** * emdp: a CommonMark / GFM parser, shallow embedding of the TypeScript sources

    JavaScript strings are sequences of UTF-16 code units; they are modelled as
    lists of integers.  Indices, lengths and column counts are natural numbers.
    Every definition names the source function it embeds. *)

From Stdlib Require Import ZArith List Bool Lia Arith Sorted.
From Stdlib Require String Ascii.
Import ListNotations String.StringSyntax.
Set Warnings "-register-all".
Set Warnings "-abstract-large-number".
Delimit Scope string_scope with string.

(** ** Code units and the string built-ins the sources rely on *)

Definition char := Z.
Bind Scope Z_scope with char.
Definition str := list char.

Definition NUL : char := 0%Z.
Definition TAB : char := 9%Z.
Definition LF : char := 10%Z.
Definition CR : char := 13%Z.
Definition SP : char := 32%Z.

(** A string literal of the sources, one code unit per ASCII character. *)
Definition js (s : String.string) : str :=
  map (fun a => Z.of_N (Ascii.N_of_ascii a)) (String.list_ascii_of_string s).
Arguments js s%_string.

Definition ceq (a b : char) : bool := Z.eqb a b.

Fixpoint str_eqb (a b : str) : bool :=
  match a, b with
  | [], [] => true
  | x :: a', y :: b' => ceq x y && str_eqb a' b'
  | _, _ => false
  end.

(** [s[i]], [undefined] out of range. *)
Definition charAt (s : str) (i : nat) : option char := nth_error s i.

(** [s[i] === c]. *)
Definition charIs (s : str) (i : nat) (c : char) : bool :=
  match charAt s i with Some d => ceq d c | None => false end.

(** [s.slice(a)] and [s.slice(a, b)] for non-negative arguments. *)
Definition sliceFrom (s : str) (a : nat) : str := skipn a s.
Definition slice (s : str) (a b : nat) : str := firstn (b - a) (skipn a s).
(** [s.slice(0, -n)]. *)
Definition dropLast (n : nat) (s : str) : str := firstn (length s - n) s.

Fixpoint startsWith (s p : str) {struct p} : bool :=
  match p, s with
  | [], _ => true
  | x :: p', y :: s' => ceq x y && startsWith s' p'
  | _ :: _, [] => false
  end.

Definition endsWith (s p : str) : bool := startsWith (rev s) (rev p).

Fixpoint includes (s p : str) : bool :=
  startsWith s p || match s with [] => false | _ :: s' => includes s' p end.

Definition memc (c : char) (l : str) : bool := existsb (ceq c) l.

Fixpoint span (p : char -> bool) (s : str) : str * str :=
  match s with
  | [] => ([], [])
  | c :: r => if p c then let (a, b) := span p r in (c :: a, b) else ([], s)
  end.

Fixpoint dropWhile (p : char -> bool) (s : str) : str :=
  match s with
  | [] => []
  | c :: r => if p c then dropWhile p r else s
  end.

Definition dropWhileEnd (p : char -> bool) (s : str) : str :=
  rev (dropWhile p (rev s)).

(** [span] that takes at most [n] characters: a greedy [{0,n}] over a class. *)
Fixpoint spanUpTo (n : nat) (p : char -> bool) (s : str) : str * str :=
  match n, s with
  | S n', c :: r => if p c then let (a, b) := spanUpTo n' p r in (c :: a, b) else ([], s)
  | _, _ => ([], s)
  end.

Definition inRange (lo hi c : Z) : bool := (lo <=? c)%Z && (c <=? hi)%Z.

(** ECMAScript WhiteSpace and LineTerminator code units: what [String.prototype.trim]
    strips and what the regular-expression class [\s] matches. *)
Definition isJsSpace (c : char) : bool :=
  inRange 9 13 c || ceq c 32 || ceq c 160 || ceq c 5760 || inRange 8192 8202 c
  || ceq c 8232 || ceq c 8233 || ceq c 8239 || ceq c 8287 || ceq c 12288 || ceq c 65279.

(** The regular-expression [.] (no [s] flag): anything but a line terminator. *)
Definition isDot (c : char) : bool :=
  negb (ceq c LF || ceq c CR || ceq c 8232 || ceq c 8233).

Definition trimStart (s : str) : str := dropWhile isJsSpace s.
Definition trimEnd (s : str) : str := dropWhileEnd isJsSpace s.
Definition trim (s : str) : str := trimEnd (trimStart s).

(** [s.trim() === ''] *)
Definition isBlank (s : str) : bool := forallb isJsSpace s.

Definition isSpaceTab (c : char) : bool := ceq c SP || ceq c TAB.
Definition isDigit (c : char) : bool := inRange 48 57 c.
Definition isUpper (c : char) : bool := inRange 65 90 c.
Definition isLower (c : char) : bool := inRange 97 122 c.
Definition isAlpha (c : char) : bool := isUpper c || isLower c.
Definition isAlnum (c : char) : bool := isAlpha c || isDigit c.
Definition isHexDigit (c : char) : bool :=
  isDigit c || inRange 65 70 c || inRange 97 102 c.

(** [s.split('\n')]: always at least one piece. *)
Fixpoint splitLF_aux (cur : str) (s : str) : list str :=
  match s with
  | [] => [rev cur]
  | c :: r => if ceq c LF then rev cur :: splitLF_aux [] r else splitLF_aux (c :: cur) r
  end.
Definition splitLF (s : str) : list str := splitLF_aux [] s.

(** [lines.slice(i)] *)
Definition linesFrom (lines : list str) (i : nat) : list str := skipn i lines.

(** [lines.join(sep)] *)
Fixpoint join (sep : str) (l : list str) : str :=
  match l with
  | [] => []
  | [a] => a
  | a :: r => a ++ sep ++ join sep r
  end.
Definition joinLF (l : list str) : str := join [LF] l.

(** ** utils.ts *)

(** [normalizeLineEndings]: [str.replace(/\r\n?/g, '\n')]. *)
Fixpoint normalizeLineEndings (s : str) : str :=
  match s with
  | [] => []
  | c :: r =>
      if ceq c CR then
        LF :: match r with
              | d :: r' => if ceq d LF then normalizeLineEndings r' else normalizeLineEndings r
              | [] => []
              end
      else c :: normalizeLineEndings r
  end.

(** [getIndent] of block-parser.ts (and [countLeadingSpaces] of utils.ts): the
    column reached by the leading spaces and tabs, tab stops every 4 columns. *)
Fixpoint getIndent_from (indent : nat) (raw : str) : nat :=
  match raw with
  | [] => indent
  | c :: r =>
      if ceq c SP then getIndent_from (indent + 1) r
      else if ceq c TAB then getIndent_from (indent + (4 - indent mod 4)) r
      else indent
  end.
Definition getIndent (raw : str) : nat := getIndent_from 0 raw.

(** [expandRestOfLine(line, startIdx, startColumn)]; the argument is
    [line.slice(startIdx)]. *)
Fixpoint expandRestOfLine (rest : str) (column : nat) : str :=
  match rest with
  | [] => []
  | c :: r =>
      if ceq c TAB then
        let tabWidth := 4 - column mod 4 in
        repeat SP tabWidth ++ expandRestOfLine r (column + tabWidth)
      else c :: expandRestOfLine r (column + 1)
  end.

(** The loop of [removeIndent(line, indent)]: [line] is [line.slice(i)] and
    [removed] the columns consumed so far. *)
Fixpoint removeIndent_loop (line : str) (indent removed : nat) : str :=
  match line with
  | [] => []
  | c :: r =>
      if removed <? indent then
        if ceq c SP then removeIndent_loop r indent (removed + 1)
        else if ceq c TAB then
          let tabWidth := 4 - removed mod 4 in
          if removed + tabWidth <=? indent then removeIndent_loop r indent (removed + tabWidth)
          else
            let remaining := indent - removed in
            let spacesFromTab := tabWidth - remaining in
            let originalColumn := removed + tabWidth in
            repeat SP spacesFromTab ++ expandRestOfLine r originalColumn
        else line
      else line
  end.

Definition removeIndent (line : str) (indent : nat) : str :=
  removeIndent_loop line indent 0.

(** The column reached from [col] by a run of spaces and tabs. *)
Fixpoint indentWidth (col : nat) (ws : str) : nat :=
  match ws with
  | [] => col
  | c :: r => if ceq c TAB then indentWidth (col + (4 - col mod 4)) r
              else indentWidth (col + 1) r
  end.

(** ** C1: the two outcomes of [removeIndent]

    [from] is the column at which the line starts, [out] what is returned. *)

(** No tab straddles column [N]. *)
Definition removeIndent_plain (line : str) (N from : nat) (out : str) : Prop :=
  exists ws rest,
    line = ws ++ rest /\ forallb isSpaceTab ws = true /\
    indentWidth from ws <= N /\ out = rest /\
    (indentWidth from ws = N \/ rest = [] \/
     exists c r, rest = c :: r /\ isSpaceTab c = false).

(** A tab straddles column [N]. *)
Definition removeIndent_straddle (line : str) (N from : nat) (out : str) : Prop :=
  exists ws rest,
    line = ws ++ TAB :: rest /\ forallb isSpaceTab ws = true /\
    indentWidth from ws < N /\
    N < indentWidth from ws + (4 - indentWidth from ws mod 4) /\
    out = repeat SP (indentWidth from ws + (4 - indentWidth from ws mod 4) - N)
          ++ expandRestOfLine rest (indentWidth from ws + (4 - indentWidth from ws mod 4)) /\
    ~ In TAB out.

Inductive ListType := Bullet | Ordered.

(** ** types.ts: the block tree

    [I] is what a paragraph, heading or table cell carries: its raw content
    after the block phase, its inline children after the inline phase.  A list
    item is a block of its own kind, as in [BlockNode]. *)

Inductive TableAlignment := AlignLeft | AlignCenter | AlignRight.

Record TableCell (I : Type) := mkCell {
  cellAlign : option TableAlignment;
  cellIsHeader : bool;
  cellContent : I
}.

Record TableRow (I : Type) := mkRow {
  rowIsHeader : bool;
  rowCells : list (TableCell I)
}.

Inductive Block (I : Type) : Type :=
| Paragraph (content : I)
| Heading (level : nat) (content : I)
| ThematicBreak
| CodeBlock (info : str) (literal : str) (fenced : bool)
| Blockquote (children : list (Block I))
| ListBlock (listType : ListType) (start : Z) (tight : bool)
            (delimiter : option char) (bulletChar : option char)
            (items : list (Block I))
| ListItem (checked : option bool) (children : list (Block I))
| HtmlBlock (literal : str)
| Table (alignments : list (option TableAlignment)) (rows : list (TableRow I)).

Arguments Paragraph {I}.
Arguments Heading {I}.
Arguments ThematicBreak {I}.
Arguments CodeBlock {I}.
Arguments Blockquote {I}.
Arguments ListBlock {I}.
Arguments ListItem {I}.
Arguments HtmlBlock {I}.
Arguments Table {I}.
Arguments mkCell {I}.
Arguments mkRow {I}.
Arguments cellAlign {I}.
Arguments cellIsHeader {I}.
Arguments cellContent {I}.
Arguments rowIsHeader {I}.
Arguments rowCells {I}.

(** A block after the block phase: raw content still to be parsed. *)
Definition RawBlock := Block str.

(** ** types.ts: inline nodes

    A text node carries its [noDelim] and [noSmart] flags and the
    [delimiterOrigLength] that the inline parser attaches to it. *)
Inductive Inline : Type :=
| Text (literal : str) (noDelim noSmart : bool) (delimiterOrigLength : option nat)
| Softbreak
| Hardbreak
| CodeSpan (literal : str)
| Emphasis (children : list Inline)
| Strong (children : list Inline)
| Strikethrough (children : list Inline)
| FootnoteRef (label key : str)
| Link (destination title : str) (children : list Inline)
| Image (destination title alt : str)
| HtmlInline (literal : str).

(** [createTextNode(literal)] *)
Definition createTextNode (literal : str) : Inline := Text literal false false None.

(** A block after the inline phase. *)
Definition Document := list (Block (list Inline)).

(** ** What the sources take from the JavaScript runtime and from entities.ts

    Three things the parser uses are not code of the repository's files:
    [String.prototype.toLowerCase], the Unicode property test
    [/[\p{P}\p{S}]/u] and the table [HTML_ENTITIES] of entities.ts.  The
    embedding takes them as parameters.  The instances below are exact on
    Basic Latin and are used only to evaluate the code on ASCII inputs. *)

(** ASCII punctuation, [ASCII_PUNCTUATION_REGEX] of utils.ts. *)
Definition isAsciiPunctuation (c : char) : bool :=
  inRange 33 47 c || inRange 58 64 c || inRange 91 96 c || inRange 123 126 c.

(** Basic Latin instance of [toLowerCase]. *)
Definition basicLatinLower (s : str) : str :=
  map (fun c => if isUpper c then (c + 32)%Z else c) s.

(** Basic Latin instance of [/[\p{P}\p{S}]/u.test(c)]: every ASCII punctuation
    character is of category P or S, no other Basic Latin character is. *)
Definition basicLatinPunct (c : str) : bool :=
  match c with [d] => isAsciiPunctuation d | _ => false end.

(** The empty entity table. *)
Definition noEntities (name : str) : option str := None.

(** The entries of the entity table that [escapeXml] writes references to. *)
Definition xmlEntities (name : str) : option str :=
  if str_eqb name (js "amp") then Some [38%Z]
  else if str_eqb name (js "lt") then Some [60%Z]
  else if str_eqb name (js "gt") then Some [62%Z]
  else if str_eqb name (js "quot") then Some [34%Z]
  else None.

Section Runtime.

Variable toLowerCase : str -> str.
Variable isUnicodePunctuation : str -> bool.
Variable HTML_ENTITIES : str -> option str.

(** [parseInt(s, radix)] on a run of characters: the value of the longest
    prefix of digits of the radix, [None] (NaN) when that prefix is empty.
    The sources call it on regular-expression captures made of digits. *)
Definition digitValue (c : char) : option Z :=
  if isDigit c then Some (c - 48)%Z
  else if inRange 65 70 c then Some (c - 55)%Z
  else if inRange 97 102 c then Some (c - 87)%Z
  else None.

Fixpoint parseInt_acc (radix : Z) (acc : Z) (s : str) : Z :=
  match s with
  | [] => acc
  | c :: r =>
      match digitValue c with
      | Some d => if (d <? radix)%Z then parseInt_acc radix (acc * radix + d)%Z r else acc
      | None => acc
      end
  end.

Definition parseInt (s : str) (radix : Z) : option Z :=
  match s with
  | [] => None
  | c :: _ =>
      match digitValue c with
      | Some d => if (d <? radix)%Z then Some (parseInt_acc radix 0 s) else None
      | None => None
      end
  end.

(** [String.fromCodePoint(code)] for [0 <= code <= 0x10ffff], in UTF-16. *)
Definition fromCodePoint (code : Z) : str :=
  if (code <=? 65535)%Z then [code]
  else [(55296 + (code - 65536) / 1024)%Z; (56320 + (code - 65536) mod 1024)%Z].

Definition REPLACEMENT : char := 65533%Z.
Definition AMP : char := 38%Z.
Definition SEMI : char := 59%Z.
Definition HASH : char := 35%Z.
Definition BSLASH : char := 92%Z.

(** One match of the pattern of [decodeHtmlEntities] at the start of [s]:
    an ampersand, then either [#], an optional [x] or [X] and one or more of
    [0-9a-fA-F], or a letter and any number of [a-zA-Z0-9], then a semicolon.
    The result is the capture (between the ampersand and the semicolon). *)
Definition matchEntityRef (s : str) : option str :=
  match s with
  | c0 :: r0 =>
      if ceq c0 AMP then
        match r0 with
        | c1 :: r1 =>
            if ceq c1 HASH then
              let afterX :=
                match r1 with
                | x :: r2 => if ceq x 120 || ceq x 88 then Some (x, r2) else None
                | [] => None
                end in
              let plain :=
                let (ds, rest) := span isHexDigit r1 in
                match ds, rest with
                | _ :: _, t :: _ => if ceq t SEMI then Some (c1 :: ds) else None
                | _, _ => None
                end in
              match afterX with
              | Some (x, r2) =>
                  let (ds, rest) := span isHexDigit r2 in
                  match ds, rest with
                  | _ :: _, t :: _ => if ceq t SEMI then Some (c1 :: x :: ds) else plain
                  | _, _ => plain
                  end
              | None => plain
              end
            else if isAlpha c1 then
              let (nm, rest) := span isAlnum r1 in
              match rest with
              | t :: _ => if ceq t SEMI then Some (c1 :: nm) else None
              | [] => None
              end
            else None
        | [] => None
        end
      else None
  | [] => None
  end.

(** The replacement callback of [decodeHtmlEntities], given the capture. *)
Definition decodeCapture (capture : str) : str :=
  let matched := AMP :: capture ++ [SEMI] in
  if startsWith capture (js "#x") || startsWith capture (js "#X") then
    match parseInt (sliceFrom capture 2) 16 with
    | Some code =>
        if (0 <=? code)%Z && (code <=? 1114111)%Z then
          if (code =? 0)%Z then [REPLACEMENT] else fromCodePoint code
        else matched
    | None => matched
    end
  else if startsWith capture (js "#") then
    match parseInt (sliceFrom capture 1) 10 with
    | Some code =>
        if (0 <=? code)%Z && (code <=? 1114111)%Z then
          if (code =? 0)%Z then [REPLACEMENT] else fromCodePoint code
        else matched
    | None => matched
    end
  else
    match HTML_ENTITIES capture with
    | Some (v0 :: v) => v0 :: v
    | _ => matched
    end.

(** [decodeHtmlEntities(str)]: the global replace, left to right; [skip] counts
    the characters of the current match still to pass over. *)
Fixpoint decodeHtmlEntities_loop (skip : nat) (s : str) : str :=
  match s with
  | [] => []
  | c :: r =>
      match skip with
      | S k => decodeHtmlEntities_loop k r
      | O =>
          match matchEntityRef s with
          | Some capture => decodeCapture capture ++ decodeHtmlEntities_loop (S (length capture)) r
          | None => c :: decodeHtmlEntities_loop 0 r
          end
      end
  end.

Definition decodeHtmlEntities (s : str) : str := decodeHtmlEntities_loop 0 s.

(** [str.replace(/c/g, rep)] for a single character [c]. *)
Definition replaceChar (c : char) (rep : str) (s : str) : str :=
  flat_map (fun d => if ceq d c then rep else [d]) s.

(** [escapeXml]; [escapeHtml(str)] with its default [preserveEntities = false]. *)
Definition escapeXml (s : str) : str :=
  replaceChar 34 (js "&quot;")
    (replaceChar 62 (js "&gt;")
      (replaceChar 60 (js "&lt;")
        (replaceChar AMP (js "&amp;") s))).

Definition escapeHtml (s : str) : str := escapeXml s.

(** [unescapeString]: [str.replace(/\\([!-/:-@[-`{-~])/g, '$1')]. *)
Fixpoint unescapeString (s : str) : str :=
  match s with
  | [] => []
  | c :: r =>
      if ceq c BSLASH then
        match r with
        | d :: r' => if isAsciiPunctuation d then d :: unescapeString r'
                     else c :: unescapeString r
        | [] => [c]
        end
      else c :: unescapeString r
  end.

Definition isLabelSpace (c : char) : bool :=
  ceq c SP || ceq c TAB || ceq c CR || ceq c LF.

(** [s.replace(/[ \t\r\n]+/g, ' ')]; [inRun] holds inside a run already replaced. *)
Fixpoint collapseLabelSpace_from (inRun : bool) (s : str) : str :=
  match s with
  | [] => []
  | c :: r =>
      if isLabelSpace c then
        if inRun then collapseLabelSpace_from true r
        else SP :: collapseLabelSpace_from true r
      else c :: collapseLabelSpace_from false r
  end.
Definition collapseLabelSpace (s : str) : str := collapseLabelSpace_from false s.

(** [normalizeLabel]:
    [label.trim().replace(/[ \t\r\n]+/g, ' ').replace(/\u1e9e/g, 'ss').toLowerCase()] *)
Definition normalizeLabel (label : str) : str :=
  toLowerCase (replaceChar 7838 (js "ss") (collapseLabelSpace (trim label))).

(** ** inlines/entity.ts *)

(** [ENTITY_REGEX] at the start of [s]: an ampersand, then [#], [x] or [X] and
    1 to 6 of [0-9a-fA-F]; or [#] and 1 to 7 of [0-9]; or a letter and up to 31
    of [a-zA-Z0-9]; then a semicolon.  The result is the whole match. *)
Definition matchEntity (s : str) : option str :=
  match s with
  | c0 :: c1 :: r1 =>
      if ceq c0 AMP then
        if ceq c1 HASH then
          match r1 with
          | x :: r2 =>
              if ceq x 120 || ceq x 88 then
                let (ds, rest) := spanUpTo 6 isHexDigit r2 in
                match ds, rest with
                | _ :: _, t :: _ => if ceq t SEMI then Some (c0 :: c1 :: x :: ds ++ [t]) else None
                | _, _ => None
                end
              else
                let (ds, rest) := spanUpTo 7 isDigit r1 in
                match ds, rest with
                | _ :: _, t :: _ => if ceq t SEMI then Some (c0 :: c1 :: ds ++ [t]) else None
                | _, _ => None
                end
          | [] => None
          end
        else if isAlpha c1 then
          let (nm, rest) := spanUpTo 31 isAlnum r1 in
          match rest with
          | t :: _ => if ceq t SEMI then Some (c0 :: c1 :: nm ++ [t]) else None
          | [] => None
          end
        else None
      else None
  | _ => None
  end.

(** [parseEntity(text, pos)]: the decoded text and the length consumed. *)
Definition parseEntity (text : str) (pos : nat) : option (str * nat) :=
  if negb (charIs text pos AMP) then None
  else
    match matchEntity (sliceFrom text pos) with
    | None => None
    | Some entity =>
        let decoded := decodeHtmlEntities entity in
        if str_eqb decoded entity then None
        else Some (decoded, length entity)
    end.

(** Numeric character references as [ENTITY_REGEX] admits them: [&#ds;] with 1
    to 7 decimal digits, [&#xds;] or [&#Xds;] with 1 to 6 hexadecimal digits;
    named references [&name;]. *)
Definition decimalRef (ds : str) : str := AMP :: HASH :: ds ++ [SEMI].
Definition hexRef (x : char) (ds : str) : str := AMP :: HASH :: x :: ds ++ [SEMI].
Definition namedRef (c : char) (nm : str) : str := AMP :: c :: nm ++ [SEMI].

Definition isDecimalRef (ds : str) : Prop :=
  forallb isDigit ds = true /\ 1 <= length ds <= 7.
Definition isHexRef (x : char) (ds : str) : Prop :=
  (x = 120%Z \/ x = 88%Z) /\ forallb isHexDigit ds = true /\ 1 <= length ds <= 6.
Definition isNamedRef (c : char) (nm : str) : Prop :=
  isAlpha c = true /\ forallb isAlnum nm = true /\ length nm <= 31.

(** The code point a numeric reference denotes. *)
Definition decimalValue (ds : str) : Z := parseInt_acc 10 0 ds.
Definition hexValue (ds : str) : Z := parseInt_acc 16 0 ds.

(** A character reference found at position [pos] of [text], with the text of
    the reference and, for a numeric one, the code point it denotes. *)
Inductive NumericRefAt (text : str) (pos : nat) : str -> Z -> Prop :=
| DecimalRefAt : forall ds rest,
    sliceFrom text pos = decimalRef ds ++ rest -> isDecimalRef ds ->
    NumericRefAt text pos (decimalRef ds) (decimalValue ds)
| HexRefAt : forall x ds rest,
    sliceFrom text pos = hexRef x ds ++ rest -> isHexRef x ds ->
    NumericRefAt text pos (hexRef x ds) (hexValue ds).

Inductive UnknownNamedRefAt (text : str) (pos : nat) : str -> Prop :=
| UnknownRefAt : forall c nm rest,
    sliceFrom text pos = namedRef c nm ++ rest -> isNamedRef c nm ->
    HTML_ENTITIES (c :: nm) = None ->
    UnknownNamedRefAt text pos (namedRef c nm).

(** ** blocks/link-reference.ts *)

Definition LBRACKET : char := 91%Z.
Definition RBRACKET : char := 93%Z.
Definition LT : char := 60%Z.
Definition GT : char := 62%Z.
Definition COLON : char := 58%Z.
Definition DQUOTE : char := 34%Z.
Definition SQUOTE : char := 39%Z.
Definition LPAREN : char := 40%Z.
Definition RPAREN : char := 41%Z.

Record LinkReferenceDefinition := mkLinkRef {
  destination : str;
  title : str
}.

Record LinkRefResult := mkLinkRefResult {
  label : str;
  definition : LinkReferenceDefinition;
  consumed : nat
}.

(** The body of [LINK_LABEL_REGEX] after the opening bracket: at most [n] items,
    each a character other than a bracket or a backslash, or a backslash and a
    character that [.] matches; then the closing bracket.  The result is the
    captured label and the number of characters matched, bracket included. *)
Fixpoint matchLabelBody (n : nat) (s : str) : option (str * nat) :=
  match s with
  | [] => None
  | c :: r =>
      if ceq c RBRACKET then Some ([], 1)
      else if ceq c LBRACKET then None
      else if ceq c BSLASH then
        match r with
        | d :: r' =>
            if isDot d then
              match n with
              | O => None
              | S n' =>
                  match matchLabelBody n' r' with
                  | Some (l, k) => Some (c :: d :: l, S (S k))
                  | None => None
                  end
              end
            else None
        | [] => None
        end
      else
        match n with
        | O => None
        | S n' =>
            match matchLabelBody n' r with
            | Some (l, k) => Some (c :: l, S k)
            | None => None
            end
        end
  end.

(** [LINK_LABEL_REGEX]: the captured label and the length of the match. *)
Definition matchLinkLabel (s : str) : option (str * nat) :=
  match s with
  | c :: r =>
      if ceq c LBRACKET then
        match matchLabelBody 999 r with
        | Some (l, k) => Some (l, S k)
        | None => None
        end
      else None
  | [] => None
  end.

(** The body of [LINK_DESTINATION_ANGLE_REGEX] after [<]: items that are a
    character other than [<], [>], a line feed or a backslash, or a backslash
    and a character that [.] matches; then [>].  The result is the text
    between the angle brackets and the number of characters matched. *)
Fixpoint matchAngleBody (s : str) : option (str * nat) :=
  match s with
  | [] => None
  | c :: r =>
      if ceq c GT then Some ([], 1)
      else if ceq c LT || ceq c LF then None
      else if ceq c BSLASH then
        match r with
        | d :: r' =>
            if isDot d then
              match matchAngleBody r' with
              | Some (l, k) => Some (c :: d :: l, S (S k))
              | None => None
              end
            else None
        | [] => None
        end
      else
        match matchAngleBody r with
        | Some (l, k) => Some (c :: l, S k)
        | None => None
        end
  end.

(** [LINK_DESTINATION_ANGLE_REGEX]: [match[0].slice(1, -1)] and [match[0].length]. *)
Definition matchAngleDestination (s : str) : option (str * nat) :=
  match s with
  | c :: r =>
      if ceq c LT then
        match matchAngleBody r with
        | Some (l, k) => Some (l, S k)
        | None => None
        end
      else None
  | [] => None
  end.

(** [LINK_DESTINATION_BARE_REGEX].  Its character class (anything but white
    space, [<] and the square brackets) contains both parentheses, so the first
    greedy star takes the whole run of class characters and the parenthesised
    group and the last star match the empty string: the match is that run. *)
Definition isBareDestChar (c : char) : bool :=
  negb (isJsSpace c || ceq c LT || ceq c LBRACKET || ceq c RBRACKET).
Definition matchBareDestination (s : str) : str := fst (span isBareDestChar s).

(** The body of a title pattern after its opening delimiter: items that are a
    character for which [plain] holds, or a backslash and any character; then
    the closing delimiter [close]. *)
Fixpoint matchTitleBody (plain : char -> bool) (close : char) (s : str) : option (str * nat) :=
  match s with
  | [] => None
  | c :: r =>
      if plain c then
        match matchTitleBody plain close r with
        | Some (l, k) => Some (c :: l, S k)
        | None => None
        end
      else if ceq c BSLASH then
        match r with
        | d :: r' =>
            match matchTitleBody plain close r' with
            | Some (l, k) => Some (c :: d :: l, S (S k))
            | None => None
            end
        | [] => None
        end
      else if ceq c close then Some ([], 1)
      else None
  end.

Definition matchDelimited (open : char) (plain : char -> bool) (close : char) (s : str)
  : option (str * nat) :=
  match s with
  | c :: r =>
      if ceq c open then
        match matchTitleBody plain close r with
        | Some (l, k) => Some (l, S k)
        | None => None
        end
      else None
  | [] => None
  end.

(** [LINK_TITLE_DOUBLE_REGEX], [LINK_TITLE_SINGLE_REGEX], [LINK_TITLE_PAREN_REGEX]. *)
Definition matchTitleDouble : str -> option (str * nat) :=
  matchDelimited DQUOTE (fun c => negb (ceq c DQUOTE || ceq c BSLASH)) DQUOTE.
Definition matchTitleSingle : str -> option (str * nat) :=
  matchDelimited SQUOTE (fun c => negb (ceq c SQUOTE || ceq c BSLASH)) SQUOTE.
Definition matchTitleParen : str -> option (str * nat) :=
  matchDelimited LPAREN (fun c => negb (ceq c LPAREN || ceq c RPAREN || ceq c BSLASH)) RPAREN.

(** The pattern that wants only spaces and tabs up to a line feed or the end
    of the text: the length of the match. *)
Definition matchLineEnd (s : str) : option nat :=
  let (ws, rest) := span isSpaceTab s in
  match rest with
  | [] => Some (length ws)
  | c :: _ => if ceq c LF then Some (S (length ws)) else None
  end.

(** [tryMatchTitle(titlePos)] *)
Definition tryMatchTitle (text : str) (titlePos : nat) : option (str * nat) :=
  let remaining := sliceFrom text titlePos in
  let doubleMatch := matchTitleDouble remaining in
  let singleMatch := matchTitleSingle remaining in
  let parenMatch := matchTitleParen remaining in
  let titleMatch :=
    match doubleMatch with
    | Some m => Some m
    | None => match singleMatch with Some m => Some m | None => parenMatch end
    end in
  match titleMatch with
  | Some (t, len) =>
      let afterTitlePos := titlePos + len in
      match matchLineEnd (sliceFrom text afterTitlePos) with
      | Some k => Some (t, afterTitlePos + k)
      | None => None
      end
  | None => None
  end.

(** Spaces and tabs, an optional line feed, spaces and tabs: the length. *)
Definition matchBeforeDest (s : str) : nat :=
  let (ws1, r1) := span isSpaceTab s in
  match r1 with
  | c :: r2 =>
      if ceq c LF then length ws1 + 1 + length (fst (span isSpaceTab r2))
      else length ws1
  | [] => length ws1
  end.

(** Spaces and tabs, a line feed, spaces and tabs: the length of the match. *)
Definition matchNewlineBeforeTitle (s : str) : option nat :=
  let (ws1, r1) := span isSpaceTab s in
  match r1 with
  | c :: r2 =>
      if ceq c LF then Some (length ws1 + 1 + length (fst (span isSpaceTab r2)))
      else None
  | [] => None
  end.

Definition mkResult (rawLabel dest ttl : str) (pos : nat) : LinkRefResult :=
  mkLinkRefResult (normalizeLabel (unescapeString rawLabel))
    (mkLinkRef (decodeHtmlEntities (unescapeString dest))
               (decodeHtmlEntities (unescapeString ttl)))
    pos.

(** [parseLinkReferenceDefinition(text)] *)
Definition parseLinkReferenceDefinition (text : str) : option LinkRefResult :=
  let pos := length (fst (spanUpTo 3 (fun c => ceq c SP) text)) in
  match matchLinkLabel (sliceFrom text pos) with
  | None => None
  | Some (rawLabel, labelLen) =>
      if isBlank rawLabel then None
      else
        let pos := pos + labelLen in
        if negb (charIs text pos COLON) then None
        else
          let pos := pos + 1 in
          let pos := pos + matchBeforeDest (sliceFrom text pos) in
          let dest :=
            match matchAngleDestination (sliceFrom text pos) with
            | Some (d, len) => Some (d, pos + len)
            | None =>
                let bare := matchBareDestination (sliceFrom text pos) in
                match bare with
                | [] => None
                | _ :: _ => Some (bare, pos + length bare)
                end
            end in
          match dest with
          | None => None
          | Some (destination, pos) =>
              let viaSpace :=
                match span isSpaceTab (sliceFrom text pos) with
                | ((_ :: _) as ws, _) => tryMatchTitle text (pos + length ws)
                | ([], _) => None
                end in
              let found :=
                match viaSpace with
                | Some r => Some r
                | None =>
                    match matchNewlineBeforeTitle (sliceFrom text pos) with
                    | Some k => tryMatchTitle text (pos + k)
                    | None => None
                    end
                end in
              match found with
              | Some (ttl, endPos) => Some (mkResult rawLabel destination ttl endPos)
              | None =>
                  match matchLineEnd (sliceFrom text pos) with
                  | Some k => Some (mkResult rawLabel destination [] (pos + k))
                  | None => None
                  end
              end
          end
  end.

(** [isLinkReferenceStart] *)
Definition isLinkReferenceStart (line : str) : bool :=
  let (_, rest) := spanUpTo 3 (fun c => ceq c SP) line in
  match rest with c :: _ => ceq c LBRACKET | [] => false end.

(** ** blocks/thematic-break.ts, heading-setext.ts, heading-atx.ts *)

Definition DASH : char := 45%Z.
Definition STAR : char := 42%Z.
Definition UNDERSCORE : char := 95%Z.
Definition EQUALS : char := 61%Z.
Definition BACKTICK : char := 96%Z.
Definition TILDE : char := 126%Z.
Definition SLASH : char := 47%Z.
Definition BANG : char := 33%Z.
Definition QUESTION : char := 63%Z.
Definition PLUS : char := 43%Z.
Definition DOT : char := 46%Z.
Definition PIPE : char := 124%Z.
Definition CARET : char := 94%Z.

Definition isSP (c : char) : bool := ceq c SP.

(** What is left of a line after [/^ {0,3}/]. *)
Definition stripUpTo3Spaces (line : str) : str := snd (spanUpTo 3 isSP line).

Fixpoint countChar (c : char) (s : str) : nat :=
  match s with
  | [] => 0
  | d :: r => (if ceq d c then 1 else 0) + countChar c r
  end.

(** [THEMATIC_BREAK_REGEX]: up to 3 spaces, a marker [-], [*] or [_], then only
    spaces, tabs and the same marker, the marker at least twice more. *)
Definition isThematicBreak (line : str) : bool :=
  match stripUpTo3Spaces line with
  | c :: r =>
      (ceq c DASH || ceq c STAR || ceq c UNDERSCORE)
      && forallb (fun d => ceq d c || isSpaceTab d) r
      && (2 <=? countChar c r)
  | [] => false
  end.

(** What a line matches after its indentation when it is a run of [c], at least
    one, followed only by spaces and tabs. *)
Definition isRunThenBlank (c : char) (s : str) : bool :=
  let (run, rest) := span (fun d => ceq d c) s in
  match run with
  | [] => false
  | _ :: _ => forallb isSpaceTab rest
  end.

(** [/^ {0,3}-+[ \t]*$/] and [/^ {0,3}=+[ \t]*$/] of the block parsers. *)
Definition isSetextDashLine (line : str) : bool := isRunThenBlank DASH (stripUpTo3Spaces line).
Definition isSetextEqualsLine (line : str) : bool := isRunThenBlank EQUALS (stripUpTo3Spaces line).

(** [getSetextLevel]: [SETEXT_HEADING_REGEX] and the level of its first marker. *)
Definition getSetextLevel (line : str) : option nat :=
  if isSetextEqualsLine line then Some 1
  else if isSetextDashLine line then Some 2
  else None.

Definition isSetextHeadingUnderline (line : str) : bool :=
  match getSetextLevel line with Some _ => true | None => false end.

(** [content.replace(/[ \t]+#+[ \t]*$/, '')]: the leftmost match is the last
    run of [#] with the spaces and tabs around it, when that run ends the
    string (up to spaces and tabs) and has a space or tab before it. *)
Definition stripClosingHashes (content : str) : str :=
  let s1 := dropWhileEnd isSpaceTab content in
  let s2 := dropWhileEnd (fun c => ceq c HASH) s1 in
  let s3 := dropWhileEnd isSpaceTab s2 in
  if (length s2 <? length s1) && (length s3 <? length s2) then s3 else content.

(** [parseAtxHeading]: [ATX_HEADING_REGEX] is up to 3 spaces, 1 to 6 [#], then
    either nothing, or a space or tab followed by characters that [.] matches. *)
Definition parseAtxHeading (line : str) : option (nat * str) :=
  let (hashes, rest) := span (fun c => ceq c HASH) (stripUpTo3Spaces line) in
  let level := length hashes in
  if (1 <=? level) && (level <=? 6) then
    match rest with
    | [] => Some (level, [])
    | c :: r =>
        if isSpaceTab c && forallb isDot r then
          Some (level, trim (stripClosingHashes rest))
        else None
    end
  else None.

(** ** blocks/code-block-fenced.ts *)

Record FenceInfo := mkFence {
  fenceIndent : nat;
  fenceChar : char;
  fenceLength : nat;
  fenceInfoString : str
}.

(** [parseFenceOpen]: [BACKTICK_FENCE_OPEN_REGEX], else [TILDE_FENCE_OPEN_REGEX]. *)
Definition parseFenceOpen (line : str) : option FenceInfo :=
  let (ind, rest) := spanUpTo 3 isSP line in
  let (ticks, info) := span (fun c => ceq c BACKTICK) rest in
  if (3 <=? length ticks) && negb (memc BACKTICK info) then
    Some (mkFence (length ind) BACKTICK (length ticks) (trim info))
  else
    let (tildes, info) := span (fun c => ceq c TILDE) rest in
    if (3 <=? length tildes) && forallb isDot info then
      Some (mkFence (length ind) TILDE (length tildes) (trim info))
    else None.

(** [isFenceClose(line, fence)] *)
Definition isFenceClose (line : str) (fence : FenceInfo) : bool :=
  let trimmed := stripUpTo3Spaces line in
  let (run, rest) := span (fun c => ceq c (fenceChar fence)) trimmed in
  (fenceLength fence <=? length run) && forallb isSpaceTab rest.

(** ** blocks/html-block.ts *)

Definition asciiLower (c : char) : char := if isUpper c then (c + 32)%Z else c.

(** A literal of a regular expression with the [i] flag, at the start of [s]:
    without the [u] flag only ASCII letters fold onto ASCII letters. *)
Fixpoint startsWithCI (s p : str) {struct p} : bool :=
  match p, s with
  | [], _ => true
  | x :: p', y :: s' => ceq (asciiLower x) (asciiLower y) && startsWithCI s' p'
  | _ :: _, [] => false
  end.

Fixpoint includesCI (s p : str) : bool :=
  startsWithCI s p || match s with [] => false | _ :: s' => includesCI s' p end.

Definition TYPE_6_TAGS : list str :=
  map js ["address"; "article"; "aside"; "base"; "basefont"; "blockquote"; "body";
          "caption"; "center"; "col"; "colgroup"; "dd"; "details"; "dialog"; "dir";
          "div"; "dl"; "dt"; "fieldset"; "figcaption"; "figure"; "footer"; "form";
          "frame"; "frameset"; "h1"; "h2"; "h3"; "h4"; "h5"; "h6"; "head"; "header";
          "hr"; "html"; "iframe"; "legend"; "li"; "link"; "main"; "menu"; "menuitem";
          "nav"; "noframes"; "ol"; "optgroup"; "option"; "p"; "param"; "search";
          "section"; "summary"; "table"; "tbody"; "td"; "tfoot"; "th"; "thead";
          "title"; "tr"; "track"; "ul"]%string.

Definition isTagNameChar (c : char) : bool := isAlnum c || ceq c DASH.

(** [TYPE_1_OPEN_REGEX]: one of the four names after [<], then white space,
    [>] or the end of the line. *)
Definition type1Open (s : str) : bool :=
  existsb (fun name =>
    startsWithCI s (LT :: name) &&
    match sliceFrom s (S (length name)) with
    | [] => true
    | c :: _ => isJsSpace c || ceq c GT
    end) (map js ["pre"; "script"; "style"; "textarea"]%string).

(** [TYPE_6_OPEN_REGEX]: the tag name it captures. *)
Definition type6Open (s : str) : option str :=
  match s with
  | c :: r =>
      if ceq c LT then
        let r := match r with d :: r' => if ceq d SLASH then r' else r | [] => r end in
        match r with
        | a :: r1 =>
            if isAlpha a then
              let (nm, rest) := span isTagNameChar r1 in
              match rest with
              | [] => Some (a :: nm)
              | t :: rest' =>
                  if isJsSpace t || ceq t GT || (ceq t SLASH && startsWith rest' [GT])
                  then Some (a :: nm) else None
              end
            else None
        | [] => None
        end
      else None
  | [] => None
  end.

Definition isAttrNameStart (c : char) : bool := isAlpha c || ceq c UNDERSCORE || ceq c COLON.
Definition isAttrNameChar (c : char) : bool :=
  isAlnum c || ceq c UNDERSCORE || ceq c DOT || ceq c COLON || ceq c DASH.
Definition isUnquotedValueChar (c : char) : bool :=
  negb (isJsSpace c || ceq c DQUOTE || ceq c SQUOTE || ceq c EQUALS || ceq c LT
        || ceq c GT || ceq c BACKTICK).

(** An attribute value: unquoted, single-quoted or double-quoted; what follows it. *)
Definition matchAttrValue (s : str) : option str :=
  match s with
  | c :: r =>
      if isUnquotedValueChar c then Some (snd (span isUnquotedValueChar s))
      else if ceq c SQUOTE then
        match span (fun d => negb (ceq d SQUOTE)) r with
        | (_, _ :: rest) => Some rest
        | (_, []) => None
        end
      else if ceq c DQUOTE then
        match span (fun d => negb (ceq d DQUOTE)) r with
        | (_, _ :: rest) => Some rest
        | (_, []) => None
        end
      else None
  | [] => None
  end.

(** The optional value specification after an attribute name: white space, [=],
    white space and a value.  When it does not match, nothing is consumed. *)
Definition matchAttrValueSpec (s : str) : str :=
  match dropWhile isJsSpace s with
  | c :: r =>
      if ceq c EQUALS then
        match matchAttrValue (dropWhile isJsSpace r) with
        | Some rest => rest
        | None => s
        end
      else s
  | [] => s
  end.

(** The attributes of an open tag, each white space, a name and an optional
    value specification; what follows the last one.  [fuel] bounds the number
    of attributes by the length of the text. *)
Fixpoint matchAttributes (fuel : nat) (s : str) : str :=
  match fuel with
  | O => s
  | S fuel' =>
      match s with
      | c :: _ =>
          if isJsSpace c then
            match dropWhile isJsSpace s with
            | a :: r =>
                if isAttrNameStart a then
                  matchAttributes fuel' (matchAttrValueSpec (snd (span isAttrNameChar r)))
                else s
            | [] => s
            end
          else s
      | [] => s
      end
  end.

(** The open-tag pattern shared by [TYPE_7_OPEN_TAG_REGEX] and the inline
    parser: [<], a tag name, attributes, white space, an optional [/] and [>].
    The result is what follows the [>]. *)
Definition matchOpenTag (s : str) : option str :=
  match s with
  | c :: a :: r =>
      if ceq c LT && isAlpha a then
        let afterName := snd (span isTagNameChar r) in
        let afterAttrs := matchAttributes (length afterName) afterName in
        match dropWhile isJsSpace afterAttrs with
        | t :: rest =>
            if ceq t GT then Some rest
            else if ceq t SLASH then
              match rest with
              | g :: rest' => if ceq g GT then Some rest' else None
              | [] => None
              end
            else None
        | [] => None
        end
      else None
  | _ => None
  end.

(** The closing-tag pattern: [</], a tag name, white space and [>]. *)
Definition matchCloseTag (s : str) : option str :=
  match s with
  | c :: d :: a :: r =>
      if ceq c LT && ceq d SLASH && isAlpha a then
        match dropWhile isJsSpace (snd (span isTagNameChar r)) with
        | t :: rest => if ceq t GT then Some rest else None
        | [] => None
        end
      else None
  | _ => None
  end.

(** [getHtmlBlockType(line, canInterruptParagraph)] *)
Definition getHtmlBlockType (line : str) (canInterruptParagraph : bool) : option nat :=
  let trimmed := stripUpTo3Spaces line in
  if type1Open trimmed then Some 1
  else if startsWith trimmed (js "<!--") then Some 2
  else if startsWith trimmed (js "<?") then Some 3
  else if startsWith trimmed (js "<!") && match sliceFrom trimmed 2 with
                                          | c :: _ => isAlpha c | [] => false end then Some 4
  else if startsWithCI trimmed (js "<![CDATA[") then Some 5
  else
    let t6 := match type6Open trimmed with
              | Some nm => existsb (str_eqb (toLowerCase nm)) TYPE_6_TAGS
              | None => false
              end in
    if t6 then Some 6
    else if canInterruptParagraph then
      let t7open := match matchOpenTag trimmed with Some rest => isBlank rest | None => false end in
      let t7close := match matchCloseTag trimmed with Some rest => isBlank rest | None => false end in
      if t7open || t7close then Some 7 else None
    else None.

(** [isHtmlBlockClose(line, type)] *)
Definition isHtmlBlockClose (line : str) (type : option nat) : bool :=
  match type with
  | Some 1 => existsb (fun name => includesCI line (LT :: SLASH :: name ++ [GT]))
                (map js ["pre"; "script"; "style"; "textarea"]%string)
  | Some 2 => includes line (js "-->")
  | Some 3 => includes line (js "?>")
  | Some 4 => includes line (js ">")
  | Some 5 => includes line (js "]]>")
  | Some 6 | Some 7 => isBlank line
  | _ => false
  end.

(** ** blocks/list.ts *)

Record ListMarker := mkMarker {
  mType : ListType;
  mIndent : nat;
  mIndentChars : nat;
  mMarker : str;
  mBulletChar : option char;
  mStart : option Z;
  mDelimiter : option char;
  mPadding : nat;
  mPaddingChars : nat;
  mContentIndent : nat;
  mContentCharIndex : nat
}.

(** The last group of both list patterns: one or more spaces, or one tab, or
    the end of the line (the empty string). *)
Definition matchSpacesAfter (s : str) : option str :=
  match s with
  | [] => Some []
  | c :: _ =>
      if ceq c SP then Some (fst (span isSP s))
      else if ceq c TAB then Some [TAB]
      else None
  end.

(** The marker fields computed alike for both kinds of list. *)
Definition buildMarker (type : ListType) (indentChars : nat) (marker : str)
    (bulletChar : option char) (start : option Z) (delimiter : option char)
    (spacesAfter : str) : ListMarker :=
  let indent := indentChars in
  let columnAfterMarker := indent + length marker in
  let padding :=
    if str_eqb spacesAfter [TAB] then 4 - columnAfterMarker mod 4
    else if str_eqb spacesAfter [] then 1
    else length spacesAfter in
  let '(paddingToConsume, paddingChars) :=
    if str_eqb spacesAfter [TAB] then (1, 1)
    else if 5 <=? padding then (1, 1)
    else (padding, length spacesAfter) in
  mkMarker type indent indentChars marker bulletChar start delimiter
    (Nat.min paddingToConsume 4) paddingChars
    (indent + length marker + paddingToConsume)
    (indentChars + length marker + paddingChars).

(** [parseListMarker]: [BULLET_LIST_REGEX], else [ORDERED_LIST_REGEX]. *)
Definition parseListMarker (line : str) : option ListMarker :=
  let (ind, rest) := spanUpTo 3 isSP line in
  let bullet :=
    match rest with
    | c :: r =>
        if ceq c DASH || ceq c PLUS || ceq c STAR then
          match matchSpacesAfter r with
          | Some spacesAfter =>
              Some (buildMarker Bullet (length ind) [c] (Some c) None None spacesAfter)
          | None => None
          end
        else None
    | [] => None
    end in
  match bullet with
  | Some m => Some m
  | None =>
      let (digits, r1) := span isDigit rest in
      if (1 <=? length digits) && (length digits <=? 9) then
        match r1 with
        | d :: r2 =>
            if ceq d DOT || ceq d RPAREN then
              match matchSpacesAfter r2 with
              | Some spacesAfter =>
                  Some (buildMarker Ordered (length ind) (digits ++ [d]) None
                          (parseInt digits 10) (Some d) spacesAfter)
              | None => None
              end
            else None
        | [] => None
        end
      else None
  end.

Definition optc_eqb (a b : option char) : bool :=
  match a, b with
  | Some x, Some y => ceq x y
  | None, None => true
  | _, _ => false
  end.

(** [listsMatch] *)
Definition listsMatch (a b : ListMarker) : bool :=
  match mType a, mType b with
  | Bullet, Bullet => optc_eqb (mBulletChar a) (mBulletChar b)
  | Ordered, Ordered => optc_eqb (mDelimiter a) (mDelimiter b)
  | _, _ => false
  end.

(** [createListNode(marker)]; the items are added by [parseList]. *)
Definition createListNode (marker : ListMarker) (tight : bool) (items : list RawBlock) : RawBlock :=
  ListBlock (mType marker)
    (match mStart marker with Some n => n | None => 1%Z end)
    tight (mDelimiter marker) (mBulletChar marker) items.

(** [createFencedCodeBlock(info, lines, indent)] *)
Definition createFencedCodeBlock (info : str) (lines : list str) (indent : nat) : RawBlock :=
  let content := joinLF (map (fun line => snd (spanUpTo indent isSP line)) lines) in
  let hasContent :=
    match lines with
    | [] => false
    | [l] => negb (str_eqb l [])
    | _ :: _ :: _ => true
    end in
  CodeBlock info (if hasContent then content ++ [LF] else []) true.

(** [createIndentedCodeBlock(lines)] *)
Definition createIndentedCodeBlock (lines : list str) : RawBlock :=
  CodeBlock [] (joinLF lines ++ [LF]) false.

(** ** The link-reference side table: a [Map] from label to definition, in
    insertion order. *)

Definition RefMap := list (str * LinkReferenceDefinition).

Fixpoint refHas (m : RefMap) (k : str) : bool :=
  match m with
  | [] => false
  | (k', _) :: r => str_eqb k' k || refHas r k
  end.

Fixpoint refGet (m : RefMap) (k : str) : option LinkReferenceDefinition :=
  match m with
  | [] => None
  | (k', v) :: r => if str_eqb k' k then Some v else refGet r k
  end.

(** [if (!map.has(k)) map.set(k, v)] *)
Definition refAdd (m : RefMap) (k : str) (v : LinkReferenceDefinition) : RefMap :=
  if refHas m k then m else m ++ [(k, v)].

(** [child.forEach((def, label) => { if (!map.has(label)) map.set(label, def) })] *)
Definition refMerge (m child : RefMap) : RefMap :=
  fold_left (fun acc kv => refAdd acc (fst kv) (snd kv)) child m.

(** ** block-parser.ts: the helpers both block parsers define alike

    [BlockParser] (block-parser.ts) and [GFMBlockParser] (gfm/block-parser.ts)
    hold word-for-word copies of the private methods below; they are embedded
    once.  A parser's [lines] are a list and [lineIndex] a position in it; a
    loop that reads lines one by one runs over [lines.slice(lineIndex)] and
    returns how many lines it has passed. *)

Definition LAZY_PREFIX : char := NUL.

(** [blockquote prefix pattern]: up to 3 spaces and [>]; the result is what
    follows the [>], and the optional space or tab the pattern captures. *)
Definition matchBlockquote (line : str) : option (nat * option char * str) :=
  let (ind, rest) := spanUpTo 3 isSP line in
  match rest with
  | c :: r =>
      if ceq c GT then
        match r with
        | d :: r' => if isSpaceTab d then Some (length ind, Some d, r')
                     else Some (length ind, None, r)
        | [] => Some (length ind, None, [])
        end
      else None
  | [] => None
  end.

(** [/^ {0,3}>/.test(line)] *)
Definition isBlockquoteStart (line : str) : bool :=
  match matchBlockquote line with Some _ => true | None => false end.

(** [extractBlockquoteContent(line, match)] *)
Definition extractBlockquoteContent (line : str) : str :=
  match matchBlockquote line with
  | None => []
  | Some (indent, optionalSpace, rest) =>
      let column := indent + 1 in
      match optionalSpace with
      | Some d =>
          if ceq d TAB then
            let tabWidth := 4 - column mod 4 in
            let remaining := tabWidth - 1 in
            repeat SP remaining ++ expandRestOfLine rest (column + tabWidth)
          else expandRestOfLine rest (column + 1)
      | None => expandRestOfLine rest column
      end
  end.

(** [extractListItemContent(line, marker)] *)
Definition extractListItemContent (line : str) (marker : ListMarker) : str :=
  let charIndex := Nat.min (length line) (mIndentChars marker) in
  let column := indentWidth 0 (firstn charIndex line) in
  let charIndex := charIndex + length (mMarker marker) in
  let column := column + length (mMarker marker) in
  let '(result, charIndex, column) :=
    if (charIndex <? length line) && (0 <? mPaddingChars marker) then
      if charIs line charIndex TAB then
        let tabWidth := 4 - column mod 4 in
        let consumed := Nat.min tabWidth (mPadding marker) in
        let remaining := tabWidth - consumed in
        (repeat SP remaining, charIndex + mPaddingChars marker, column + consumed + remaining)
      else ([], charIndex + mPaddingChars marker, column + mPadding marker)
    else ([], charIndex, column) in
  result ++ expandRestOfLine (sliceFrom line charIndex) column.

(** [getBlockquotePrefix(line)]: the leading groups of up to 3 spaces, [>] and
    an optional space or tab.  Every group holds a [>], so [fuel], the length
    of the line, is never exhausted. *)
Fixpoint getBlockquotePrefix_loop (fuel : nat) (line : str) : str :=
  match fuel with
  | O => []
  | S fuel' =>
      let (ind, rest) := spanUpTo 3 isSP line in
      match rest with
      | c :: r =>
          if ceq c GT then
            match r with
            | d :: r' =>
                if isSpaceTab d then ind ++ [c; d] ++ getBlockquotePrefix_loop fuel' r'
                else ind ++ [c] ++ getBlockquotePrefix_loop fuel' r
            | [] => ind ++ [c]
            end
          else []
      | [] => []
      end
  end.
Definition getBlockquotePrefix (line : str) : str :=
  getBlockquotePrefix_loop (length line) line.

(** [allowsLazyAfterListMarker(line)] *)
Definition allowsLazyAfterListMarker (line : str) : bool :=
  match parseListMarker line with
  | None => true
  | Some marker =>
      match dropWhile isSpaceTab (sliceFrom line (mContentCharIndex marker)) with
      | c :: _ => ceq c GT
      | [] => false
      end
  end.

(** [lastNonBlankLine(lines)] *)
Definition lastNonBlankLine (lines : list str) : option str :=
  find (fun l => negb (isBlank l)) (rev lines).

(** The loop of [finishParagraph] (and of the setext and table branches) that
    strips leading link reference definitions off [text] and stores them.
    A definition consumes at least its label, so [fuel], the length of the
    text, is never exhausted. *)
Fixpoint extractLinkRefs (fuel : nat) (text : str) (refs : RefMap) : str * RefMap :=
  match fuel with
  | O => (text, refs)
  | S fuel' =>
      match text with
      | [] => (text, refs)
      | _ :: _ =>
          match parseLinkReferenceDefinition text with
          | None => (text, refs)
          | Some result =>
              extractLinkRefs fuel' (sliceFrom text (consumed result))
                (refAdd refs (label result) (definition result))
          end
      end
  end.

Definition stripLinkRefs (paragraphLines : list str) (refs : RefMap) : str * RefMap :=
  let text := joinLF paragraphLines in
  let (text, refs) := extractLinkRefs (length text) text refs in
  (trim text, refs).

(** The loop of the fenced-code branch over the lines after the opening fence:
    the code lines, the number of lines passed, and whether a closing fence was
    found. *)
Fixpoint fenceLoop (fence : FenceInfo) (rest : list str) : list str * nat * bool :=
  match rest with
  | [] => ([], 0, false)
  | codeLine :: rest' =>
      if isFenceClose codeLine fence then ([], 1, true)
      else
        let '(codeLines, n, closed) := fenceLoop fence rest' in
        (codeLine :: codeLines, S n, closed)
  end.

(** [while (lines.length > 0 && lines[lines.length - 1] === '') lines.pop()] *)
Fixpoint dropLeadingEmpty (l : list str) : list str :=
  match l with
  | [] => []
  | a :: r => if str_eqb a [] then dropLeadingEmpty r else l
  end.
Definition popTrailingEmpty (lines : list str) : list str :=
  rev (dropLeadingEmpty (rev lines)).

(** The loop of the indented-code branch over the lines after the first:
    the code lines and the number of lines passed. *)
Fixpoint indentedCodeLoop (rest : list str) : list str * nat :=
  match rest with
  | [] => ([], 0)
  | codeLine :: rest' =>
      if 4 <=? getIndent codeLine then
        let (codeLines, n) := indentedCodeLoop rest' in
        (removeIndent codeLine 4 :: codeLines, S n)
      else if isBlank codeLine then
        let (codeLines, n) := indentedCodeLoop rest' in
        ([] :: codeLines, S n)
      else ([], 0)
  end.

(** The loop of the HTML-block branch over the lines after the first. *)
Fixpoint htmlLoop (htmlType : option nat) (rest : list str) : list str * nat :=
  match rest with
  | [] => ([], 0)
  | htmlLine :: rest' =>
      match htmlType with
      | Some 6 | Some 7 =>
          if isBlank htmlLine then ([], 0)
          else let (ls, n) := htmlLoop htmlType rest' in (htmlLine :: ls, S n)
      | _ =>
          if isHtmlBlockClose htmlLine htmlType then ([htmlLine], 1)
          else let (ls, n) := htmlLoop htmlType rest' in (htmlLine :: ls, S n)
      end
  end.

(** The loop of the blockquote branch: the quoted lines collected so far, the
    open fence inside the quote, the lines still to read.  The result is the
    quoted lines and the number of lines passed. *)
Fixpoint quoteLoop (quoteLines : list str) (inFence : option FenceInfo) (rest : list str)
  : list str * nat :=
  match rest with
  | [] => (quoteLines, 0)
  | quoteLine :: rest' =>
      if isBlockquoteStart quoteLine then
        let content := extractBlockquoteContent quoteLine in
        let inFence' :=
          match inFence with
          | Some f => if isFenceClose content f then None else inFence
          | None => parseFenceOpen content
          end in
        let (ql, n) := quoteLoop (quoteLines ++ [content]) inFence' rest' in
        (ql, S n)
      else if isBlank quoteLine then (quoteLines, 0)
      else
        match quoteLines with
        | [] => (quoteLines, 0)
        | _ :: _ =>
            match inFence with
            | Some _ => (quoteLines, 0)
            | None =>
                if isThematicBreak quoteLine
                   || match parseFenceOpen quoteLine with Some _ => true | None => false end
                then (quoteLines, 0)
                else if isBlank (last quoteLines [])
                then (quoteLines, 0)
                else
                  match lastNonBlankLine quoteLines with
                  | Some lastContent =>
                      if match parseFenceOpen lastContent with Some _ => false | None => true end
                         && (getIndent lastContent <? 4)
                         && allowsLazyAfterListMarker lastContent
                      then
                        let nestedPrefix := getBlockquotePrefix lastContent in
                        let (ql, n) :=
                          quoteLoop (quoteLines ++ [nestedPrefix ++ [LAZY_PREFIX] ++ quoteLine])
                            inFence rest' in
                        (ql, S n)
                      else (quoteLines, 0)
                  | None => (quoteLines, 0)
                  end
            end
        end
  end.

(** The local variables of [parseListItem]. *)
Record ItemState := mkItemState {
  itemLines : list str;
  sawBlankLine : bool;
  blankLineInItem : bool;
  trailingBlanks : nat;
  lastNonBlankIndent : option nat;
  lastNonBlankWasListMarker : bool;
  sawNonBlankContent : bool;
  inFence : option FenceInfo
}.

Definition isSomeb {A : Type} (o : option A) : bool :=
  match o with Some _ => true | None => false end.

(** The loop of [parseListItem] over the lines after the first; the result is
    the final state and the number of lines passed. *)
Fixpoint itemLoop (marker : ListMarker) (st : ItemState) (rest : list str)
  : ItemState * nat :=
  match rest with
  | [] => (st, 0)
  | line0 :: rest' =>
      let lazyLine := startsWith line0 [LAZY_PREFIX] in
      let line := if lazyLine then sliceFrom line0 1 else line0 in
      let lineIndent := getIndent line in
      let contentIndent := mContentIndent marker in
      let baseThreshold := contentIndent + 1 in
      let continue (st' : ItemState) :=
        let (s, n) := itemLoop marker st' rest' in (s, S n) in
      match inFence st with
      | Some fence =>
          let contentLine :=
            if contentIndent <=? lineIndent then removeIndent line contentIndent else line in
          continue
            (mkItemState (itemLines st ++ [contentLine]) (sawBlankLine st)
               (blankLineInItem st) (trailingBlanks st) (lastNonBlankIndent st)
               (lastNonBlankWasListMarker st) (sawNonBlankContent st)
               (if isFenceClose contentLine fence then None else Some fence))
      | None =>
          if isBlank line then
            continue
              (mkItemState (itemLines st ++ [[]]) true (blankLineInItem st)
                 (S (trailingBlanks st)) (lastNonBlankIndent st)
                 (lastNonBlankWasListMarker st) (sawNonBlankContent st) None)
          else
            let newMarker := if lazyLine then None else parseListMarker line in
            if match newMarker with
               | Some nm => listsMatch marker nm && (mIndent nm <? contentIndent)
               | None => false
               end
            then (st, 0)
            else if negb (sawNonBlankContent st) && sawBlankLine st
                    && (contentIndent <=? lineIndent)
            then (st, 0)
            else if contentIndent <=? lineIndent then
              let contentLine := removeIndent line contentIndent in
              let isListMarker := isSomeb (parseListMarker contentLine) in
              let blank' :=
                if sawBlankLine st
                   && ((lineIndent <=? baseThreshold)
                       || match lastNonBlankIndent st with
                          | Some l => (l <=? baseThreshold) && negb (lastNonBlankWasListMarker st)
                          | None => false
                          end)
                then true else blankLineInItem st in
              continue
                (mkItemState (itemLines st ++ [contentLine]) false blank' 0
                   (Some lineIndent) isListMarker true (parseFenceOpen contentLine))
            else if sawBlankLine st then (st, 0)
            else if negb (isThematicBreak line) && negb (isSomeb (parseAtxHeading line))
                    && negb (isSomeb (parseFenceOpen line)) && negb (isBlockquoteStart line)
                    && negb (isSomeb newMarker)
            then
              continue
                (mkItemState (itemLines st ++ [line]) (sawBlankLine st) (blankLineInItem st)
                   0 (Some lineIndent) false true None)
            else (st, 0)
      end
  end.

(** [parseListItem] up to the recursive parse: the item's lines with the
    trailing empty ones removed, the number of lines passed (the marker's line
    included), [blankLineInItem] and [endsWithBlank].  [rest] starts at the
    marker's line. *)
Definition collectListItem (marker : ListMarker) (rest : list str)
  : list str * nat * bool * bool :=
  match rest with
  | [] => ([], 0, false, false)
  | firstLine0 :: rest' =>
      let firstLine :=
        if startsWith firstLine0 [LAZY_PREFIX] then sliceFrom firstLine0 1 else firstLine0 in
      let firstContent := extractListItemContent firstLine marker in
      let first :=
        if isBlank firstContent
           && match sliceFrom firstLine (mIndentChars marker + length (mMarker marker)) with
              | c :: _ => isSpaceTab c
              | [] => false
              end
        then [] else firstContent in
      let nonBlank := negb (isBlank firstContent) in
      let st0 :=
        mkItemState [first] false false 0
          (if nonBlank then Some (mContentIndent marker) else None)
          (if nonBlank then isSomeb (parseListMarker firstContent) else false)
          nonBlank
          (if nonBlank then parseFenceOpen firstContent else None) in
      let (st, n) := itemLoop marker st0 rest' in
      (popTrailingEmpty (itemLines st), S n, blankLineInItem st, 0 <? trailingBlanks st)
  end.

Definition isParagraph {I : Type} (b : Block I) : bool :=
  match b with Paragraph _ => true | _ => false end.

Fixpoint dropBlankLines (l : list str) : list str :=
  match l with
  | [] => []
  | a :: r => if isBlank a then dropBlankLines r else l
  end.

(** The blank-line branch of [parseList]: after passing one blank line, [true]
    when the list goes on.  [rest] are the lines after that blank line. *)
Definition listContinuesAfterBlank (firstMarker : ListMarker) (rest : list str) : bool :=
  match dropBlankLines rest with
  | nextLine :: _ =>
      match parseListMarker nextLine with
      | Some nextMarker =>
          if listsMatch firstMarker nextMarker then true
          else negb (getIndent nextLine <? mContentIndent firstMarker)
      | None => negb (getIndent nextLine <? mContentIndent firstMarker)
      end
  | [] => false
  end.

(** [parseList(list, firstMarker)], for either parser: [T] is the type of the
    parser's side tables and [parseListItem] its own method, which returns the
    item, the new [lineIndex], the tables, [blankInItem] and [endsWithBlank].
    Every turn of the loop passes at least one line; [fuel] bounds the turns
    and [None] is returned when it runs out or when an item cannot be parsed. *)
Section ParseList.

Variable T : Type.
Variable parseListItem :
  nat -> ListMarker -> T -> option (RawBlock * nat * T * bool * bool).
Variable lines : list str.
Variable firstMarker : ListMarker.

Fixpoint parseList_loop (fuel : nat) (lineIndex : nat) (tables : T) (items : list RawBlock)
    (sawBlankLine sawBlankLineInItem sawBlankBetweenItems : bool)
  : option (list RawBlock * nat * T * bool) :=
  let done (idx : nat) :=
    Some (items, idx, tables, negb (sawBlankLineInItem || sawBlankBetweenItems)) in
  match fuel with
  | O => None
  | S fuel' =>
      match linesFrom lines lineIndex with
      | [] => done lineIndex
      | line :: rest =>
          if isThematicBreak line then done lineIndex
          else
            let matching :=
              match parseListMarker line with
              | Some marker => if listsMatch firstMarker marker then Some marker else None
              | None => None
              end in
            match matching with
            | Some marker =>
                match parseListItem lineIndex marker tables with
                | None => None
                | Some (item, lineIndex', tables', blankInItem, endsWithBlank) =>
                    parseList_loop fuel' lineIndex' tables' (items ++ [item])
                      endsWithBlank (sawBlankLineInItem || blankInItem)
                      (sawBlankBetweenItems || sawBlankLine)
                end
            | None =>
                if isBlank line then
                  if listContinuesAfterBlank firstMarker rest then
                    parseList_loop fuel' (S lineIndex) tables items
                      true sawBlankLineInItem sawBlankBetweenItems
                  else done (S lineIndex)
                else done lineIndex
            end
      end
  end.

Definition parseList (lineIndex : nat) (tables : T)
  : option (RawBlock * nat * T) :=
  match parseList_loop (S (length lines - lineIndex)) lineIndex tables [] false false false with
  | Some (items, idx, tables', tight) =>
      Some (createListNode firstMarker tight items, idx, tables')
  | None => None
  end.

End ParseList.

(** [canInterrupt] of the list branch of [parseBlocks]. *)
Definition listCanInterrupt (paragraphLines : list str) (line : str) (listMarker : ListMarker)
  : bool :=
  match paragraphLines with
  | [] => true
  | _ :: _ =>
      (match mType listMarker with
       | Bullet => true
       | Ordered => match mStart listMarker with Some 1%Z => true | _ => false end
       end)
      && negb (isBlank (sliceFrom line
                 (mIndent listMarker + length (mMarker listMarker) + mPadding listMarker)))
  end.

(** ** block-parser.ts: [BlockParser] *)

(** The state of [parseBlocks]: the parser's [lineIndex] and [linkReferences],
    the local [paragraphLines] and the container's children. *)
Record PState := mkPState {
  lineIndex : nat;
  paragraphLines : list str;
  children : list RawBlock;
  linkReferences : RefMap
}.

Definition advanceBy (n : nat) (st : PState) : PState :=
  mkPState (lineIndex st + n) (paragraphLines st) (children st) (linkReferences st).
Definition pushChild (b : RawBlock) (st : PState) : PState :=
  mkPState (lineIndex st) (paragraphLines st) (children st ++ [b]) (linkReferences st).
Definition setParagraphLines (l : list str) (st : PState) : PState :=
  mkPState (lineIndex st) l (children st) (linkReferences st).
Definition setLinkReferences (r : RefMap) (st : PState) : PState :=
  mkPState (lineIndex st) (paragraphLines st) (children st) r.

(** [finishParagraph()] *)
Definition finishParagraph (st : PState) : PState :=
  match paragraphLines st with
  | [] => st
  | _ :: _ =>
      let (text, refs) := stripLinkRefs (paragraphLines st) (linkReferences st) in
      let st := setLinkReferences refs st in
      let st := match text with
                | [] => st
                | _ :: _ => pushChild (Paragraph text) st
                end in
      setParagraphLines [] st
  end.

(** The setext branches: the buffered lines become a heading of [level] when
    something is left of them after the link reference definitions; otherwise
    [fallback] says what the branch does. *)
Definition setextHeading (level : nat) (fallback : PState -> PState) (st : PState) : PState :=
  let (content, refs) := stripLinkRefs (paragraphLines st) (linkReferences st) in
  let st := setParagraphLines [] (setLinkReferences refs st) in
  match content with
  | _ :: _ => pushChild (Heading level content) st
  | [] => fallback st
  end.

Section BlockParser.

(** The recursive [new BlockParser().parse(...)] on nested content. *)
Variable subParse : str -> option (list RawBlock * RefMap).
Variable lines : list str.

(** [parseListItem(item, marker)] *)
Definition parseListItem (lineIndex : nat) (marker : ListMarker) (refs : RefMap)
  : option (RawBlock * nat * RefMap * bool * bool) :=
  let '(itemLines, n, blankInItem, endsWithBlank) :=
    collectListItem marker (linesFrom lines lineIndex) in
  match subParse (joinLF itemLines) with
  | None => None
  | Some (itemChildren, childRefs) =>
      let paragraphCount := length (filter isParagraph itemChildren) in
      Some (ListItem None itemChildren, lineIndex + n, refMerge refs childRefs,
            blankInItem || (2 <=? paragraphCount), endsWithBlank)
  end.

(** One turn of the [while] loop of [parseBlocks], at a line that exists. *)
Definition parseBlocks_step (line : str) (st : PState) : option PState :=
  if startsWith line [LAZY_PREFIX] then
    let raw := sliceFrom line 1 in
    let rawIndent := getIndent raw in
    Some (advanceBy 1
            (setParagraphLines (paragraphLines st ++ [removeIndent raw (Nat.min rawIndent 3)]) st))
  else
    let lineIndent := getIndent line in
    if isBlank line then Some (advanceBy 1 (finishParagraph st))
    else if isThematicBreak line then
      if negb (length (paragraphLines st) =? 0) && isSetextDashLine line then
        let level := match getSetextLevel line with Some l => l | None => 2 end in
        Some (advanceBy 1 (setextHeading level (pushChild ThematicBreak) st))
      else Some (advanceBy 1 (pushChild ThematicBreak (finishParagraph st)))
    else
      match parseAtxHeading line with
      | Some (level, content) =>
          Some (advanceBy 1 (pushChild (Heading level content) (finishParagraph st)))
      | None =>
          if negb (length (paragraphLines st) =? 0) && isSetextEqualsLine line then
            Some (advanceBy 1 (setextHeading 1 (setParagraphLines [line]) st))
          else
            match parseFenceOpen line with
            | Some fenceInfo =>
                let st := finishParagraph st in
                let '(codeLines, n, closedProperly) :=
                  fenceLoop fenceInfo (linesFrom lines (S (lineIndex st))) in
                let codeLines := if closedProperly then codeLines else popTrailingEmpty codeLines in
                let info := unescapeString (decodeHtmlEntities (fenceInfoString fenceInfo)) in
                Some (advanceBy (S n)
                        (pushChild (createFencedCodeBlock info codeLines (fenceIndent fenceInfo)) st))
            | None =>
                if (length (paragraphLines st) =? 0) && (4 <=? lineIndent) then
                  let (more, n) := indentedCodeLoop (linesFrom lines (S (lineIndex st))) in
                  let codeLines := popTrailingEmpty (removeIndent line 4 :: more) in
                  Some (advanceBy (S n) (pushChild (createIndentedCodeBlock codeLines) st))
                else if isBlockquoteStart line then
                  let st := finishParagraph st in
                  let (quoteLines, n) := quoteLoop [] None (linesFrom lines (lineIndex st)) in
                  match subParse (joinLF quoteLines) with
                  | None => None
                  | Some (quoteChildren, childRefs) =>
                      Some (advanceBy n
                              (pushChild (Blockquote quoteChildren)
                                 (setLinkReferences (refMerge (linkReferences st) childRefs) st)))
                  end
                else
                  let listBranch :=
                    match parseListMarker line with
                    | Some listMarker =>
                        if listCanInterrupt (paragraphLines st) line listMarker
                        then Some listMarker else None
                    | None => None
                    end in
                  match listBranch with
                  | Some listMarker =>
                      let st := finishParagraph st in
                      match parseList RefMap parseListItem lines listMarker
                              (lineIndex st) (linkReferences st) with
                      | None => None
                      | Some (list, idx, refs) =>
                          Some (mkPState idx (paragraphLines st) (children st ++ [list]) refs)
                      end
                  | None =>
                      match getHtmlBlockType line (length (paragraphLines st) =? 0) with
                      | Some htmlType =>
                          let st := finishParagraph st in
                          let closeOnSameLine :=
                            (1 <=? htmlType) && (htmlType <=? 5)
                            && isHtmlBlockClose line (Some htmlType) in
                          let (more, n) :=
                            if closeOnSameLine then ([], 0)
                            else htmlLoop (Some htmlType) (linesFrom lines (S (lineIndex st))) in
                          Some (advanceBy (S n)
                                  (pushChild (HtmlBlock (joinLF (line :: more) ++ [LF])) st))
                      | None =>
                          Some (advanceBy 1
                                  (setParagraphLines
                                     (paragraphLines st ++ [removeIndent line (Nat.min lineIndent 3)])
                                     st))
                      end
                  end
            end
      end.

(** The [while] loop of [parseBlocks]: every turn passes at least one line, so
    [fuel], one more than the number of lines, is never exhausted. *)
Fixpoint parseBlocks_loop (fuel : nat) (st : PState) : option PState :=
  match fuel with
  | O => None
  | S fuel' =>
      match nth_error lines (lineIndex st) with
      | None => Some st
      | Some line =>
          match parseBlocks_step line st with
          | Some st' => parseBlocks_loop fuel' st'
          | None => None
          end
      end
  end.

(** [parseBlocks(container, 0)] on a fresh parser. *)
Definition parseBlocks : option PState :=
  match parseBlocks_loop (S (length lines)) (mkPState 0 [] [] []) with
  | Some st => Some (finishParagraph st)
  | None => None
  end.

End BlockParser.

(** [BlockParser.parse(input)], given the parser for nested content. *)
Definition parseWith (subParse : str -> option (list RawBlock * RefMap)) (input : str)
  : option (list RawBlock * RefMap) :=
  match parseBlocks subParse (splitLF (normalizeLineEndings input)) with
  | Some st => Some (children st, linkReferences st)
  | None => None
  end.

(** [BlockParser.parse(input)]: [depth] bounds the nesting of recursive parses
    (block quotes and list items); [None] when it is exceeded. *)
Fixpoint BlockParser_parse (depth : nat) (input : str) : option (list RawBlock * RefMap) :=
  match depth with
  | O => None
  | S depth' => parseWith (BlockParser_parse depth') input
  end.

(** ** blocks/table.ts *)

(** The loop of [splitTableRow] over the trimmed row: [skip] counts the
    characters of the current backtick run still to copy. *)
Fixpoint splitTableRow_loop (skip : nat) (inBackticks : bool) (backtickCount : nat)
    (current : str) (s : str) : list str :=
  match s with
  | [] => [current]
  | c :: r =>
      match skip with
      | S k => splitTableRow_loop k inBackticks backtickCount (current ++ [c]) r
      | O =>
          if ceq c BACKTICK then
            let runLength := length (fst (span (fun d => ceq d BACKTICK) s)) in
            if negb inBackticks then
              splitTableRow_loop (runLength - 1) true runLength (current ++ [c]) r
            else
              splitTableRow_loop (runLength - 1)
                (if runLength =? backtickCount then false else true)
                backtickCount (current ++ [c]) r
          else
            match r with
            | d :: r' =>
                if ceq c BSLASH && ceq d PIPE then
                  splitTableRow_loop 0 inBackticks backtickCount (current ++ [PIPE]) r'
                else if ceq c PIPE && negb inBackticks then
                  current :: splitTableRow_loop 0 inBackticks backtickCount [] r
                else splitTableRow_loop 0 inBackticks backtickCount (current ++ [c]) r
            | [] =>
                if ceq c PIPE && negb inBackticks then
                  current :: splitTableRow_loop 0 inBackticks backtickCount [] r
                else splitTableRow_loop 0 inBackticks backtickCount (current ++ [c]) r
            end
      end
  end.

(** [splitTableRow(line)] *)
Definition splitTableRow (line : str) : list str :=
  let trimmed := trim line in
  let trimmed := if startsWith trimmed [PIPE] then sliceFrom trimmed 1 else trimmed in
  let trimmed :=
    if endsWith trimmed [PIPE] && negb (endsWith trimmed [BSLASH; PIPE])
    then dropLast 1 trimmed else trimmed in
  splitTableRow_loop 0 false 0 [] trimmed.

(** The alignment of a delimiter cell, when the cell is an optional colon,
    one or more dashes and an optional colon. *)
Definition delimiterCell (content : str) : option (option TableAlignment) :=
  let hasLeftColon := startsWith content [COLON] in
  let afterLeft := if hasLeftColon then sliceFrom content 1 else content in
  let (dashes, rest) := span (fun c => ceq c DASH) afterLeft in
  match dashes with
  | [] => None
  | _ :: _ =>
      match rest with
      | [] => Some (if hasLeftColon then Some AlignLeft else None)
      | [c] =>
          if ceq c COLON then Some (Some (if hasLeftColon then AlignCenter else AlignRight))
          else None
      | _ => None
      end
  end.

Fixpoint delimiterCells (cells : list str) : option (list (option TableAlignment)) :=
  match cells with
  | [] => Some []
  | cell :: r =>
      match delimiterCell (trim cell) with
      | None => None
      | Some a =>
          match delimiterCells r with
          | Some l => Some (a :: l)
          | None => None
          end
      end
  end.

(** [parseDelimiterRow(line)] *)
Definition parseDelimiterRow (line : str) : option (list (option TableAlignment)) :=
  let cells := splitTableRow (trim line) in
  match cells with
  | [] => None
  | _ :: _ => delimiterCells cells
  end.

(** [isTableRow(line)]: a [|] that is first or not preceded by a backslash. *)
Fixpoint hasUnescapedPipe (prev : option char) (s : str) : bool :=
  match s with
  | [] => false
  | c :: r =>
      (ceq c PIPE && match prev with Some p => negb (ceq p BSLASH) | None => true end)
      || hasUnescapedPipe (Some c) r
  end.
Definition isTableRow (line : str) : bool := hasUnescapedPipe None (trim line).

(** [isTableStart(headerLine, delimiterLine)] *)
Definition isTableStart (headerLine delimiterLine : str)
  : option (list (option TableAlignment)) :=
  if negb (isTableRow headerLine) then None
  else
    let headerCells := splitTableRow headerLine in
    let hasContent := existsb (fun cell => negb (isBlank cell)) headerCells in
    if negb hasContent then None
    else
      match parseDelimiterRow delimiterLine with
      | None => None
      | Some alignments =>
          if negb (length headerCells =? length alignments) then None
          else Some alignments
      end.

(** The loop of [parseTableRowCells]: [cellContents.slice(i)] against
    [alignments.slice(i)]. *)
Fixpoint tableCells (cellContents : list str) (alignments : list (option TableAlignment))
    (isHeader : bool) : list (TableCell str) :=
  match alignments with
  | [] => []
  | a :: alignments' =>
      match cellContents with
      | content :: rest => mkCell a isHeader (trim content) :: tableCells rest alignments' isHeader
      | [] => mkCell a isHeader [] :: tableCells [] alignments' isHeader
      end
  end.

(** [parseTableRowCells(line, alignments, isHeader)] *)
Definition parseTableRowCells (line : str) (alignments : list (option TableAlignment))
    (isHeader : bool) : list (TableCell str) :=
  tableCells (splitTableRow line) alignments isHeader.

(** ** blocks/task-list.ts *)

(** [parseTaskListMarker(text)]: the pattern is [[], one of space, [x], [X],
    then []], followed by a white-space character that is not consumed. *)
Definition parseTaskListMarker (text : str) : option (bool * nat) :=
  match text with
  | a :: m :: b :: w :: _ =>
      if ceq a LBRACKET && (ceq m SP || ceq m 120 || ceq m 88) && ceq b RBRACKET
         && isJsSpace w
      then Some (ceq m 120 || ceq m 88, 3)
      else None
  | _ => None
  end.

(** [s.replace(/^\s/, '')] *)
Definition dropOneSpace (s : str) : str :=
  match s with
  | c :: r => if isJsSpace c then r else s
  | [] => []
  end.

(** [processTaskListItem(item)] on an item whose first paragraph still carries
    its raw content, as every paragraph does when the block parser calls it. *)
Definition processTaskListItem (item : RawBlock) : RawBlock :=
  match item with
  | ListItem checked (Paragraph rawContent :: rest) =>
      match parseTaskListMarker rawContent with
      | Some (isChecked, len) =>
          ListItem (Some isChecked)
            (Paragraph (dropOneSpace (sliceFrom rawContent len)) :: rest)
      | None => item
      end
  | _ => item
  end.

(** [processTaskLists(blocks)], one block at a time.  For each item of a list
    the source calls [processTaskListItem(item)] and then itself on the item's
    children; the recursion below is written over the children of the item as
    it was, with the effect of [processTaskListItem] on the first paragraph
    spelled out ([processTaskLists_item_unfold] relates the two). *)
Fixpoint processTaskLists_block (block : RawBlock) : RawBlock :=
  match block with
  | ListBlock t s tight d b items =>
      ListBlock t s tight d b
        (map (fun item =>
                match item with
                | ListItem checked (Paragraph rawContent :: rest) =>
                    match parseTaskListMarker rawContent with
                    | Some (isChecked, len) =>
                        ListItem (Some isChecked)
                          (Paragraph (dropOneSpace (sliceFrom rawContent len))
                             :: map processTaskLists_block rest)
                    | None =>
                        ListItem checked
                          (Paragraph rawContent :: map processTaskLists_block rest)
                    end
                | ListItem checked itemChildren =>
                    ListItem checked (map processTaskLists_block itemChildren)
                | other => other
                end) items)
  | Blockquote quoteChildren => Blockquote (map processTaskLists_block quoteChildren)
  | _ => block
  end.
Definition processTaskLists (blocks : list RawBlock) : list RawBlock :=
  map processTaskLists_block blocks.

(** What [processTaskLists] does to one item of a list. *)
Definition processTaskLists_item (item : RawBlock) : RawBlock :=
  match processTaskListItem item with
  | ListItem checked itemChildren => ListItem checked (processTaskLists itemChildren)
  | other => other
  end.

(** ** inlines/footnote.ts *)

(** The loop of [parseFootnoteLabel] from [pos + 2]: the label read and the
    number of characters passed, when it stops at a closing bracket. *)
Fixpoint footnoteLabelLoop (s : str) : option (str * nat) :=
  match s with
  | [] => None
  | c :: r =>
      if ceq c BSLASH then
        match r with
        | next :: r' =>
            if ceq next LBRACKET || ceq next RBRACKET || ceq next BSLASH then
              match footnoteLabelLoop r' with
              | Some (l, n) => Some (next :: l, S (S n))
              | None => None
              end
            else
              match footnoteLabelLoop r with
              | Some (l, n) => Some (BSLASH :: l, S n)
              | None => None
              end
        | [] => None
        end
      else if ceq c RBRACKET then Some ([], 0)
      else
        match footnoteLabelLoop r with
        | Some (l, n) => Some (c :: l, S n)
        | None => None
        end
  end.

Record FootnoteLabelMatch := mkFootnoteLabel {
  fnLabel : str;
  fnNormalized : str;
  fnLength : nat
}.

(** [parseFootnoteLabel(text, pos)] *)
Definition parseFootnoteLabel (text : str) (pos : nat) : option FootnoteLabelMatch :=
  if negb (charIs text pos LBRACKET && charIs text (pos + 1) CARET) then None
  else
    match footnoteLabelLoop (sliceFrom text (pos + 2)) with
    | None => None
    | Some (lbl, n) =>
        if (length lbl =? 0) || (999 <? length lbl) then None
        else Some (mkFootnoteLabel lbl (normalizeLabel lbl) (n + 3))
    end.

(** ** gfm/block-parser.ts: [GFMBlockParser] *)

Record FootnoteDefinition := mkFootnote {
  footnoteLabel : str;
  footnoteBlocks : list RawBlock
}.

Definition FootnoteMap := list (str * FootnoteDefinition).

Fixpoint footnoteHas (m : FootnoteMap) (k : str) : bool :=
  match m with
  | [] => false
  | (k', _) :: r => str_eqb k' k || footnoteHas r k
  end.

Definition footnoteAdd (m : FootnoteMap) (k : str) (v : FootnoteDefinition) : FootnoteMap :=
  if footnoteHas m k then m else m ++ [(k, v)].

Definition footnoteMerge (m child : FootnoteMap) : FootnoteMap :=
  fold_left (fun acc kv => footnoteAdd acc (fst kv) (snd kv)) child m.

(** The state of [GFMBlockParser.parseBlocks]: that of [BlockParser] and the
    parser's [footnoteDefinitions]. *)
Record GState := mkGState {
  base : PState;
  footnoteDefinitions : FootnoteMap
}.

Definition onBase (f : PState -> PState) (g : GState) : GState :=
  mkGState (f (base g)) (footnoteDefinitions g).

(** The loop of [parseTable] over the lines after the delimiter row: the body
    rows and the number of lines passed. *)
Fixpoint tableLoop (alignments : list (option TableAlignment)) (rest : list str)
  : list (TableRow str) * nat :=
  match rest with
  | [] => ([], 0)
  | line :: rest' =>
      if isBlank line then ([], 0)
      else if isBlockquoteStart line then ([], 0)
      else if isThematicBreak line then ([], 0)
      else if isSomeb (parseAtxHeading line) then ([], 0)
      else if isSomeb (parseFenceOpen line) then ([], 0)
      else if isSomeb (getHtmlBlockType line true) then ([], 0)
      else
        let (rows, n) := tableLoop alignments rest' in
        (mkRow false (parseTableRowCells line alignments false) :: rows, S n)
  end.

(** [parseTable(headerLine, alignments)]: the table and the number of lines
    passed, the delimiter row included.  [rest] are the lines after it. *)
Definition parseTable (headerLine : str) (alignments : list (option TableAlignment))
    (rest : list str) : RawBlock * nat :=
  let headerRow := mkRow true (parseTableRowCells headerLine alignments true) in
  let (rows, n) := tableLoop alignments rest in
  (Table alignments (headerRow :: rows), S n).

(** The loop of [parseFootnoteDefinition] over the lines after the first. *)
Fixpoint footnoteLoop (rest : list str) : list str * nat :=
  match rest with
  | [] => ([], 0)
  | line :: rest' =>
      if isBlank line then
        match dropBlankLines rest' with
        | next :: _ =>
            if 4 <=? getIndent next then
              let (ls, n) := footnoteLoop rest' in ([] :: ls, S n)
            else ([], 0)
        | [] => ([], 0)
        end
      else if 4 <=? getIndent line then
        let (ls, n) := footnoteLoop rest' in (removeIndent line 4 :: ls, S n)
      else ([], 0)
  end.

Section GFMBlockParser.

(** The recursive [new GFMBlockParser().parse(...)] on nested content. *)
Variable subParse : str -> option (list RawBlock * RefMap * FootnoteMap).
Variable lines : list str.
Variables enableTables enableFootnotes : bool.

(** [parseListItem(item, marker)] of the GFM parser; the tables are the link
    references and the footnote definitions. *)
Definition gfm_parseListItem (lineIndex : nat) (marker : ListMarker)
    (tables : RefMap * FootnoteMap)
  : option (RawBlock * nat * (RefMap * FootnoteMap) * bool * bool) :=
  let '(itemLines, n, blankInItem, endsWithBlank) :=
    collectListItem marker (linesFrom lines lineIndex) in
  match subParse (joinLF itemLines) with
  | None => None
  | Some (itemChildren, childRefs, childNotes) =>
      let paragraphCount := length (filter isParagraph itemChildren) in
      Some (ListItem None itemChildren, lineIndex + n,
            (refMerge (fst tables) childRefs, footnoteMerge (snd tables) childNotes),
            blankInItem || (2 <=? paragraphCount), endsWithBlank)
  end.

(** [parseFootnoteDefinition(label, key, trimmedLine, labelLength)] *)
Definition parseFootnoteDefinition (lbl key trimmedLine : str) (labelLength : nat)
    (g : GState) : option GState :=
  match key with
  | [] => Some (onBase (advanceBy 1) g)
  | _ :: _ =>
      let afterColon := sliceFrom trimmedLine (labelLength + 1) in
      let firstContent := dropWhile isSpaceTab afterColon in
      let (more, n) := footnoteLoop (linesFrom lines (S (lineIndex (base g)))) in
      let contentLines :=
        match firstContent with
        | [] => more
        | _ :: _ => firstContent :: more
        end in
      match subParse (joinLF contentLines) with
      | None => None
      | Some (blocks, childRefs, _) =>
          let st := advanceBy (S n)
                      (setLinkReferences (refMerge (linkReferences (base g)) childRefs) (base g)) in
          Some (mkGState st (footnoteAdd (footnoteDefinitions g) key (mkFootnote lbl blocks)))
      end
  end.

(** One turn of the [while] loop of [GFMBlockParser.parseBlocks]. *)
Definition gfm_parseBlocks_step (line : str) (g : GState) : option GState :=
  let st := base g in
  if startsWith line [LAZY_PREFIX] then
    let raw := sliceFrom line 1 in
    let rawIndent := getIndent raw in
    Some (onBase (fun st => advanceBy 1
            (setParagraphLines (paragraphLines st ++ [removeIndent raw (Nat.min rawIndent 3)]) st)) g)
  else
    let lineIndent := getIndent line in
    if isBlank line then Some (onBase (fun st => advanceBy 1 (finishParagraph st)) g)
    else
      let trimmed := stripUpTo3Spaces line in
      let footnote :=
        if enableFootnotes then
          match parseFootnoteLabel trimmed 0 with
          | Some fl => if charIs trimmed (fnLength fl) COLON then Some fl else None
          | None => None
          end
        else None in
      match footnote with
      | Some fl =>
          parseFootnoteDefinition (fnLabel fl) (fnNormalized fl) trimmed (fnLength fl)
            (onBase finishParagraph g)
      | None =>
          let tableStart :=
            if enableTables && (1 <=? length (paragraphLines st)) then
              let lastLine := last (paragraphLines st) [] in
              if isTableRow lastLine then
                match isTableStart lastLine line with
                | Some alignments => Some (lastLine, alignments)
                | None => None
                end
              else None
            else None in
          match tableStart with
          | Some (lastLine, alignments) =>
              let st :=
                if 1 <? length (paragraphLines st) then
                  let precedingLines := removelast (paragraphLines st) in
                  let (text, refs) := stripLinkRefs precedingLines (linkReferences st) in
                  let st := setLinkReferences refs st in
                  match text with
                  | [] => st
                  | _ :: _ => pushChild (Paragraph text) st
                  end
                else st in
              let (table, n) := parseTable lastLine alignments (linesFrom lines (S (lineIndex st))) in
              Some (mkGState (advanceBy n (pushChild table (setParagraphLines [] st)))
                      (footnoteDefinitions g))
          | None =>
              let setext :=
                if negb (length (paragraphLines st) =? 0) then getSetextLevel line else None in
              match setext with
              | Some setextLevel =>
                  Some (onBase (fun st =>
                          advanceBy 1
                            (setextHeading setextLevel
                               (fun st => if isThematicBreak line then pushChild ThematicBreak st
                                          else setParagraphLines [line] st) st)) g)
              | None =>
                  if isThematicBreak line then
                    Some (onBase (fun st => advanceBy 1 (pushChild ThematicBreak (finishParagraph st))) g)
                  else
                    match parseAtxHeading line with
                    | Some (level, content) =>
                        Some (onBase (fun st =>
                                advanceBy 1 (pushChild (Heading level content) (finishParagraph st))) g)
                    | None =>
                        if negb (length (paragraphLines st) =? 0) && isSetextEqualsLine line then
                          Some (onBase (fun st =>
                                  advanceBy 1 (setextHeading 1 (setParagraphLines [line]) st)) g)
                        else
                          match parseFenceOpen line with
                          | Some fenceInfo =>
                              let st := finishParagraph st in
                              let '(codeLines, n, closedProperly) :=
                                fenceLoop fenceInfo (linesFrom lines (S (lineIndex st))) in
                              let codeLines :=
                                if closedProperly then codeLines else popTrailingEmpty codeLines in
                              let info := unescapeString (decodeHtmlEntities (fenceInfoString fenceInfo)) in
                              Some (mkGState
                                      (advanceBy (S n)
                                         (pushChild (createFencedCodeBlock info codeLines
                                                       (fenceIndent fenceInfo)) st))
                                      (footnoteDefinitions g))
                          | None =>
                              if (length (paragraphLines st) =? 0) && (4 <=? lineIndent) then
                                let (more, n) := indentedCodeLoop (linesFrom lines (S (lineIndex st))) in
                                let codeLines := popTrailingEmpty (removeIndent line 4 :: more) in
                                Some (mkGState
                                        (advanceBy (S n) (pushChild (createIndentedCodeBlock codeLines) st))
                                        (footnoteDefinitions g))
                              else if isBlockquoteStart line then
                                let st := finishParagraph st in
                                let (quoteLines, n) := quoteLoop [] None (linesFrom lines (lineIndex st)) in
                                match subParse (joinLF quoteLines) with
                                | None => None
                                | Some (quoteChildren, childRefs, childNotes) =>
                                    Some (mkGState
                                            (advanceBy n
                                               (pushChild (Blockquote quoteChildren)
                                                  (setLinkReferences
                                                     (refMerge (linkReferences st) childRefs) st)))
                                            (footnoteMerge (footnoteDefinitions g) childNotes))
                                end
                              else
                                let listBranch :=
                                  match parseListMarker line with
                                  | Some listMarker =>
                                      if listCanInterrupt (paragraphLines st) line listMarker
                                      then Some listMarker else None
                                  | None => None
                                  end in
                                match listBranch with
                                | Some listMarker =>
                                    let st := finishParagraph st in
                                    match parseList (RefMap * FootnoteMap) gfm_parseListItem lines
                                            listMarker (lineIndex st)
                                            (linkReferences st, footnoteDefinitions g) with
                                    | None => None
                                    | Some (list, idx, (refs, notes)) =>
                                        Some (mkGState
                                                (mkPState idx (paragraphLines st)
                                                   (children st ++ [list]) refs)
                                                notes)
                                    end
                                | None =>
                                    match getHtmlBlockType line (length (paragraphLines st) =? 0) with
                                    | Some htmlType =>
                                        let st := finishParagraph st in
                                        let closeOnSameLine :=
                                          (1 <=? htmlType) && (htmlType <=? 5)
                                          && isHtmlBlockClose line (Some htmlType) in
                                        let (more, n) :=
                                          if closeOnSameLine then ([], 0)
                                          else htmlLoop (Some htmlType)
                                                 (linesFrom lines (S (lineIndex st))) in
                                        Some (mkGState
                                                (advanceBy (S n)
                                                   (pushChild (HtmlBlock (joinLF (line :: more) ++ [LF])) st))
                                                (footnoteDefinitions g))
                                    | None =>
                                        Some (onBase (fun st =>
                                                advanceBy 1
                                                  (setParagraphLines
                                                     (paragraphLines st
                                                        ++ [removeIndent line (Nat.min lineIndent 3)])
                                                     st)) g)
                                    end
                                end
                          end
                    end
              end
          end
      end.

Fixpoint gfm_parseBlocks_loop (fuel : nat) (g : GState) : option GState :=
  match fuel with
  | O => None
  | S fuel' =>
      match nth_error lines (lineIndex (base g)) with
      | None => Some g
      | Some line =>
          match gfm_parseBlocks_step line g with
          | Some g' => gfm_parseBlocks_loop fuel' g'
          | None => None
          end
      end
  end.

Definition gfm_parseBlocks : option GState :=
  match gfm_parseBlocks_loop (S (length lines)) (mkGState (mkPState 0 [] [] []) []) with
  | Some g => Some (onBase finishParagraph g)
  | None => None
  end.

End GFMBlockParser.

(** [GFMBlockParser.parse(input)], given the parser for nested content and the
    parser's three extension switches. *)
Definition gfm_parseWith (subParse : str -> option (list RawBlock * RefMap * FootnoteMap))
    (enableTables enableTaskLists enableFootnotes : bool) (input : str)
  : option (list RawBlock * RefMap * FootnoteMap) :=
  match gfm_parseBlocks subParse (splitLF (normalizeLineEndings input))
          enableTables enableFootnotes with
  | Some g =>
      let document := children (base g) in
      let document := if enableTaskLists then processTaskLists document else document in
      Some (document, linkReferences (base g), footnoteDefinitions g)
  | None => None
  end.

(** [GFMBlockParser.parse(input)]; the nested parsers are built without an
    extension set and so have every extension switched on. *)
Fixpoint GFMBlockParser_parse (depth : nat) (enableTables enableTaskLists enableFootnotes : bool)
    (input : str) : option (list RawBlock * RefMap * FootnoteMap) :=
  match depth with
  | O => None
  | S depth' =>
      gfm_parseWith (GFMBlockParser_parse depth' true true true)
        enableTables enableTaskLists enableFootnotes input
  end.

(** ** inlines/escape.ts, inlines/code-span.ts, inlines/emphasis.ts *)

(** [parseEscape(text, pos)] *)
Definition parseEscape (text : str) (pos : nat) : option (char * nat) :=
  if negb (charIs text pos BSLASH) then None
  else
    match charAt text (pos + 1) with
    | None => None
    | Some nextChar =>
        if ceq nextChar LF then Some (LF, 2)
        else if isAsciiPunctuation nextChar then Some (nextChar, 2)
        else None
    end.

Definition runLength (c : char) (s : str) : nat :=
  length (fst (span (fun d => ceq d c) s)).

(** The search of [parseCodeSpan] for a closing run of [openingLength]
    backticks: its offset in [s]; [skip] counts the backticks of the current
    run still to pass. *)
Fixpoint codeSpanClose (openingLength skip : nat) (s : str) : option nat :=
  match s with
  | [] => None
  | c :: r =>
      match skip with
      | S k => option_map S (codeSpanClose openingLength k r)
      | O =>
          if ceq c BACKTICK then
            if runLength BACKTICK s =? openingLength then Some 0
            else option_map S (codeSpanClose openingLength (runLength BACKTICK s - 1) r)
          else option_map S (codeSpanClose openingLength 0 r)
      end
  end.

(** [parseCodeSpan(text, pos)]: the literal of the span and the length consumed. *)
Definition parseCodeSpan (text : str) (pos : nat) : option (str * nat) :=
  if negb (charIs text pos BACKTICK) then None
  else
    let openingLength := runLength BACKTICK (sliceFrom text pos) in
    let i := pos + openingLength in
    match codeSpanClose openingLength 0 (sliceFrom text i) with
    | None => None
    | Some off =>
        let content := slice text i (i + off) in
        let content := map (fun c => if ceq c LF then SP else c) content in
        let content :=
          if (2 <=? length content) && startsWith content [SP] && endsWith content [SP]
             && negb (isBlank content)
          then slice content 1 (length content - 1) else content in
        Some (content, openingLength + off + openingLength)
    end.

Record DelimiterRun := mkRun {
  runChar : char;
  runLen : nat;
  canOpen : bool;
  canClose : bool;
  origLength : nat
}.

(** The flanking rules shared by [parseDelimiterRun] and [computeDelimiterRun]. *)
Definition flanking (c : char) (len : nat) (beforeIsWhitespace afterIsWhitespace
    beforeIsPunctuation afterIsPunctuation : bool) : DelimiterRun :=
  let leftFlanking :=
    negb afterIsWhitespace
    && (negb afterIsPunctuation || beforeIsWhitespace || beforeIsPunctuation) in
  let rightFlanking :=
    negb beforeIsWhitespace
    && (negb beforeIsPunctuation || afterIsWhitespace || afterIsPunctuation) in
  if ceq c STAR then mkRun c len leftFlanking rightFlanking len
  else mkRun c len
         (leftFlanking && (negb rightFlanking || beforeIsPunctuation))
         (rightFlanking && (negb leftFlanking || afterIsPunctuation))
         len.

(** [parseDelimiterRun(text, pos)] *)
Definition parseDelimiterRun (text : str) (pos : nat) : option DelimiterRun :=
  match charAt text pos with
  | Some c =>
      if ceq c STAR || ceq c UNDERSCORE then
        let len := runLength c (sliceFrom text pos) in
        let charBefore := match pos with O => LF | S p => nth p text LF end in
        let charAfter := nth (pos + len) text LF in
        Some (flanking c len
                (isJsSpace charBefore || ceq charBefore LF)
                (isJsSpace charAfter || ceq charAfter LF)
                (isUnicodePunctuation [charBefore])
                (isUnicodePunctuation [charAfter]))
      else None
  | None => None
  end.

(** [canDelimitersMatch(opener, closer)] *)
Definition canDelimitersMatch (opener closer : DelimiterRun) : bool :=
  if negb (ceq (runChar opener) (runChar closer)) then false
  else if ((canOpen opener && canClose opener) || (canOpen closer && canClose closer))
          && ((origLength opener + origLength closer) mod 3 =? 0)
          && (negb (origLength opener mod 3 =? 0) || negb (origLength closer mod 3 =? 0))
  then false
  else true.

(** ** inlines/autolink.ts *)

Definition isSchemeChar (c : char) : bool :=
  isAlnum c || ceq c PLUS || ceq c DOT || ceq c DASH.

(** [AUTOLINK_URI_REGEX]: the captured URI, for a text that starts with [<]. *)
Definition matchAutolinkUri (s : str) : option str :=
  match s with
  | lt :: a :: r =>
      if ceq lt LT && isAlpha a then
        let (scheme, r1) := span isSchemeChar r in
        if (1 <=? length scheme) && (length scheme <=? 31) then
          match r1 with
          | colon :: r2 =>
              if ceq colon COLON then
                let (body, r3) := span (fun c => negb (isJsSpace c || ceq c LT || ceq c GT)) r2 in
                match r3 with
                | gt :: _ => if ceq gt GT then Some (a :: scheme ++ [colon] ++ body) else None
                | [] => None
                end
              else None
          | [] => None
          end
        else None
      else None
  | _ => None
  end.

Definition isEmailLocalChar (c : char) : bool :=
  isAlnum c || memc c (js ".!#$%&'*+/=?^_`{|}~-").

Definition isDomainLabelChar (c : char) : bool := isAlnum c || ceq c DASH.

(** A domain label of [AUTOLINK_EMAIL_REGEX]: 1 to 63 letters, digits and
    hyphens, a letter or digit at both ends. *)
Definition isDomainLabel (l : str) : bool :=
  (1 <=? length l) && (length l <=? 63)
  && match l with c :: _ => isAlnum c | [] => false end
  && isAlnum (last l 0%Z).

(** The labels of the domain separated by dots, up to the closing [>];
    [fuel] is the length of the text. *)
Fixpoint matchEmailDomain (fuel : nat) (s : str) : option str :=
  match fuel with
  | O => None
  | S fuel' =>
      let (l, r) := span isDomainLabelChar s in
      if isDomainLabel l then
        match r with
        | c :: r' =>
            if ceq c GT then Some l
            else if ceq c DOT then
              match matchEmailDomain fuel' r' with
              | Some rest => Some (l ++ [c] ++ rest)
              | None => None
              end
            else None
        | [] => None
        end
      else None
  end.

(** [AUTOLINK_EMAIL_REGEX]: the captured address. *)
Definition matchAutolinkEmail (s : str) : option str :=
  match s with
  | lt :: r =>
      if ceq lt LT then
        let (loc, r1) := span isEmailLocalChar r in
        match loc, r1 with
        | _ :: _, at_ :: r2 =>
            if ceq at_ 64 then
              match matchEmailDomain (S (length r2)) r2 with
              | Some dom => Some (loc ++ [at_] ++ dom)
              | None => None
              end
            else None
        | _, _ => None
        end
      else None
  | [] => None
  end.

(** [parseAutolink(text, pos)]: the link node and the length consumed. *)
Definition parseAutolink (text : str) (pos : nat) : option (Inline * nat) :=
  if negb (charIs text pos LT) then None
  else
    let remaining := sliceFrom text pos in
    match matchAutolinkUri remaining with
    | Some uri => Some (Link uri [] [Text uri false false None], length uri + 2)
    | None =>
        match matchAutolinkEmail remaining with
        | Some email =>
            Some (Link (js "mailto:" ++ email) [] [Text email false false None], length email + 2)
        | None => None
        end
    end.

(** ** inlines/link.ts *)

Definition isDestStop (c : char) : bool :=
  ceq c SP || ceq c TAB || ceq c LF || ceq c CR.

(** The loop of [parseLinkDestination] for a bare destination: the index at
    which it stops, [None] where the source returns [null]. *)
Fixpoint linkDestLoop (parenDepth : nat) (s : str) : option nat :=
  match s with
  | [] => Some 0
  | c :: r =>
      match r with
      | next :: r' =>
          if ceq c BSLASH then
            if isDestStop next then None
            else option_map (fun n => S (S n)) (linkDestLoop parenDepth r')
          else if ceq c LPAREN then option_map S (linkDestLoop (S parenDepth) r)
          else if ceq c RPAREN then
            match parenDepth with
            | O => Some 0
            | S d => option_map S (linkDestLoop d r)
            end
          else if isDestStop c || (c <? 32)%Z then Some 0
          else option_map S (linkDestLoop parenDepth r)
      | [] =>
          if ceq c LPAREN then Some 1
          else if ceq c RPAREN then
            match parenDepth with O => Some 0 | S _ => Some 1 end
          else if isDestStop c || (c <? 32)%Z then Some 0
          else Some 1
      end
  end.

(** [parseLinkDestination(text)] *)
Definition parseLinkDestination (text : str) : option (str * nat) :=
  if startsWith text [LT] then
    match matchAngleDestination text with
    | Some (d, len) => Some (decodeHtmlEntities (unescapeString d), len)
    | None => None
    end
  else
    match linkDestLoop 0 text with
    | None => None
    | Some O => None
    | Some i => Some (decodeHtmlEntities (unescapeString (firstn i text)), i)
    end.

(** A title body of [LINK_TITLE_REGEX]: as [matchTitleBody], but a backslash
    escapes only a character that [.] matches. *)
Fixpoint matchInlineTitleBody (plain : char -> bool) (close : char) (s : str)
  : option (str * nat) :=
  match s with
  | [] => None
  | c :: r =>
      if plain c then
        match matchInlineTitleBody plain close r with
        | Some (l, k) => Some (c :: l, S k)
        | None => None
        end
      else if ceq c BSLASH then
        match r with
        | d :: r' =>
            if isDot d then
              match matchInlineTitleBody plain close r' with
              | Some (l, k) => Some (c :: d :: l, S (S k))
              | None => None
              end
            else None
        | [] => None
        end
      else if ceq c close then Some ([], 1)
      else None
  end.

(** [parseLinkTitle(text)] *)
Definition parseLinkTitle (text : str) : option (str * nat) :=
  match text with
  | c :: r =>
      let body :=
        if ceq c DQUOTE then
          matchInlineTitleBody (fun d => negb (ceq d DQUOTE || ceq d BSLASH)) DQUOTE r
        else if ceq c SQUOTE then
          matchInlineTitleBody (fun d => negb (ceq d SQUOTE || ceq d BSLASH)) SQUOTE r
        else if ceq c LPAREN then
          matchInlineTitleBody (fun d => negb (ceq d LPAREN || ceq d RPAREN || ceq d BSLASH))
            RPAREN r
        else None in
      match body with
      | Some (t, k) => Some (decodeHtmlEntities (unescapeString t), S k)
      | None => None
      end
  | [] => None
  end.

(** The index reached from [i] by passing the characters of [text] that
    satisfy [p]. *)
Definition skipWhile (p : char -> bool) (text : str) (i : nat) : nat :=
  i + length (fst (span p (sliceFrom text i))).

Definition isSpTabLf (c : char) : bool := ceq c SP || ceq c TAB || ceq c LF.

(** [parseInlineLink(text, pos)]: destination, title and length consumed. *)
Definition parseInlineLink (text : str) (pos : nat) : option (str * str * nat) :=
  if negb (charIs text pos LPAREN) then None
  else
    let i := skipWhile isSpTabLf text (pos + 1) in
    if charIs text i RPAREN then Some ([], [], i - pos + 1)
    else
      match parseLinkDestination (sliceFrom text i) with
      | None => None
      | Some (dest, len) =>
          let i := i + len in
          let i := skipWhile isSpaceTab text i in
          let i := if charIs text i LF then skipWhile isSpaceTab text (i + 1) else i in
          let '(ttl, i) :=
            if charIs text i DQUOTE || charIs text i SQUOTE || charIs text i LPAREN then
              match parseLinkTitle (sliceFrom text i) with
              | Some (t, tlen) => (t, i + tlen)
              | None => ([], i)
              end
            else ([], i) in
          let i := skipWhile isSpTabLf text i in
          if charIs text i RPAREN then Some (dest, ttl, i - pos + 1) else None
      end.

(** The loop of [parseLinkLabel] from [pos + 1]: the label read and the offset
    of the closing bracket, [None] when an unescaped [[] is met or the text
    ends first. *)
Fixpoint linkLabelLoop (s : str) : option (str * nat) :=
  match s with
  | [] => None
  | c :: r =>
      if ceq c BSLASH then
        match r with
        | next :: r' =>
            if ceq next LBRACKET || ceq next RBRACKET || ceq next BSLASH then
              match linkLabelLoop r' with
              | Some (l, n) => Some (next :: l, S (S n))
              | None => None
              end
            else
              match linkLabelLoop r with
              | Some (l, n) => Some (BSLASH :: l, S n)
              | None => None
              end
        | [] => None
        end
      else if ceq c LBRACKET then None
      else if ceq c RBRACKET then Some ([], 0)
      else
        match linkLabelLoop r with
        | Some (l, n) => Some (c :: l, S n)
        | None => None
        end
  end.

(** [parseLinkLabel(text, pos)]: the normalized label (empty for a blank one)
    and the length consumed. *)
Definition parseLinkLabel (text : str) (pos : nat) : option (str * nat) :=
  if negb (charIs text pos LBRACKET) then None
  else
    match linkLabelLoop (sliceFrom text (pos + 1)) with
    | None => None
    | Some (lbl, off) =>
        if 999 <? length lbl then None
        else if isBlank lbl then Some ([], off + 2)
        else Some (normalizeLabel lbl, off + 2)
    end.

(** ** inline-parser.ts

    [processEmphasis] never reads its [stackBottom] argument, so the delimiter
    stack that [parse] builds has no effect on the result and is left out; a
    bracket keeps the fields that are read. *)

Definition isHighSurrogate (c : char) : bool := inRange 55296 56319 c.
Definition isLowSurrogate (c : char) : bool := inRange 56320 57343 c.

(** [getFirstChar(text)]: the first code point, as the code units that make it. *)
Definition getFirstChar (text : str) : str :=
  match text with
  | [] => [LF]
  | hi :: lo :: _ => if isHighSurrogate hi && isLowSurrogate lo then [hi; lo] else [hi]
  | c :: _ => [c]
  end.

(** [getLastChar(text)] *)
Definition getLastChar (text : str) : str :=
  match rev text with
  | [] => [LF]
  | lo :: hi :: _ => if isHighSurrogate hi && isLowSurrogate lo then [hi; lo] else [lo]
  | c :: _ => [c]
  end.

(** The [isWhitespace] of [computeDelimiterRun], on the code units of one
    code point. *)
Definition isWhitespaceChar (c : str) : bool := existsb isJsSpace c || str_eqb c [LF].

(** [computeDelimiterRun(literal, charBefore, charAfter)] *)
Definition computeDelimiterRun (literal charBefore charAfter : str) : DelimiterRun :=
  flanking (nth 0 literal STAR) (length literal)
    (isWhitespaceChar charBefore) (isWhitespaceChar charAfter)
    (isUnicodePunctuation charBefore) (isUnicodePunctuation charAfter).

(** [extractTextFromNodes(nodes)], for one node. *)
Fixpoint extractTextFromNode (node : Inline) : str :=
  match node with
  | Text l _ _ _ => l
  | CodeSpan l => l
  | Image _ _ alt => alt
  | Softbreak | Hardbreak => [SP]
  | Emphasis c | Strong c | Strikethrough c | Link _ _ c =>
      concat (map extractTextFromNode c)
  | _ => []
  end.

Definition extractTextFromNodes (nodes : list Inline) : str :=
  concat (map extractTextFromNode nodes).

(** [normalizeLabelForMatching(rawLabel)] *)
Fixpoint normalizeLabelForMatching (rawLabel : str) : str :=
  match rawLabel with
  | [] => []
  | c :: r =>
      if ceq c BSLASH then
        match r with
        | next :: r' =>
            if ceq next LBRACKET || ceq next RBRACKET || ceq next BSLASH
            then next :: normalizeLabelForMatching r'
            else c :: normalizeLabelForMatching r
        | [] => [c]
        end
      else c :: normalizeLabelForMatching r
  end.

(** An entry of [nodeDelims].  The entry's node is [nodes[index]]: the array is
    not changed between the construction of [nodeDelims] and the next match,
    so [nodes.indexOf(entry.node)] is [index]. *)
Record NodeDelim := mkNodeDelim {
  ndIndex : nat;
  ndRun : DelimiterRun
}.

(** A literal made of [*] and [_] only, and not empty. *)
Definition isDelimLiteral (l : str) : bool :=
  match l with
  | c :: _ =>
      (ceq c STAR || ceq c UNDERSCORE)
      && forallb (fun d => ceq d STAR || ceq d UNDERSCORE) l
  | [] => false
  end.

Definition LOWER_A : char := 97.

(** The character that stands for a neighbouring node. *)
Definition neighbourChar (side : str -> str) (n : option Inline) : str :=
  match n with
  | None => [LF]
  | Some (Text l _ _ _) => side l
  | Some Softbreak | Some Hardbreak => [LF]
  | Some _ => [LOWER_A]
  end.

(** The scan that fills [nodeDelims]; it also records [delimiterOrigLength] on
    the text nodes it visits. *)
Fixpoint buildNodeDelims (before : option Inline) (i : nat) (nodes : list Inline)
  : list Inline * list NodeDelim :=
  match nodes with
  | [] => ([], [])
  | node :: rest =>
      let after := match rest with a :: _ => Some a | [] => None end in
      let '(node', d) :=
        match node with
        | Text l noDelim noSmart orig =>
            if negb (length l =? 0) && negb noDelim && isDelimLiteral l then
              let run0 := computeDelimiterRun l (neighbourChar getLastChar before)
                            (neighbourChar getFirstChar after) in
              let o := match orig with Some o => o | None => length l end in
              let run := mkRun (runChar run0) (runLen run0) (canOpen run0) (canClose run0) o in
              (Text l noDelim noSmart (Some o),
               if canOpen run || canClose run then [mkNodeDelim i run] else [])
            else (node, [])
        | _ => (node, [])
        end in
      let '(rest', ds) := buildNodeDelims (Some node') (S i) rest in
      (node' :: rest', d ++ ds)
  end.

(** [openerBottomByChar] as the pair of its [*] and [_] entries. *)
Definition Bottoms : Type := (Z * Z)%type.

Definition bottomOf (b : Bottoms) (c : char) : Z :=
  if ceq c STAR then fst b else snd b.

Definition setBottom (b : Bottoms) (c : char) (v : Z) : Bottoms :=
  if ceq c STAR then (v, snd b) else (fst b, v).

(** The search for an opener below index [k], down to the bottom. *)
Fixpoint findOpener (nodeDelims : list NodeDelim) (closer : DelimiterRun) (bottom : Z)
    (k : nat) : option nat :=
  match k with
  | O => None
  | S openerIdx =>
      if (bottom <? Z.of_nat openerIdx)%Z then
        match nth_error nodeDelims openerIdx with
        | Some opener =>
            if canOpen (ndRun opener) && ceq (runChar (ndRun opener)) (runChar closer)
               && canDelimitersMatch (ndRun opener) closer
            then Some openerIdx
            else findOpener nodeDelims closer bottom openerIdx
        | None => None
        end
      else None
  end.

(** The loop over [closerIdx] up to the next match: the indices of the opener
    and closer found, if any, and [openerBottomByChar] as it then stands.
    [k] counts the entries from [closerIdx] on. *)
Fixpoint scanClosers (nodeDelims : list NodeDelim) (k closerIdx : nat) (bottoms : Bottoms)
  : option (nat * nat) * Bottoms :=
  match k with
  | O => (None, bottoms)
  | S k' =>
      match nth_error nodeDelims closerIdx with
      | None => (None, bottoms)
      | Some closer =>
          if negb (canClose (ndRun closer)) then
            scanClosers nodeDelims k' (S closerIdx) bottoms
          else
            match findOpener nodeDelims (ndRun closer)
                    (bottomOf bottoms (runChar (ndRun closer))) closerIdx with
            | Some openerIdx => (Some (openerIdx, closerIdx), bottoms)
            | None =>
                let bottoms' :=
                  if negb (canOpen (ndRun closer))
                  then setBottom bottoms (runChar (ndRun closer)) (Z.of_nat closerIdx - 1)
                  else bottoms in
                scanClosers nodeDelims k' (S closerIdx) bottoms'
            end
      end
  end.

Definition literalOf (n : Inline) : str :=
  match n with Text l _ _ _ => l | _ => [] end.

Definition mapLiteral (f : str -> str) (n : Inline) : Inline :=
  match n with Text l a b c => Text (f l) a b c | _ => n end.

(** What a match does to [nodes]: the delimiters are shortened, the nodes
    between them become the children of the new node, and a delimiter left
    empty is removed. *)
Definition applyMatch (nodes : list Inline) (opener closer : NodeDelim) : list Inline :=
  let strong := (2 <=? runLen (ndRun opener)) && (2 <=? runLen (ndRun closer)) in
  let numDelims := if strong then 2 else 1 in
  let openerNodeIdx := ndIndex opener in
  let closerNodeIdx := ndIndex closer in
  let openerNode := mapLiteral (dropLast numDelims) (nth openerNodeIdx nodes Softbreak) in
  let closerNode := mapLiteral (fun l => sliceFrom l numDelims)
                      (nth closerNodeIdx nodes Softbreak) in
  let contentNodes := firstn (closerNodeIdx - (openerNodeIdx + 1))
                        (skipn (openerNodeIdx + 1) nodes) in
  let emphNode := if strong then Strong contentNodes else Emphasis contentNodes in
  let openerGone :=
    (runLen (ndRun opener) - numDelims =? 0) && (length (literalOf openerNode) =? 0) in
  let closerGone :=
    (runLen (ndRun closer) - numDelims =? 0) && (length (literalOf closerNode) =? 0) in
  firstn openerNodeIdx nodes
  ++ (if openerGone then [] else [openerNode])
  ++ [emphNode]
  ++ (if closerGone then [] else [closerNode])
  ++ skipn (closerNodeIdx + 1) nodes.

(** The main loop of [processEmphasis], one match per unit of fuel. *)
Fixpoint processEmphasis_loop (fuel : nat) (nodes : list Inline)
    (nodeDelims : list NodeDelim) (bottoms : Bottoms) : option (list Inline) :=
  match scanClosers nodeDelims (length nodeDelims) 0 bottoms with
  | (None, _) => Some nodes
  | (Some (openerIdx, closerIdx), bottoms') =>
      match fuel with
      | O => None
      | S fuel' =>
          match nth_error nodeDelims openerIdx, nth_error nodeDelims closerIdx with
          | Some opener, Some closer =>
              let '(nodes', nodeDelims') :=
                buildNodeDelims None 0 (applyMatch nodes opener closer) in
              processEmphasis_loop fuel' nodes' nodeDelims' bottoms'
          | _, _ => None
          end
      end
  end.

Definition isEmptyText (n : Inline) : bool :=
  match n with Text l _ _ _ => length l =? 0 | _ => false end.

(** The characters held by the text nodes of [nodes]: every match removes at
    least two of them. *)
Definition literalTotal (nodes : list Inline) : nat :=
  list_sum (map (fun n => length (literalOf n)) nodes).

(** [processEmphasis(nodes, stackBottom)]: the array as the call leaves it. *)
Definition processEmphasis (nodes : list Inline) : option (list Inline) :=
  let '(nodes1, nodeDelims) := buildNodeDelims None 0 nodes in
  if length nodeDelims =? 0 then Some nodes1
  else
    match processEmphasis_loop (literalTotal nodes1) nodes1 nodeDelims (-1, -1)%Z with
    | Some nodes2 => Some (filter (fun n => negb (isEmptyText n)) nodes2)
    | None => None
    end.

(** [s.indexOf(p)] *)
Fixpoint indexOf (s p : str) : option nat :=
  if startsWith s p then Some 0
  else
    match s with
    | [] => None
    | _ :: r => option_map S (indexOf r p)
    end.

(** A lazy pattern [open, anything, close]: the length of the match when [s]
    starts with [open] and [close] occurs after it. *)
Definition matchUpTo (open close s : str) : option nat :=
  if startsWith s open then
    match indexOf (sliceFrom s (length open)) close with
    | Some k => Some (length open + k + length close)
    | None => None
    end
  else None.

(** The raw-HTML patterns of [parse], in the order they are tried: the literal
    pushed and the length consumed. *)
Definition matchInlineHtml (s : str) : option (str * nat) :=
  let whole (n : nat) := Some (firstn n s, n) in
  match matchOpenTag s with
  | Some rest => whole (length s - length rest)
  | None =>
  match matchCloseTag s with
  | Some rest => whole (length s - length rest)
  | None =>
  if startsWith s (js "<!-->") then Some (js "<!---->", 5)
  else if startsWith s (js "<!--->") then Some (js "<!---->", 6)
  else
    let comment :=
      if startsWith s (js "<!-->") || startsWith s (js "<!--->") then None
      else matchUpTo (js "<!--") (js "-->") s in
    match comment with
    | Some n => whole n
    | None =>
    match matchUpTo (js "<?") (js "?>") s with
    | Some n => whole n
    | None =>
    match matchUpTo (js "<![CDATA[") (js "]]>") s with
    | Some n => whole n
    | None =>
        if startsWith s (js "<!") && match charAt s 2 with Some c => isAlpha c | None => false end
        then
          match indexOf (sliceFrom s 3) [GT] with
          | Some k => whole (3 + k + 1)
          | None => None
          end
        else None
    end end end
  end end.

Inductive BracketType := LinkBracket | ImageBracket.

Record Bracket := mkBracket {
  bracketType : BracketType;
  nodeIndex : nat;
  active : bool;
  textPos : nat
}.

(** The variables of [parse]; [bracketStack] lists the innermost bracket first. *)
Record IState := mkIState {
  nodes : list Inline;
  bracketStack : list Bracket;
  pos : nat;
  textBuffer : str
}.

Definition flushText (st : IState) : IState :=
  if 0 <? length (textBuffer st)
  then mkIState (nodes st ++ [createTextNode (textBuffer st)]) (bracketStack st) (pos st) []
  else st.

Definition pushNode (n : Inline) (st : IState) : IState :=
  mkIState (nodes st ++ [n]) (bracketStack st) (pos st) (textBuffer st).

Definition setPos (p : nat) (st : IState) : IState :=
  mkIState (nodes st) (bracketStack st) p (textBuffer st).

Definition addText (s : str) (st : IState) : IState :=
  mkIState (nodes st) (bracketStack st) (pos st) (textBuffer st ++ s).

Definition trimBuffer (st : IState) : IState :=
  mkIState (nodes st) (bracketStack st) (pos st) (dropWhileEnd isSP (textBuffer st)).

Definition setBrackets (b : list Bracket) (st : IState) : IState :=
  mkIState (nodes st) b (pos st) (textBuffer st).

(** A line break: the buffer loses its trailing spaces and is flushed, the
    break is pushed, and the spaces after position [p] are passed. *)
Definition lineBreak (text : str) (n : Inline) (p : nat) (st : IState) : IState :=
  setPos (skipWhile isSP text p) (pushNode n (flushText (trimBuffer st))).

Definition deactivateLinks (b : list Bracket) : list Bracket :=
  map (fun x => match bracketType x with
                | LinkBracket => mkBracket LinkBracket (nodeIndex x) false (textPos x)
                | ImageBracket => x
                end) b.

Section InlineParser.

(** The table set by [setLinkReferences] and the text being parsed. *)
Variable linkReferences : RefMap.
Variable text : str.

(** The reference a label names; [has] and [get] agree on the table. *)
Definition lookupRef (lbl : str) (consumed : nat) : option (str * str * nat) :=
  match refGet linkReferences lbl with
  | Some ref => Some (destination ref, title ref, consumed)
  | None => None
  end.

(** The branch of [parse] for a [\]] with a bracket on the stack: [opener] is
    the innermost bracket and [prev] the ones below it. *)
Definition closeBracket (st0 : IState) (opener : Bracket) (prev : list Bracket)
  : option IState :=
  let st := flushText st0 in
  let p := pos st in
  let unmatched := Some (setPos (p + 1) (addText [RBRACKET] (setBrackets prev st))) in
  if negb (active opener) then unmatched
  else
    let inlineLink :=
      if charIs text (p + 1) LPAREN then
        match parseInlineLink text (p + 1) with
        | Some (d, t, len) => Some (d, t, 1 + len)
        | None => None
        end
      else None in
    let fullOrCollapsed :=
      match inlineLink with
      | Some _ => inlineLink
      | None =>
          if charIs text (p + 1) LBRACKET then
            match parseLinkLabel text (p + 1) with
            | Some (lbl, len) =>
                if 0 <? length lbl then lookupRef lbl (1 + len)
                else
                  let innerText :=
                    extractTextFromNodes (skipn (nodeIndex opener + 1) (nodes st)) in
                  lookupRef (normalizeLabel innerText) (1 + len)
            | None => None
            end
          else None
      end in
    let shortcut :=
      match fullOrCollapsed with
      | Some _ => fullOrCollapsed
      | None =>
          if negb (charIs text (p + 1) LBRACKET) then
            let rawLabel := slice text (textPos opener) p in
            let lbl := normalizeLabel (normalizeLabelForMatching rawLabel) in
            if 0 <? length lbl then lookupRef lbl 1 else None
          else None
      end in
    match shortcut with
    | Some (dest, ttl, consumed) =>
        let innerNodes := skipn (nodeIndex opener + 1) (nodes st) in
        let outer := removelast (firstn (nodeIndex opener + 1) (nodes st)) in
        match processEmphasis innerNodes with
        | None => None
        | Some inner =>
            match bracketType opener with
            | ImageBracket =>
                Some (mkIState (outer ++ [Image dest ttl (extractTextFromNodes inner)])
                        prev (p + consumed) (textBuffer st))
            | LinkBracket =>
                Some (mkIState (outer ++ [Link dest ttl inner])
                        (deactivateLinks prev) (p + consumed) (textBuffer st))
            end
        end
    | None => unmatched
    end.

(** One iteration of the loop of [parse], for [pos < text.length]. *)
Definition parse_step (st : IState) : option IState :=
  let p := pos st in
  match charAt text p with
  | None => None
  | Some char =>
      let plain := Some (setPos (p + 1) (addText [char] st)) in
      match parseEscape text p with
      | Some (c, len) =>
          if ceq c LF then Some (lineBreak text Hardbreak (p + len) st)
          else if ceq c STAR || ceq c UNDERSCORE then
            Some (setPos (p + len) (pushNode (Text [c] true false None) (flushText st)))
          else if ceq c DQUOTE || ceq c SQUOTE || ceq c DASH || ceq c DOT then
            Some (setPos (p + len) (pushNode (Text [c] false true None) (flushText st)))
          else Some (setPos (p + len) (addText [c] st))
      | None =>
      match parseEntity text p with
      | Some (decoded, len) => Some (setPos (p + len) (addText decoded st))
      | None =>
          if ceq char BACKTICK then
            match parseCodeSpan text p with
            | Some (literal, len) =>
                Some (setPos (p + len) (pushNode (CodeSpan literal) (flushText st)))
            | None =>
                let n := runLength BACKTICK (sliceFrom text p) in
                Some (setPos (p + n) (addText (repeat BACKTICK n) st))
            end
          else if ceq char LT then
            match parseAutolink text p with
            | Some (node, len) => Some (setPos (p + len) (pushNode node (flushText st)))
            | None =>
                match matchInlineHtml (sliceFrom text p) with
                | Some (literal, len) =>
                    Some (setPos (p + len) (pushNode (HtmlInline literal) (flushText st)))
                | None => plain
                end
            end
          else if ceq char SP then
            let spaceCount := runLength SP (sliceFrom text p) in
            let j := p + spaceCount in
            if charIs text j LF && (2 <=? spaceCount)
            then Some (lineBreak text Hardbreak (j + 1) st)
            else plain
          else if ceq char LF then Some (lineBreak text Softbreak (p + 1) st)
          else if ceq char STAR || ceq char UNDERSCORE then
            let st1 := flushText st in
            match parseDelimiterRun text p with
            | Some run =>
                let node := Text (slice text p (p + runLen run)) false false
                              (Some (runLen run)) in
                Some (setPos (p + runLen run) (pushNode node st1))
            | None => Some (setPos (p + 1) (addText [char] st1))
            end
          else if ceq char BANG && charIs text (p + 1) LBRACKET then
            let st1 := pushNode (createTextNode [BANG; LBRACKET]) (flushText st) in
            Some (setPos (p + 2)
                    (setBrackets
                       (mkBracket ImageBracket (length (nodes st1) - 1) true (p + 2)
                        :: bracketStack st1) st1))
          else if ceq char LBRACKET then
            let st1 := pushNode (createTextNode [LBRACKET]) (flushText st) in
            Some (setPos (p + 1)
                    (setBrackets
                       (mkBracket LinkBracket (length (nodes st1) - 1) true (p + 1)
                        :: bracketStack st1) st1))
          else if ceq char RBRACKET then
            match bracketStack st with
            | opener :: prev => closeBracket st opener prev
            | [] => plain
            end
          else plain
      end
      end
  end.

(** The loop of [parse]; every iteration advances [pos], so a fuel of
    [text.length] iterations is enough. *)
Fixpoint parse_loop (fuel : nat) (st : IState) : option IState :=
  if pos st <? length text then
    match fuel with
    | O => None
    | S fuel' =>
        match parse_step st with
        | Some st' => parse_loop fuel' st'
        | None => None
        end
    end
  else Some st.

(** [n] consecutive iterations of the loop. *)
Fixpoint parse_steps (n : nat) (st : IState) : option IState :=
  match n with
  | O => Some st
  | S n' =>
      match parse_step st with
      | Some st' => parse_steps n' st'
      | None => None
      end
  end.

End InlineParser.

(** [InlineParser.parse(text)] with the link references [refs] set. *)
Definition InlineParser_parse (refs : RefMap) (text : str) : option (list Inline) :=
  match parse_loop refs text (length text) (mkIState [] [] 0 []) with
  | Some st => processEmphasis (nodes (flushText st))
  | None => None
  end.

(** ** index.ts: the inline phase over the block tree *)

(** [l.map(f)] for an [f] that may not return: there is a result when every
    call has one. *)
Definition mapOpt {A B : Type} (f : A -> option B) : list A -> option (list B) :=
  fix go (l : list A) : option (list B) :=
    match l with
    | [] => Some []
    | x :: r =>
        match f x, go r with
        | Some y, Some ys => Some (y :: ys)
        | _, _ => None
        end
    end.

(** The children of a paragraph or heading with raw content [rawContent]; the
    inline parser is not called on an empty one. *)
Definition inlineChildren (refs : RefMap) (rawContent : str) : option (list Inline) :=
  match rawContent with
  | [] => Some []
  | _ => InlineParser_parse refs rawContent
  end.

(** [processBlock] of [MarkdownParser.processInlines].  This parser produces no
    table; the cells of one would keep their empty [children]. *)
Fixpoint processBlock (refs : RefMap) (block : RawBlock) : option (Block (list Inline)) :=
  match block with
  | Paragraph rawContent => option_map Paragraph (inlineChildren refs rawContent)
  | Heading level rawContent => option_map (Heading level) (inlineChildren refs rawContent)
  | ThematicBreak => Some ThematicBreak
  | CodeBlock info literal fenced => Some (CodeBlock info literal fenced)
  | Blockquote quoteChildren =>
      option_map Blockquote (mapOpt (processBlock refs) quoteChildren)
  | ListBlock t s tight d b items =>
      option_map (ListBlock t s tight d b) (mapOpt (processBlock refs) items)
  | ListItem checked itemChildren =>
      option_map (ListItem checked) (mapOpt (processBlock refs) itemChildren)
  | HtmlBlock literal => Some (HtmlBlock literal)
  | Table alignments rows =>
      Some (Table alignments
              (map (fun row =>
                      mkRow (rowIsHeader row)
                        (map (fun cell => mkCell (cellAlign cell) (cellIsHeader cell) [])
                           (rowCells row))) rows))
  end.

(** [parse(input)] of index.ts; [depth] bounds the nesting of containers the
    block phase may enter. *)
Definition parse (depth : nat) (input : str) : option Document :=
  match BlockParser_parse depth input with
  | Some (blocks, refs) => mapOpt (processBlock refs) blocks
  | None => None
  end.

(** ** renderer.ts, with the default options: no [safe], no [smart], and a
    line feed for a soft break *)

Definition PERCENT : char := 37.

Definition hexDigitUpper (n : Z) : char := if (n <? 10)%Z then (48 + n)%Z else (55 + n)%Z.

Definition percentByte (b : Z) : str :=
  [PERCENT; hexDigitUpper (b / 16); hexDigitUpper (b mod 16)].

(** The UTF-8 bytes of a code point. *)
Definition utf8 (cp : Z) : list Z :=
  if (cp <? 128)%Z then [cp]
  else if (cp <? 2048)%Z then [192 + cp / 64; 128 + cp mod 64]%Z
  else if (cp <? 65536)%Z then
    [224 + cp / 4096; 128 + (cp / 64) mod 64; 128 + cp mod 64]%Z
  else [240 + cp / 262144; 128 + (cp / 4096) mod 64; 128 + (cp / 64) mod 64;
        128 + cp mod 64]%Z.

Definition isUriUnreserved (c : char) : bool :=
  isAlnum c || memc c (js "-_.!~*'()").

(** [encodeURIComponent(s)]; [None] where it throws a [URIError], on a
    surrogate that has no partner. *)
Fixpoint encodeURIComponent (s : str) : option str :=
  match s with
  | [] => Some []
  | c :: r =>
      if isUriUnreserved c then option_map (cons c) (encodeURIComponent r)
      else if isLowSurrogate c then None
      else if isHighSurrogate c then
        match r with
        | lo :: r' =>
            if isLowSurrogate lo then
              option_map
                (app (flat_map percentByte
                        (utf8 (65536 + (c - 55296) * 1024 + (lo - 56320))%Z)))
                (encodeURIComponent r')
            else None
        | [] => None
        end
      else option_map (app (flat_map percentByte (utf8 c))) (encodeURIComponent r)
  end.

Definition isUrlSafeChar (c : char) : bool :=
  isAlnum c || memc c (js "-._~:/?#@!$&'()*+,;=").

Definition asciiUpper (c : char) : char := if isLower c then (c - 32)%Z else c.

(** [encodeUrl(url)] *)
Fixpoint encodeUrl (url : str) : option str :=
  match url with
  | [] => Some []
  | c :: r =>
      let single :=
        if isUrlSafeChar c then option_map (cons c) (encodeUrl r)
        else
          match encodeURIComponent [c], encodeUrl r with
          | Some e, Some rest => Some (e ++ rest)
          | _, _ => None
          end in
      match r with
      | a :: r1 =>
          let pair :=
            if negb (isUrlSafeChar c) && isHighSurrogate c then
              match encodeURIComponent [c; a], encodeUrl r1 with
              | Some e, Some rest => Some (e ++ rest)
              | _, _ => None
              end
            else single in
          match r1 with
          | b :: r2 =>
              if ceq c PERCENT && isHexDigit a && isHexDigit b then
                option_map (fun rest => c :: asciiUpper a :: asciiUpper b :: rest)
                  (encodeUrl r2)
              else pair
          | [] => pair
          end
      | [] => single
      end
  end.

(** [l.map(f).join(sep)] for an [f] that may throw. *)
Definition joinOpt (sep : str) (l : list (option str)) : option str :=
  option_map (join sep)
    (mapOpt (fun x => x) l).

Definition attribute (name : str) (value : str) : str :=
  [SP] ++ name ++ [EQUALS; DQUOTE] ++ value ++ [DQUOTE].

Definition titleAttribute (ttl : str) : str :=
  match ttl with
  | [] => []
  | _ => attribute (js "title") (escapeHtml ttl)
  end.

(** [renderInline(inline)] *)
Fixpoint renderInline (inline : Inline) : option str :=
  match inline with
  | Text literal _ _ _ => Some (escapeHtml literal)
  | Softbreak => Some [LF]
  | Hardbreak => Some (js "<br />" ++ [LF])
  | CodeSpan literal => Some (js "<code>" ++ escapeHtml literal ++ js "</code>")
  | Emphasis inlines =>
      option_map (fun content => js "<em>" ++ content ++ js "</em>")
        (joinOpt [] (map renderInline inlines))
  | Strong inlines =>
      option_map (fun content => js "<strong>" ++ content ++ js "</strong>")
        (joinOpt [] (map renderInline inlines))
  | Link dest ttl inlines =>
      match encodeUrl dest, joinOpt [] (map renderInline inlines) with
      | Some url, Some content =>
          Some (js "<a" ++ attribute (js "href") (escapeHtml url) ++ titleAttribute ttl
                ++ js ">" ++ content ++ js "</a>")
      | _, _ => None
      end
  | Image dest ttl alt =>
      match encodeUrl dest with
      | Some url =>
          Some (js "<img" ++ attribute (js "src") (escapeHtml url)
                ++ attribute (js "alt") (escapeHtml alt) ++ titleAttribute ttl ++ js " />")
      | None => None
      end
  | HtmlInline literal => Some literal
  | Strikethrough _ | FootnoteRef _ _ => Some []
  end.

(** [renderInlines(inlines)] *)
Definition renderInlines (inlines : list Inline) : option str :=
  joinOpt [] (map renderInline inlines).

(** The decimal digits of a non-negative number; [fuel] bounds their count. *)
Fixpoint decimalDigits (fuel : nat) (n : Z) (acc : str) : str :=
  match fuel with
  | O => acc
  | S fuel' =>
      let acc' := (48 + n mod 10)%Z :: acc in
      if (n <? 10)%Z then acc' else decimalDigits fuel' (n / 10) acc'
  end.

(** [String(n)] for an integer. *)
Definition numberToString (n : Z) : str :=
  if (n <? 0)%Z then DASH :: decimalDigits (S (Z.to_nat (Z.log2 (- n)))) (- n) []
  else decimalDigits (S (Z.to_nat (Z.log2 n))) n [].

(** [literal.replace(/\n$/, '')] *)
Definition stripFinalNewline (literal : str) : str :=
  if endsWith literal [LF] then dropLast 1 literal else literal.

Definition tag (name : str) (content : str) : str :=
  js "<" ++ name ++ js ">" ++ content ++ js "</" ++ name ++ js ">".

(** [renderBlock(block, tight)]; [renderListItem(node, tight)] is its
    [ListItem] case, which [renderBlock] itself enters with [tight] false. *)
Fixpoint renderBlockWith (itemTight : bool) (tight : bool) (block : Block (list Inline))
  : option str :=
  match block with
  | Paragraph inlines =>
      option_map (fun content => if tight then content else tag (js "p") content)
        (renderInlines inlines)
  | Heading level inlines =>
      option_map (tag (js "h" ++ numberToString (Z.of_nat level))) (renderInlines inlines)
  | ThematicBreak => Some (js "<hr />")
  | CodeBlock info literal _ =>
      let escaped := escapeHtml literal in
      match info with
      | [] => Some (js "<pre><code>" ++ escaped ++ js "</code></pre>")
      | _ =>
          let lang := escapeHtml (fst (span (fun c => negb (isJsSpace c)) info)) in
          Some (js "<pre><code" ++ attribute (js "class") (js "language-" ++ lang)
                ++ js ">" ++ escaped ++ js "</code></pre>")
      end
  | Blockquote quoteChildren =>
      option_map
        (fun content =>
           match content with
           | [] => js "<blockquote>" ++ [LF] ++ js "</blockquote>"
           | _ => js "<blockquote>" ++ [LF] ++ content ++ [LF] ++ js "</blockquote>"
           end)
        (joinOpt [LF] (map (renderBlockWith false false) quoteChildren))
  | ListBlock listType start listTight _ _ items =>
      let name := match listType with Bullet => js "ul" | Ordered => js "ol" end in
      let startAttr :=
        match listType with
        | Ordered =>
            if negb (start =? 1)%Z then attribute (js "start") (numberToString start) else []
        | Bullet => []
        end in
      option_map
        (fun content =>
           js "<" ++ name ++ startAttr ++ js ">" ++ [LF] ++ content ++ [LF]
           ++ js "</" ++ name ++ js ">")
        (joinOpt [LF] (map (renderBlockWith listTight false) items))
  | ListItem _ itemChildren =>
      match itemChildren with
      | [] => Some (js "<li></li>")
      | first :: others =>
          option_map
            (fun content =>
               if itemTight && (length others =? 0) && isParagraph first
               then tag (js "li") content
               else
                 match content with
                 | [] => js "<li></li>"
                 | _ => js "<li>" ++ [LF] ++ content ++ [LF] ++ js "</li>"
                 end)
            (joinOpt [LF] (map (renderBlockWith false itemTight) itemChildren))
      end
  | HtmlBlock literal => Some (stripFinalNewline literal)
  | Table _ _ => Some []
  end.

Definition renderBlock (block : Block (list Inline)) (tight : bool) : option str :=
  renderBlockWith false tight block.

(** [renderBlocks(blocks, tight)] *)
Definition renderBlocks (blocks : Document) (tight : bool) : option str :=
  joinOpt [LF] (map (fun block => renderBlock block tight) blocks).

(** [render(document)] of index.ts; [None] where the renderer throws. *)
Definition render (document : Document) : option str :=
  match renderBlocks document false with
  | Some [] => Some []
  | Some content => Some (content ++ [LF])
  | None => None
  end.

(** [markdown(input)] *)
Definition markdown (depth : nat) (input : str) : option str :=
  match parse depth input with
  | Some document => render document
  | None => None
  end.

(** ** inlines/text.ts, second part: GFM extended autolinks

    [charBefore] is [None] for [undefined]. *)

Definition VALID_PRECEDING_CHARS : str := [LF; SP; TAB] ++ js "*_~(" ++ [DQUOTE; SQUOTE].

Definition VALID_EMAIL_PRECEDING_CHARS : str :=
  [LF; SP; TAB] ++ js "*_~(" ++ [DQUOTE; SQUOTE; COLON; SLASH].

Definition isValidPrecedingChar (charBefore : option char) : bool :=
  match charBefore with
  | None => true
  | Some c => memc c VALID_PRECEDING_CHARS
  end.

Definition isValidEmailPrecedingChar (charBefore : option char) : bool :=
  match charBefore with
  | None => true
  | Some c => memc c VALID_EMAIL_PRECEDING_CHARS
  end.

(** [precededByOpenAngle(text, pos)]: the nearest character before [pos] that
    is not a space, a tab or a line feed is [<]. *)
Definition precededByOpenAngle (text : str) (pos : nat) : bool :=
  if length text <? pos then false
  else
    match dropWhile isSpTabLf (rev (firstn pos text)) with
    | c :: _ => ceq c LT
    | [] => false
    end.

Definition isDomainChar (c : char) : bool :=
  isAlnum c || ceq c UNDERSCORE || ceq c DASH || (127 <? c)%Z.

(** The loop of [parseValidDomain]: the segments closed by a period, the
    segment being read, and the number of code units passed. *)
Fixpoint domainLoop (s : str) (segments : list str) (currentSegment : str)
  : list str * str * nat :=
  match s with
  | [] => (segments, currentSegment, 0)
  | c :: r =>
      let single :=
        if isDomainChar c then
          let '(sg, cur, n) := domainLoop r segments (currentSegment ++ [c]) in (sg, cur, S n)
        else if ceq c DOT then
          match currentSegment with
          | [] => (segments, currentSegment, 0)
          | _ :: _ =>
              let '(sg, cur, n) := domainLoop r (segments ++ [currentSegment]) [] in
              (sg, cur, S n)
          end
        else (segments, currentSegment, 0) in
      match r with
      | d :: r' =>
          if isHighSurrogate c then
            let '(sg, cur, n) := domainLoop r' segments (currentSegment ++ [c; d]) in
            (sg, cur, S (S n))
          else single
      | [] => single
      end
  end.

(** [parseValidDomain(text, startPos, requirePeriod)]: the domain and [endPos]. *)
Definition parseValidDomain (text : str) (startPos : nat) (requirePeriod : bool)
  : option (str * nat) :=
  let '(sg, cur, n) := domainLoop (sliceFrom text startPos) [] [] in
  let segments := match cur with [] => sg | _ :: _ => sg ++ [cur] end in
  if requirePeriod && (length segments <? 2) then None
  else if negb requirePeriod && (length segments <? 1) then None
  else if (2 <=? length segments)
          && existsb (fun seg => memc UNDERSCORE seg)
               (skipn (length segments - 2) segments)
  then None
  else Some (join [DOT] segments, startPos + n).

(** The loop of [trimAutolinkPath], on the reversed text; [skip] counts the
    characters of a trailing entity reference still to drop. *)
Fixpoint trimLoop (skip : nat) (r : str) : str :=
  match r with
  | [] => []
  | lastChar :: rest =>
      match skip with
      | S k => trimLoop k rest
      | O =>
          if memc lastChar (js "?!.,:*_~" ++ [DQUOTE; SQUOTE]) then trimLoop 0 rest
          else if ceq lastChar RPAREN && (countChar LPAREN r <? countChar RPAREN r)
          then trimLoop 0 rest
          else if ceq lastChar SEMI then
            match span isAlnum rest with
            | ((_ :: _) as name, amp :: _) =>
                if ceq amp AMP then trimLoop (length name + 1) rest else r
            | _ => r
            end
          else r
      end
  end.

(** [trimAutolinkPath(url)] *)
Definition trimAutolinkPath (url : str) : str :=
  let result := fst (span (fun c => negb (ceq c LT)) url) in
  rev (trimLoop 0 (rev result)).

Definition isUrlEnd (c : char) : bool :=
  ceq c SP || ceq c TAB || ceq c LF || ceq c LT.

Definition autolinkNode (dest literal : str) : Inline :=
  Link dest [] [Text literal false false None].

(** [parseWwwAutolink(text, pos, charBefore)] *)
Definition parseWwwAutolink (text : str) (pos : nat) (charBefore : option char)
  : option (Inline * nat) :=
  if negb (isValidPrecedingChar charBefore) then None
  else if precededByOpenAngle text pos then None
  else if negb (startsWith (toLowerCase (sliceFrom text pos)) (js "www.")) then None
  else
    match parseValidDomain text (pos + 4) true with
    | None => None
    | Some (_, domainEnd) =>
        let endPos := skipWhile (fun c => negb (isUrlEnd c)) text domainEnd in
        let trimmedUrl := trimAutolinkPath (slice text pos endPos) in
        if length trimmedUrl <=? 4 then None
        else Some (autolinkNode (js "http://" ++ trimmedUrl) trimmedUrl, length trimmedUrl)
    end.

(** [parseUrlAutolink(text, pos, charBefore)] *)
Definition parseUrlAutolink (text : str) (pos : nat) (charBefore : option char)
  : option (Inline * nat) :=
  if negb (isValidPrecedingChar charBefore) then None
  else if precededByOpenAngle text pos then None
  else
    let lower := toLowerCase (sliceFrom text pos) in
    let scheme :=
      if startsWith lower (js "https://") then Some (js "https://")
      else if startsWith lower (js "http://") then Some (js "http://")
      else if startsWith lower (js "ftp://") then Some (js "ftp://")
      else None in
    match scheme with
    | None => None
    | Some scheme =>
        match parseValidDomain text (pos + length scheme) false with
        | None => None
        | Some (_, domainEnd) =>
            let endPos := skipWhile (fun c => negb (isUrlEnd c)) text domainEnd in
            let trimmedUrl := trimAutolinkPath (slice text pos endPos) in
            if length trimmedUrl <=? length scheme then None
            else Some (autolinkNode trimmedUrl trimmedUrl, length trimmedUrl)
        end
    end.

Definition isEmailLocal (c : char) : bool :=
  isAlnum c || ceq c DOT || ceq c DASH || ceq c UNDERSCORE || ceq c PLUS.

Definition isEmailDomain (c : char) : bool :=
  isAlnum c || ceq c DASH || ceq c UNDERSCORE.

(** The domain loop of the e-mail forms: the number of characters passed and
    whether a period was among them. *)
Fixpoint emailDomainLoop (atSegmentStart : bool) (s : str) : nat * bool :=
  match s with
  | [] => (0, false)
  | c :: r =>
      if isEmailDomain c then
        let (n, dot) := emailDomainLoop false r in (S n, dot)
      else if ceq c DOT then
        if atSegmentStart then (0, false)
        else let (n, _) := emailDomainLoop true r in (S n, true)
      else (0, false)
  end.

(** The address that [parseEmailAutolink] and [parseProtocolAutolink] read
    from [emailStart]: the local part, the domain, and where the domain ends. *)
Definition emailAt (text : str) (emailStart : nat) : option (str * str * nat) :=
  let localEnd := skipWhile isEmailLocal text emailStart in
  if localEnd =? emailStart then None
  else if negb (charIs text localEnd 64) then None
  else
    let localPart := slice text emailStart localEnd in
    let domainStart := localEnd + 1 in
    let (n, sawDot) := emailDomainLoop true (sliceFrom text domainStart) in
    let domainEnd := domainStart + n in
    if negb sawDot then None
    else if charIs text (domainEnd - 1) DASH || charIs text (domainEnd - 1) UNDERSCORE
    then None
    else
      let domain := dropWhileEnd (fun c => ceq c DOT) (slice text domainStart domainEnd) in
      if negb (memc DOT domain) then None
      else Some (localPart, domain, domainStart + length domain).

(** [parseEmailAutolink(text, pos, charBefore)] *)
Definition parseEmailAutolink (text : str) (pos : nat) (charBefore : option char)
  : option (Inline * nat) :=
  if negb (isValidEmailPrecedingChar charBefore) then None
  else if precededByOpenAngle text pos then None
  else
    match emailAt text pos with
    | None => None
    | Some (localPart, domain, _) =>
        let email := localPart ++ [64%Z] ++ domain in
        Some (autolinkNode (js "mailto:" ++ email) email, length email)
    end.

(** The resource that may follow an [xmpp:] address, from the [/] at
    [finalEnd]: empty when there is none to add. *)
Definition xmppResource (text : str) (finalEnd : nat) : str :=
  if charIs text finalEnd SLASH then
    let resourceEnd :=
      skipWhile (fun c => isAlnum c || ceq c 64 || ceq c DOT) text (finalEnd + 1) in
    if finalEnd + 1 <? resourceEnd then
      let resource := slice text finalEnd resourceEnd in
      let resource :=
        match resource with
        | c :: r =>
            let r := fst (span (fun d => negb (ceq d SLASH)) r) in
            c :: dropWhileEnd (fun d => memc d (js "?!.,:*_~")) r
        | [] => []
        end in
      if 1 <? length resource then resource else []
    else []
  else [].

(** [parseProtocolAutolink(text, pos, charBefore)] *)
Definition parseProtocolAutolink (text : str) (pos : nat) (charBefore : option char)
  : option (Inline * nat) :=
  if negb (isValidEmailPrecedingChar charBefore) then None
  else if precededByOpenAngle text pos then None
  else
    let lower := toLowerCase (sliceFrom text pos) in
    let protocol :=
      if startsWith lower (js "mailto:") then Some (js "mailto:", false)
      else if startsWith lower (js "xmpp:") then Some (js "xmpp:", true)
      else None in
    match protocol with
    | None => None
    | Some (protocol, isXmpp) =>
        match emailAt text (pos + length protocol) with
        | None => None
        | Some (localPart, domain, finalEnd) =>
            let fullUrl := protocol ++ localPart ++ [64%Z] ++ domain in
            let fullUrl := if isXmpp then fullUrl ++ xmppResource text finalEnd else fullUrl in
            Some (autolinkNode fullUrl fullUrl, length fullUrl)
        end
    end.

(** [parseExtendedAutolink(text, pos, charBefore)] *)
Definition parseExtendedAutolink (text : str) (pos : nat) (charBefore : option char)
  : option (Inline * nat) :=
  match parseProtocolAutolink text pos charBefore with
  | Some r => Some r
  | None =>
      match parseUrlAutolink text pos charBefore with
      | Some r => Some r
      | None =>
          match parseWwwAutolink text pos charBefore with
          | Some r => Some r
          | None => parseEmailAutolink text pos charBefore
          end
      end
  end.

(** ** blocks/code-block-indented.ts *)

(** [countLeadingSpaces] of utils.ts is [getIndent]. *)
Definition countLeadingSpaces (line : str) : nat := getIndent line.

(** [isIndentedCodeLine(line)] *)
Definition isIndentedCodeLine (line : str) : bool :=
  negb (isBlank line) && (4 <=? countLeadingSpaces line).

(** The loop of [removeIndentation(line, amount)]: [line] is [line.slice(i)]. *)
Fixpoint removeIndentation_loop (line : str) (amount removed : nat) : str :=
  match line with
  | [] => []
  | c :: r =>
      if removed <? amount then
        if ceq c SP then removeIndentation_loop r amount (removed + 1)
        else if ceq c TAB then
          let tabWidth := 4 - removed mod 4 in
          if removed + tabWidth <=? amount
          then removeIndentation_loop r amount (removed + tabWidth)
          else line
        else line
      else line
  end.

Definition removeIndentation (line : str) (amount : nat) : str :=
  removeIndentation_loop line amount 0.

(** ** utils.ts: the GFM tag filter *)

Definition TAG_FILTER : list str :=
  [js "title"; js "textarea"; js "style"; js "xmp"; js "iframe"; js "noembed";
   js "noframes"; js "script"; js "plaintext"].

(** [[ \t\n\r]] of the filter's pattern. *)
Definition isTagSpace (c : char) : bool := ceq c SP || ceq c TAB || ceq c LF || ceq c CR.

(** [\w] without the [u] flag. *)
Definition isWordChar (c : char) : bool := isAlnum c || ceq c UNDERSCORE.

(** A tag name (the [i] flag folds the ASCII letters) and the word boundary
    after it. *)
Definition nameThenBoundary (s name : str) : bool :=
  startsWithCI s name
  && match skipn (length name) s with
     | c :: _ => negb (isWordChar c)
     | [] => true
     end.

(** The look-ahead of the filter's pattern, on what follows a [<]: white
    space, an optional [/], white space, one of the names and a word
    boundary. *)
Definition tagFilterLookahead (s : str) : bool :=
  let s1 := dropWhile isTagSpace s in
  let s2 := match s1 with
            | c :: r => if ceq c SLASH then dropWhile isTagSpace r else s1
            | [] => s1
            end in
  existsb (nameThenBoundary s2) TAG_FILTER.

(** [applyTagFilter(html)]: every [<] at which the look-ahead succeeds is
    replaced with [&lt;]. *)
Fixpoint applyTagFilter (html : str) : str :=
  match html with
  | [] => []
  | c :: r =>
      if ceq c LT && tagFilterLookahead r then js "&lt;" ++ applyTagFilter r
      else c :: applyTagFilter r
  end.

(** [isTagFilterTag(tagName)] *)
Definition isTagFilterTag (tagName : str) : bool :=
  existsb (str_eqb (toLowerCase tagName)) TAG_FILTER.

(** * Notions the properties are stated with *)

(** ** C4: the characters of a reference after its ampersand *)

Definition isReferenceChar (c : char) : bool := isAlnum c || ceq c HASH || ceq c SEMI.

(** ** C3: what the link-reference table stores *)

(** Some character of [s] is not white space. *)
Definition hasVisible (s : str) : bool := existsb (fun c => negb (isJsSpace c)) s.

(** Where a definition writes its destination: what is left of [text] after
    the indentation, the label, the colon and the white space that
    [parseLinkReferenceDefinition] passes before it reads the destination.
    The destination is in angle brackets when this starts with [<], and in
    bare form otherwise. *)
Definition destinationSite (text : str) : str :=
  let pos := length (fst (spanUpTo 3 (fun c => ceq c SP) text)) in
  match matchLinkLabel (sliceFrom text pos) with
  | Some (_, labelLen) =>
      let pos := pos + labelLen in
      let pos := pos + 1 in
      let pos := pos + matchBeforeDest (sliceFrom text pos) in
      sliceFrom text pos
  | None => []
  end.

(** An entry of the link-reference table as C3 can have it.  The label is
    not empty.  The entry is what [parseLinkReferenceDefinition] returned on
    a text, the definition as it is written; the destination stored is not
    empty when that text writes it in bare form, and it is empty exactly when
    the text writes the empty angle-bracket destination [<>]. *)
Definition StoredDefinition (entry : str * LinkReferenceDefinition) : Prop :=
  fst entry <> [] /\
  exists text result,
    parseLinkReferenceDefinition text = Some result /\
    label result = fst entry /\ definition result = snd entry /\
    (startsWith (destinationSite text) [LT] = false -> destination (snd entry) <> []) /\
    (destination (snd entry) = [] <-> startsWith (destinationSite text) [LT; GT] = true).

(** A string that holds no [<]. *)
Definition noLT (s : str) : bool := forallb (fun c => negb (ceq c LT)) s.

(** An entry of the table with a non-empty destination. *)
Definition hasDestination (entry : str * LinkReferenceDefinition) : Prop :=
  destination (snd entry) <> [].

(** What the loop of [parseBlocks] keeps over lines without [<]: no buffered
    line holds one, and every stored definition has a destination. *)
Definition cleanState (st : PState) : Prop :=
  forallb noLT (paragraphLines st) = true /\ Forall hasDestination (linkReferences st).

(** ** C8: tables among the children of a container *)

Definition isTable (block : RawBlock) : bool :=
  match block with Table _ _ => true | _ => false end.

(** The container has the children it had and, after them, blocks that are
    not tables. *)
Definition noTableOpened (st st' : PState) : Prop :=
  exists added, children st' = children st ++ added
                /\ forallb (fun block => negb (isTable block)) added = true.

(** ** C5: the delimiter list of [processEmphasis] *)

(** What [buildNodeDelims] returns: the nodes with their literals unchanged
    and, in increasing order of index, entries that point at text nodes whose
    literal is not empty and as long as the run says. *)
Definition delimAt (nodes : list Inline) (base : nat) (e : NodeDelim) : Prop :=
  base <= ndIndex e /\
  exists l a b c,
    nth_error nodes (ndIndex e - base) = Some (Text l a b c) /\
    1 <= length l /\ runLen (ndRun e) = length l.

(** ** C5: the measure of the lines of a block parse

    A recursive parse runs on the lines of a block quote, with one [>] taken
    off each, or on the lines of a list item, with the marker taken off the
    first.  A line is measured by the characters that such steps can still
    take off; the measure ignores spaces and tabs, which the column
    arithmetic of the parser rewrites freely. *)

(** A line without its spaces and tabs. *)
Definition skeleton (l : str) : str := filter (fun c => negb (isSpaceTab c)) l.

(** The number of leading [>]. *)
Fixpoint leadGt (s : str) : nat :=
  match s with
  | c :: r => if ceq c GT then S (leadGt r) else 0
  | [] => 0
  end.

(** The first character that is not [>] is the lazy-continuation prefix. *)
Fixpoint nulForm (s : str) : bool :=
  match s with
  | c :: r => if ceq c GT then nulForm r else ceq c NUL
  | [] => false
  end.

(** The [>] in front of a lazy-continuation prefix. *)
Definition preDeg (s : str) : nat := if nulForm s then leadGt s else 0.

(** The characters other than the prefix. *)
Definition visible (s : str) : nat := length (filter (fun c => negb (ceq c NUL)) s).

(** The characters other than the prefix, where a [>] that only leads to a
    prefix does not count. *)
Fixpoint quoteDeg (s : str) : nat :=
  match s with
  | [] => 0
  | c :: r =>
      if ceq c NUL then quoteDeg r
      else if ceq c GT && nulForm r then quoteDeg r
      else S (visible r)
  end.

Definition lineDeg (l : str) : nat := quoteDeg (skeleton l).
Definition linePre (l : str) : nat := preDeg (skeleton l).

(** The two components of the measure of a list of lines. *)
Definition sumDeg (ls : list str) : nat := list_sum (map lineDeg ls).
Definition maxPre (ls : list str) : nat := list_max (map linePre ls).

(** A line as [split] leaves it after [normalizeLineEndings]: it holds no
    line feed and no carriage return. *)
Definition safeChar (c : char) : bool := negb (ceq c LF || ceq c CR).
Definition safeLine (l : str) : bool := forallb safeChar l.
Definition noCR (c : char) : bool := negb (ceq c CR).

(** A character that no container prefix and no indentation is made of. *)
Definition solid (c : char) : bool :=
  negb (isSpaceTab c) && negb (ceq c NUL) && negb (ceq c GT).

(** [content] stands for the line [line0] in a recursive parse: it weighs no
    more and holds no line terminator unless [line0] does. *)
Definition fits (line0 content : str) : Prop :=
  lineDeg content <= lineDeg line0 /\ (safeLine line0 = true -> safeLine content = true).

(** A block quote line whose [>] counts: it is not part of a prefix that a
    lazy continuation line was given. *)
Definition plainQuote (l : str) : bool :=
  isBlockquoteStart l && negb (nulForm (skeleton l)).

(** The lines [parse] works on. *)
Definition linesOf (input : str) : list str := splitLF (normalizeLineEndings input).

(** ** C5: the inputs of the recursive parses

    [subInputs lines] lists every string a parser over [lines] can hand to a
    recursive parse: at every line that starts a block quote, the quote
    collected from there; at every line that holds a list marker, the item
    collected from there. *)

Definition quoteCandidate (ls : list str) : list str :=
  match ls with
  | l :: _ => if isBlockquoteStart l then [joinLF (fst (quoteLoop [] None ls))] else []
  | [] => []
  end.

Definition itemCandidate (ls : list str) : list str :=
  match ls with
  | l :: _ =>
      match parseListMarker l with
      | Some m => [joinLF (fst (fst (fst (collectListItem m ls))))]
      | None => []
      end
  | [] => []
  end.

Fixpoint subInputs (ls : list str) : list str :=
  match ls with
  | [] => []
  | _ :: r => quoteCandidate ls ++ itemCandidate ls ++ subInputs r
  end.

(** The order in which the lines of a recursive parse come before the lines
    of the parse that starts it. *)
Definition smaller (child : str) (ls : list str) : Prop :=
  sumDeg (linesOf child) < sumDeg ls
  \/ (sumDeg (linesOf child) <= sumDeg ls /\ maxPre (linesOf child) < maxPre ls).

(** ** Block quotes one inside the other, [n] deep *)

Fixpoint nestedQuotes (n : nat) : list RawBlock :=
  match n with
  | O => []
  | S n' => [Blockquote (nestedQuotes n')]
  end.

(** ** JavaScript strings and the output of [encodeUrl] *)

(** A code unit of a JavaScript string. *)
Definition isCodeUnit (c : char) : bool := inRange 0 65535 c.

(** Well-formed UTF-16: every high surrogate is followed by a low one and
    every low surrogate follows a high one. *)
Fixpoint wellFormedUtf16 (s : str) : bool :=
  match s with
  | [] => true
  | c :: r =>
      if isHighSurrogate c then
        match r with
        | lo :: r' => isLowSurrogate lo && wellFormedUtf16 r'
        | [] => false
        end
      else negb (isLowSurrogate c) && wellFormedUtf16 r
  end.

(** The characters [encodeUrl] writes. *)
Definition isUrlOutChar (c : char) : bool := isUrlSafeChar c || ceq c PERCENT.

Definition isUpperHex (c : char) : bool := isDigit c || inRange 65 70 c.

(** A string made of characters [encodeUrl] passes and of percent escapes in
    upper case. *)
Inductive Encoded : str -> Prop :=
| Encoded_nil : Encoded []
| Encoded_safe : forall c r, isUrlSafeChar c = true -> Encoded r -> Encoded (c :: r)
| Encoded_escape : forall a b r,
    isUpperHex a = true -> isUpperHex b = true -> Encoded r -> Encoded (PERCENT :: a :: b :: r).

(** The destinations the renderer writes out of an inline node: those of the
    links and images it reaches.  Struck-through text is not reached by this
    renderer. *)
Fixpoint inlineDestinations (inline : Inline) : list str :=
  match inline with
  | Link dest _ inlines => dest :: flat_map inlineDestinations inlines
  | Image dest _ _ => [dest]
  | Emphasis inlines | Strong inlines => flat_map inlineDestinations inlines
  | _ => []
  end.

(** The same for a block; the cells of a table are not reached. *)
Fixpoint blockDestinations (block : Block (list Inline)) : list str :=
  match block with
  | Paragraph inlines | Heading _ inlines => flat_map inlineDestinations inlines
  | Blockquote blocks | ListBlock _ _ _ _ _ blocks | ListItem _ blocks =>
      flat_map blockDestinations blocks
  | _ => []
  end.

(** The table [m] is [m0] with entries added at its end. *)
Definition grown (m0 m : RefMap) : Prop := exists extra, m = m0 ++ extra.

(** A character that means nothing to the inline parser, wherever it stands
    in a line, and that the renderer writes as it is. *)
Definition isInert (c : char) : bool :=
  negb (memc c [BSLASH; AMP; BACKTICK; LT; GT; DQUOTE; STAR; UNDERSCORE; LBRACKET;
                RBRACKET; LF; CR]).

(** A line of plain text: it starts with a letter, holds inert characters
    only and does not end in white space. *)
Definition plainLine (l : str) : bool :=
  match l with
  | c :: _ => isAlpha c && forallb isInert l && negb (isJsSpace (last l c))
  | [] => false
  end.

(** The inline nodes of a paragraph of plain lines: a text node for each
    line, and a soft break between two of them. *)
Fixpoint plainNodes (ls : list str) : list Inline :=
  match ls with
  | [] => []
  | [l] => [createTextNode l]
  | l :: rest => createTextNode l :: Softbreak :: plainNodes rest
  end.

(** A character of a destination that is written as it is everywhere: the
    link parser, the decoding of escapes and entities, [encodeUrl] and the
    HTML escaping all leave it alone. *)
Definition isPlainUrlChar (c : char) : bool :=
  isAlnum c || memc c (js "-._~:/?#@=+,;").

(** * Properties *)

(** ** C1: removeIndent *)

Lemma ceq_eq : forall a b, ceq a b = true <-> a = b.
Proof. intros; apply Z.eqb_eq. Qed.

Lemma ceq_neq : forall a b, ceq a b = false <-> a <> b.
Proof. intros; apply Z.eqb_neq. Qed.

Lemma ceq_sym : forall a b, ceq a b = ceq b a.
Proof. intros a b. unfold ceq. apply Z.eqb_sym. Qed.

Lemma in_repeat_eq : forall (c d : char) n, In c (repeat d n) -> c = d.
Proof. intros c d n H. apply repeat_spec in H. exact H. Qed.

Lemma expandRestOfLine_no_tab : forall rest col, ~ In TAB (expandRestOfLine rest col).
Proof.
  induction rest as [|c r IH]; intros col; simpl; [tauto|].
  destruct (ceq c TAB) eqn:E.
  - intros H. apply in_app_or in H. destruct H as [H|H].
    + apply in_repeat_eq in H. discriminate.
    + exact (IH _ H).
  - intros [H|H].
    + apply ceq_neq in E. congruence.
    + exact (IH _ H).
Qed.

Lemma removeIndent_loop_spec : forall line N removed,
  removed <= N ->
  removeIndent_plain line N removed (removeIndent_loop line N removed) \/
  removeIndent_straddle line N removed (removeIndent_loop line N removed).
Proof.
  induction line as [|c r IH]; intros N removed Hle.
  - left. exists [], []. cbn. repeat split; auto.
  - cbn [removeIndent_loop]. destruct (removed <? N) eqn:Hlt.
    + apply Nat.ltb_lt in Hlt.
      destruct (ceq c SP) eqn:Esp.
      * apply ceq_eq in Esp. subst c.
        destruct (IH N (removed + 1) ltac:(lia)) as [H|H].
        -- left. destruct H as (ws & rest & -> & Hws & Hw & Hout & Hstop).
           exists (SP :: ws), rest. cbn [app forallb indentWidth].
           repeat split; auto.
        -- right. destruct H as (ws & rest & -> & Hws & Hw1 & Hw2 & Hout & Hnt).
           exists (SP :: ws), rest. cbn [app forallb indentWidth].
           repeat split; auto.
      * destruct (ceq c TAB) eqn:Etab.
        -- apply ceq_eq in Etab. subst c.
           destruct (removed + (4 - removed mod 4) <=? N) eqn:Hfit.
           ++ apply Nat.leb_le in Hfit.
              destruct (IH N (removed + (4 - removed mod 4)) Hfit) as [H|H].
              ** left. destruct H as (ws & rest & -> & Hws & Hw & Hout & Hstop).
                 exists (TAB :: ws), rest. cbn [app forallb indentWidth].
                 repeat split; auto.
              ** right. destruct H as (ws & rest & -> & Hws & Hw1 & Hw2 & Hout & Hnt).
                 exists (TAB :: ws), rest. cbn [app forallb indentWidth].
                 repeat split; auto.
           ++ apply Nat.leb_gt in Hfit. right.
              exists [], r. cbn [app forallb indentWidth].
              split; [reflexivity|]. split; [reflexivity|]. split; [lia|].
              split; [lia|]. split; [f_equal; f_equal; lia|].
              intros H. apply in_app_or in H. destruct H as [H|H].
              ** apply in_repeat_eq in H. discriminate.
              ** exact (expandRestOfLine_no_tab _ _ H).
        -- left. exists [], (c :: r). cbn [app forallb indentWidth].
           repeat split; auto; try lia.
           right. right. exists c, r. split; auto.
           unfold isSpaceTab. rewrite Esp, Etab. reflexivity.
    + apply Nat.ltb_ge in Hlt. left. exists [], (c :: r). cbn [app forallb indentWidth].
      repeat split; auto. left. lia.
Qed.

(** C1 (amended).  [removeIndent(line, N)] consumes a run [ws] of leading spaces
    and tabs of at most [N] columns, a tab counting [4 - (column mod 4)].
    Either no tab straddles column [N]: the rest of the line is returned
    unchanged (its tabs literal), and the run stops at exactly [N] columns, at
    the end of the line or at the first character that is neither a space nor
    a tab.  Or a tab straddles column [N]: the columns of that tab beyond [N]
    are returned as spaces, followed by the rest of the line with every
    later tab expanded to spaces up to its 4-column tab stop, so the
    returned string holds no tab at all. *)
Theorem removeIndent_consumes_columns : forall line N,
  removeIndent_plain line N 0 (removeIndent line N) \/
  removeIndent_straddle line N 0 (removeIndent line N).
Proof.
  intros line N. unfold removeIndent. apply removeIndent_loop_spec. lia.
Qed.

(** C1 (as stated) fails: in [removeIndent("\t\tx", 2)] the first tab straddles
    column 2 and the second tab, which lies in the returned text, comes back as
    four spaces instead of a literal tab. *)
Lemma removeIndent_later_tab_expanded :
  removeIndent [TAB; TAB; 120%Z] 2 = repeat SP 6 ++ [120%Z] /\
  removeIndent [TAB; TAB; 120%Z] 2 <> repeat SP 2 ++ [TAB; 120%Z].
Proof. split; [reflexivity | discriminate]. Qed.

(** ** Facts about the string helpers *)

Lemma span_app_stop : forall p a t b,
  forallb p a = true -> p t = false -> span p (a ++ t :: b) = (a, t :: b).
Proof.
  induction a as [|c a IH]; intros t b Ha Ht; cbn [app span].
  - rewrite Ht. reflexivity.
  - cbn [forallb] in Ha. apply andb_true_iff in Ha. destruct Ha as [Hc Ha].
    rewrite Hc, (IH t b Ha Ht). reflexivity.
Qed.

Lemma spanUpTo_app_stop : forall p n a t b,
  forallb p a = true -> p t = false -> length a <= n ->
  spanUpTo n p (a ++ t :: b) = (a, t :: b).
Proof.
  intros p n a. revert n.
  induction a as [|c a IH]; intros n t b Ha Ht Hn; cbn [app].
  - destruct n; cbn [spanUpTo]; [reflexivity|]. rewrite Ht. reflexivity.
  - cbn [forallb] in Ha. apply andb_true_iff in Ha. destruct Ha as [Hc Ha].
    destruct n; [cbn in Hn; lia|]. cbn [spanUpTo]. rewrite Hc.
    rewrite (IH n t b Ha Ht); [reflexivity|]. cbn in Hn. lia.
Qed.

Lemma str_eqb_refl : forall s, str_eqb s s = true.
Proof.
  induction s as [|c s IH]; cbn; [reflexivity|].
  unfold ceq. rewrite Z.eqb_refl. exact IH.
Qed.

Lemma str_eqb_eq : forall a b, str_eqb a b = true <-> a = b.
Proof.
  induction a as [|x a IH]; destruct b as [|y b]; cbn; split; intros H;
    try reflexivity; try discriminate.
  - apply andb_true_iff in H. destruct H as [H1 H2].
    apply ceq_eq in H1. apply IH in H2. congruence.
  - injection H as -> ->. apply andb_true_iff. split.
    + apply ceq_eq. reflexivity.
    + apply IH. reflexivity.
Qed.

Lemma decode_loop_skip_all : forall s k,
  length s <= k -> decodeHtmlEntities_loop k s = [].
Proof.
  induction s as [|c s IH]; intros k Hk; cbn [decodeHtmlEntities_loop]; [reflexivity|].
  destruct k; [cbn in Hk; lia|]. apply IH. cbn in Hk. lia.
Qed.

Ltac charcases := unfold isDigit, isHexDigit, isAlpha, isAlnum, isUpper, isLower, inRange, ceq, SEMI, AMP, HASH in *.

Lemma isDigit_hex : forall c, isDigit c = true -> isHexDigit c = true.
Proof. intros c H. unfold isHexDigit. rewrite H. reflexivity. Qed.

Lemma forallb_digit_hex : forall ds, forallb isDigit ds = true -> forallb isHexDigit ds = true.
Proof.
  induction ds as [|c ds IH]; cbn; [reflexivity|]. intros H.
  apply andb_true_iff in H. destruct H as [H1 H2].
  rewrite (isDigit_hex _ H1), (IH H2). reflexivity.
Qed.

Lemma digitValue_digit : forall c, isDigit c = true ->
  exists d, digitValue c = Some d /\ (0 <= d < 10)%Z.
Proof.
  intros c H. unfold digitValue. rewrite H. eexists. split; [reflexivity|].
  charcases. lia.
Qed.

Lemma digitValue_hex : forall c, isHexDigit c = true ->
  exists d, digitValue c = Some d /\ (0 <= d < 16)%Z.
Proof.
  intros c H. unfold digitValue.
  destruct (isDigit c) eqn:E1.
  - eexists. split; [reflexivity|]. charcases. lia.
  - destruct (inRange 65 70 c) eqn:E2.
    + eexists. split; [reflexivity|]. charcases. lia.
    + unfold isHexDigit in H. rewrite E1, E2 in H. cbn in H. rewrite H.
      eexists. split; [reflexivity|]. charcases. lia.
Qed.

Lemma parseInt_digits : forall ds, forallb isDigit ds = true -> ds <> [] ->
  parseInt ds 10 = Some (decimalValue ds).
Proof.
  intros [|c ds] H Hne; [congruence|]. cbn [forallb] in H.
  apply andb_true_iff in H. destruct H as [Hc _].
  destruct (digitValue_digit _ Hc) as (d & Hd & Hr).
  unfold parseInt. rewrite Hd.
  destruct (d <? 10)%Z eqn:E; [reflexivity|]. apply Z.ltb_ge in E. lia.
Qed.

Lemma parseInt_hexdigits : forall ds, forallb isHexDigit ds = true -> ds <> [] ->
  parseInt ds 16 = Some (hexValue ds).
Proof.
  intros [|c ds] H Hne; [congruence|]. cbn [forallb] in H.
  apply andb_true_iff in H. destruct H as [Hc _].
  destruct (digitValue_hex _ Hc) as (d & Hd & Hr).
  unfold parseInt. rewrite Hd.
  destruct (d <? 16)%Z eqn:E; [reflexivity|]. apply Z.ltb_ge in E. lia.
Qed.

Lemma charAt_sliceFrom : forall text pos c r,
  sliceFrom text pos = c :: r -> charAt text pos = Some c.
Proof.
  unfold sliceFrom, charAt. induction text as [|a text IH]; intros [|pos] c r H; cbn in *;
    try discriminate.
  - congruence.
  - eapply IH; eauto.
Qed.

Lemma semi_not_hex : isHexDigit SEMI = false.
Proof. reflexivity. Qed.
Lemma semi_not_digit : isDigit SEMI = false.
Proof. reflexivity. Qed.
Lemma semi_not_alnum : isAlnum SEMI = false.
Proof. reflexivity. Qed.

Lemma decimalRef_app : forall ds rest,
  decimalRef ds ++ rest = AMP :: HASH :: ds ++ SEMI :: rest.
Proof. intros. unfold decimalRef. cbn [app]. rewrite <- app_assoc. reflexivity. Qed.

Lemma hexRef_app : forall x ds rest,
  hexRef x ds ++ rest = AMP :: HASH :: x :: ds ++ SEMI :: rest.
Proof. intros. unfold hexRef. cbn [app]. rewrite <- app_assoc. reflexivity. Qed.

Lemma namedRef_app : forall c nm rest,
  namedRef c nm ++ rest = AMP :: c :: nm ++ SEMI :: rest.
Proof. intros. unfold namedRef. cbn [app]. rewrite <- app_assoc. reflexivity. Qed.

Lemma digit_not_x : forall d, isDigit d = true -> ceq d 120 || ceq d 88 = false.
Proof. intros d H. charcases. lia. Qed.

Lemma alpha_not_hash : forall c, isAlpha c = true -> ceq c HASH = false.
Proof. intros c H. charcases. lia. Qed.

(** [ENTITY_REGEX] matches a decimal reference, whatever follows it. *)
Lemma matchEntity_decimal : forall ds rest, isDecimalRef ds ->
  matchEntity (decimalRef ds ++ rest) = Some (decimalRef ds).
Proof.
  intros ds rest (Hd & Hl1 & Hl2). rewrite decimalRef_app. unfold decimalRef.
  destruct ds as [|d ds]; [cbn in Hl1; lia|].
  assert (Hx : ceq d 120 || ceq d 88 = false).
  { apply digit_not_x. cbn [forallb] in Hd. apply andb_true_iff in Hd. tauto. }
  change ((d :: ds) ++ SEMI :: rest) with (d :: ds ++ SEMI :: rest).
  cbn [matchEntity]. change (ceq AMP AMP) with true. change (ceq HASH HASH) with true.
  cbv iota. rewrite Hx.
  change (d :: ds ++ SEMI :: rest) with ((d :: ds) ++ SEMI :: rest).
  rewrite (spanUpTo_app_stop isDigit 7 (d :: ds) SEMI rest Hd semi_not_digit Hl2).
  reflexivity.
Qed.

Lemma matchEntity_hex : forall x ds rest, isHexRef x ds ->
  matchEntity (hexRef x ds ++ rest) = Some (hexRef x ds).
Proof.
  intros x ds rest (Hx & Hd & Hl1 & Hl2). rewrite hexRef_app. unfold hexRef.
  assert (Hxx : ceq x 120 || ceq x 88 = true) by (destruct Hx; subst; reflexivity).
  cbn [matchEntity]. change (ceq AMP AMP) with true. change (ceq HASH HASH) with true.
  cbv iota. rewrite Hxx.
  rewrite (spanUpTo_app_stop isHexDigit 6 ds SEMI rest Hd semi_not_hex Hl2).
  destruct ds as [|d ds]; [cbn in Hl1; lia|]. reflexivity.
Qed.

Lemma matchEntity_named : forall c nm rest, isNamedRef c nm ->
  matchEntity (namedRef c nm ++ rest) = Some (namedRef c nm).
Proof.
  intros c nm rest (Hc & Hn & Hl). rewrite namedRef_app. unfold namedRef.
  cbn [matchEntity]. change (ceq AMP AMP) with true. cbv iota.
  rewrite (alpha_not_hash _ Hc), Hc.
  rewrite (spanUpTo_app_stop isAlnum 31 nm SEMI rest Hn semi_not_alnum Hl).
  reflexivity.
Qed.

Lemma decode_loop_match : forall c r capture,
  matchEntityRef (c :: r) = Some capture ->
  decodeHtmlEntities_loop 0 (c :: r) =
  decodeCapture capture ++ decodeHtmlEntities_loop (S (length capture)) r.
Proof. intros c r capture H. cbn [decodeHtmlEntities_loop]. rewrite H. reflexivity. Qed.

Lemma decode_loop_nomatch : forall c r,
  matchEntityRef (c :: r) = None ->
  decodeHtmlEntities_loop 0 (c :: r) = c :: decodeHtmlEntities_loop 0 r.
Proof. intros c r H. cbn [decodeHtmlEntities_loop]. rewrite H. reflexivity. Qed.

Lemma matchEntityRef_decimal : forall ds rest, forallb isDigit ds = true -> ds <> [] ->
  matchEntityRef (AMP :: HASH :: ds ++ SEMI :: rest) = Some (HASH :: ds).
Proof.
  intros ds rest Hd Hne. destruct ds as [|d ds]; [congruence|].
  assert (Hx : ceq d 120 || ceq d 88 = false).
  { apply digit_not_x. cbn [forallb] in Hd. apply andb_true_iff in Hd. tauto. }
  unfold matchEntityRef. change (ceq AMP AMP) with true. change (ceq HASH HASH) with true.
  cbv iota. change ((d :: ds) ++ SEMI :: rest) with (d :: ds ++ SEMI :: rest).
  cbv iota. rewrite Hx.
  change (d :: ds ++ SEMI :: rest) with ((d :: ds) ++ SEMI :: rest).
  rewrite (span_app_stop isHexDigit (d :: ds) SEMI rest (forallb_digit_hex _ Hd) semi_not_hex).
  reflexivity.
Qed.

Lemma matchEntityRef_hex : forall (x : char) (ds rest : str),
  (x = 120%Z \/ x = 88%Z) -> forallb isHexDigit ds = true -> ds <> [] ->
  matchEntityRef (AMP :: HASH :: x :: ds ++ SEMI :: rest) = Some (HASH :: x :: ds).
Proof.
  intros x ds rest Hx Hd Hne.
  assert (Hxx : ceq x 120 || ceq x 88 = true) by (destruct Hx; subst; reflexivity).
  unfold matchEntityRef. change (ceq AMP AMP) with true. change (ceq HASH HASH) with true.
  cbv iota. rewrite Hxx.
  rewrite (span_app_stop isHexDigit ds SEMI rest Hd semi_not_hex).
  destruct ds as [|d ds]; [congruence|]. reflexivity.
Qed.

Lemma matchEntityRef_named : forall c nm rest,
  isAlpha c = true -> forallb isAlnum nm = true ->
  matchEntityRef (AMP :: c :: nm ++ SEMI :: rest) = Some (c :: nm).
Proof.
  intros c nm rest Hc Hn.
  unfold matchEntityRef. change (ceq AMP AMP) with true. cbv iota.
  rewrite (alpha_not_hash _ Hc), Hc.
  rewrite (span_app_stop isAlnum nm SEMI rest Hn semi_not_alnum).
  reflexivity.
Qed.

(** [decodeHtmlEntities] applied to exactly one reference is the callback's result. *)
Lemma decode_decimal : forall ds, isDecimalRef ds ->
  decodeHtmlEntities (decimalRef ds) = decodeCapture (HASH :: ds).
Proof.
  intros ds (Hd & Hl1 & Hl2). unfold decodeHtmlEntities, decimalRef.
  assert (Hne : ds <> []) by (destruct ds; [cbn in Hl1; lia | discriminate]).
  rewrite (decode_loop_match _ _ _ (matchEntityRef_decimal ds [] Hd Hne)).
  rewrite decode_loop_skip_all; [apply app_nil_r|].
  cbn [length]. rewrite length_app. cbn [length]. lia.
Qed.

Lemma decode_hex : forall x ds, isHexRef x ds ->
  decodeHtmlEntities (hexRef x ds) = decodeCapture (HASH :: x :: ds).
Proof.
  intros x ds (Hx & Hd & Hl1 & Hl2). unfold decodeHtmlEntities, hexRef.
  assert (Hne : ds <> []) by (destruct ds; [cbn in Hl1; lia | discriminate]).
  rewrite (decode_loop_match _ _ _ (matchEntityRef_hex x ds [] Hx Hd Hne)).
  rewrite decode_loop_skip_all; [apply app_nil_r|].
  cbn [length]. rewrite length_app. cbn [length]. lia.
Qed.

Lemma decode_named : forall c nm, isNamedRef c nm ->
  decodeHtmlEntities (namedRef c nm) = decodeCapture (c :: nm).
Proof.
  intros c nm (Hc & Hn & Hl). unfold decodeHtmlEntities, namedRef.
  rewrite (decode_loop_match _ _ _ (matchEntityRef_named c nm [] Hc Hn)).
  rewrite decode_loop_skip_all; [apply app_nil_r|].
  cbn [length]. rewrite length_app. cbn [length]. lia.
Qed.

Lemma startsWith_hash_x_digit : forall d ds x,
  isDigit d = true -> (x = 120%Z \/ x = 88%Z) ->
  startsWith (HASH :: d :: ds) [35%Z; x] = false.
Proof.
  intros d ds x Hd Hx. cbn [startsWith]. change (ceq 35 HASH) with true.
  assert (ceq x d = false) by (destruct Hx; subst; charcases; lia).
  rewrite H. reflexivity.
Qed.

Lemma decodeCapture_decimal : forall ds, isDecimalRef ds ->
  decodeCapture (HASH :: ds) =
  if (0 <=? decimalValue ds)%Z && (decimalValue ds <=? 1114111)%Z then
    if (decimalValue ds =? 0)%Z then [REPLACEMENT] else fromCodePoint (decimalValue ds)
  else decimalRef ds.
Proof.
  intros ds (Hd & Hl1 & Hl2). unfold decodeCapture.
  destruct ds as [|d ds]; [cbn in Hl1; lia|].
  assert (Hd0 : isDigit d = true) by (cbn [forallb] in Hd; apply andb_true_iff in Hd; tauto).
  change (js "#x") with [35%Z; 120%Z]. change (js "#X") with [35%Z; 88%Z].
  rewrite !startsWith_hash_x_digit by auto. cbn [orb].
  change (startsWith (HASH :: d :: ds) (js "#")) with true. cbv iota.
  change (sliceFrom (HASH :: d :: ds) 1) with (d :: ds).
  rewrite parseInt_digits by (auto; discriminate). reflexivity.
Qed.

Lemma decodeCapture_hex : forall x ds, isHexRef x ds ->
  decodeCapture (HASH :: x :: ds) =
  if (0 <=? hexValue ds)%Z && (hexValue ds <=? 1114111)%Z then
    if (hexValue ds =? 0)%Z then [REPLACEMENT] else fromCodePoint (hexValue ds)
  else hexRef x ds.
Proof.
  intros x ds (Hx & Hd & Hl1 & Hl2). unfold decodeCapture.
  assert (Hs : startsWith (HASH :: x :: ds) (js "#x") || startsWith (HASH :: x :: ds) (js "#X") = true)
    by (destruct Hx; subst; reflexivity).
  rewrite Hs. change (sliceFrom (HASH :: x :: ds) 2) with ds.
  rewrite parseInt_hexdigits; [reflexivity | exact Hd |].
  destruct ds; [cbn in Hl1; lia | discriminate].
Qed.

Lemma decodeCapture_unknown : forall c nm, isNamedRef c nm ->
  HTML_ENTITIES (c :: nm) = None -> decodeCapture (c :: nm) = namedRef c nm.
Proof.
  intros c nm (Hc & Hn & Hl) Hnone. unfold decodeCapture.
  assert (Hh : ceq 35 c = false) by (charcases; lia).
  change (js "#x") with [35%Z; 120%Z]. change (js "#X") with [35%Z; 88%Z].
  change (js "#") with [35%Z]. cbn [startsWith]. rewrite Hh. cbn [andb orb].
  rewrite Hnone. reflexivity.
Qed.

Lemma parseEntity_at : forall text pos entity rest,
  sliceFrom text pos = entity ++ rest ->
  matchEntity (entity ++ rest) = Some entity ->
  parseEntity text pos =
  if str_eqb (decodeHtmlEntities entity) entity then None
  else Some (decodeHtmlEntities entity, length entity).
Proof.
  intros text pos entity rest Hs Hm. unfold parseEntity.
  assert (Ha : charIs text pos AMP = true).
  { unfold charIs. destruct (entity ++ rest) as [|c r] eqn:E.
    - rewrite <- E in Hm. rewrite E in Hm. discriminate.
    - rewrite (charAt_sliceFrom _ _ _ _ Hs).
      unfold matchEntity in Hm. destruct r as [|c1 r1]; [discriminate|].
      destruct (ceq c AMP); [reflexivity | discriminate]. }
  rewrite Ha. cbn [negb]. rewrite Hs, Hm. reflexivity.
Qed.

(** ** C2: a trailing blank line after an unterminated HTML block *)

(** C2 fails on the code.  The claim says that appending one more blank
    line to an input that ends in a newline never changes the rendered HTML.
    On an unterminated comment block it does: every remaining line, blank ones
    included, is added to the block, and the renderer strips a single final
    line feed.  The result depends neither on the runtime parameters nor on
    the nesting bound. *)
Theorem html_block_keeps_trailing_blank_lines : forall depth,
  markdown (S depth) (js "<!--" ++ [LF]) = Some (js "<!--" ++ [LF; LF]) /\
  markdown (S depth) ((js "<!--" ++ [LF]) ++ [LF]) = Some (js "<!--" ++ [LF; LF; LF]) /\
  markdown (S depth) (js "<!--" ++ [LF]) <> markdown (S depth) ((js "<!--" ++ [LF]) ++ [LF]).
Proof.
  intro depth.
  assert (H1 : markdown (S depth) (js "<!--" ++ [LF]) = Some (js "<!--" ++ [LF; LF]))
    by (vm_compute; reflexivity).
  assert (H2 : markdown (S depth) ((js "<!--" ++ [LF]) ++ [LF])
               = Some (js "<!--" ++ [LF; LF; LF]))
    by (vm_compute; reflexivity).
  split; [exact H1 | split; [exact H2 |]].
  rewrite H1, H2. vm_compute. discriminate.
Qed.

(** The sibling path of C2.  An unterminated fenced code block drops its
    trailing empty lines, so there the extra blank line changes nothing. *)
Lemma fenced_block_drops_trailing_blank_lines : forall depth,
  markdown (S depth) (js "```" ++ [LF] ++ js "a" ++ [LF]) =
  markdown (S depth) ((js "```" ++ [LF] ++ js "a" ++ [LF]) ++ [LF]).
Proof. intro depth. vm_compute. reflexivity. Qed.

(** ** C6: an emphasis node without children *)

(** A run of [*] at the start of the nodes, before something that is not
    white space, can open and cannot close, whatever the punctuation test
    says. *)
Lemma computeDelimiterRun_star_opening : forall literal after,
  nth 0 literal STAR = STAR -> isWhitespaceChar after = false ->
  computeDelimiterRun literal [LF] after = mkRun STAR (length literal) true false (length literal).
Proof.
  intros literal after Hc Hw. unfold computeDelimiterRun, flanking.
  rewrite Hc, Hw. change (isWhitespaceChar [LF]) with true.
  change (ceq STAR STAR) with true. cbv iota. cbn [negb andb orb].
  destruct (isUnicodePunctuation after), (isUnicodePunctuation [LF]); reflexivity.
Qed.

(** A run of [*] at the end of the nodes, after something that is not white
    space, can close and cannot open. *)
Lemma computeDelimiterRun_star_closing : forall literal before,
  nth 0 literal STAR = STAR -> isWhitespaceChar before = false ->
  computeDelimiterRun literal before [LF] = mkRun STAR (length literal) false true (length literal).
Proof.
  intros literal before Hc Hw. unfold computeDelimiterRun, flanking.
  rewrite Hc, Hw. change (isWhitespaceChar [LF]) with true.
  change (ceq STAR STAR) with true. cbv iota. cbn [negb andb orb].
  destruct (isUnicodePunctuation before), (isUnicodePunctuation [LF]); reflexivity.
Qed.

Lemma emphasis_without_children_aux : forall refs,
  InlineParser_parse refs (js "*&#42;") = Some [Emphasis []] /\
  InlineParser_parse refs (js "**&#42;&#42;") = Some [Strong []] /\
  InlineParser_parse refs (js "*\*") =
    Some [Text [STAR] false false (Some 1); Text [STAR] true false None].
Proof.
  intro refs. unfold InlineParser_parse. split; [|split].
  - assert (H : parse_loop refs (js "*&#42;") (length (js "*&#42;")) (mkIState [] [] 0 [])
                = Some (mkIState [Text [STAR] false false (Some 1)] [] 6 [STAR]))
      by (vm_compute; reflexivity).
    rewrite H. unfold processEmphasis. cbn -[computeDelimiterRun].
    rewrite !(computeDelimiterRun_star_opening [STAR] [STAR]) by reflexivity.
    rewrite !(computeDelimiterRun_star_closing [STAR] [STAR]) by reflexivity.
    vm_compute. reflexivity.
  - assert (H : parse_loop refs (js "**&#42;&#42;") (length (js "**&#42;&#42;"))
                  (mkIState [] [] 0 [])
                = Some (mkIState [Text [STAR; STAR] false false (Some 2)] [] 12 [STAR; STAR]))
      by (vm_compute; reflexivity).
    rewrite H. unfold processEmphasis. cbn -[computeDelimiterRun].
    rewrite !(computeDelimiterRun_star_opening [STAR; STAR] [STAR]) by reflexivity.
    rewrite !(computeDelimiterRun_star_closing [STAR; STAR] [STAR]) by reflexivity.
    vm_compute. reflexivity.
  - assert (H : parse_loop refs (js "*\*") (length (js "*\*")) (mkIState [] [] 0 [])
                = Some (mkIState [Text [STAR] false false (Some 1);
                                  Text [STAR] true false None] [] 3 []))
      by (vm_compute; reflexivity).
    rewrite H. unfold processEmphasis. cbn -[computeDelimiterRun].
    rewrite !(computeDelimiterRun_star_opening [STAR] [STAR]) by reflexivity.
    vm_compute. reflexivity.
Qed.

(** C6 fails on the code.  The claim says every emphasis and strong node has
    at least one child.  A [*] written as a numeric character reference
    reaches the text buffer and becomes a text node that [processEmphasis]
    takes for a delimiter; it closes the [*] before it, and the emphasis node
    has no child.  An escaped [\*] is marked [noDelim] and does not. *)
Theorem emphasis_without_children : forall refs,
  InlineParser_parse refs (js "*&#42;") = Some [Emphasis []] /\
  InlineParser_parse refs (js "**&#42;&#42;") = Some [Strong []] /\
  InlineParser_parse refs (js "*\*") =
    Some [Text [STAR] false false (Some 1); Text [STAR] true false None].
Proof. exact emphasis_without_children_aux. Qed.

(** The same through [parse] and [render]: the document holds a paragraph
    whose only child is an emphasis node without children. *)
Lemma emphasis_without_children_document : forall depth,
  parse (S depth) (js "*&#42;") = Some [Paragraph [Emphasis []]] /\
  markdown (S depth) (js "*&#42;") = Some (js "<p><em></em></p>" ++ [LF]).
Proof.
  intro depth. unfold markdown, parse.
  assert (Hb : BlockParser_parse (S depth) (js "*&#42;") = Some ([Paragraph (js "*&#42;")], []))
    by (vm_compute; reflexivity).
  rewrite Hb.
  assert (Hp : mapOpt (processBlock []) [Paragraph (js "*&#42;")]
               = Some [Paragraph [Emphasis []]]).
  { cbn [mapOpt processBlock].
    change (inlineChildren [] (js "*&#42;")) with (InlineParser_parse [] (js "*&#42;")).
    rewrite (proj1 (emphasis_without_children_aux [])). reflexivity. }
  rewrite Hp. split; [reflexivity | vm_compute; reflexivity].
Qed.

(** ** Strings: what [span] and [dropWhile] split off *)

Lemma span_no_stop : forall p (s : str), forallb p s = true -> span p s = (s, []).
Proof.
  intros p s. induction s as [|c s IH]; intro H; [reflexivity|]. cbn [forallb] in H.
  apply andb_true_iff in H as [Hc Hs]. cbn [span]. rewrite Hc, (IH Hs). reflexivity.
Qed.

Lemma forallb_weaken : forall (p q : char -> bool) l,
  (forall c, p c = true -> q c = true) -> forallb p l = true -> forallb q l = true.
Proof.
  intros p q l Hpq. induction l as [|c l IH]; cbn [forallb]; [reflexivity|].
  intro H. apply andb_true_iff in H. destruct H as (Hc & Hl).
  rewrite (Hpq c Hc), (IH Hl). reflexivity.
Qed.

Lemma dropWhile_split : forall p (s : str),
  exists ws, s = ws ++ dropWhile p s /\ forallb p ws = true.
Proof.
  intros p. induction s as [|c s IH]; [exists []; auto|].
  cbn [dropWhile]. destruct (p c) eqn:E.
  - destruct IH as (ws & Hs & Hws). exists (c :: ws). cbn [app forallb].
    rewrite E, Hws. split; [f_equal; exact Hs | reflexivity].
  - exists []. auto.
Qed.

Lemma dropWhile_head : forall p (s : str) c r, dropWhile p s = c :: r -> p c = false.
Proof.
  intros p. induction s as [|d s IH]; intros c r H; [discriminate|].
  cbn [dropWhile] in H. destruct (p d) eqn:E; [eauto|].
  injection H as -> _. exact E.
Qed.

Lemma dropWhileEnd_prefix : forall p (s : str), exists tail, s = dropWhileEnd p s ++ tail.
Proof.
  intros p s. unfold dropWhileEnd.
  destruct (dropWhile_split p (rev s)) as (ws & Hs & _).
  exists (rev ws). rewrite <- rev_app_distr, <- Hs. symmetry. apply rev_involutive.
Qed.

Lemma dropWhile_snoc_keep : forall p (a : str) c,
  p c = false -> exists a', dropWhile p (a ++ [c]) = a' ++ [c].
Proof.
  intros p a c Hc. induction a as [|d a IH]; cbn [app dropWhile].
  - rewrite Hc. exists []. reflexivity.
  - destruct (p d); [exact IH|]. exists (d :: a). reflexivity.
Qed.

(** ** C9: what may precede an extended autolink *)

Lemma isValidPrecedingChar_email : forall charBefore,
  isValidPrecedingChar charBefore = true -> isValidEmailPrecedingChar charBefore = true.
Proof.
  intros [c|] H; [|reflexivity].
  unfold isValidPrecedingChar, isValidEmailPrecedingChar, memc in *.
  apply existsb_exists in H. destruct H as (x & Hin & Hx).
  apply existsb_exists. exists x. split; [|exact Hx].
  cbn in Hin |- *. intuition.
Qed.

Lemma parseWwwAutolink_guard : forall text pos charBefore r,
  parseWwwAutolink text pos charBefore = Some r ->
  isValidPrecedingChar charBefore = true /\ precededByOpenAngle text pos = false.
Proof.
  intros text pos charBefore r. unfold parseWwwAutolink.
  destruct (isValidPrecedingChar charBefore); [|discriminate].
  destruct (precededByOpenAngle text pos); [discriminate|]. auto.
Qed.

Lemma parseUrlAutolink_guard : forall text pos charBefore r,
  parseUrlAutolink text pos charBefore = Some r ->
  isValidPrecedingChar charBefore = true /\ precededByOpenAngle text pos = false.
Proof.
  intros text pos charBefore r. unfold parseUrlAutolink.
  destruct (isValidPrecedingChar charBefore); [|discriminate].
  destruct (precededByOpenAngle text pos); [discriminate|]. auto.
Qed.

Lemma parseEmailAutolink_guard : forall text pos charBefore r,
  parseEmailAutolink text pos charBefore = Some r ->
  isValidEmailPrecedingChar charBefore = true /\ precededByOpenAngle text pos = false.
Proof.
  intros text pos charBefore r. unfold parseEmailAutolink.
  destruct (isValidEmailPrecedingChar charBefore); [|discriminate].
  destruct (precededByOpenAngle text pos); [discriminate|]. auto.
Qed.

Lemma parseProtocolAutolink_guard : forall text pos charBefore r,
  parseProtocolAutolink text pos charBefore = Some r ->
  isValidEmailPrecedingChar charBefore = true /\ precededByOpenAngle text pos = false.
Proof.
  intros text pos charBefore r. unfold parseProtocolAutolink.
  destruct (isValidEmailPrecedingChar charBefore); [|discriminate].
  destruct (precededByOpenAngle text pos); [discriminate|]. auto.
Qed.

(** The four forms of [parseExtendedAutolink]: which one gave the result. *)
Lemma parseExtendedAutolink_cases : forall text pos charBefore r,
  parseExtendedAutolink text pos charBefore = Some r ->
  parseProtocolAutolink text pos charBefore = Some r \/
  parseUrlAutolink text pos charBefore = Some r \/
  parseWwwAutolink text pos charBefore = Some r \/
  parseEmailAutolink text pos charBefore = Some r.
Proof.
  intros text pos charBefore r. unfold parseExtendedAutolink.
  destruct (parseProtocolAutolink text pos charBefore); [auto|].
  destruct (parseUrlAutolink text pos charBefore); [auto|].
  destruct (parseWwwAutolink text pos charBefore); auto.
Qed.

Lemma dropWhile_app_all : forall p a b,
  forallb p a = true -> dropWhile p (a ++ b) = dropWhile p b.
Proof.
  intros p a b. induction a as [|x a IH]; cbn [forallb app dropWhile]; [reflexivity|].
  intro H. apply andb_true_iff in H. destruct H as (Hx & Ha). rewrite Hx. auto.
Qed.

(** A [<] before [pos] with only spaces, tabs and line feeds in between is
    found by [precededByOpenAngle]. *)
Lemma precededByOpenAngle_across_space : forall pre ws rest,
  forallb isSpTabLf ws = true ->
  precededByOpenAngle (pre ++ [LT] ++ ws ++ rest) (length (pre ++ [LT] ++ ws)) = true.
Proof.
  intros pre ws rest Hws. unfold precededByOpenAngle.
  replace (length (pre ++ [LT] ++ ws ++ rest) <? length (pre ++ [LT] ++ ws)) with false.
  2:{ symmetry. apply Nat.ltb_ge. rewrite !length_app. lia. }
  replace (pre ++ [LT] ++ ws ++ rest) with ((pre ++ [LT] ++ ws) ++ rest)
    by (rewrite <- !app_assoc; reflexivity).
  rewrite firstn_app, Nat.sub_diag, firstn_all. cbn [firstn]. rewrite app_nil_r.
  rewrite !rev_app_distr. cbn [rev app].
  rewrite <- app_assoc.
  rewrite dropWhile_app_all.
  - cbn [app dropWhile]. change (isSpTabLf LT) with false. cbv iota. reflexivity.
  - rewrite forallb_forall in *. intros x Hx. apply Hws. apply in_rev. exact Hx.
Qed.

(** *** The match does not depend on where in the text it stands *)

Lemma sliceFrom_shift : forall (text : str) pos k,
  sliceFrom (sliceFrom text pos) k = sliceFrom text (pos + k).
Proof.
  intros text pos k. unfold sliceFrom. rewrite skipn_skipn. f_equal. apply Nat.add_comm.
Qed.

Lemma skipWhile_shift : forall p text pos k,
  skipWhile p text (pos + k) = pos + skipWhile p (sliceFrom text pos) k.
Proof.
  intros p text pos k. unfold skipWhile. rewrite sliceFrom_shift. apply eq_sym, Nat.add_assoc.
Qed.

Lemma charIs_shift : forall text pos k c,
  charIs text (pos + k) c = charIs (sliceFrom text pos) k c.
Proof.
  intros text pos k c. unfold charIs, charAt, sliceFrom. rewrite nth_error_skipn. reflexivity.
Qed.

Lemma slice_shift : forall (text : str) pos a b,
  slice text (pos + a) (pos + b) = slice (sliceFrom text pos) a b.
Proof.
  intros text pos a b. unfold slice. fold (sliceFrom text (pos + a)).
  rewrite <- sliceFrom_shift. unfold sliceFrom. f_equal. lia.
Qed.

Lemma parseValidDomain_shift : forall text pos k requirePeriod,
  parseValidDomain text (pos + k) requirePeriod =
  match parseValidDomain (sliceFrom text pos) k requirePeriod with
  | Some (domain, endPos) => Some (domain, pos + endPos)
  | None => None
  end.
Proof.
  intros text pos k rp. unfold parseValidDomain. rewrite sliceFrom_shift.
  destruct (domainLoop (sliceFrom text (pos + k)) [] []) as [[sg cur] n].
  repeat match goal with |- context [if ?c then _ else _] => destruct c end;
    try reflexivity; rewrite Nat.add_assoc; reflexivity.
Qed.

Lemma emailAt_shift : forall text pos k,
  emailAt text (pos + k) =
  match emailAt (sliceFrom text pos) k with
  | Some (localPart, domain, finalEnd) => Some (localPart, domain, pos + finalEnd)
  | None => None
  end.
Proof.
  intros text pos k. unfold emailAt. rewrite skipWhile_shift.
  set (localEnd := skipWhile isEmailLocal (sliceFrom text pos) k).
  replace (pos + localEnd =? pos + k) with (localEnd =? k).
  2:{ destruct (localEnd =? k) eqn:E; symmetry;
        [apply Nat.eqb_eq in E; apply Nat.eqb_eq; lia
        | apply Nat.eqb_neq in E; apply Nat.eqb_neq; lia]. }
  destruct (localEnd =? k); [reflexivity|].
  rewrite charIs_shift. destruct (negb (charIs (sliceFrom text pos) localEnd 64));
    [reflexivity|].
  rewrite slice_shift.
  replace (pos + localEnd + 1) with (pos + (localEnd + 1)) by lia.
  rewrite <- sliceFrom_shift.
  destruct (emailDomainLoop true (sliceFrom (sliceFrom text pos) (localEnd + 1)))
    as [n sawDot].
  destruct (negb sawDot); [reflexivity|].
  replace (pos + (localEnd + 1) + n - 1) with (pos + (localEnd + 1 + n - 1)) by lia.
  rewrite !charIs_shift.
  destruct (charIs (sliceFrom text pos) (localEnd + 1 + n - 1) DASH
            || charIs (sliceFrom text pos) (localEnd + 1 + n - 1) UNDERSCORE); [reflexivity|].
  replace (pos + (localEnd + 1) + n) with (pos + (localEnd + 1 + n)) by lia.
  rewrite slice_shift.
  destruct (negb (memc DOT _)); [reflexivity|].
  f_equal. f_equal. lia.
Qed.

Lemma xmppResource_shift : forall text pos k,
  xmppResource text (pos + k) = xmppResource (sliceFrom text pos) k.
Proof.
  intros text pos k. unfold xmppResource. rewrite charIs_shift.
  destruct (charIs (sliceFrom text pos) k SLASH); [|reflexivity].
  replace (pos + k + 1) with (pos + (k + 1)) by lia.
  rewrite skipWhile_shift.
  set (resourceEnd := skipWhile _ (sliceFrom text pos) (k + 1)).
  replace (pos + (k + 1) <? pos + resourceEnd) with (k + 1 <? resourceEnd).
  2:{ destruct (k + 1 <? resourceEnd) eqn:E; symmetry;
        [apply Nat.ltb_lt in E; apply Nat.ltb_lt; lia
        | apply Nat.ltb_ge in E; apply Nat.ltb_ge; lia]. }
  rewrite slice_shift. reflexivity.
Qed.

Lemma precededByOpenAngle_start : forall text, precededByOpenAngle text 0 = false.
Proof. intro text. reflexivity. Qed.

(** Each of the four forms, at [pos] with [charBefore]: nothing when the
    guard on [charBefore] or the guard on a [<] before [pos] fails, and
    otherwise what the form gives on the text from [pos] on, read as a text
    of its own. *)
Lemma parseWwwAutolink_here : forall text pos charBefore,
  parseWwwAutolink text pos charBefore =
  if isValidPrecedingChar charBefore && negb (precededByOpenAngle text pos)
  then parseWwwAutolink (sliceFrom text pos) 0 None else None.
Proof.
  intros text pos charBefore. unfold parseWwwAutolink.
  rewrite precededByOpenAngle_start. cbn [isValidPrecedingChar negb].
  destruct (isValidPrecedingChar charBefore); [|reflexivity].
  destruct (precededByOpenAngle text pos); [reflexivity|]. cbn [andb negb].
  change (sliceFrom (sliceFrom text pos) 0) with (sliceFrom text pos).
  destruct (negb (startsWith _ _)); [reflexivity|].
  change (0 + 4) with 4. rewrite parseValidDomain_shift.
  destruct (parseValidDomain (sliceFrom text pos) 4 true) as [[d e]|]; [|reflexivity].
  rewrite skipWhile_shift.
  replace (slice text pos (pos + skipWhile (fun c => negb (isUrlEnd c)) (sliceFrom text pos) e))
    with (slice (sliceFrom text pos) 0
            (skipWhile (fun c => negb (isUrlEnd c)) (sliceFrom text pos) e)).
  2:{ rewrite <- slice_shift. f_equal. lia. }
  reflexivity.
Qed.

Lemma parseUrlAutolink_here : forall text pos charBefore,
  parseUrlAutolink text pos charBefore =
  if isValidPrecedingChar charBefore && negb (precededByOpenAngle text pos)
  then parseUrlAutolink (sliceFrom text pos) 0 None else None.
Proof.
  intros text pos charBefore. unfold parseUrlAutolink.
  rewrite precededByOpenAngle_start. cbn [isValidPrecedingChar negb].
  destruct (isValidPrecedingChar charBefore); [|reflexivity].
  destruct (precededByOpenAngle text pos); [reflexivity|]. cbn [andb negb].
  change (sliceFrom (sliceFrom text pos) 0) with (sliceFrom text pos). cbv zeta.
  match goal with
  | |- match ?s with Some _ => _ | None => _ end = _ => destruct s as [scheme|]
  end; [|reflexivity].
  cbn [Nat.add]. rewrite parseValidDomain_shift.
  destruct (parseValidDomain (sliceFrom text pos) (length scheme) false) as [[d e]|];
    [|reflexivity].
  rewrite skipWhile_shift.
  replace (slice text pos (pos + skipWhile (fun c => negb (isUrlEnd c)) (sliceFrom text pos) e))
    with (slice (sliceFrom text pos) 0
            (skipWhile (fun c => negb (isUrlEnd c)) (sliceFrom text pos) e)).
  2:{ rewrite <- slice_shift. f_equal. lia. }
  reflexivity.
Qed.

Lemma parseEmailAutolink_here : forall text pos charBefore,
  parseEmailAutolink text pos charBefore =
  if isValidEmailPrecedingChar charBefore && negb (precededByOpenAngle text pos)
  then parseEmailAutolink (sliceFrom text pos) 0 None else None.
Proof.
  intros text pos charBefore. unfold parseEmailAutolink.
  rewrite precededByOpenAngle_start. cbn [isValidEmailPrecedingChar negb].
  destruct (isValidEmailPrecedingChar charBefore); [|reflexivity].
  destruct (precededByOpenAngle text pos); [reflexivity|]. cbn [andb negb].
  replace (emailAt text pos) with (emailAt text (pos + 0)) by (f_equal; lia).
  rewrite emailAt_shift.
  destruct (emailAt (sliceFrom text pos) 0) as [[[l d] e]|]; reflexivity.
Qed.

Lemma parseProtocolAutolink_here : forall text pos charBefore,
  parseProtocolAutolink text pos charBefore =
  if isValidEmailPrecedingChar charBefore && negb (precededByOpenAngle text pos)
  then parseProtocolAutolink (sliceFrom text pos) 0 None else None.
Proof.
  intros text pos charBefore. unfold parseProtocolAutolink.
  rewrite precededByOpenAngle_start. cbn [isValidEmailPrecedingChar negb].
  destruct (isValidEmailPrecedingChar charBefore); [|reflexivity].
  destruct (precededByOpenAngle text pos); [reflexivity|]. cbn [andb negb].
  change (sliceFrom (sliceFrom text pos) 0) with (sliceFrom text pos). cbv zeta.
  match goal with
  | |- match ?s with Some _ => _ | None => _ end = _ => destruct s as [[protocol isXmpp]|]
  end; [|reflexivity].
  cbn [Nat.add]. rewrite emailAt_shift.
  destruct (emailAt (sliceFrom text pos) (length protocol)) as [[[l d] e]|];
    [|reflexivity].
  rewrite xmppResource_shift. reflexivity.
Qed.

(** *** The [<] before the match *)

Lemma isSpTabLf_memc : forall c, isSpTabLf c = memc c [SP; TAB; LF].
Proof.
  intro c. unfold isSpTabLf, memc. cbn [existsb].
  rewrite orb_false_r, orb_assoc. reflexivity.
Qed.

(** [precededByOpenAngle] finds a [<] before [pos] exactly when only spaces,
    tabs and line feeds stand between it and [pos]. *)
Lemma precededByOpenAngle_spec : forall text pos,
  precededByOpenAngle text pos = true <->
  pos <= length text /\
  exists pre ws, firstn pos text = pre ++ LT :: ws /\
                 forallb (fun c => memc c [SP; TAB; LF]) ws = true.
Proof.
  intros text pos. split.
  - unfold precededByOpenAngle. destruct (length text <? pos) eqn:El; [discriminate|].
    apply Nat.ltb_ge in El. intro H. split; [exact El|].
    destruct (dropWhile_split isSpTabLf (rev (firstn pos text))) as (ws & Hs & Hws).
    destruct (dropWhile isSpTabLf (rev (firstn pos text))) as [|c r]; [discriminate|].
    apply ceq_eq in H. subst c. exists (rev r), (rev ws). split.
    + rewrite <- (rev_involutive (firstn pos text)), Hs, rev_app_distr. cbn [rev].
      rewrite <- app_assoc. reflexivity.
    + apply forallb_forall. intros x Hx. apply in_rev in Hx.
      rewrite forallb_forall in Hws. rewrite <- isSpTabLf_memc. apply Hws, Hx.
  - intros (Hle & pre & ws & Hf & Hws).
    assert (Ht : text = pre ++ [LT] ++ ws ++ skipn pos text).
    { rewrite <- (firstn_skipn pos text) at 1. rewrite Hf, <- app_assoc. reflexivity. }
    assert (Hp : pos = length (pre ++ [LT] ++ ws)).
    { change (pre ++ [LT] ++ ws) with (pre ++ LT :: ws). rewrite <- Hf, length_firstn. lia. }
    assert (Hsp : forallb isSpTabLf ws = true).
    { apply forallb_forall. intros x Hx. rewrite forallb_forall in Hws.
      rewrite isSpTabLf_memc. apply Hws, Hx. }
    pose proof (precededByOpenAngle_across_space pre ws (skipn pos text) Hsp) as H.
    rewrite <- Ht, <- Hp in H. exact H.
Qed.

(** *** A text that is an autolink *)

Lemma alnum_domain_char : forall c,
  isAlnum c = true ->
  isDomainChar c = true /\ isHighSurrogate c = false /\ ceq c UNDERSCORE = false
  /\ ceq c LT = false /\ ceq c RPAREN = false /\ ceq c SEMI = false
  /\ memc c (js "?!.,:*_~" ++ [DQUOTE; SQUOTE]) = false.
Proof.
  intros c H. unfold isDomainChar. rewrite H. split; [reflexivity|].
  unfold isAlnum, isAlpha, isUpper, isLower, isDigit, isHighSurrogate, inRange, ceq,
    UNDERSCORE, LT, RPAREN, SEMI, memc in *. cbn [existsb js map String.list_ascii_of_string app].
  unfold ceq, DQUOTE, SQUOTE. cbn. lia.
Qed.

Lemma domainLoop_alnum : forall a tail segments currentSegment,
  forallb isAlnum a = true ->
  domainLoop (a ++ tail) segments currentSegment =
  let '(sg, cur, n) := domainLoop tail segments (currentSegment ++ a) in
  (sg, cur, length a + n).
Proof.
  induction a as [|c a IH]; intros tail sg cur Ha.
  - cbn [app length Nat.add]. rewrite app_nil_r.
    destruct (domainLoop tail sg cur) as [[sg' cur'] n]. reflexivity.
  - cbn [forallb] in Ha. apply andb_true_iff in Ha. destruct Ha as (Hc & Ha).
    destruct (alnum_domain_char c Hc) as (Hd & Hs & _).
    assert (Hstep : forall r, domainLoop (c :: r) sg cur =
              let '(sg', cur', n) := domainLoop r sg (cur ++ [c]) in (sg', cur', S n)).
    { intro r. cbn [domainLoop]. rewrite Hd, Hs. destruct r; reflexivity. }
    cbn [app]. rewrite Hstep, (IH tail sg (cur ++ [c]) Ha), <- app_assoc. cbn [app].
    destruct (domainLoop tail sg (cur ++ c :: a)) as [[sg' cur'] n]. reflexivity.
Qed.

Lemma domainLoop_dot : forall r segments x currentSegment,
  domainLoop (DOT :: r) segments (x :: currentSegment) =
  let '(sg, cur, n) := domainLoop r (segments ++ [x :: currentSegment]) [] in
  (sg, cur, S n).
Proof. intros r sg x cur. destruct r; reflexivity. Qed.

Lemma domainLoop_stop : forall rest segments currentSegment,
  rest = [] \/ (exists more, rest = SP :: more) ->
  domainLoop rest segments currentSegment = (segments, currentSegment, 0).
Proof.
  intros rest sg cur [-> | (more & ->)]; [reflexivity|]. destruct more; reflexivity.
Qed.

Lemma alnum_no_underscore : forall s, forallb isAlnum s = true -> memc UNDERSCORE s = false.
Proof.
  induction s as [|c s IH]; [reflexivity|]. cbn [forallb]. intro H.
  apply andb_true_iff in H. destruct H as (Hc & Hs).
  destruct (alnum_domain_char c Hc) as (_ & _ & Hu & _).
  unfold memc in *. cbn [existsb]. rewrite (ceq_sym UNDERSCORE c), Hu. apply IH, Hs.
Qed.

(** A prefix without [<], two labels of letters and digits with a period
    between them, and then the end of the text or a space: the domain is the
    two labels, and the match ends where they end, with nothing trimmed. *)
Lemma domain_of_labels : forall pfx a b rest requirePeriod,
  a <> [] -> b <> [] -> forallb isAlnum a = true -> forallb isAlnum b = true ->
  rest = [] \/ (exists more, rest = SP :: more) ->
  forallb (fun c => negb (ceq c LT)) pfx = true ->
  let url := pfx ++ a ++ [DOT] ++ b in
  let text := pfx ++ a ++ [DOT] ++ b ++ rest in
  parseValidDomain text (length pfx) requirePeriod = Some (join [DOT] [a; b], length url)
  /\ skipWhile (fun c => negb (isUrlEnd c)) text (length url) = length url
  /\ slice text 0 (length url) = url
  /\ trimAutolinkPath url = url.
Proof.
  intros pfx a b rest rp Ha0 Hb0 Ha Hb Hrest Hpfx url text.
  assert (Htext : text = url ++ rest).
  { unfold text, url. rewrite <- !app_assoc. reflexivity. }
  assert (Hlen : length url = length pfx + (length a + S (length b + 0))).
  { unfold url. rewrite !length_app. cbn [length]. lia. }
  split; [|split; [|split]].
  - unfold parseValidDomain.
    assert (Hs : sliceFrom text (length pfx) = a ++ DOT :: b ++ rest).
    { unfold text, sliceFrom. rewrite skipn_app, skipn_all, Nat.sub_diag. reflexivity. }
    rewrite Hs, (domainLoop_alnum a _ [] [] Ha). cbn [app].
    destruct a as [|x a']; [congruence|].
    rewrite domainLoop_dot, (domainLoop_alnum b rest _ [] Hb). cbn [app].
    rewrite (domainLoop_stop rest _ b Hrest).
    destruct b as [|y b']; [congruence|].
    cbn [app length Nat.ltb Nat.leb andb negb Nat.sub skipn existsb].
    rewrite (alnum_no_underscore _ Ha), (alnum_no_underscore _ Hb). cbn [orb].
    rewrite Hlen. cbn [length]. destruct rp; reflexivity.
  - unfold skipWhile. rewrite Htext. unfold sliceFrom.
    rewrite skipn_app, skipn_all, Nat.sub_diag. cbn [skipn app].
    destruct Hrest as [-> | (more & ->)]; cbn [span fst length]; apply Nat.add_0_r.
  - unfold slice. rewrite Htext. cbn [skipn]. rewrite Nat.sub_0_r, firstn_app, firstn_all,
      Nat.sub_diag. cbn [firstn]. apply app_nil_r.
  - unfold trimAutolinkPath. rewrite span_no_stop.
    2:{ unfold url. rewrite !forallb_app, Hpfx. cbn [forallb andb].
        rewrite (forallb_weaken isAlnum _ a), (forallb_weaken isAlnum _ b);
          try assumption; try reflexivity;
          intros c Hc; destruct (alnum_domain_char c Hc) as (_ & _ & _ & Hlt & _);
          rewrite Hlt; reflexivity. }
    cbn [fst].
    assert (Hrev : exists y r, rev url = y :: r /\ isAlnum y = true).
    { unfold url. rewrite !rev_app_distr.
      destruct (rev b) as [|y r] eqn:Er.
      - exfalso. apply Hb0. rewrite <- (rev_involutive b), Er. reflexivity.
      - exists y. eexists. split; [reflexivity|].
        rewrite forallb_forall in Hb. apply Hb, in_rev. rewrite Er. left. reflexivity. }
    destruct Hrev as (y & r & Hr & Hy). rewrite Hr. cbn [trimLoop].
    destruct (alnum_domain_char y Hy) as (_ & _ & _ & _ & Hp & Hs & Hm).
    rewrite Hm, Hp, Hs. cbn [andb]. rewrite <- Hr. apply rev_involutive.
Qed.

(** [www.] and two labels: an autolink to [http://] and these characters,
    provided lower-casing leaves the [www.] in place. *)
Lemma parseWwwAutolink_labels : forall a b rest,
  a <> [] -> b <> [] -> forallb isAlnum a = true -> forallb isAlnum b = true ->
  rest = [] \/ (exists more, rest = SP :: more) ->
  startsWith (toLowerCase (js "www." ++ a ++ [DOT] ++ b ++ rest)) (js "www.") = true ->
  parseWwwAutolink (js "www." ++ a ++ [DOT] ++ b ++ rest) 0 None =
  Some (autolinkNode (js "http://www." ++ a ++ [DOT] ++ b) (js "www." ++ a ++ [DOT] ++ b),
        4 + length a + 1 + length b).
Proof.
  intros a b rest Ha0 Hb0 Ha Hb Hrest Hlow.
  destruct (domain_of_labels (js "www.") a b rest true Ha0 Hb0 Ha Hb Hrest eq_refl)
    as (Hdomain & Hend & Hslice & Htrim).
  unfold parseWwwAutolink. rewrite precededByOpenAngle_start.
  cbn [isValidPrecedingChar negb].
  change (sliceFrom (js "www." ++ a ++ [DOT] ++ b ++ rest) 0)
    with (js "www." ++ a ++ [DOT] ++ b ++ rest).
  rewrite Hlow. cbn [negb].
  change (0 + 4) with (length (js "www.")).
  rewrite Hdomain, Hend, Hslice, Htrim.
  assert (Hlen : length (js "www." ++ a ++ [DOT] ++ b) = 4 + length a + 1 + length b).
  { rewrite !length_app. cbn [length js map String.list_ascii_of_string]. lia. }
  replace (length (js "www." ++ a ++ [DOT] ++ b) <=? 4) with false
    by (symmetry; apply Nat.leb_gt; lia).
  rewrite Hlen. reflexivity.
Qed.

(** [http://] and two labels: an autolink to these characters, provided
    lower-casing leaves the scheme in place. *)
Lemma parseUrlAutolink_labels : forall a b rest,
  a <> [] -> b <> [] -> forallb isAlnum a = true -> forallb isAlnum b = true ->
  rest = [] \/ (exists more, rest = SP :: more) ->
  startsWith (toLowerCase (js "http://" ++ a ++ [DOT] ++ b ++ rest)) (js "https://") = false ->
  startsWith (toLowerCase (js "http://" ++ a ++ [DOT] ++ b ++ rest)) (js "http://") = true ->
  parseUrlAutolink (js "http://" ++ a ++ [DOT] ++ b ++ rest) 0 None =
  Some (autolinkNode (js "http://" ++ a ++ [DOT] ++ b) (js "http://" ++ a ++ [DOT] ++ b),
        7 + length a + 1 + length b).
Proof.
  intros a b rest Ha0 Hb0 Ha Hb Hrest Hs Hlow.
  destruct (domain_of_labels (js "http://") a b rest false Ha0 Hb0 Ha Hb Hrest eq_refl)
    as (Hdomain & Hend & Hslice & Htrim).
  unfold parseUrlAutolink. rewrite precededByOpenAngle_start.
  cbn [isValidPrecedingChar negb].
  change (sliceFrom (js "http://" ++ a ++ [DOT] ++ b ++ rest) 0)
    with (js "http://" ++ a ++ [DOT] ++ b ++ rest).
  cbv zeta. rewrite Hs, Hlow.
  change (0 + length (js "http://")) with (length (js "http://")).
  rewrite Hdomain, Hend, Hslice, Htrim.
  assert (Hlen : length (js "http://" ++ a ++ [DOT] ++ b) = 7 + length a + 1 + length b).
  { rewrite !length_app. cbn [length js map String.list_ascii_of_string]. lia. }
  replace (length (js "http://" ++ a ++ [DOT] ++ b) <=? length (js "http://")) with false
    by (symmetry; apply Nat.leb_gt; rewrite Hlen; cbn [length js map
          String.list_ascii_of_string]; lia).
  rewrite Hlen. reflexivity.
Qed.

(** *** A text that is an address *)

Lemma alnum_email_char : forall c,
  isAlnum c = true ->
  isEmailLocal c = true /\ isEmailDomain c = true
  /\ ceq c DASH = false /\ ceq c UNDERSCORE = false /\ ceq c DOT = false.
Proof.
  intros c H. unfold isEmailLocal, isEmailDomain. rewrite H. split; [reflexivity|].
  split; [reflexivity|].
  unfold isAlnum, isAlpha, isUpper, isLower, isDigit, inRange, ceq, DASH, UNDERSCORE, DOT in *.
  lia.
Qed.

Lemma emailDomainLoop_alnum : forall a tail atSegmentStart,
  a <> [] -> forallb isAlnum a = true ->
  emailDomainLoop atSegmentStart (a ++ tail) =
  let (n, dot) := emailDomainLoop false tail in (length a + n, dot).
Proof.
  induction a as [|c a IH]; intros tail st Hne Ha; [congruence|].
  cbn [forallb] in Ha. apply andb_true_iff in Ha. destruct Ha as (Hc & Ha).
  destruct (alnum_email_char c Hc) as (_ & Hd & _).
  cbn [app emailDomainLoop]. rewrite Hd.
  destruct a as [|d a'].
  - cbn [app length]. destruct (emailDomainLoop false tail) as [n dot]. reflexivity.
  - rewrite (IH tail false); [|discriminate | exact Ha].
    destruct (emailDomainLoop false tail) as [n dot]. reflexivity.
Qed.

Lemma charIs_within : forall (s rest : str) i c,
  i < length s -> forallb (fun d => negb (ceq d c)) s = true -> charIs (s ++ rest) i c = false.
Proof.
  intros s rest i c Hi Hs. unfold charIs, charAt. rewrite nth_error_app1 by exact Hi.
  destruct (nth_error s i) as [d|] eqn:E; [|reflexivity].
  apply nth_error_In in E. rewrite forallb_forall in Hs. apply Hs in E.
  destruct (ceq d c); [discriminate | reflexivity].
Qed.

(** A local part, [@] and two labels, all of letters and digits, and then the
    end of the text or a space: the address that the e-mail forms read. *)
Lemma emailAt_address : forall localPart a b rest,
  localPart <> [] -> a <> [] -> b <> [] ->
  forallb isAlnum localPart = true -> forallb isAlnum a = true -> forallb isAlnum b = true ->
  rest = [] \/ (exists more, rest = SP :: more) ->
  emailAt (localPart ++ [64%Z] ++ a ++ [DOT] ++ b ++ rest) 0 =
  Some (localPart, a ++ [DOT] ++ b, length localPart + 1 + length (a ++ [DOT] ++ b)).
Proof.
  intros l a b rest Hl0 Ha0 Hb0 Hl Ha Hb Hrest.
  set (text := l ++ [64%Z] ++ a ++ [DOT] ++ b ++ rest).
  assert (Hnarrow : forall s, forallb isAlnum s = true ->
            forallb isEmailLocal s = true
            /\ forallb (fun d => negb (ceq d DASH)) s = true
            /\ forallb (fun d => negb (ceq d UNDERSCORE)) s = true).
  { intros s Hs. repeat split; apply (forallb_weaken isAlnum _ s); try exact Hs;
      intros c Hc; destruct (alnum_email_char c Hc) as (H1 & _ & H3 & H4 & _);
      try exact H1; [rewrite H3 | rewrite H4]; reflexivity. }
  unfold emailAt.
  assert (Hlocal : skipWhile isEmailLocal text 0 = length l).
  { unfold skipWhile, text. cbn [sliceFrom skipn app].
    rewrite span_app_stop; [reflexivity | apply Hnarrow; exact Hl | reflexivity]. }
  rewrite Hlocal.
  replace (length l =? 0) with false
    by (symmetry; apply Nat.eqb_neq; destruct l; [congruence | discriminate]).
  assert (Hat : charIs text (length l) 64 = true).
  { unfold charIs, charAt, text. rewrite nth_error_app2 by apply Nat.le_refl.
    rewrite Nat.sub_diag. reflexivity. }
  rewrite Hat. cbn [negb].
  assert (Hslice : slice text 0 (length l) = l).
  { unfold slice, text. cbn [skipn]. rewrite Nat.sub_0_r, firstn_app, firstn_all,
      Nat.sub_diag. cbn [firstn]. apply app_nil_r. }
  rewrite Hslice.
  assert (Hfrom : sliceFrom text (length l + 1) = (a ++ [DOT] ++ b) ++ rest).
  { unfold sliceFrom, text. replace (l ++ [64%Z] ++ a ++ [DOT] ++ b ++ rest)
      with ((l ++ [64%Z]) ++ (a ++ [DOT] ++ b) ++ rest)
      by (rewrite <- !app_assoc; reflexivity).
    replace (length l + 1) with (length (l ++ [64%Z]))
      by (rewrite length_app; reflexivity).
    rewrite skipn_app, skipn_all, Nat.sub_diag. reflexivity. }
  rewrite Hfrom.
  assert (Hloop : emailDomainLoop true ((a ++ [DOT] ++ b) ++ rest)
                  = (length (a ++ [DOT] ++ b), true)).
  { rewrite <- !app_assoc. rewrite (emailDomainLoop_alnum a _ true Ha0 Ha).
    cbn [app emailDomainLoop]. change (isEmailDomain DOT) with false.
    change (ceq DOT DOT) with true. cbv iota.
    rewrite (emailDomainLoop_alnum b rest true Hb0 Hb).
    assert (Hstop : emailDomainLoop false rest = (0, false)).
    { destruct Hrest as [-> | (more & ->)]; reflexivity. }
    rewrite Hstop, !length_app. cbn [length]. f_equal. lia. }
  rewrite Hloop. cbn [negb].
  set (domain := a ++ [DOT] ++ b) in *.
  assert (Hdl : 2 <= length domain).
  { unfold domain. rewrite !length_app. cbn [length]. destruct a; [congruence|].
    cbn [length]. lia. }
  assert (Hwhole : text = (l ++ [64%Z] ++ domain) ++ rest).
  { unfold text, domain. rewrite <- !app_assoc. reflexivity. }
  assert (Hlast : forall c, c = DASH \/ c = UNDERSCORE ->
            charIs text (length l + 1 + length domain - 1) c = false).
  { intros c Hc. rewrite Hwhole. apply charIs_within.
    - rewrite !length_app. cbn [length]. clear -Hdl. unfold str, char in *. lia.
    - unfold domain. rewrite !forallb_app. cbn [forallb].
      destruct (Hnarrow l Hl) as (_ & L1 & L2), (Hnarrow a Ha) as (_ & A1 & A2),
        (Hnarrow b Hb) as (_ & B1 & B2).
      destruct Hc as [-> | ->]; [rewrite L1, A1, B1 | rewrite L2, A2, B2]; reflexivity. }
  rewrite (Hlast DASH), (Hlast UNDERSCORE) by auto. cbn [orb].
  assert (Hdom : slice text (length l + 1) (length l + 1 + length domain) = domain).
  { unfold slice. fold (sliceFrom text (length l + 1)). rewrite Hfrom.
    replace (length l + 1 + length domain - (length l + 1)) with (length domain) by lia.
    rewrite firstn_app, firstn_all, Nat.sub_diag. cbn [firstn]. apply app_nil_r. }
  rewrite Hdom.
  assert (Hkeep : dropWhileEnd (fun c => ceq c DOT) domain = domain).
  { unfold dropWhileEnd.
    assert (Hrev : exists y r, rev domain = y :: r /\ isAlnum y = true).
    { unfold domain. rewrite !rev_app_distr.
      destruct (rev b) as [|y r] eqn:Er.
      - exfalso. apply Hb0. rewrite <- (rev_involutive b), Er. reflexivity.
      - exists y. eexists. split; [reflexivity|].
        rewrite forallb_forall in Hb. apply Hb, in_rev. rewrite Er. left. reflexivity. }
    destruct Hrev as (y & r & Hr & Hy). rewrite Hr. cbn [dropWhile].
    destruct (alnum_email_char y Hy) as (_ & _ & _ & _ & Hd). rewrite Hd.
    rewrite <- Hr. apply rev_involutive. }
  rewrite Hkeep.
  assert (Hdot : memc DOT domain = true).
  { unfold memc, domain. rewrite !existsb_app. cbn [existsb].
    change (ceq DOT DOT) with true. cbn [orb]. apply orb_true_r. }
  rewrite Hdot. reflexivity.
Qed.

(** A bare address is an autolink to [mailto:] and the address. *)
Lemma parseEmailAutolink_address : forall localPart a b rest,
  localPart <> [] -> a <> [] -> b <> [] ->
  forallb isAlnum localPart = true -> forallb isAlnum a = true -> forallb isAlnum b = true ->
  rest = [] \/ (exists more, rest = SP :: more) ->
  parseEmailAutolink (localPart ++ [64%Z] ++ a ++ [DOT] ++ b ++ rest) 0 None =
  Some (autolinkNode (js "mailto:" ++ localPart ++ [64%Z] ++ a ++ [DOT] ++ b)
          (localPart ++ [64%Z] ++ a ++ [DOT] ++ b),
        length (localPart ++ [64%Z] ++ a ++ [DOT] ++ b)).
Proof.
  intros l a b rest Hl0 Ha0 Hb0 Hl Ha Hb Hrest. unfold parseEmailAutolink.
  rewrite precededByOpenAngle_start. cbn [isValidEmailPrecedingChar negb].
  rewrite (emailAt_address l a b rest Hl0 Ha0 Hb0 Hl Ha Hb Hrest). reflexivity.
Qed.

(** [mailto:] and an address: an autolink to these characters, provided
    lower-casing leaves the protocol in place. *)
Lemma parseProtocolAutolink_address : forall localPart a b rest,
  localPart <> [] -> a <> [] -> b <> [] ->
  forallb isAlnum localPart = true -> forallb isAlnum a = true -> forallb isAlnum b = true ->
  rest = [] \/ (exists more, rest = SP :: more) ->
  startsWith (toLowerCase (js "mailto:" ++ localPart ++ [64%Z] ++ a ++ [DOT] ++ b ++ rest))
    (js "mailto:") = true ->
  parseProtocolAutolink (js "mailto:" ++ localPart ++ [64%Z] ++ a ++ [DOT] ++ b ++ rest)
    0 None =
  Some (autolinkNode (js "mailto:" ++ localPart ++ [64%Z] ++ a ++ [DOT] ++ b)
          (js "mailto:" ++ localPart ++ [64%Z] ++ a ++ [DOT] ++ b),
        length (js "mailto:" ++ localPart ++ [64%Z] ++ a ++ [DOT] ++ b)).
Proof.
  intros l a b rest Hl0 Ha0 Hb0 Hl Ha Hb Hrest Hlow. unfold parseProtocolAutolink.
  rewrite precededByOpenAngle_start. cbn [isValidEmailPrecedingChar negb].
  change (sliceFrom (js "mailto:" ++ l ++ [64%Z] ++ a ++ [DOT] ++ b ++ rest) 0)
    with (js "mailto:" ++ l ++ [64%Z] ++ a ++ [DOT] ++ b ++ rest).
  cbv zeta. rewrite Hlow.
  change (0 + length (js "mailto:")) with (7 + 0). rewrite emailAt_shift.
  change (sliceFrom (js "mailto:" ++ l ++ [64%Z] ++ a ++ [DOT] ++ b ++ rest) 7)
    with (l ++ [64%Z] ++ a ++ [DOT] ++ b ++ rest).
  rewrite (emailAt_address l a b rest Hl0 Ha0 Hb0 Hl Ha Hb Hrest). reflexivity.
Qed.

(** Which of the four forms gave the result of [parseExtendedAutolink]. *)
Lemma parseExtendedAutolink_some : forall text pos charBefore,
  (exists r, parseExtendedAutolink text pos charBefore = Some r) <->
  (exists r, parseProtocolAutolink text pos charBefore = Some r)
  \/ (exists r, parseUrlAutolink text pos charBefore = Some r)
  \/ (exists r, parseWwwAutolink text pos charBefore = Some r)
  \/ (exists r, parseEmailAutolink text pos charBefore = Some r).
Proof.
  intros text pos charBefore. unfold parseExtendedAutolink.
  destruct (parseProtocolAutolink text pos charBefore) as [r1|]; [split; eauto|].
  destruct (parseUrlAutolink text pos charBefore) as [r2|]; [split; eauto|].
  destruct (parseWwwAutolink text pos charBefore) as [r3|]; [split; eauto|].
  split; [eauto|].
  intros [(r & H) | [(r & H) | [(r & H) | H]]]; try discriminate H. exact H.
Qed.

(** C9, as the code has it.  Each form of extended autolink, the [www.] form,
    the form with a scheme ([http://], [https://], [ftp://]), the bare e-mail
    address and the form with a protocol ([mailto:], [xmpp:]), is recognized
    at a position exactly when three things hold: [charBefore] is absent or
    one of line feed, space, tab, [*], [_], [~], [(], double quote, single
    quote (for the e-mail and protocol forms also [:] and [/]); the nearest
    character before the position that is not a space, a tab or a line feed
    is not [<]; and the text from the position on is an autolink of that
    form, that is, is recognized as one at the start of a text.  What is
    recognized is then the same.  An extended autolink is recognized when one
    of the four forms is.  So a [<] separated from the match by spaces, tabs
    or line feeds suppresses recognition as well, whatever [charBefore] is.
    The last part shows texts that are autolinks of each form: [www.] or
    [http://] and two labels of letters and digits with a period between
    them; a local part, [@] and two such labels, bare or after [mailto:].
    The forms that look for a prefix do so in the lower-cased text, hence the
    conditions on [toLowerCase]. *)
Theorem extended_autolink_preceding_rule : forall text pos charBefore,
  let allowed := fun extra =>
    match charBefore with
    | None => true
    | Some c =>
        memc c ([LF; SP; TAB; STAR; UNDERSCORE; TILDE; LPAREN; DQUOTE; SQUOTE] ++ extra)
    end in
  let angle := precededByOpenAngle text pos in
  let here := sliceFrom text pos in
  parseWwwAutolink text pos charBefore =
    (if allowed [] && negb angle then parseWwwAutolink here 0 None else None)
  /\ parseUrlAutolink text pos charBefore =
     (if allowed [] && negb angle then parseUrlAutolink here 0 None else None)
  /\ parseEmailAutolink text pos charBefore =
     (if allowed [COLON; SLASH] && negb angle then parseEmailAutolink here 0 None else None)
  /\ parseProtocolAutolink text pos charBefore =
     (if allowed [COLON; SLASH] && negb angle then parseProtocolAutolink here 0 None
      else None)
  /\ ((exists r, parseExtendedAutolink text pos charBefore = Some r) <->
      (exists r, parseProtocolAutolink text pos charBefore = Some r)
      \/ (exists r, parseUrlAutolink text pos charBefore = Some r)
      \/ (exists r, parseWwwAutolink text pos charBefore = Some r)
      \/ (exists r, parseEmailAutolink text pos charBefore = Some r))
  /\ (angle = true <->
      pos <= length text /\
      exists pre ws, firstn pos text = pre ++ LT :: ws /\
                     forallb (fun c => memc c [SP; TAB; LF]) ws = true)
  /\ (forall a b rest,
        a <> [] -> b <> [] -> forallb isAlnum a = true -> forallb isAlnum b = true ->
        rest = [] \/ (exists more, rest = SP :: more) ->
        (here = js "www." ++ a ++ [DOT] ++ b ++ rest ->
         startsWith (toLowerCase here) (js "www.") = true ->
         parseWwwAutolink here 0 None =
         Some (autolinkNode (js "http://www." ++ a ++ [DOT] ++ b)
                 (js "www." ++ a ++ [DOT] ++ b),
               4 + length a + 1 + length b))
        /\ (here = js "http://" ++ a ++ [DOT] ++ b ++ rest ->
            startsWith (toLowerCase here) (js "https://") = false ->
            startsWith (toLowerCase here) (js "http://") = true ->
            parseUrlAutolink here 0 None =
            Some (autolinkNode (js "http://" ++ a ++ [DOT] ++ b)
                    (js "http://" ++ a ++ [DOT] ++ b),
                  7 + length a + 1 + length b))
        /\ (forall localPart,
              localPart <> [] -> forallb isAlnum localPart = true ->
              (here = localPart ++ [64%Z] ++ a ++ [DOT] ++ b ++ rest ->
               parseEmailAutolink here 0 None =
               Some (autolinkNode (js "mailto:" ++ localPart ++ [64%Z] ++ a ++ [DOT] ++ b)
                       (localPart ++ [64%Z] ++ a ++ [DOT] ++ b),
                     length (localPart ++ [64%Z] ++ a ++ [DOT] ++ b)))
              /\ (here = js "mailto:" ++ localPart ++ [64%Z] ++ a ++ [DOT] ++ b ++ rest ->
                  startsWith (toLowerCase here) (js "mailto:") = true ->
                  parseProtocolAutolink here 0 None =
                  Some (autolinkNode (js "mailto:" ++ localPart ++ [64%Z] ++ a ++ [DOT] ++ b)
                          (js "mailto:" ++ localPart ++ [64%Z] ++ a ++ [DOT] ++ b),
                        length (js "mailto:" ++ localPart ++ [64%Z] ++ a ++ [DOT] ++ b))))).
Proof.
  intros text pos charBefore allowed angle here.
  assert (Hv : isValidPrecedingChar charBefore = allowed [])
    by (destruct charBefore; reflexivity).
  assert (Hm : isValidEmailPrecedingChar charBefore = allowed [COLON; SLASH])
    by (destruct charBefore; reflexivity).
  rewrite <- Hv, <- Hm.
  split; [apply parseWwwAutolink_here|].
  split; [apply parseUrlAutolink_here|].
  split; [apply parseEmailAutolink_here|].
  split; [apply parseProtocolAutolink_here|].
  split; [apply parseExtendedAutolink_some|].
  split; [apply precededByOpenAngle_spec|].
  intros a b rest Ha0 Hb0 Ha Hb Hrest. split; [|split].
  - intros Hhere Hlow. rewrite Hhere in Hlow |- *.
    apply parseWwwAutolink_labels; assumption.
  - intros Hhere Hs Hlow. rewrite Hhere in Hs, Hlow |- *.
    apply parseUrlAutolink_labels; assumption.
  - intros localPart Hl0 Hl. split.
    + intros ->. apply parseEmailAutolink_address; assumption.
    + intros Hhere Hlow. rewrite Hhere in Hlow |- *.
      apply parseProtocolAutolink_address; assumption.
Qed.

(** ** C8: the columns of a table *)

Lemma delimiterCells_length : forall cells alignments,
  delimiterCells cells = Some alignments -> length alignments = length cells.
Proof.
  induction cells as [|cell cells IH]; intros alignments H; cbn [delimiterCells] in H.
  - injection H as <-. reflexivity.
  - destruct (delimiterCell (trim cell)); [|discriminate].
    destruct (delimiterCells cells) as [l|]; [|discriminate].
    injection H as <-. cbn [length]. f_equal. apply IH. reflexivity.
Qed.

Lemma parseDelimiterRow_length : forall line alignments,
  parseDelimiterRow line = Some alignments ->
  length alignments = length (splitTableRow (trim line)).
Proof.
  intros line alignments. unfold parseDelimiterRow.
  destruct (splitTableRow (trim line)) as [|c cells] eqn:E; [discriminate|].
  apply delimiterCells_length.
Qed.

Lemma tableCells_length : forall alignments cellContents isHeader,
  length (tableCells cellContents alignments isHeader) = length alignments.
Proof.
  induction alignments as [|a alignments IH]; intros cellContents isHeader;
    cbn [tableCells length]; [reflexivity|].
  destruct cellContents; cbn [length]; f_equal; apply IH.
Qed.

(** The cell of column [i]: the trimmed content of the [i]-th piece of the
    line, or the empty content when the line has no such piece. *)
Lemma tableCells_nth : forall alignments cellContents isHeader i a,
  nth_error alignments i = Some a ->
  nth_error (tableCells cellContents alignments isHeader) i =
  Some (mkCell a isHeader
          (match nth_error cellContents i with Some c => trim c | None => [] end)).
Proof.
  induction alignments as [|a0 alignments IH]; intros cellContents isHeader i a Hi.
  - destruct i; discriminate.
  - destruct i as [|i]; cbn [nth_error] in Hi.
    + injection Hi as <-. destruct cellContents; reflexivity.
    + destruct cellContents as [|c cellContents]; cbn [tableCells nth_error].
      * rewrite (IH [] isHeader i a Hi). destruct i; reflexivity.
      * apply IH. exact Hi.
Qed.

Lemma tableLoop_rows : forall alignments rest rows n,
  tableLoop alignments rest = (rows, n) ->
  Forall (fun row => length (rowCells row) = length alignments) rows.
Proof.
  intros alignments. induction rest as [|line rest IH]; intros rows n H;
    cbn [tableLoop] in H.
  - injection H as <- _. constructor.
  - repeat match type of H with
           | (if ?c then _ else _) = _ =>
               destruct c; [injection H as <- _; constructor|]
           end.
    destruct (tableLoop alignments rest) as [rows' n'] eqn:E.
    injection H as <- _. constructor.
    + cbn [rowCells]. apply tableCells_length.
    + eapply IH. reflexivity.
Qed.

(** *** What a delimiter row looks like to the block parser *)

Lemma spanUpTo_spec : forall n p s a b,
  spanUpTo n p s = (a, b) -> s = a ++ b /\ forallb p a = true.
Proof.
  induction n as [|n IH]; intros p s a b H.
  - cbn [spanUpTo] in H. injection H as <- <-. auto.
  - destruct s as [|c r]; cbn [spanUpTo] in H.
    + injection H as <- <-. auto.
    + destruct (p c) eqn:Hc.
      * destruct (spanUpTo n p r) as [a' b'] eqn:E. injection H as <- <-.
        destruct (IH _ _ _ _ E) as (-> & Ha). cbn [app forallb]. rewrite Hc. auto.
      * injection H as <- <-. auto.
Qed.

(** Trimming leaves a string that starts with the first character of the
    line that is not white space. *)
Lemma trim_cons : forall line c r,
  trim line = c :: r ->
  exists ws tail, line = ws ++ c :: tail /\ forallb isJsSpace ws = true /\ isJsSpace c = false.
Proof.
  intros line c r H. unfold trim, trimEnd, trimStart in H.
  destruct (dropWhileEnd_prefix isJsSpace (dropWhile isJsSpace line)) as (tail & Ht).
  rewrite H in Ht. cbn [app] in Ht.
  destruct (dropWhile_split isJsSpace line) as (ws & Hl & Hws).
  exists ws, (r ++ tail). rewrite <- Ht. split; [exact Hl|]. split; [exact Hws|].
  apply (dropWhile_head _ _ _ _ Ht).
Qed.

Lemma trim_keeps_head : forall c r, isJsSpace c = false -> exists r', trim (c :: r) = c :: r'.
Proof.
  intros c r Hc. unfold trim, trimEnd, trimStart, dropWhileEnd. cbn [dropWhile]. rewrite Hc.
  cbn [rev]. destruct (dropWhile_snoc_keep isJsSpace (rev r) c Hc) as (a' & Ha).
  rewrite Ha, rev_app_distr. cbn [rev app]. eauto.
Qed.

(** The first cell of a row starts with what was read of it so far. *)
Lemma splitTableRow_loop_first : forall s skip inBackticks backtickCount current,
  exists more rest,
    splitTableRow_loop skip inBackticks backtickCount current s = (current ++ more) :: rest.
Proof.
  intro s. remember (length s) as n eqn:Hn.
  assert (Hle : length s <= n) by lia. clear Hn. revert s Hle.
  induction n as [|n IH]; intros s Hle skip ib bc current.
  - destruct s; [|cbn [length] in Hle; lia].
    exists [], []. cbn [splitTableRow_loop]. rewrite app_nil_r. reflexivity.
  - destruct s as [|c r].
    { exists [], []. cbn [splitTableRow_loop]. rewrite app_nil_r. reflexivity. }
    cbn [length] in Hle.
    assert (Hsnoc : forall x k ib' bc' s', length s' <= n ->
              exists more rest, splitTableRow_loop k ib' bc' (current ++ [x]) s'
                                = (current ++ more) :: rest).
    { intros x k ib' bc' s' Hs'.
      destruct (IH s' Hs' k ib' bc' (current ++ [x])) as (more & rest & H).
      exists (x :: more), rest. rewrite H, <- app_assoc. reflexivity. }
    assert (Hcut : forall l, exists more rest, current :: l = (current ++ more) :: rest).
    { intro l. exists [], l. rewrite app_nil_r. reflexivity. }
    cbn [splitTableRow_loop]. destruct skip as [|k]; [|apply Hsnoc; lia].
    destruct (ceq c BACKTICK).
    + destruct (negb ib); apply Hsnoc; lia.
    + destruct r as [|d r'].
      * destruct (ceq c PIPE && negb ib); [apply Hcut | apply Hsnoc; cbn [length]; lia].
      * cbn [length] in Hle.
        destruct (ceq c BSLASH && ceq d PIPE); [apply Hsnoc; lia|].
        destruct (ceq c PIPE && negb ib); [apply Hcut | apply Hsnoc; cbn [length]; lia].
Qed.

(** A delimiter cell starts with a colon or a dash. *)
Lemma delimiterCell_head : forall x m a,
  delimiterCell (x :: m) = Some a -> x = COLON \/ x = DASH.
Proof.
  intros x m a H. unfold delimiterCell in H. cbn [startsWith] in H.
  rewrite andb_true_r in H.
  destruct (ceq COLON x) eqn:Ec; [left; symmetry; apply ceq_eq; exact Ec|].
  cbn [span] in H. destruct (ceq x DASH) eqn:Ed; [right; apply ceq_eq; exact Ed|].
  discriminate.
Qed.

(** A delimiter row starts, after white space, with a pipe, a colon or a
    dash. *)
Lemma parseDelimiterRow_head : forall line alignments,
  parseDelimiterRow line = Some alignments ->
  exists ws c tail,
    line = ws ++ c :: tail /\ forallb isJsSpace ws = true /\
    (c = PIPE \/ c = COLON \/ c = DASH).
Proof.
  intros line alignments H. unfold parseDelimiterRow in H.
  destruct (trim line) as [|c r] eqn:Et; [discriminate H|].
  destruct (trim_cons line c r Et) as (ws & tail & Hl & Hws & Hc).
  exists ws, c, tail. split; [exact Hl|]. split; [exact Hws|].
  destruct (ceq c PIPE) eqn:Ep; [left; apply ceq_eq; exact Ep|]. right.
  assert (Hcells : exists x more rest,
            splitTableRow (c :: r) = (x :: more) :: rest /\ (x = c \/ x = PIPE)).
  { unfold splitTableRow. destruct (trim_keeps_head c r Hc) as (r' & ->).
    cbn [startsWith]. rewrite (ceq_sym PIPE c), Ep. cbn [andb].
    assert (Hloop : forall s, exists x more rest,
              splitTableRow_loop 0 false 0 [] (c :: s) = (x :: more) :: rest
              /\ (x = c \/ x = PIPE)).
    { intro s. cbn [splitTableRow_loop].
      assert (Hfrom : forall x k ib bc s', x = c \/ x = PIPE ->
                exists y more rest,
                  splitTableRow_loop k ib bc ([] ++ [x]) s' = (y :: more) :: rest
                  /\ (y = c \/ y = PIPE)).
      { intros x k ib bc s' Hx.
        destruct (splitTableRow_loop_first s' k ib bc ([] ++ [x])) as (more & rest & Hm).
        exists x, more, rest. split; [exact Hm | exact Hx]. }
      destruct (ceq c BACKTICK); [cbn [negb]; apply Hfrom; auto|].
      rewrite Ep. cbn [andb].
      destruct s as [|d s']; [apply Hfrom; auto|].
      destruct (ceq c BSLASH && ceq d PIPE); apply Hfrom; auto. }
    destruct (endsWith (c :: r') [PIPE] && negb (endsWith (c :: r') [BSLASH; PIPE])) eqn:Ee;
      [|apply Hloop].
    unfold dropLast. destruct r' as [|d r''].
    - exfalso. unfold endsWith in Ee. cbn [rev app startsWith] in Ee.
      rewrite (ceq_sym PIPE c), Ep in Ee. discriminate Ee.
    - cbn [length Nat.sub firstn]. apply Hloop. }
  destruct Hcells as (x & more & rest & Hsplit & Hx).
  rewrite Hsplit in H. cbn [delimiterCells] in H.
  assert (Hxs : isJsSpace x = false) by (destruct Hx as [-> | ->]; [exact Hc | reflexivity]).
  destruct (trim_keeps_head x more Hxs) as (m' & Hm). rewrite Hm in H.
  destruct (delimiterCell (x :: m')) as [a|] eqn:Ea; [|discriminate H].
  apply delimiterCell_head in Ea.
  destruct Hx as [-> | ->]; [exact Ea|].
  destruct Ea as [E | E]; discriminate E.
Qed.

(** A prefix of spaces taken off a line that starts with white space and a
    character that is none leaves such a line. *)
Lemma spaces_off_front : forall a ws c tail b,
  ws ++ c :: tail = a ++ b -> forallb isSP a = true ->
  forallb isJsSpace ws = true -> isJsSpace c = false ->
  exists ws', b = ws' ++ c :: tail /\ forallb isJsSpace ws' = true.
Proof.
  induction a as [|x a IH]; intros ws c tail b H Ha Hws Hc.
  - exists ws. cbn [app] in H. auto.
  - cbn [forallb] in Ha. apply andb_true_iff in Ha. destruct Ha as (Hx & Ha).
    destruct ws as [|y ws]; cbn [app] in H; injection H as <- H.
    + exfalso. unfold isSP in Hx. apply ceq_eq in Hx. subst c. discriminate Hc.
    + cbn [forallb] in Hws. apply andb_true_iff in Hws. destruct Hws as (_ & Hws). eauto.
Qed.

(** A delimiter row is not a lazy continuation line, is not blank and does
    not start a footnote definition. *)
Lemma delimiter_row_facts : forall line alignments,
  parseDelimiterRow line = Some alignments ->
  startsWith line [LAZY_PREFIX] = false /\ isBlank line = false /\
  parseFootnoteLabel (stripUpTo3Spaces line) 0 = None.
Proof.
  intros line alignments H.
  destruct (parseDelimiterRow_head line alignments H) as (ws & c & tail & -> & Hws & Hc).
  assert (Hcs : isJsSpace c = false /\ ceq LAZY_PREFIX c = false /\ ceq c LBRACKET = false).
  { destruct Hc as [-> | [-> | ->]]; repeat split. }
  destruct Hcs as (Hc1 & Hc2 & Hc3).
  assert (Hhead : forall ws', forallb isJsSpace ws' = true ->
            startsWith (ws' ++ c :: tail) [LAZY_PREFIX] = false
            /\ charIs (ws' ++ c :: tail) 0 LBRACKET = false).
  { intros [|y ws'] Hy; cbn [app startsWith charIs charAt nth_error].
    - rewrite Hc2, Hc3. auto.
    - cbn [forallb] in Hy. apply andb_true_iff in Hy. destruct Hy as (Hy & _).
      unfold isJsSpace, inRange, ceq, LAZY_PREFIX, NUL, LBRACKET in *. split; lia. }
  split; [apply Hhead; exact Hws|]. split.
  - unfold isBlank. rewrite forallb_app. cbn [forallb]. rewrite Hc1.
    rewrite andb_false_r. reflexivity.
  - unfold stripUpTo3Spaces.
    destruct (spanUpTo 3 isSP (ws ++ c :: tail)) as [a b] eqn:E. cbn [snd].
    destruct (spanUpTo_spec _ _ _ _ _ E) as (Hab & Ha).
    destruct (spaces_off_front a ws c tail b Hab Ha Hws Hc1) as (ws' & -> & Hws').
    unfold parseFootnoteLabel. rewrite (proj2 (Hhead ws' Hws')). reflexivity.
Qed.

(** What [isTableStart] asks of the two lines. *)
Lemma isTableStart_Some : forall headerLine delimiterLine alignments,
  isTableStart headerLine delimiterLine = Some alignments ->
  isTableRow headerLine = true /\
  parseDelimiterRow delimiterLine = Some alignments /\
  length (splitTableRow headerLine) = length alignments.
Proof.
  intros headerLine delimiterLine alignments. unfold isTableStart.
  destruct (isTableRow headerLine); [|discriminate]. cbn [negb].
  destruct (existsb _ (splitTableRow headerLine)); [|discriminate]. cbn [negb].
  destruct (parseDelimiterRow delimiterLine) as [al|] eqn:E; [|discriminate].
  destruct (length (splitTableRow headerLine) =? length al) eqn:El; [|discriminate].
  cbn [negb]. intro H. injection H as <-. apply Nat.eqb_eq in El. auto.
Qed.

Lemma stripLinkRefs_nil : forall refs, stripLinkRefs [] refs = ([], refs).
Proof. reflexivity. Qed.

(** When the last buffered line and the current line start a table, the
    parser with tables takes the table branch, whatever else the line may
    be: the definitions of the lines before the last are stored and what
    is left of these lines is a paragraph, the last line is the header row,
    and the lines after the delimiter row are the body as far as
    [tableLoop] reads them. *)
Lemma gfm_parseBlocks_step_table : forall subParse lines enableFootnotes line g alignments,
  isTableStart (last (paragraphLines (base g)) []) line = Some alignments ->
  gfm_parseBlocks_step subParse lines true enableFootnotes line g =
  Some (mkGState
          (mkPState
             (lineIndex (base g)
              + S (snd (tableLoop alignments (linesFrom lines (S (lineIndex (base g)))))))
             []
             (children (base g)
              ++ match fst (stripLinkRefs (removelast (paragraphLines (base g)))
                              (linkReferences (base g))) with
                 | [] => []
                 | text => [Paragraph text]
                 end
              ++ [Table alignments
                    (mkRow true
                       (parseTableRowCells (last (paragraphLines (base g)) []) alignments true)
                     :: fst (tableLoop alignments
                               (linesFrom lines (S (lineIndex (base g))))))])
             (snd (stripLinkRefs (removelast (paragraphLines (base g)))
                     (linkReferences (base g)))))
          (footnoteDefinitions g)).
Proof.
  intros subParse lines enableFootnotes line g alignments H.
  destruct (isTableStart_Some _ _ _ H) as (Hrow & Hdelim & _).
  destruct (delimiter_row_facts line alignments Hdelim) as (Hlazy & Hblank & Hnote).
  unfold gfm_parseBlocks_step. rewrite Hlazy, Hblank, Hnote.
  replace (if enableFootnotes then None else None) with (@None FootnoteLabelMatch)
    by (destruct enableFootnotes; reflexivity).
  destruct g as [st notes]. cbn [base footnoteDefinitions] in *.
  destruct st as [idx pl ch refs]. cbn [paragraphLines lineIndex children linkReferences] in *.
  destruct pl as [|l0 pl]; [discriminate Hrow|].
  change (1 <=? length (l0 :: pl)) with true. cbn [andb]. rewrite Hrow, H.
  unfold parseTable.
  destruct pl as [|l1 pl].
  - change (1 <? length [l0]) with false. cbv iota.
    cbn [removelast lineIndex]. rewrite stripLinkRefs_nil. cbn [fst snd].
    destruct (tableLoop alignments (linesFrom lines (S idx))) as [rows n].
    reflexivity.
  - change (1 <? length (l0 :: l1 :: pl)) with true. cbv iota.
    destruct (stripLinkRefs (removelast (l0 :: l1 :: pl)) refs) as [text refs1].
    cbn [fst snd].
    destruct text as [|c text];
      cbn [setParagraphLines pushChild advanceBy setLinkReferences lineIndex paragraphLines
             children linkReferences];
      destruct (tableLoop alignments (linesFrom lines (S idx))) as [rows n];
      unfold advanceBy, pushChild, setParagraphLines, setLinkReferences;
      cbn [fst snd lineIndex paragraphLines children linkReferences];
      rewrite <- ?app_assoc; reflexivity.
Qed.

(** When they do not, the parser with tables does what the parser without
    tables does. *)
Lemma gfm_parseBlocks_step_no_table : forall subParse lines enableFootnotes line g,
  isTableStart (last (paragraphLines (base g)) []) line = None ->
  gfm_parseBlocks_step subParse lines true enableFootnotes line g =
  gfm_parseBlocks_step subParse lines false enableFootnotes line g.
Proof.
  intros subParse lines enableFootnotes line g H. unfold gfm_parseBlocks_step.
  rewrite H. cbn [andb].
  destruct (1 <=? length (paragraphLines (base g)));
    [destruct (isTableRow (last (paragraphLines (base g)) []))|]; reflexivity.
Qed.

(** *** Without the table branch no table is opened *)

Lemma noTableOpened_refl : forall st st',
  children st' = children st -> noTableOpened st st'.
Proof. intros st st' H. exists []. rewrite app_nil_r. auto. Qed.

Lemma noTableOpened_trans : forall st1 st2 st3,
  noTableOpened st1 st2 -> noTableOpened st2 st3 -> noTableOpened st1 st3.
Proof.
  intros st1 st2 st3 (a & Ha & Hna) (b & Hb & Hnb). exists (a ++ b).
  rewrite Hb, Ha, <- app_assoc, forallb_app, Hna, Hnb. auto.
Qed.

Lemma noTableOpened_push : forall st st' block,
  isTable block = false -> children st' = children st ++ [block] -> noTableOpened st st'.
Proof.
  intros st st' block Hb H. exists [block]. cbn [forallb]. rewrite Hb. auto.
Qed.

Lemma finishParagraph_noTable : forall st, noTableOpened st (finishParagraph st).
Proof.
  intro st. unfold finishParagraph. destruct (paragraphLines st); [apply noTableOpened_refl; reflexivity|].
  destruct (stripLinkRefs _ _) as [text refs]. destruct text.
  - apply noTableOpened_refl. reflexivity.
  - eapply noTableOpened_push; [|reflexivity]. reflexivity.
Qed.

Lemma setextHeading_noTable : forall level fallback st,
  (forall st0, noTableOpened st0 (fallback st0)) ->
  noTableOpened st (setextHeading level fallback st).
Proof.
  intros level fallback st Hf. unfold setextHeading.
  destruct (stripLinkRefs _ _) as [content refs]. destruct content.
  - eapply noTableOpened_trans; [|apply Hf]. apply noTableOpened_refl. reflexivity.
  - eapply noTableOpened_push; [|reflexivity]. reflexivity.
Qed.

Lemma parseList_not_table : forall T parseListItem lines marker idx tables list idx' tables',
  parseList T parseListItem lines marker idx tables = Some (list, idx', tables') ->
  isTable list = false.
Proof.
  intros T pli lines marker idx tables list idx' tables' H. unfold parseList in H.
  destruct (parseList_loop _ _ _ _ _ _ _ _ _ _ _) as [[[[items i] t] tight]|]; [|discriminate].
  injection H as <- _ _. reflexivity.
Qed.

Lemma parseFootnoteDefinition_children : forall subParse lines lbl key trimmedLine n g g',
  parseFootnoteDefinition subParse lines lbl key trimmedLine n g = Some g' ->
  children (base g') = children (base g).
Proof.
  intros subParse lines lbl key trimmedLine n g g' H. unfold parseFootnoteDefinition in H.
  destruct key; [injection H as <-; reflexivity|].
  destruct (footnoteLoop _) as [more k].
  destruct (subParse _) as [[[blocks childRefs] notes]|]; [|discriminate].
  injection H as <-. reflexivity.
Qed.

(** One turn of the loop of the GFM parser with tables switched off adds no
    table to the container. *)
Lemma gfm_parseBlocks_step_off : forall subParse lines enableFootnotes line g g',
  gfm_parseBlocks_step subParse lines false enableFootnotes line g = Some g' ->
  noTableOpened (base g) (base g').
Proof.
  intros subParse lines enableFootnotes line g g' H.
  unfold gfm_parseBlocks_step in H. cbn [andb] in H.
  pose proof (finishParagraph_noTable (base g)) as Hfin.
  repeat match type of H with
         | (if ?c then _ else _) = _ => destruct c eqn:?
         | match ?x with Some _ => _ | None => _ end = _ => destruct x eqn:?
         | (let (_, _) := ?x in _) = _ => destruct x eqn:?
         | Some _ = Some _ => injection H as <-
         | None = Some _ => discriminate H
         end.
  all: try (apply noTableOpened_refl; reflexivity).
  all: try (cbn [base onBase advanceBy children];
            first [ exact Hfin
                  | eapply noTableOpened_trans; [exact Hfin|];
                    eapply noTableOpened_push; [|reflexivity]; reflexivity
                  | apply setextHeading_noTable; intro st0;
                    first [ destruct (isThematicBreak line);
                            [eapply noTableOpened_push; [|reflexivity]; reflexivity
                            |apply noTableOpened_refl; reflexivity]
                          | apply noTableOpened_refl; reflexivity ]
                  | eapply noTableOpened_push; [|reflexivity]; reflexivity ]).
  - apply parseFootnoteDefinition_children in H.
    eapply noTableOpened_trans; [exact Hfin|]. apply noTableOpened_refl. exact H.
  - match goal with
    | Hx : parseList _ _ _ _ _ _ = Some _ |- _ =>
        pose proof (parseList_not_table _ _ _ _ _ _ _ _ _ Hx) as Hnt
    end.
    eapply noTableOpened_trans; [exact Hfin|].
    eapply noTableOpened_push; [exact Hnt | reflexivity].
Qed.


(** ** C10: task-list items *)

(** What [parseTaskListMarker] accepts. *)
Lemma parseTaskListMarker_spec : forall rawContent isChecked len,
  parseTaskListMarker rawContent = Some (isChecked, len) ->
  exists m w tail,
    rawContent = [LBRACKET; m; RBRACKET; w] ++ tail /\
    isJsSpace w = true /\ len = 3 /\
    ((m = SP /\ isChecked = false) \/ ((m = 120%Z \/ m = 88%Z) /\ isChecked = true)).
Proof.
  intros rawContent isChecked len H. unfold parseTaskListMarker in H.
  destruct rawContent as [|a [|m [|b [|w tail]]]]; try discriminate.
  destruct (ceq a LBRACKET) eqn:Ea; [|discriminate].
  destruct (ceq m SP || ceq m 120 || ceq m 88) eqn:Em; [|discriminate].
  destruct (ceq b RBRACKET) eqn:Eb; [|discriminate].
  destruct (isJsSpace w) eqn:Ew; [|discriminate].
  cbn [andb] in H. injection H as <- <-.
  apply ceq_eq in Ea, Eb. subst a b.
  exists m, w, tail. split; [reflexivity|]. split; [exact Ew|]. split; [reflexivity|].
  destruct (ceq m SP) eqn:E1.
  - apply ceq_eq in E1. subst m. left. split; reflexivity.
  - right. cbn [orb] in Em |- *. rewrite Em. split; [|reflexivity].
    apply orb_true_iff in Em. destruct Em as [E | E]; apply ceq_eq in E; auto.
Qed.

(** What [processTaskLists] does to the items of a list is
    [processTaskListItem] followed by [processTaskLists] on the children. *)
Lemma processTaskLists_item_unfold : forall t s tight d b items,
  processTaskLists_block (ListBlock t s tight d b items) =
  ListBlock t s tight d b (map processTaskLists_item items).
Proof.
  intros t s tight d b items. cbn [processTaskLists_block]. f_equal.
  apply map_ext. intros item. unfold processTaskLists_item, processTaskListItem, processTaskLists.
  destruct item as [c| l c | | i l f | ch | t' s' tight' d' b' items' | checked ch | l | al rows];
    try reflexivity.
  destruct ch as [|first rest]; [reflexivity|].
  destruct first; try reflexivity.
  destruct (parseTaskListMarker content) as [[isChecked len]|]; reflexivity.
Qed.

(** One call of [processTaskListItem].  On an item whose first child is a
    paragraph whose raw content starts with [[ ]], [[x]] or [[X]] followed
    by a white-space character, it sets [checked] to a boolean, true for [x]
    and [X] and false for a space, and removes the three characters of the
    marker and the one white-space character after it from the start of the
    paragraph's raw content, which the inline parser has not read yet. *)
Lemma task_list_item_checked_and_stripped : forall checked rawContent rest isChecked len,
  parseTaskListMarker rawContent = Some (isChecked, len) ->
  exists m w tail,
    rawContent = [LBRACKET; m; RBRACKET; w] ++ tail /\
    isJsSpace w = true /\
    ((m = SP /\ isChecked = false) \/ ((m = 120%Z \/ m = 88%Z) /\ isChecked = true)) /\
    processTaskListItem (ListItem checked (Paragraph rawContent :: rest)) =
    ListItem (Some isChecked) (Paragraph tail :: rest).
Proof.
  intros checked rawContent rest isChecked len H.
  destruct (parseTaskListMarker_spec _ _ _ H) as (m & w & tail & -> & Hw & -> & Hm).
  exists m, w, tail. split; [reflexivity|]. split; [exact Hw|]. split; [exact Hm|].
  unfold processTaskListItem. rewrite H.
  cbn [app sliceFrom skipn dropOneSpace]. rewrite Hw. reflexivity.
Qed.

(** An item that is not recognized is left as it is. *)
Lemma task_list_item_unrecognized : forall checked rawContent rest,
  parseTaskListMarker rawContent = None ->
  processTaskListItem (ListItem checked (Paragraph rawContent :: rest)) =
  ListItem checked (Paragraph rawContent :: rest).
Proof. intros checked rawContent rest H. unfold processTaskListItem. rewrite H. reflexivity. Qed.

(** [GFMBlockParser.parse] with the task-list extension is the parse
    without it followed by [processTaskLists] on the document's children. *)
Lemma GFMBlockParser_parse_task_lists : forall depth enableTables enableFootnotes input,
  GFMBlockParser_parse depth enableTables true enableFootnotes input =
  match GFMBlockParser_parse depth enableTables false enableFootnotes input with
  | Some (document, refs, notes) => Some (processTaskLists document, refs, notes)
  | None => None
  end.
Proof.
  intros [|depth] enableTables enableFootnotes input; [reflexivity|].
  cbn [GFMBlockParser_parse]. unfold gfm_parseWith.
  destruct (gfm_parseBlocks _ _ _ _); reflexivity.
Qed.

(** C10 fails on the code.  The claim says that the marker of a task-list
    item, with one white-space character after it, is taken off the start of
    the item's first paragraph and that [checked] is set from it.  For an
    item of a list at the top of the document this is what happens: of
    [- [ ] [x] b] the first marker is taken off, [checked] is false and the
    content is [[x] b].  A list inside a list item has been parsed by the
    parser of that item, a [GFMBlockParser] of its own whose [parse] has
    already called [processTaskLists] on it, and the parser above calls
    [processTaskLists] on it again: the same item, nested, loses both
    markers, its content is [b] and [checked] is true, the state of the
    second marker.  The same holds for a list inside a block quote.  The
    result depends neither on the runtime parameters nor on the nesting
    bound. *)
Theorem nested_task_list_item_loses_two_markers : forall depth,
  GFMBlockParser_parse (S (S depth)) true true true (js "- [ ] [x] b") =
    Some ([ListBlock Bullet 1 true None (Some DASH)
             [ListItem (Some false) [Paragraph (js "[x] b")]]], [], [])
  /\ GFMBlockParser_parse (S (S (S depth))) true true true
       (js "- a" ++ [LF] ++ js "  - [ ] [x] b") =
     Some ([ListBlock Bullet 1 true None (Some DASH)
              [ListItem None
                 [Paragraph (js "a");
                  ListBlock Bullet 1 true None (Some DASH)
                    [ListItem (Some true) [Paragraph (js "b")]]]]], [], [])
  /\ GFMBlockParser_parse (S (S (S depth))) true true true (js "> - [ ] [x] b") =
     Some ([Blockquote
              [ListBlock Bullet 1 true None (Some DASH)
                 [ListItem (Some true) [Paragraph (js "b")]]]], [], []).
Proof.
  intro depth. split; [|split]; vm_compute; reflexivity.
Qed.

(** ** C7: link reference definitions before a dash underline *)

(** A line whose first character after up to three spaces is [c], neither
    white space nor the lazy-continuation mark, is not blank and does not
    carry the mark. *)
Lemma marker_line_not_lazy_not_blank : forall line c r,
  stripUpTo3Spaces line = c :: r -> isJsSpace c = false -> c <> LAZY_PREFIX ->
  startsWith line [LAZY_PREFIX] = false /\ isBlank line = false.
Proof.
  intros line c r Hs Hc Hn. unfold stripUpTo3Spaces in Hs.
  destruct (spanUpTo 3 isSP line) as [sp rest] eqn:E. cbn [snd] in Hs. subst rest.
  destruct (spanUpTo_spec _ _ _ _ _ E) as (-> & Hsp). split.
  - destruct sp as [|x sp]; cbn [app startsWith].
    + assert (Hc' : ceq LAZY_PREFIX c = false) by (apply ceq_neq; congruence).
      rewrite Hc'. reflexivity.
    + cbn [forallb] in Hsp. apply andb_true_iff in Hsp. destruct Hsp as (Hx & _).
      unfold isSP in Hx. apply ceq_eq in Hx. subst x. reflexivity.
  - unfold isBlank. rewrite forallb_app. cbn [forallb]. rewrite Hc.
    rewrite andb_false_r. reflexivity.
Qed.

Lemma isRunThenBlank_head : forall c s,
  isRunThenBlank c s = true -> exists r, s = c :: r.
Proof.
  intros c s H. unfold isRunThenBlank in H.
  destruct s as [|d r]; cbn [span] in H; [discriminate|].
  destruct (ceq d c) eqn:E.
  - apply ceq_eq in E. subst d. eauto.
  - discriminate.
Qed.

(** What the dash underline of the claim is like. *)
Lemma dash_underline_facts : forall line,
  isSetextDashLine line = true ->
  startsWith line [LAZY_PREFIX] = false /\ isBlank line = false /\
  getSetextLevel line = Some 2 /\
  parseFootnoteLabel (stripUpTo3Spaces line) 0 = None.
Proof.
  intros line H. pose proof H as H0. unfold isSetextDashLine in H.
  destruct (isRunThenBlank_head _ _ H) as (r & Hr).
  destruct (marker_line_not_lazy_not_blank line DASH r Hr) as (Hl & Hb);
    [reflexivity | discriminate |].
  split; [exact Hl|]. split; [exact Hb|]. split.
  - unfold getSetextLevel. rewrite H0. unfold isSetextEqualsLine. rewrite Hr. reflexivity.
  - rewrite Hr. reflexivity.
Qed.

(** C7, as the code has it.  The paragraph buffer is not empty and nothing
    is left of it once its link reference definitions are taken off; the
    current line is a setext [-] underline that is also a thematic break.
    Then the CommonMark block parser stores the definitions, empties the
    buffer, emits a thematic break and passes the line.  The GFM block parser
    does the same when table detection does not claim the line: tables are
    switched off, or the last buffered line and the current line do not start
    a table.  When tables are on and the two lines do start a table, the GFM
    parser emits no thematic break: the last buffered line becomes the header
    row of a table, and only the definitions of the lines buffered before it
    are stored, what is left of these lines being closed as a paragraph. *)
Theorem definitions_then_dash_underline : forall line st refs',
  paragraphLines st <> [] ->
  stripLinkRefs (paragraphLines st) (linkReferences st) = ([], refs') ->
  isSetextDashLine line = true ->
  isThematicBreak line = true ->
  (forall subParse lines,
     parseBlocks_step subParse lines line st =
     Some (mkPState (lineIndex st + 1) [] (children st ++ [ThematicBreak]) refs')) /\
  (forall subParse lines enableTables enableFootnotes notes,
     enableTables = false \/ isTableStart (last (paragraphLines st) []) line = None ->
     gfm_parseBlocks_step subParse lines enableTables enableFootnotes line (mkGState st notes) =
     Some (mkGState
             (mkPState (lineIndex st + 1) [] (children st ++ [ThematicBreak]) refs') notes)) /\
  (forall subParse lines enableFootnotes notes alignments,
     isTableStart (last (paragraphLines st) []) line = Some alignments ->
     exists text refs rows n,
       stripLinkRefs (removelast (paragraphLines st)) (linkReferences st) = (text, refs) /\
       tableLoop alignments (linesFrom lines (S (lineIndex st))) = (rows, n) /\
       gfm_parseBlocks_step subParse lines true enableFootnotes line (mkGState st notes) =
       Some (mkGState
               (mkPState (lineIndex st + S n) []
                  (children st
                   ++ match text with [] => [] | _ :: _ => [Paragraph text] end
                   ++ [Table alignments
                         (mkRow true
                            (parseTableRowCells (last (paragraphLines st) []) alignments true)
                          :: rows)])
                  refs)
               notes)).
Proof.
  intros line st refs' Hne Hstrip Hdash Hbreak.
  destruct (dash_underline_facts line Hdash) as (Hlazy & Hblank & Hlevel & Hnote).
  assert (Hlen : (length (paragraphLines st) =? 0) = false).
  { destruct (paragraphLines st); [congruence | reflexivity]. }
  split; [|split].
  - intros subParse lines. unfold parseBlocks_step.
    rewrite Hlazy, Hblank, Hbreak, Hlen, Hdash, Hlevel. cbn [negb andb].
    unfold setextHeading. rewrite Hstrip. reflexivity.
  - intros subParse lines enableTables enableFootnotes notes Htable.
    unfold gfm_parseBlocks_step. cbn [base].
    rewrite Hlazy, Hblank, Hnote, Hlen, Hlevel. cbn [negb].
    replace (if enableFootnotes then None else None) with (@None FootnoteLabelMatch)
      by (destruct enableFootnotes; reflexivity).
    assert (Hend : forall g : GState,
              base g = st -> footnoteDefinitions g = notes ->
              Some (onBase (fun st0 =>
                      advanceBy 1
                        (setextHeading 2
                           (fun st1 => if isThematicBreak line then pushChild ThematicBreak st1
                                       else setParagraphLines [line] st1) st0)) g) =
              Some (mkGState
                      (mkPState (lineIndex st + 1) [] (children st ++ [ThematicBreak]) refs')
                      notes)).
    { intros g Hg Hn. unfold onBase, setextHeading. rewrite Hg, Hn, Hstrip, Hbreak.
      reflexivity. }
    destruct Htable as [-> | Ht].
    + cbn [andb]. apply Hend; reflexivity.
    + rewrite Ht.
      destruct (enableTables && (1 <=? length (paragraphLines st)));
        [destruct (isTableRow (last (paragraphLines st) []))|];
        apply Hend; reflexivity.
  - intros subParse lines enableFootnotes notes alignments H.
    rewrite (gfm_parseBlocks_step_table subParse lines enableFootnotes line
               (mkGState st notes) alignments H).
    cbn [base footnoteDefinitions].
    destruct (stripLinkRefs (removelast (paragraphLines st)) (linkReferences st))
      as [text refs].
    destruct (tableLoop alignments (linesFrom lines (S (lineIndex st)))) as [rows n].
    exists text, refs, rows, n. cbn [fst snd].
    split; [reflexivity|]. split; [reflexivity|]. destruct text; reflexivity.
Qed.

(** ** C4: character references the inline parser does not decode *)

Lemma parseEscape_other : forall text p c,
  charAt text p = Some c -> ceq c BSLASH = false -> parseEscape text p = None.
Proof. intros text p c H Hc. unfold parseEscape, charIs. rewrite H, Hc. reflexivity. Qed.

Lemma parseEntity_other : forall text p c,
  charAt text p = Some c -> ceq c AMP = false -> parseEntity text p = None.
Proof. intros text p c H Hc. unfold parseEntity, charIs. rewrite H, Hc. reflexivity. Qed.

(** A letter, digit, [#] or [;] is appended to the text buffer. *)
Lemma parse_step_reference_char : forall refs text st c,
  charAt text (pos st) = Some c -> isReferenceChar c = true ->
  parse_step refs text st = Some (setPos (pos st + 1) (addText [c] st)).
Proof.
  intros refs text st c H Hc. unfold parse_step. rewrite H.
  assert (Hne : ceq c BSLASH = false /\ ceq c AMP = false /\ ceq c BACKTICK = false
                /\ ceq c LT = false /\ ceq c SP = false /\ ceq c LF = false
                /\ ceq c STAR = false /\ ceq c UNDERSCORE = false /\ ceq c BANG = false
                /\ ceq c LBRACKET = false /\ ceq c RBRACKET = false).
  { unfold isReferenceChar in Hc. charcases. charcases.
    unfold BSLASH, BACKTICK, LT, SP, LF, STAR, UNDERSCORE, BANG, LBRACKET, RBRACKET. lia. }
  destruct Hne as (H1 & H2 & H3 & H4 & H5 & H6 & H7 & H8 & H9 & H10 & H11).
  rewrite (parseEscape_other _ _ _ H H1), (parseEntity_other _ _ _ H H2).
  rewrite H3, H4, H5, H6, H7, H8, H9, H10, H11. reflexivity.
Qed.

(** An ampersand at which [parseEntity] finds nothing is appended as well. *)
Lemma parse_step_ampersand : forall refs text st,
  charAt text (pos st) = Some AMP -> parseEntity text (pos st) = None ->
  parse_step refs text st = Some (setPos (pos st + 1) (addText [AMP] st)).
Proof.
  intros refs text st H He. unfold parse_step. rewrite H.
  rewrite (parseEscape_other _ _ _ H eq_refl), He. reflexivity.
Qed.

Lemma sliceFrom_S : forall (text : str) p c r,
  sliceFrom text p = c :: r -> sliceFrom text (S p) = r.
Proof.
  unfold sliceFrom. induction text as [|x text IH]; intros p c r H.
  - destruct p; discriminate.
  - destruct p as [|p]; cbn [skipn] in H |- *.
    + injection H as _ <-. destruct text; reflexivity.
    + eapply IH. exact H.
Qed.

(** A run of such characters is copied to the text buffer, one per iteration. *)
Lemma parse_steps_reference_chars : forall refs text run rest st,
  sliceFrom text (pos st) = run ++ rest -> forallb isReferenceChar run = true ->
  parse_steps refs text (length run) st =
  Some (setPos (pos st + length run) (addText run st)).
Proof.
  intros refs text run. induction run as [|c run IH]; intros rest st Hs Hr.
  - cbn [length parse_steps]. destruct st as [n b p t]. unfold setPos, addText.
    cbn [nodes bracketStack pos textBuffer]. rewrite Nat.add_0_r, app_nil_r. reflexivity.
  - cbn [forallb] in Hr. apply andb_true_iff in Hr. destruct Hr as (Hc & Hr).
    cbn [app] in Hs. cbn [length parse_steps].
    rewrite (parse_step_reference_char refs text st c (charAt_sliceFrom _ _ _ _ Hs) Hc).
    rewrite (IH rest (setPos (pos st + 1) (addText [c] st))).
    + destruct st as [n b p t]. unfold setPos, addText.
      cbn [nodes bracketStack pos textBuffer]. rewrite <- app_assoc. cbn [app].
      replace (p + 1 + length run) with (p + S (length run)) by lia. reflexivity.
    + unfold setPos. cbn [pos]. rewrite Nat.add_1_r. eapply sliceFrom_S. exact Hs.
    + exact Hr.
Qed.

Lemma isAlnum_reference : forall c, isAlnum c = true -> isReferenceChar c = true.
Proof. intros c H. unfold isReferenceChar. rewrite H. reflexivity. Qed.

Lemma isDigit_reference : forall c, isDigit c = true -> isReferenceChar c = true.
Proof. intros c H. apply isAlnum_reference. unfold isAlnum. rewrite H. apply orb_true_r. Qed.

Lemma isHexDigit_reference : forall c, isHexDigit c = true -> isReferenceChar c = true.
Proof.
  intros c H. apply isAlnum_reference. charcases.
  unfold isHexDigit, isDigit, isAlnum, isAlpha, isUpper, isLower, inRange in *. lia.
Qed.

(** A reference that [parseEntity] rejects stays in the text as it is written:
    its characters are appended to the text buffer and nothing else changes. *)
Lemma reference_left_literal : forall refs text st ref rest,
  sliceFrom text (pos st) = ref ++ rest ->
  (exists body, ref = AMP :: body /\ forallb isReferenceChar body = true) ->
  parseEntity text (pos st) = None ->
  parse_steps refs text (length ref) st =
  Some (setPos (pos st + length ref) (addText ref st)).
Proof.
  intros refs text st ref rest Hs (body & -> & Hb) He.
  cbn [length parse_steps]. cbn [app] in Hs.
  rewrite (parse_step_ampersand refs text st (charAt_sliceFrom _ _ _ _ Hs) He).
  rewrite (parse_steps_reference_chars refs text body rest
             (setPos (pos st + 1) (addText [AMP] st))).
  - destruct st as [n b p t]. unfold setPos, addText.
    cbn [nodes bracketStack pos textBuffer]. rewrite <- app_assoc. cbn [app].
    replace (p + 1 + length body) with (p + S (length body)) by lia. reflexivity.
  - unfold setPos. cbn [pos]. rewrite Nat.add_1_r. eapply sliceFrom_S. exact Hs.
  - exact Hb.
Qed.

Lemma parseInt_acc_nonneg : forall radix ds acc,
  (0 <= radix)%Z -> (0 <= acc)%Z -> (0 <= parseInt_acc radix acc ds)%Z.
Proof.
  intros radix ds. induction ds as [|d ds IH]; intros acc Hr Ha; cbn [parseInt_acc].
  - exact Ha.
  - destruct (digitValue d) as [v|] eqn:E; [|exact Ha].
    destruct (v <? radix)%Z; [|exact Ha].
    apply IH; [exact Hr|].
    assert (0 <= v)%Z.
    { unfold digitValue in E.
      repeat match type of E with
             | (if ?b then _ else _) = _ => destruct b eqn:?
             end; try discriminate; injection E as <-; charcases; lia. }
    nia.
Qed.

(** What [parseEntity] returns at a numeric reference. *)
Lemma parseEntity_numeric : forall text p ref v,
  NumericRefAt text p ref v ->
  parseEntity text p =
  if (v =? 0)%Z then Some ([REPLACEMENT], length ref)
  else if (v <=? 1114111)%Z then Some (fromCodePoint v, length ref)
  else None.
Proof.
  intros text p ref v H.
  assert (Hgen : forall decoded,
            decodeHtmlEntities ref =
              (if (0 <=? v)%Z && (v <=? 1114111)%Z
               then if (v =? 0)%Z then [REPLACEMENT] else fromCodePoint v
               else ref) ->
            (0 <= v)%Z ->
            (exists c r, ref = AMP :: c :: r) ->
            decoded = decodeHtmlEntities ref ->
            (if str_eqb decoded ref then None else Some (decoded, length ref)) =
            (if (v =? 0)%Z then Some ([REPLACEMENT], length ref)
             else if (v <=? 1114111)%Z then Some (fromCodePoint v, length ref)
             else None)).
  { intros decoded Hd Hv (c & r & ->) ->. rewrite Hd.
    replace (0 <=? v)%Z with true by (symmetry; apply Z.leb_le; exact Hv).
    cbn [andb].
    destruct (v =? 0)%Z eqn:E0.
    - apply Z.eqb_eq in E0. subst v. reflexivity.
    - destruct (v <=? 1114111)%Z eqn:E1.
      + unfold fromCodePoint. apply Z.eqb_neq in E0. apply Z.leb_le in E1.
        destruct (v <=? 65535)%Z eqn:E2.
        * cbn [str_eqb]. rewrite andb_false_r. reflexivity.
        * cbn [str_eqb]. replace (ceq (55296 + (v - 65536) / 1024) AMP) with false;
            [reflexivity|].
          symmetry. apply ceq_neq. apply Z.leb_gt in E2. unfold AMP.
          assert (0 <= (v - 65536) / 1024)%Z by (apply Z.div_pos; lia). lia.
      + rewrite str_eqb_refl. reflexivity. }
  destruct H as [ds rest Hs Hr | x ds rest Hs Hr].
  - rewrite (parseEntity_at text p (decimalRef ds) rest Hs (matchEntity_decimal ds rest Hr)).
    apply Hgen.
    + rewrite (decode_decimal ds Hr). apply decodeCapture_decimal. exact Hr.
    + apply parseInt_acc_nonneg; lia.
    + unfold decimalRef. eauto.
    + reflexivity.
  - rewrite (parseEntity_at text p (hexRef x ds) rest Hs (matchEntity_hex x ds rest Hr)).
    apply Hgen.
    + rewrite (decode_hex x ds Hr). apply decodeCapture_hex. exact Hr.
    + apply parseInt_acc_nonneg; lia.
    + unfold hexRef. eauto.
    + reflexivity.
Qed.

Lemma parseEntity_unknown_named : forall text p ref,
  UnknownNamedRefAt text p ref -> parseEntity text p = None.
Proof.
  intros text p ref H. destruct H as [c nm rest Hs Hr Hn].
  rewrite (parseEntity_at text p (namedRef c nm) rest Hs (matchEntity_named c nm rest Hr)).
  rewrite (decode_named c nm Hr), (decodeCapture_unknown c nm Hr Hn), str_eqb_refl.
  reflexivity.
Qed.

(** A reference is an ampersand followed by letters, digits, [#] and [;]. *)
Lemma numeric_reference_chars : forall text p ref v,
  NumericRefAt text p ref v ->
  (exists rest, sliceFrom text p = ref ++ rest) /\
  (exists body, ref = AMP :: body /\ forallb isReferenceChar body = true).
Proof.
  intros text p ref v H. destruct H as [ds rest Hs (Hd & _) | x ds rest Hs (Hx & Hd & _)].
  - split; [eauto|]. exists (HASH :: ds ++ [SEMI]). split; [reflexivity|].
    cbn [forallb]. rewrite forallb_app. cbn [forallb].
    rewrite (forallb_weaken _ _ _ isDigit_reference Hd). reflexivity.
  - split; [eauto|]. exists (HASH :: x :: ds ++ [SEMI]). split; [reflexivity|].
    cbn [forallb]. rewrite forallb_app. cbn [forallb].
    rewrite (forallb_weaken _ _ _ isHexDigit_reference Hd).
    destruct Hx as [-> | ->]; reflexivity.
Qed.

Lemma named_reference_chars : forall text p ref,
  UnknownNamedRefAt text p ref ->
  (exists rest, sliceFrom text p = ref ++ rest) /\
  (exists body, ref = AMP :: body /\ forallb isReferenceChar body = true).
Proof.
  intros text p ref H. destruct H as [c nm rest Hs (Hc & Hn & _) _].
  split; [eauto|]. exists (c :: nm ++ [SEMI]). split; [reflexivity|].
  cbn [forallb]. rewrite forallb_app. cbn [forallb].
  rewrite (forallb_weaken _ _ _ isAlnum_reference Hn).
  rewrite (isAlnum_reference c); [reflexivity|].
  unfold isAlnum. rewrite Hc. reflexivity.
Qed.

(** C4, as the code has it.  In inline content a numeric character reference
    whose code point is 0 is replaced with U+FFFD.  One whose code point is
    greater than 0x10FFFF is not decoded: [parseEntity] returns nothing and
    the characters of the reference are appended to the text buffer one by
    one, so it stays literal, exactly as a named reference that the entity
    table does not know. *)
Theorem character_references_out_of_range : forall refs text st ref,
  (forall v, NumericRefAt text (pos st) ref v -> v = 0%Z ->
     parse_step refs text st =
     Some (setPos (pos st + length ref) (addText [REPLACEMENT] st))) /\
  (forall v, NumericRefAt text (pos st) ref v -> (1114111 < v)%Z ->
     parseEntity text (pos st) = None /\
     parse_steps refs text (length ref) st =
     Some (setPos (pos st + length ref) (addText ref st))) /\
  (UnknownNamedRefAt text (pos st) ref ->
     parseEntity text (pos st) = None /\
     parse_steps refs text (length ref) st =
     Some (setPos (pos st + length ref) (addText ref st))).
Proof.
  intros refs text st ref. split; [|split].
  - intros v H ->. pose proof (parseEntity_numeric _ _ _ _ H) as He. cbn in He.
    destruct (numeric_reference_chars _ _ _ _ H) as ((rest & Hs) & (body & -> & _)).
    unfold parse_step.
    rewrite (charAt_sliceFrom _ _ _ _ Hs).
    rewrite (parseEscape_other _ _ _ (charAt_sliceFrom _ _ _ _ Hs) eq_refl), He.
    reflexivity.
  - intros v H Hv. pose proof (parseEntity_numeric _ _ _ _ H) as He.
    replace (v =? 0)%Z with false in He by (symmetry; apply Z.eqb_neq; lia).
    replace (v <=? 1114111)%Z with false in He by (symmetry; apply Z.leb_gt; lia).
    split; [exact He|].
    destruct (numeric_reference_chars _ _ _ _ H) as ((rest & Hs) & Hb).
    eapply reference_left_literal; eauto.
  - intros H. pose proof (parseEntity_unknown_named _ _ _ H) as He.
    split; [exact He|].
    destruct (named_reference_chars _ _ _ H) as ((rest & Hs) & Hb).
    eapply reference_left_literal; eauto.
Qed.

(** ** C3: what the link-reference table holds *)

(** *** Any property of the results of [parseLinkReferenceDefinition] holds of
    every entry of the table *)

Section TableInvariant.

Variable P : str * LinkReferenceDefinition -> Prop.
Hypothesis P_definition : forall text result,
  parseLinkReferenceDefinition text = Some result -> P (label result, definition result).

Lemma refAdd_invariant : forall m k v,
  Forall P m -> P (k, v) -> Forall P (refAdd m k v).
Proof.
  intros m k v Hm Hkv. unfold refAdd. destruct (refHas m k); [exact Hm|].
  apply Forall_app. split; [exact Hm | constructor; [exact Hkv | constructor]].
Qed.

Lemma refMerge_invariant : forall child m,
  Forall P m -> Forall P child -> Forall P (refMerge m child).
Proof.
  unfold refMerge. induction child as [|[k v] child IH]; intros m Hm Hc; cbn [fold_left].
  - exact Hm.
  - inversion Hc; subst. apply IH; [|assumption].
    apply refAdd_invariant; assumption.
Qed.

Lemma extractLinkRefs_invariant : forall fuel text refs,
  Forall P refs -> Forall P (snd (extractLinkRefs fuel text refs)).
Proof.
  induction fuel as [|fuel IH]; intros text refs Hr; cbn [extractLinkRefs]; [exact Hr|].
  destruct text as [|c text]; [exact Hr|].
  destruct (parseLinkReferenceDefinition (c :: text)) as [result|] eqn:E; [|exact Hr].
  apply IH. apply refAdd_invariant; [exact Hr|]. apply (P_definition _ _ E).
Qed.

Lemma stripLinkRefs_invariant : forall paragraphLines refs,
  Forall P refs -> Forall P (snd (stripLinkRefs paragraphLines refs)).
Proof.
  intros pl refs Hr. unfold stripLinkRefs.
  pose proof (extractLinkRefs_invariant (length (joinLF pl)) (joinLF pl) refs Hr) as H.
  destruct (extractLinkRefs (length (joinLF pl)) (joinLF pl) refs). exact H.
Qed.

Lemma finishParagraph_invariant : forall st,
  Forall P (linkReferences st) -> Forall P (linkReferences (finishParagraph st)).
Proof.
  intros st Hr. unfold finishParagraph.
  destruct (paragraphLines st) as [|l ls] eqn:E; [exact Hr|].
  pose proof (stripLinkRefs_invariant (l :: ls) (linkReferences st) Hr) as H.
  destruct (stripLinkRefs (l :: ls) (linkReferences st)) as [text refs].
  destruct text; exact H.
Qed.

Lemma setextHeading_invariant : forall level fallback st,
  (forall st', linkReferences (fallback st') = linkReferences st') ->
  Forall P (linkReferences st) ->
  Forall P (linkReferences (setextHeading level fallback st)).
Proof.
  intros level fallback st Hf Hr. unfold setextHeading.
  pose proof (stripLinkRefs_invariant (paragraphLines st) (linkReferences st) Hr) as H.
  destruct (stripLinkRefs (paragraphLines st) (linkReferences st)) as [content refs].
  destruct content; [rewrite Hf|]; exact H.
Qed.

(** The list loop keeps whatever the item parser keeps. *)
Lemma parseList_loop_invariant :
  forall (T : Type) (Q : T -> Prop)
         (parseItem : nat -> ListMarker -> T -> option (RawBlock * nat * T * bool * bool))
         (lines : list str) (firstMarker : ListMarker),
  (forall idx marker t item idx' t' b1 b2,
     Q t -> parseItem idx marker t = Some (item, idx', t', b1, b2) -> Q t') ->
  forall fuel lineIndex tables items b1 b2 b3 items' idx' tables' tight,
  Q tables ->
  parseList_loop T parseItem lines firstMarker fuel lineIndex tables items b1 b2 b3 =
    Some (items', idx', tables', tight) ->
  Q tables'.
Proof.
  intros T Q parseItem lines firstMarker HQ.
  induction fuel as [|fuel IH]; intros lineIndex tables items b1 b2 b3 items' idx' tables' tight
    Ht H; cbn [parseList_loop] in H; [discriminate|].
  destruct (linesFrom lines lineIndex) as [|line rest].
  { injection H as _ _ <- _. exact Ht. }
  destruct (isThematicBreak line).
  { injection H as _ _ <- _. exact Ht. }
  destruct (match parseListMarker line with
            | Some marker => if listsMatch firstMarker marker then Some marker else None
            | None => None
            end) as [marker|].
  - destruct (parseItem lineIndex marker tables) as [[[[[item i2] t2] bi] be]|] eqn:E;
      [|discriminate].
    eapply IH; [|exact H]. eapply HQ; eauto.
  - destruct (isBlank line).
    + destruct (listContinuesAfterBlank firstMarker rest).
      * eapply IH; eauto.
      * injection H as _ _ <- _. exact Ht.
    + injection H as _ _ <- _. exact Ht.
Qed.

Lemma parseList_invariant :
  forall (T : Type) (Q : T -> Prop)
         (parseItem : nat -> ListMarker -> T -> option (RawBlock * nat * T * bool * bool))
         (lines : list str) (firstMarker : ListMarker),
  (forall idx marker t item idx' t' b1 b2,
     Q t -> parseItem idx marker t = Some (item, idx', t', b1, b2) -> Q t') ->
  forall lineIndex tables list idx' tables',
  Q tables ->
  parseList T parseItem lines firstMarker lineIndex tables = Some (list, idx', tables') ->
  Q tables'.
Proof.
  intros T Q parseItem lines firstMarker HQ lineIndex tables list idx' tables' Ht H.
  unfold parseList in H.
  destruct (parseList_loop T parseItem lines firstMarker _ lineIndex tables [] false false false)
    as [[[[items i2] t2] tight]|] eqn:E; [|discriminate].
  injection H as _ _ <-.
  eapply parseList_loop_invariant; eauto.
Qed.

Section Step.

Variable subParse : str -> option (list RawBlock * RefMap).
Hypothesis subParse_invariant : forall s blocks refs,
  subParse s = Some (blocks, refs) -> Forall P refs.
Variable lines : list str.

Lemma parseListItem_invariant : forall idx marker refs item idx' refs' b1 b2,
  Forall P refs ->
  parseListItem subParse lines idx marker refs = Some (item, idx', refs', b1, b2) ->
  Forall P refs'.
Proof.
  intros idx marker refs item idx' refs' b1 b2 Hr H. unfold parseListItem in H.
  destruct (collectListItem marker (linesFrom lines idx)) as [[[itemLines n] bi] be].
  destruct (subParse (joinLF itemLines)) as [[ch childRefs]|] eqn:E; [|discriminate].
  injection H as _ _ <- _ _.
  apply refMerge_invariant; [exact Hr|]. eapply subParse_invariant. exact E.
Qed.

Lemma parseBlocks_step_invariant : forall line st st',
  Forall P (linkReferences st) ->
  parseBlocks_step subParse lines line st = Some st' ->
  Forall P (linkReferences st').
Proof.
  intros line st st' Hr H. unfold parseBlocks_step in H.
  pose proof (finishParagraph_invariant st Hr) as Hfin.
  repeat match type of H with
         | (if ?c then _ else _) = _ => destruct c
         | match ?x with Some _ => _ | None => _ end = _ => destruct x eqn:?
         | (let (_, _) := ?x in _) = _ => destruct x eqn:?
         | (let '(_, _) := ?x in _) = _ => destruct x eqn:?
         | match ?x with (_, _) => _ end = _ => destruct x eqn:?
         | Some _ = Some _ => injection H as <-
         | None = Some _ => discriminate
         end;
    try (cbn [linkReferences advanceBy pushChild setParagraphLines setLinkReferences];
         first [ exact Hr | exact Hfin
               | apply setextHeading_invariant; [reflexivity | exact Hr] ]).
  all: cbn [linkReferences advanceBy pushChild setParagraphLines setLinkReferences].
  - apply refMerge_invariant; [exact Hfin|]. eapply subParse_invariant. eassumption.
  - eapply (parseList_invariant RefMap (Forall P)); [| exact Hfin | eassumption].
    intros idx marker t item idx' t' b1 b2 Ht Hi.
    eapply parseListItem_invariant; eassumption.
Qed.

Lemma parseBlocks_loop_invariant : forall fuel st st',
  Forall P (linkReferences st) ->
  parseBlocks_loop subParse lines fuel st = Some st' ->
  Forall P (linkReferences st').
Proof.
  induction fuel as [|fuel IH]; intros st st' Hr H; cbn [parseBlocks_loop] in H;
    [discriminate|].
  destruct (nth_error lines (lineIndex st)) as [line|].
  - destruct (parseBlocks_step subParse lines line st) as [st1|] eqn:E; [|discriminate].
    eapply IH; [|exact H]. eapply parseBlocks_step_invariant; eassumption.
  - injection H as <-. exact Hr.
Qed.

Lemma parseBlocks_invariant : forall st,
  parseBlocks subParse lines = Some st -> Forall P (linkReferences st).
Proof.
  intros st H. unfold parseBlocks in H.
  destruct (parseBlocks_loop subParse lines (S (length lines)) (mkPState 0 [] [] []))
    as [st1|] eqn:E; [|discriminate].
  injection H as <-. apply finishParagraph_invariant.
  eapply parseBlocks_loop_invariant; [|exact E]. constructor.
Qed.

End Step.

Lemma BlockParser_parse_invariant : forall depth input blocks refs,
  BlockParser_parse depth input = Some (blocks, refs) -> Forall P refs.
Proof.
  induction depth as [|depth IH]; intros input blocks refs H; cbn [BlockParser_parse] in H;
    [discriminate|].
  unfold parseWith in H.
  destruct (parseBlocks (BlockParser_parse depth) (splitLF (normalizeLineEndings input)))
    as [st|] eqn:E; [|discriminate].
  injection H as _ <-.
  eapply parseBlocks_invariant; [|exact E]. exact IH.
Qed.

End TableInvariant.

(** *** What one definition stores *)

Lemma isBlank_hasVisible : forall s, isBlank s = negb (hasVisible s).
Proof.
  unfold isBlank, hasVisible. induction s as [|c s IH]; cbn [forallb existsb]; [reflexivity|].
  rewrite IH. destruct (isJsSpace c), (existsb _ s); reflexivity.
Qed.

Lemma hasVisible_nonempty : forall s, hasVisible s = true -> s <> [].
Proof. intros [|c s] H; [discriminate | discriminate]. Qed.

Lemma hasVisible_app : forall a b, hasVisible (a ++ b) = hasVisible a || hasVisible b.
Proof. intros a b. unfold hasVisible. apply existsb_app. Qed.

Lemma hasVisible_rev : forall s, hasVisible (rev s) = hasVisible s.
Proof.
  induction s as [|c s IH]; [reflexivity|]. cbn [rev]. rewrite hasVisible_app, IH.
  unfold hasVisible. cbn [existsb]. rewrite orb_false_r. apply orb_comm.
Qed.

Lemma hasVisible_dropWhile : forall s, hasVisible (dropWhile isJsSpace s) = hasVisible s.
Proof.
  induction s as [|c s IH]; [reflexivity|]. cbn [dropWhile].
  destruct (isJsSpace c) eqn:E; [|reflexivity].
  rewrite IH. unfold hasVisible. cbn [existsb]. rewrite E. reflexivity.
Qed.

Lemma hasVisible_trim : forall s, hasVisible (trim s) = hasVisible s.
Proof.
  intro s. unfold trim, trimEnd, trimStart, dropWhileEnd.
  rewrite hasVisible_rev, hasVisible_dropWhile, hasVisible_rev, hasVisible_dropWhile.
  reflexivity.
Qed.

Lemma isLabelSpace_isJsSpace : forall c, isLabelSpace c = true -> isJsSpace c = true.
Proof.
  intros c H. unfold isLabelSpace, isJsSpace, inRange, ceq, SP, TAB, CR, LF in *. lia.
Qed.

Lemma hasVisible_collapse : forall s inRun,
  hasVisible (collapseLabelSpace_from inRun s) = hasVisible s.
Proof.
  induction s as [|c s IH]; intro inRun; [reflexivity|]. cbn [collapseLabelSpace_from].
  destruct (isLabelSpace c) eqn:E.
  - pose proof (isLabelSpace_isJsSpace c E) as Hc.
    destruct inRun; [|unfold hasVisible at 1; cbn [existsb]; change (isJsSpace SP) with true;
                      cbn [negb orb]; fold (hasVisible (collapseLabelSpace_from true s))];
      rewrite IH; unfold hasVisible; cbn [existsb]; rewrite Hc; reflexivity.
  - unfold hasVisible. cbn [existsb]. f_equal. apply IH.
Qed.

Lemma hasVisible_replaceChar : forall c rep s,
  isJsSpace c = false -> hasVisible rep = true ->
  hasVisible (replaceChar c rep s) = hasVisible s.
Proof.
  intros c rep s Hc Hrep. unfold replaceChar.
  induction s as [|d s IH]; [reflexivity|]. cbn [flat_map]. rewrite hasVisible_app, IH.
  destruct (ceq d c) eqn:E.
  - apply ceq_eq in E. subst d. rewrite Hrep. unfold hasVisible. cbn [existsb].
    rewrite Hc. reflexivity.
  - unfold hasVisible. cbn [existsb]. rewrite orb_false_r. reflexivity.
Qed.

Lemma punctuation_visible : forall d, isAsciiPunctuation d = true -> isJsSpace d = false.
Proof. intros d H. unfold isAsciiPunctuation, isJsSpace, inRange, ceq in *. lia. Qed.

Lemma hasVisible_unescapeString : forall s,
  hasVisible s = true -> hasVisible (unescapeString s) = true.
Proof.
  induction s as [|c s IH]; intro H; [discriminate|]. cbn [unescapeString].
  destruct (ceq c BSLASH) eqn:E.
  - apply ceq_eq in E. subst c. destruct s as [|d s']; [reflexivity|].
    destruct (isAsciiPunctuation d) eqn:Ed.
    + unfold hasVisible. cbn [existsb]. rewrite (punctuation_visible d Ed). reflexivity.
    + reflexivity.
  - unfold hasVisible in *. cbn [existsb] in *.
    destruct (isJsSpace c); [|reflexivity]. cbn [negb orb] in *. apply IH. exact H.
Qed.

Lemma unescapeString_nonempty : forall s, s <> [] -> unescapeString s <> [].
Proof.
  intros [|c s] H; [congruence|]. cbn [unescapeString].
  destruct (ceq c BSLASH); [|discriminate].
  destruct s as [|d s]; [discriminate|]. destruct (isAsciiPunctuation d); discriminate.
Qed.

Lemma decodeCapture_nonempty : forall capture, decodeCapture capture <> [].
Proof.
  intro capture. unfold decodeCapture, fromCodePoint.
  repeat match goal with
         | |- (if ?c then _ else _) <> _ => destruct c
         | |- match ?x with Some _ => _ | None => _ end <> _ => destruct x
         | |- match ?x with [] => _ | _ :: _ => _ end <> _ => destruct x
         end; discriminate.
Qed.

Lemma decodeHtmlEntities_nonempty : forall s, s <> [] -> decodeHtmlEntities s <> [].
Proof.
  intros [|c s] H; [congruence|]. unfold decodeHtmlEntities. cbn [decodeHtmlEntities_loop].
  destruct (matchEntityRef (c :: s)) as [capture|]; [|discriminate].
  pose proof (decodeCapture_nonempty capture) as Hc.
  destruct (decodeCapture capture); [congruence | discriminate].
Qed.

(** The label of a definition is not empty, provided lower-casing does not
    empty a string. *)
Lemma normalizeLabel_nonempty : forall rawLabel,
  (forall s, s <> [] -> toLowerCase s <> []) ->
  isBlank rawLabel = false -> normalizeLabel (unescapeString rawLabel) <> [].
Proof.
  intros rawLabel Hlow Hb. unfold normalizeLabel. apply Hlow. apply hasVisible_nonempty.
  rewrite hasVisible_replaceChar by reflexivity.
  unfold collapseLabelSpace. rewrite hasVisible_collapse, hasVisible_trim.
  apply hasVisible_unescapeString.
  rewrite isBlank_hasVisible in Hb. destruct (hasVisible rawLabel); [reflexivity | discriminate].
Qed.

(** An angle-bracket destination starts with [<], and has nothing inside
    exactly when it is written [<>]. *)
Lemma matchAngleDestination_empty : forall s d len,
  matchAngleDestination s = Some (d, len) ->
  startsWith s [LT] = true /\ (d = [] <-> startsWith s [LT; GT] = true).
Proof.
  intros s d len H. unfold matchAngleDestination in H.
  destruct s as [|c r]; [discriminate|].
  destruct (ceq c LT) eqn:Ec; [|discriminate]. apply ceq_eq in Ec. subst c.
  split; [reflexivity|]. cbn [startsWith]. change (ceq LT LT) with true. cbn [andb].
  destruct r as [|e r']; [discriminate|]. cbn [matchAngleBody] in H.
  rewrite (ceq_sym GT e), andb_true_r.
  destruct (ceq e GT) eqn:Ed.
  - injection H as <- _. split; reflexivity.
  - split; [|discriminate]. intros ->.
    destruct (ceq e LT || ceq e LF); [discriminate|].
    destruct (ceq e BSLASH).
    + destruct r' as [|f r'']; [discriminate|].
      destruct (isDot f); [|discriminate].
      destruct (matchAngleBody r'') as [[l k]|]; discriminate.
    + destruct (matchAngleBody r') as [[l k]|]; discriminate.
Qed.

(** What is not an angle-bracket destination is not written [<>]. *)
Lemma matchAngleDestination_none : forall s,
  matchAngleDestination s = None -> startsWith s [LT; GT] = false.
Proof.
  intros s H. destruct s as [|c [|e r]]; [reflexivity | |].
  - cbn [startsWith]. apply andb_false_r.
  - cbn [startsWith]. unfold matchAngleDestination in H.
    destruct (ceq c LT) eqn:Ec; rewrite (ceq_sym LT c), Ec; [|reflexivity].
    cbn [matchAngleBody andb] in H |- *. rewrite (ceq_sym GT e), andb_true_r.
    destruct (ceq e GT); [discriminate | reflexivity].
Qed.

(** The bare pattern does not match a [<]. *)
Lemma matchBareDestination_head : forall s c bare,
  matchBareDestination s = c :: bare -> startsWith s [LT] = false.
Proof.
  intros s c bare H. destruct s as [|x r]; [discriminate|].
  cbn [startsWith]. rewrite andb_true_r, (ceq_sym LT x).
  destruct (ceq x LT) eqn:E; [|reflexivity].
  apply ceq_eq in E. subst x. discriminate H.
Qed.

(** The shape of a result of [parseLinkReferenceDefinition]: the raw label is
    not blank; the raw destination is not empty when it is written in bare
    form, and is empty exactly when it is written [<>]. *)
Lemma parseLinkReferenceDefinition_shape : forall text result,
  parseLinkReferenceDefinition text = Some result ->
  exists rawLabel dest ttl endPos,
    result = mkResult rawLabel dest ttl endPos /\
    isBlank rawLabel = false /\
    (startsWith (destinationSite text) [LT] = false -> dest <> []) /\
    (dest = [] <-> startsWith (destinationSite text) [LT; GT] = true).
Proof.
  intros text result H. unfold parseLinkReferenceDefinition in H.
  unfold destinationSite. cbv zeta in H |- *.
  destruct (matchLinkLabel _) as [[rawLabel labelLen]|]; [|discriminate].
  destruct (isBlank rawLabel) eqn:Eb; [discriminate|].
  destruct (negb _); [discriminate|].
  match type of H with
  | context [matchAngleDestination (sliceFrom text ?p)] => set (pos1 := p) in *
  end.
  assert (Hdone : forall dest ttl endPos,
            (startsWith (sliceFrom text pos1) [LT] = false -> dest <> []) ->
            (dest = [] <-> startsWith (sliceFrom text pos1) [LT; GT] = true) ->
            Some (mkResult rawLabel dest ttl endPos) = Some result ->
            exists rawLabel0 dest0 ttl0 endPos0,
              result = mkResult rawLabel0 dest0 ttl0 endPos0 /\
              isBlank rawLabel0 = false /\
              (startsWith (sliceFrom text pos1) [LT] = false -> dest0 <> []) /\
              (dest0 = [] <-> startsWith (sliceFrom text pos1) [LT; GT] = true)).
  { intros dest ttl endPos Hb Hd Hr. injection Hr as <-.
    exists rawLabel, dest, ttl, endPos. auto. }
  destruct (matchAngleDestination (sliceFrom text pos1)) as [[d len]|] eqn:Ea.
  - destruct (matchAngleDestination_empty _ _ _ Ea) as (Hlt & Hd).
    assert (Hb : startsWith (sliceFrom text pos1) [LT] = false -> d <> [])
      by (intro Hn; congruence).
    repeat match type of H with
           | match ?x with Some _ => _ | None => _ end = _ => destruct x as [[? ?]|]
           | match ?x with Some _ => _ | None => _ end = _ => destruct x
           end; try discriminate; eapply Hdone; eauto.
  - pose proof (matchAngleDestination_none _ Ea) as Hn.
    destruct (matchBareDestination (sliceFrom text pos1)) as [|c bare] eqn:E; [discriminate|].
    repeat match type of H with
           | match ?x with Some _ => _ | None => _ end = _ => destruct x as [[? ?]|]
           | match ?x with Some _ => _ | None => _ end = _ => destruct x
           end; try discriminate; (eapply Hdone; [| |exact H]);
      try (intros _; discriminate); (split; [discriminate | congruence]).
Qed.

Lemma parseLinkReferenceDefinition_stored :
  (forall s, s <> [] -> toLowerCase s <> []) ->
  forall text result,
  parseLinkReferenceDefinition text = Some result ->
  StoredDefinition (label result, definition result).
Proof.
  intros Hlow text result H.
  destruct (parseLinkReferenceDefinition_shape text result H)
    as (rawLabel & dest & ttl & endPos & -> & Hb & Hbare & Hd).
  unfold StoredDefinition. cbn [fst snd mkResult label definition destination].
  split; [apply normalizeLabel_nonempty; assumption|].
  exists text, (mkResult rawLabel dest ttl endPos).
  split; [exact H|]. split; [reflexivity|]. split; [reflexivity|].
  assert (Hne : dest <> [] -> decodeHtmlEntities (unescapeString dest) <> [])
    by (intro Hn; apply decodeHtmlEntities_nonempty, unescapeString_nonempty; exact Hn).
  split.
  - intro Hs. apply Hne, Hbare, Hs.
  - rewrite <- Hd. split.
    + intro He. destruct dest as [|c dest]; [reflexivity|].
      exfalso. apply Hne in He; [exact He | discriminate].
    + intros ->. reflexivity.
Qed.

(** ** C5: termination *)

(** *** [processEmphasis] *)

Lemma runLen_flanking : forall c len b1 b2 b3 b4, runLen (flanking c len b1 b2 b3 b4) = len.
Proof. intros. unfold flanking. destruct (ceq c STAR); reflexivity. Qed.

Lemma runLen_computeDelimiterRun : forall literal before after,
  runLen (computeDelimiterRun literal before after) = length literal.
Proof. intros. unfold computeDelimiterRun. apply runLen_flanking. Qed.

Lemma buildNodeDelims_spec : forall ns before i ns' ds,
  buildNodeDelims before i ns = (ns', ds) ->
  map literalOf ns' = map literalOf ns /\
  Forall (delimAt ns' i) ds /\
  StronglySorted (fun e1 e2 => ndIndex e1 < ndIndex e2) ds.
Proof.
  induction ns as [|node rest IH]; intros before i ns' ds H; cbn [buildNodeDelims] in H.
  - injection H as <- <-. repeat split; constructor.
  - set (after := match rest with a :: _ => Some a | [] => None end) in H.
    destruct (match node with
              | Text l noDelim noSmart orig =>
                  if negb (length l =? 0) && negb noDelim && isDelimLiteral l
                  then
                    let run0 := computeDelimiterRun l (neighbourChar getLastChar before)
                                  (neighbourChar getFirstChar after) in
                    let o := match orig with Some o => o | None => length l end in
                    let run := mkRun (runChar run0) (runLen run0) (canOpen run0)
                                 (canClose run0) o in
                    (Text l noDelim noSmart (Some o),
                     if canOpen run || canClose run then [mkNodeDelim i run] else [])
                  else (node, [])
              | _ => (node, [])
              end) as [node' d] eqn:Enode.
    destruct (buildNodeDelims (Some node') (S i) rest) as [rest' ds'] eqn:Erest.
    injection H as <- <-.
    destruct (IH _ _ _ _ Erest) as (Hlit & Hds & Hsorted).
    assert (Hnode : literalOf node' = literalOf node /\
                    (d = [] \/
                     exists run l a b c, d = [mkNodeDelim i run] /\ node' = Text l a b c /\
                                         1 <= length l /\ runLen run = length l)).
    { destruct node; try (injection Enode as <- <-; auto).
      destruct (negb (length literal =? 0) && negb noDelim && isDelimLiteral literal) eqn:Ec.
      - cbv zeta in Enode. injection Enode as <- <-. split; [reflexivity|].
        match goal with
        | |- (if ?c then _ else _) = [] \/ _ => destruct c; [right | left; reflexivity]
        end.
        do 5 eexists. split; [reflexivity|]. split; [reflexivity|].
        cbn [runLen]. rewrite runLen_computeDelimiterRun. split; [|reflexivity].
        apply andb_true_iff in Ec. destruct Ec as (Ec & _).
        apply andb_true_iff in Ec. destruct Ec as (Ec & _).
        destruct literal; [discriminate | cbn; lia].
      - injection Enode as <- <-. auto. }
    destruct Hnode as (Hl & Hd).
    split; [cbn [map]; rewrite Hl, Hlit; reflexivity|].
    assert (Hshift : Forall (delimAt (node' :: rest') i) ds' /\
                     Forall (fun e => i < ndIndex e) ds').
    { split; (apply Forall_forall; intros e He;
              pose proof (proj1 (Forall_forall _ _) Hds e He) as (Hle & l & a & b & c & Hn & H1 & H2)).
      - split; [lia|]. exists l, a, b, c. split; [|auto].
        replace (ndIndex e - i) with (S (ndIndex e - S i)) by lia. exact Hn.
      - lia. }
    destruct Hshift as (Hshift & Hgt).
    destruct Hd as [-> | (run & l & a & b & c & -> & -> & H1 & H2)]; cbn [app].
    + split; assumption.
    + split.
      * constructor; [|exact Hshift]. split; [cbn; lia|].
        exists l, a, b, c. cbn [ndIndex]. rewrite Nat.sub_diag. auto.
      * constructor; [exact Hsorted|]. exact Hgt.
Qed.

Lemma literalTotal_map : forall a b,
  map literalOf a = map literalOf b -> literalTotal a = literalTotal b.
Proof.
  intros a b H. unfold literalTotal.
  rewrite <- (map_map literalOf (fun l => length l) a), <- (map_map literalOf (fun l => length l) b).
  rewrite H. reflexivity.
Qed.

Lemma literalTotal_app : forall a b, literalTotal (a ++ b) = literalTotal a + literalTotal b.
Proof. intros. unfold literalTotal. rewrite map_app, list_sum_app. reflexivity. Qed.

(** The opener that [findOpener] finds lies before the closer. *)
Lemma findOpener_spec : forall nodeDelims closer bottom k openerIdx,
  findOpener nodeDelims closer bottom k = Some openerIdx ->
  openerIdx < k /\ exists opener, nth_error nodeDelims openerIdx = Some opener.
Proof.
  intros nodeDelims closer bottom. induction k as [|k IH]; intros openerIdx H;
    cbn [findOpener] in H; [discriminate|].
  destruct (bottom <? Z.of_nat k)%Z; [|discriminate].
  destruct (nth_error nodeDelims k) as [opener|] eqn:E; [|discriminate].
  destruct (canOpen (ndRun opener) && ceq (runChar (ndRun opener)) (runChar closer)
            && canDelimitersMatch (ndRun opener) closer).
  - injection H as <-. split; [lia | eauto].
  - destruct (IH _ H) as (Hlt & Hex). split; [lia | exact Hex].
Qed.

Lemma scanClosers_spec : forall nodeDelims k closerIdx bottoms openerIdx closerIdx' bottoms',
  scanClosers nodeDelims k closerIdx bottoms = (Some (openerIdx, closerIdx'), bottoms') ->
  openerIdx < closerIdx' /\
  (exists opener, nth_error nodeDelims openerIdx = Some opener) /\
  (exists closer, nth_error nodeDelims closerIdx' = Some closer).
Proof.
  intros nodeDelims. induction k as [|k IH]; intros closerIdx bottoms oi ci b' H;
    cbn [scanClosers] in H; [discriminate|].
  destruct (nth_error nodeDelims closerIdx) as [closer|] eqn:E; [|discriminate].
  destruct (negb (canClose (ndRun closer))); [eapply IH; exact H|].
  destruct (findOpener nodeDelims (ndRun closer)
              (bottomOf bottoms (runChar (ndRun closer))) closerIdx) as [o|] eqn:Ef.
  - injection H as <- <- _. destruct (findOpener_spec _ _ _ _ _ Ef) as (Hlt & Hex).
    split; [exact Hlt|]. split; [exact Hex | eauto].
  - eapply IH. exact H.
Qed.

Lemma literalTotal_cons : forall n ns,
  literalTotal (n :: ns) = length (literalOf n) + literalTotal ns.
Proof. reflexivity. Qed.

Lemma literalTotal_split_at : forall ns i x,
  nth_error ns i = Some x ->
  literalTotal ns =
  literalTotal (firstn i ns) + length (literalOf x) + literalTotal (skipn (S i) ns).
Proof.
  induction ns as [|n ns IH]; intros i x H.
  - destruct i; discriminate.
  - destruct i as [|i]; cbn [nth_error] in H.
    + injection H as <-. cbn [firstn skipn]. rewrite literalTotal_cons.
      change (literalTotal []) with 0. lia.
    + cbn [firstn skipn]. rewrite !literalTotal_cons, (IH i x H). cbn [skipn]. lia.
Qed.

(** A match removes at least two characters from the text nodes. *)
Lemma applyMatch_literalTotal : forall ns opener closer,
  delimAt ns 0 opener -> delimAt ns 0 closer -> ndIndex opener < ndIndex closer ->
  literalTotal (applyMatch ns opener closer) + 2 <= literalTotal ns.
Proof.
  intros ns opener closer (_ & lo & ao & bo & co & Ho & Ho1 & Ho2)
    (_ & lc & ac & bc & cc & Hc & Hc1 & Hc2) Hlt.
  rewrite Nat.sub_0_r in Ho, Hc.
  unfold applyMatch.
  set (numDelims := if (2 <=? runLen (ndRun opener)) && (2 <=? runLen (ndRun closer))
                    then 2 else 1).
  assert (Hnd : 1 <= numDelims /\ numDelims <= length lo /\ numDelims <= length lc).
  { unfold numDelims. destruct (2 <=? runLen (ndRun opener)) eqn:E1;
      destruct (2 <=? runLen (ndRun closer)) eqn:E2; cbn [andb];
      try apply Nat.leb_le in E1; try apply Nat.leb_le in E2; lia. }
  rewrite (nth_error_nth _ _ Softbreak Ho), (nth_error_nth _ _ Softbreak Hc).
  cbn [mapLiteral literalOf].
  rewrite !literalTotal_app.
  assert (Hopen : forall g : bool, literalTotal (if g then [] else [Text (dropLast numDelims lo) ao bo co])
                            + numDelims <= length lo).
  { intros g. destruct g; [change (literalTotal []) with 0; lia|].
    rewrite literalTotal_cons. change (literalTotal []) with 0. cbn [literalOf].
    unfold dropLast. rewrite length_firstn. lia. }
  assert (Hclose : forall g : bool, literalTotal (if g then []
                                           else [Text (sliceFrom lc numDelims) ac bc cc])
                             + numDelims <= length lc).
  { intros g. destruct g; [change (literalTotal []) with 0; lia|].
    rewrite literalTotal_cons. change (literalTotal []) with 0. cbn [literalOf].
    unfold sliceFrom. rewrite length_skipn. lia. }
  match goal with
  | |- _ + (literalTotal (if ?g1 then _ else _) + (_ + (literalTotal (if ?g2 then _ else _) + _)))
       + 2 <= _ =>
      specialize (Hopen g1); specialize (Hclose g2)
  end.
  assert (Hemph : forall e, (exists ch, e = Strong ch \/ e = Emphasis ch) -> literalTotal [e] = 0).
  { intros e (ch & [-> | ->]); reflexivity. }
  match goal with
  | |- context [literalTotal [?e]] =>
      rewrite (Hemph e) by (eexists; destruct ((2 <=? runLen (ndRun opener))
                                               && (2 <=? runLen (ndRun closer))); eauto)
  end.
  rewrite (literalTotal_split_at ns (ndIndex opener) _ Ho).
  assert (Hc' : nth_error (skipn (S (ndIndex opener)) ns) (ndIndex closer - S (ndIndex opener))
                = Some (Text lc ac bc cc)).
  { rewrite nth_error_skipn. replace (S (ndIndex opener) + (ndIndex closer - S (ndIndex opener)))
      with (ndIndex closer) by lia. exact Hc. }
  rewrite (literalTotal_split_at _ _ _ Hc').
  rewrite skipn_skipn.
  replace (S (ndIndex closer - S (ndIndex opener)) + S (ndIndex opener))
    with (ndIndex closer + 1) by lia.
  cbn [literalOf]. lia.
Qed.

(** The loop of [processEmphasis] ends: a fuel of one unit per character held
    by the text nodes is never exhausted. *)
Lemma processEmphasis_loop_total : forall fuel ns0 ns ds bottoms,
  buildNodeDelims None 0 ns0 = (ns, ds) ->
  literalTotal ns <= fuel ->
  exists result, processEmphasis_loop fuel ns ds bottoms = Some result.
Proof.
  induction fuel as [|fuel IH]; intros ns0 ns ds bottoms Hb Hf.
  - cbn [processEmphasis_loop].
    destruct (scanClosers ds (length ds) 0 bottoms) as [[[oi ci]|] b'] eqn:Es; [|eauto].
    exfalso.
    destruct (scanClosers_spec _ _ _ _ _ _ _ Es) as (Hlt & (opener & Ho) & (closer & Hc)).
    destruct (buildNodeDelims_spec _ _ _ _ _ Hb) as (_ & Hds & Hsorted).
    pose proof (proj1 (Forall_forall _ _) Hds opener (nth_error_In _ _ Ho))
      as (_ & l & a & b & c & Hn & H1 & _).
    rewrite Nat.sub_0_r in Hn.
    rewrite (literalTotal_split_at _ _ _ Hn) in Hf. cbn [literalOf] in Hf. lia.
  - cbn [processEmphasis_loop].
    destruct (scanClosers ds (length ds) 0 bottoms) as [[[oi ci]|] b'] eqn:Es; [|eauto].
    destruct (scanClosers_spec _ _ _ _ _ _ _ Es) as (Hlt & (opener & Ho) & (closer & Hc)).
    rewrite Ho, Hc.
    destruct (buildNodeDelims None 0 (applyMatch ns opener closer)) as [ns' ds'] eqn:Eb.
    eapply IH; [exact Eb|].
    destruct (buildNodeDelims_spec _ _ _ _ _ Hb) as (_ & Hds & Hsorted).
    destruct (buildNodeDelims_spec _ _ _ _ _ Eb) as (Hlit & _ & _).
    rewrite (literalTotal_map _ _ Hlit).
    assert (Hidx : ndIndex opener < ndIndex closer).
    { clear - Hsorted Ho Hc Hlt. revert oi ci Ho Hc Hlt.
      induction Hsorted as [|e ds Hs IHs He]; intros oi ci Ho Hc Hlt.
      - destruct oi; discriminate.
      - destruct ci as [|ci]; [lia|]. cbn [nth_error] in Hc.
        destruct oi as [|oi]; cbn [nth_error] in Ho.
        + injection Ho as <-.
          apply (proj1 (Forall_forall _ _) He closer (nth_error_In _ _ Hc)).
        + eapply IHs; eauto. lia. }
    pose proof (applyMatch_literalTotal ns opener closer
                  (proj1 (Forall_forall _ _) Hds opener (nth_error_In _ _ Ho))
                  (proj1 (Forall_forall _ _) Hds closer (nth_error_In _ _ Hc)) Hidx).
    lia.
Qed.

(** [processEmphasis] returns on every array of nodes. *)
Lemma processEmphasis_total : forall ns, exists result, processEmphasis ns = Some result.
Proof.
  intro ns. unfold processEmphasis.
  destruct (buildNodeDelims None 0 ns) as [ns1 ds] eqn:Eb.
  destruct (length ds =? 0); [eauto|].
  destruct (processEmphasis_loop_total (literalTotal ns1) ns ns1 ds (-1, -1)%Z Eb (le_n _))
    as (r & Hr).
  rewrite Hr. eauto.
Qed.

(** *** The loop of [InlineParser.parse] *)

Lemma span_length_snd : forall p (s : str), length (snd (span p s)) <= length s.
Proof.
  intros p. induction s as [|c s IH]; cbn [span]; [cbn; lia|].
  destruct (p c); [|cbn; lia]. destruct (span p s) as [a b]. cbn [snd length] in *. lia.
Qed.

Lemma dropWhile_length : forall p (s : str), length (dropWhile p s) <= length s.
Proof.
  intros p. induction s as [|c s IH]; cbn [dropWhile]; [lia|].
  destruct (p c); cbn [length]; lia.
Qed.

Lemma matchAttrValue_length : forall s rest,
  matchAttrValue s = Some rest -> length rest <= length s.
Proof.
  intros s rest H. unfold matchAttrValue in H. destruct s as [|c r]; [discriminate|].
  destruct (isUnquotedValueChar c) eqn:Ec.
  - injection H as <-. exact (span_length_snd isUnquotedValueChar (c :: r)).
  - destruct (ceq c SQUOTE).
    + pose proof (span_length_snd (fun d => negb (ceq d SQUOTE)) r) as Hl.
      destruct (span (fun d => negb (ceq d SQUOTE)) r) as [a [|x b]]; [discriminate|].
      injection H as <-. cbn [snd length] in *. lia.
    + destruct (ceq c DQUOTE); [|discriminate].
      pose proof (span_length_snd (fun d => negb (ceq d DQUOTE)) r) as Hl.
      destruct (span (fun d => negb (ceq d DQUOTE)) r) as [a [|x b]]; [discriminate|].
      injection H as <-. cbn [snd length] in *. lia.
Qed.

Lemma matchAttrValueSpec_length : forall s, length (matchAttrValueSpec s) <= length s.
Proof.
  intro s. unfold matchAttrValueSpec.
  pose proof (dropWhile_length isJsSpace s) as H1.
  destruct (dropWhile isJsSpace s) as [|c r]; [lia|].
  destruct (ceq c EQUALS); [|lia].
  destruct (matchAttrValue (dropWhile isJsSpace r)) as [rest|] eqn:E; [|lia].
  apply matchAttrValue_length in E. pose proof (dropWhile_length isJsSpace r). cbn in H1. lia.
Qed.

Lemma matchAttributes_length : forall fuel s, length (matchAttributes fuel s) <= length s.
Proof.
  induction fuel as [|fuel IH]; intro s; cbn [matchAttributes]; [lia|].
  destruct s as [|c r]; [lia|].
  destruct (isJsSpace c); [|lia].
  pose proof (dropWhile_length isJsSpace (c :: r)) as H1.
  destruct (dropWhile isJsSpace (c :: r)) as [|a r']; [lia|].
  destruct (isAttrNameStart a); [|lia].
  pose proof (IH (matchAttrValueSpec (snd (span isAttrNameChar r')))) as H2.
  pose proof (matchAttrValueSpec_length (snd (span isAttrNameChar r'))) as H3.
  pose proof (span_length_snd isAttrNameChar r') as H4. cbn [length] in *. lia.
Qed.

Lemma matchOpenTag_length : forall s rest,
  matchOpenTag s = Some rest -> length rest < length s.
Proof.
  intros s rest H. unfold matchOpenTag in H.
  destruct s as [|c [|a r]]; try discriminate.
  destruct (ceq c LT && isAlpha a); [|discriminate]. cbv zeta in H.
  pose proof (span_length_snd isTagNameChar r) as H1.
  pose proof (matchAttributes_length (length (snd (span isTagNameChar r)))
                (snd (span isTagNameChar r))) as H2.
  pose proof (dropWhile_length isJsSpace
                (matchAttributes (length (snd (span isTagNameChar r)))
                   (snd (span isTagNameChar r)))) as H3.
  destruct (dropWhile isJsSpace _) as [|t rest0]; [discriminate|].
  destruct (ceq t GT).
  - injection H as <-. cbn [length] in *. lia.
  - destruct (ceq t SLASH); [|discriminate].
    destruct rest0 as [|g rest']; [discriminate|].
    destruct (ceq g GT); [|discriminate]. injection H as <-. cbn [length] in *. lia.
Qed.

Lemma matchCloseTag_length : forall s rest,
  matchCloseTag s = Some rest -> length rest < length s.
Proof.
  intros s rest H. unfold matchCloseTag in H.
  destruct s as [|c [|d [|a r]]]; try discriminate.
  destruct (ceq c LT && ceq d SLASH && isAlpha a); [|discriminate].
  pose proof (span_length_snd isTagNameChar r) as H1.
  pose proof (dropWhile_length isJsSpace (snd (span isTagNameChar r))) as H2.
  destruct (dropWhile isJsSpace _) as [|t rest0]; [discriminate|].
  destruct (ceq t GT); [|discriminate]. injection H as <-. cbn [length] in *. lia.
Qed.

Lemma matchUpTo_length : forall open close s n,
  matchUpTo open close s = Some n -> length open + length close <= n.
Proof.
  intros open close s n H. unfold matchUpTo in H.
  destruct (startsWith s open); [|discriminate].
  destruct (indexOf (sliceFrom s (length open)) close); [|discriminate].
  injection H as <-. lia.
Qed.

Lemma matchInlineHtml_length : forall s literal len,
  matchInlineHtml s = Some (literal, len) -> 1 <= len.
Proof.
  intros s literal len H. unfold matchInlineHtml in H.
  destruct (matchOpenTag s) as [rest|] eqn:E1.
  { apply matchOpenTag_length in E1. injection H as _ <-. lia. }
  destruct (matchCloseTag s) as [rest|] eqn:E2.
  { apply matchCloseTag_length in E2. injection H as _ <-. lia. }
  destruct (startsWith s (js "<!-->")); [injection H as _ <-; lia|].
  destruct (startsWith s (js "<!--->")); [injection H as _ <-; lia|].
  cbn [orb] in H.
  destruct (matchUpTo (js "<!--") (js "-->") s) as [n|] eqn:E3.
  { apply matchUpTo_length in E3. injection H as _ <-. cbn in E3. lia. }
  destruct (matchUpTo (js "<?") (js "?>") s) as [n|] eqn:E4.
  { apply matchUpTo_length in E4. injection H as _ <-. cbn in E4. lia. }
  destruct (matchUpTo (js "<![CDATA[") (js "]]>") s) as [n|] eqn:E5.
  { apply matchUpTo_length in E5. injection H as _ <-. cbn in E5. lia. }
  destruct (startsWith s (js "<!") && _); [|discriminate].
  destruct (indexOf (sliceFrom s 3) [GT]); [|discriminate].
  injection H as _ <-. lia.
Qed.

Lemma parseEscape_length : forall text p c len,
  parseEscape text p = Some (c, len) -> len = 2.
Proof.
  intros text p c len H. unfold parseEscape in H.
  destruct (negb (charIs text p BSLASH)); [discriminate|].
  destruct (charAt text (p + 1)) as [n|]; [|discriminate].
  destruct (ceq n LF); [injection H as _ <-; reflexivity|].
  destruct (isAsciiPunctuation n); [injection H as _ <-; reflexivity | discriminate].
Qed.

Lemma matchEntity_length : forall s entity, matchEntity s = Some entity -> 1 <= length entity.
Proof.
  intros s entity H. unfold matchEntity in H.
  repeat match type of H with
         | match ?x with [] => _ | _ :: _ => _ end = _ => destruct x
         | (if ?c then _ else _) = _ => destruct c
         | (let (_, _) := ?x in _) = _ => destruct x
         | Some _ = Some _ => injection H as <-
         end; try discriminate; cbn [length]; lia.
Qed.

Lemma parseEntity_length : forall text p decoded len,
  parseEntity text p = Some (decoded, len) -> 1 <= len.
Proof.
  intros text p decoded len H. unfold parseEntity in H.
  destruct (negb (charIs text p AMP)); [discriminate|].
  destruct (matchEntity (sliceFrom text p)) as [entity|] eqn:E; [|discriminate].
  destruct (str_eqb _ entity); [discriminate|]. injection H as _ <-.
  eapply matchEntity_length. exact E.
Qed.

Lemma skipWhile_ge : forall p text i, i <= skipWhile p text i.
Proof. intros. unfold skipWhile. lia. Qed.

Lemma runLength_head : forall c (s : str) r, s = c :: r -> 1 <= runLength c s.
Proof.
  intros c s r ->. unfold runLength. cbn [span]. unfold ceq at 1. rewrite Z.eqb_refl.
  destruct (span _ r). cbn. lia.
Qed.

Lemma charAt_sliceFrom_cons : forall (text : str) p c,
  charAt text p = Some c -> exists r, sliceFrom text p = c :: r.
Proof.
  unfold charAt, sliceFrom. induction text as [|x text IH]; intros p c H.
  - destruct p; discriminate.
  - destruct p as [|p]; cbn [nth_error skipn] in *.
    + injection H as <-. eauto.
    + apply IH. exact H.
Qed.

Lemma pos_flushText : forall st, pos (flushText st) = pos st.
Proof. intro st. unfold flushText. destruct (0 <? length (textBuffer st)); reflexivity. Qed.

Lemma pos_lineBreak : forall text n p st, p <= pos (lineBreak text n p st).
Proof. intros. unfold lineBreak, setPos. cbn [pos]. apply skipWhile_ge. Qed.

Lemma closeBracket_advances : forall refs text st opener prev,
  exists st', closeBracket refs text st opener prev = Some st' /\ pos st < pos st'.
Proof.
  intros refs text st opener prev. unfold closeBracket. cbv zeta.
  rewrite pos_flushText.
  assert (Hun : exists st',
            Some (setPos (pos st + 1) (addText [RBRACKET] (setBrackets prev (flushText st))))
            = Some st' /\ pos st < pos st').
  { eexists. split; [reflexivity|]. cbn [pos setPos]. lia. }
  destruct (negb (active opener)); [exact Hun|].
  match goal with
  | |- exists st', match ?m with Some _ => _ | None => _ end = _ /\ _ =>
      assert (Hm : m = None \/ exists d t consumed, m = Some (d, t, consumed) /\ 1 <= consumed);
        [| destruct Hm as [-> | (d & t & consumed & -> & Hc)]; [exact Hun|] ]
  end.
  { assert (Hlook : forall lbl n, 1 <= n ->
              lookupRef refs lbl n = None \/
              exists d t consumed, lookupRef refs lbl n = Some (d, t, consumed) /\ 1 <= consumed).
    { intros lbl n Hn. unfold lookupRef. destruct (refGet refs lbl); [right | left]; eauto. }
    destruct (charIs text (pos st + 1) LPAREN).
    - destruct (parseInlineLink text (pos st + 1)) as [[[d t] len]|].
      + right. exists d, t, (1 + len). split; [reflexivity | lia].
      + destruct (charIs text (pos st + 1) LBRACKET).
        * destruct (parseLinkLabel text (pos st + 1)) as [[lbl len]|].
          -- destruct (0 <? length lbl).
             ++ destruct (Hlook lbl (1 + len)) as [-> | (d & t & c & -> & Hc)]; [lia | |].
                ** cbn [negb]. left. reflexivity.
                ** right. eauto.
             ++ match goal with
                | |- context [lookupRef refs ?l (1 + len)] =>
                    destruct (Hlook l (1 + len)) as [-> | (d & t & c & -> & Hc)]; [lia | |]
                end.
                ** cbn [negb]. left. reflexivity.
                ** right. eauto.
          -- cbn [negb]. left. reflexivity.
        * cbn [negb].
          match goal with
          | |- context [if 0 <? length ?l then _ else _] => destruct (0 <? length l)
          end; [apply Hlook; lia | left; reflexivity].
    - destruct (charIs text (pos st + 1) LBRACKET).
      + destruct (parseLinkLabel text (pos st + 1)) as [[lbl len]|].
        * destruct (0 <? length lbl).
          -- destruct (Hlook lbl (1 + len)) as [-> | (d & t & c & -> & Hc)]; [lia | |].
             ++ cbn [negb]. left. reflexivity.
             ++ right. eauto.
          -- match goal with
             | |- context [lookupRef refs ?l (1 + len)] =>
                 destruct (Hlook l (1 + len)) as [-> | (d & t & c & -> & Hc)]; [lia | |]
             end.
             ++ cbn [negb]. left. reflexivity.
             ++ right. eauto.
        * cbn [negb]. left. reflexivity.
      + cbn [negb].
        match goal with
        | |- context [if 0 <? length ?l then _ else _] => destruct (0 <? length l)
        end; [apply Hlook; lia | left; reflexivity]. }
  destruct (processEmphasis_total (skipn (nodeIndex opener + 1) (nodes (flushText st))))
    as (inner & ->).
  destruct (bracketType opener); eexists; (split; [reflexivity|]); cbn [pos]; lia.
Qed.

(** Every iteration of the loop returns and moves [pos] forward. *)
Lemma parse_step_advances : forall refs text st,
  pos st < length text ->
  exists st', parse_step refs text st = Some st' /\ pos st < pos st'.
Proof.
  intros refs text st Hp. unfold parse_step. cbv zeta.
  destruct (charAt text (pos st)) as [char|] eqn:Ec.
  2:{ unfold charAt in Ec. apply nth_error_None in Ec. lia. }
  destruct (charAt_sliceFrom_cons _ _ _ Ec) as (rest & Hs).
  assert (Hplain : exists st', Some (setPos (pos st + 1) (addText [char] st)) = Some st'
                               /\ pos st < pos st').
  { eexists. split; [reflexivity|]. cbn [pos setPos]. lia. }
  destruct (parseEscape text (pos st)) as [[c len]|] eqn:Ee.
  { apply parseEscape_length in Ee. subst len.
    destruct (ceq c LF).
    - eexists. split; [reflexivity|]. pose proof (pos_lineBreak text Hardbreak (pos st + 2) st). lia.
    - destruct (ceq c STAR || ceq c UNDERSCORE);
        [|destruct (ceq c DQUOTE || ceq c SQUOTE || ceq c DASH || ceq c DOT)];
        eexists; (split; [reflexivity|]); cbn [pos setPos]; lia. }
  destruct (parseEntity text (pos st)) as [[decoded len]|] eqn:En.
  { apply parseEntity_length in En. eexists. split; [reflexivity|]. cbn [pos setPos]. lia. }
  destruct (ceq char BACKTICK) eqn:E1.
  { apply ceq_eq in E1. subst char.
    pose proof (runLength_head BACKTICK _ _ Hs) as Hr.
    destruct (parseCodeSpan text (pos st)) as [[literal len]|] eqn:Ecs.
    - unfold parseCodeSpan in Ecs.
      destruct (negb (charIs text (pos st) BACKTICK)); [discriminate|]. cbv zeta in Ecs.
      destruct (codeSpanClose _ 0 _); [|discriminate]. injection Ecs as _ <-.
      eexists. split; [reflexivity|]. cbn [pos setPos]. lia.
    - eexists. split; [reflexivity|]. cbn [pos setPos]. lia. }
  destruct (ceq char LT).
  { destruct (parseAutolink text (pos st)) as [[node len]|] eqn:Ea.
    - unfold parseAutolink in Ea. destruct (negb (charIs text (pos st) LT)); [discriminate|].
      cbv zeta in Ea.
      destruct (matchAutolinkUri _); [injection Ea as _ <-|];
        [|destruct (matchAutolinkEmail _); [injection Ea as _ <- | discriminate]];
        eexists; (split; [reflexivity|]); cbn [pos setPos]; lia.
    - destruct (matchInlineHtml (sliceFrom text (pos st))) as [[literal len]|] eqn:Eh;
        [|exact Hplain].
      apply matchInlineHtml_length in Eh.
      eexists. split; [reflexivity|]. cbn [pos setPos]. lia. }
  destruct (ceq char SP).
  { destruct (charIs text _ LF && _); [|exact Hplain].
    eexists. split; [reflexivity|].
    match goal with |- _ < pos (lineBreak _ _ ?q _) => pose proof (pos_lineBreak text Hardbreak q st) end.
    lia. }
  destruct (ceq char LF).
  { eexists. split; [reflexivity|]. pose proof (pos_lineBreak text Softbreak (pos st + 1) st). lia. }
  destruct (ceq char STAR || ceq char UNDERSCORE) eqn:E2.
  { destruct (parseDelimiterRun text (pos st)) as [run|] eqn:Er.
    - unfold parseDelimiterRun in Er. rewrite Ec, E2 in Er. injection Er as <-.
      rewrite runLen_flanking.
      pose proof (runLength_head char _ _ Hs).
      eexists. split; [reflexivity|]. cbn [pos setPos]. lia.
    - eexists. split; [reflexivity|]. cbn [pos setPos]. lia. }
  destruct (ceq char BANG && charIs text (pos st + 1) LBRACKET).
  { eexists. split; [reflexivity|]. cbn [pos setPos]. lia. }
  destruct (ceq char LBRACKET).
  { eexists. split; [reflexivity|]. cbn [pos setPos]. lia. }
  destruct (ceq char RBRACKET); [|exact Hplain].
  destruct (bracketStack st) as [|opener prev]; [exact Hplain|].
  apply closeBracket_advances.
Qed.

(** The loop of [parse] ends within [text.length - pos] iterations. *)
Lemma parse_loop_total : forall refs text fuel st,
  length text - pos st <= fuel ->
  exists st', parse_loop refs text fuel st = Some st'.
Proof.
  intros refs text. induction fuel as [|fuel IH]; intros st Hf; cbn [parse_loop].
  - destruct (pos st <? length text) eqn:E; [|eauto]. apply Nat.ltb_lt in E. lia.
  - destruct (pos st <? length text) eqn:E; [|eauto]. apply Nat.ltb_lt in E.
    destruct (parse_step_advances refs text st E) as (st1 & -> & Hlt).
    apply IH. lia.
Qed.

(** [InlineParser.parse] returns on every text. *)
Lemma InlineParser_parse_total : forall refs text,
  exists result, InlineParser_parse refs text = Some result.
Proof.
  intros refs text. unfold InlineParser_parse.
  destruct (parse_loop_total refs text (length text) (mkIState [] [] 0 [])) as (st & ->).
  - cbn [pos]. lia.
  - apply processEmphasis_total.
Qed.

(** *** The inline phase over the block tree *)

Lemma mapOpt_total : forall (A B : Type) (f : A -> option B) (l : list A),
  Forall (fun x => exists y, f x = Some y) l -> exists ys, mapOpt f l = Some ys.
Proof.
  intros A B f l H. induction H as [|x l (y & Hy) _ (ys & Hys)]; cbn [mapOpt].
  - eauto.
  - rewrite Hy. fold (mapOpt f l). rewrite Hys. eauto.
Qed.

Lemma inlineChildren_total : forall refs rawContent,
  exists r, inlineChildren refs rawContent = Some r.
Proof.
  intros refs [|c r]; cbn [inlineChildren]; [eauto|]. apply InlineParser_parse_total.
Qed.

Lemma processBlock_total : forall refs (block : RawBlock),
  exists r, processBlock refs block = Some r.
Proof.
  intro refs. fix IH 1. intro block.
  assert (Hlist : forall l : list RawBlock,
            (fix all (l : list RawBlock) : Prop :=
               match l with
               | [] => True
               | x :: r => (exists y, processBlock refs x = Some y) /\ all r
               end) l ->
            exists ys, mapOpt (processBlock refs) l = Some ys).
  { intros l H. apply mapOpt_total. induction l as [|x l IHl]; [constructor|].
    destruct H as (Hx & Hl). constructor; auto. }
  destruct block as [c | lvl c | | i l f | ch | t s tight d b items | checked ch | l | al rows];
    cbn [processBlock].
  - destruct (inlineChildren_total refs c) as (r & ->). cbn. eauto.
  - destruct (inlineChildren_total refs c) as (r & ->). cbn. eauto.
  - eauto.
  - eauto.
  - destruct (Hlist ch) as (ys & ->); [|cbn; eauto].
    induction ch as [|x ch IHch]; [exact I|]. split; [apply IH | exact IHch].
  - destruct (Hlist items) as (ys & ->); [|cbn; eauto].
    induction items as [|x items IHi]; [exact I|]. split; [apply IH | exact IHi].
  - destruct (Hlist ch) as (ys & ->); [|cbn; eauto].
    induction ch as [|x ch IHch]; [exact I|]. split; [apply IH | exact IHch].
  - eauto.
  - eauto.
Qed.

(** [parse] returns whenever the block phase does. *)
Lemma parse_total_from_blocks : forall depth input blocks refs,
  BlockParser_parse depth input = Some (blocks, refs) ->
  exists document, parse depth input = Some document.
Proof.
  intros depth input blocks refs H. unfold parse. rewrite H.
  apply mapOpt_total. apply Forall_forall. intros x _. apply processBlock_total.
Qed.

(** *** C5: the block phase

    A recursive parse runs on the lines of a block quote, with one [>] taken
    off each, or on the lines of a list item, with the marker taken off the
    first.  What follows measures a line by the characters that such steps
    can still take off; the measure ignores spaces and tabs, which the
    column arithmetic of the parser rewrites freely. *)

Lemma skeleton_app : forall a b, skeleton (a ++ b) = skeleton a ++ skeleton b.
Proof. intros a b. unfold skeleton. apply filter_app. Qed.

Lemma skeleton_blank : forall a, forallb isSpaceTab a = true -> skeleton a = [].
Proof.
  induction a as [|c a IH]; intros H; [reflexivity|].
  cbn [forallb] in H. apply andb_true_iff in H as [Hc Ha].
  unfold skeleton in *. cbn [filter]. rewrite Hc. cbn [negb]. auto.
Qed.

Lemma skeleton_spaces : forall a, forallb isSP a = true -> skeleton a = [].
Proof.
  intros a H. apply skeleton_blank. rewrite forallb_forall in *.
  intros c Hc. unfold isSpaceTab. apply H in Hc. unfold isSP in Hc. rewrite Hc. reflexivity.
Qed.

Lemma skeleton_repeat_SP : forall n, skeleton (repeat SP n) = [].
Proof. induction n as [|n IH]; [reflexivity|]. cbn [repeat]. exact IH. Qed.

Lemma skeleton_cons_keep : forall c l,
  isSpaceTab c = false -> skeleton (c :: l) = c :: skeleton l.
Proof. intros c l H. unfold skeleton. cbn [filter]. rewrite H. reflexivity. Qed.

Lemma skeleton_cons_drop : forall c l,
  isSpaceTab c = true -> skeleton (c :: l) = skeleton l.
Proof. intros c l H. unfold skeleton. cbn [filter]. rewrite H. reflexivity. Qed.

Lemma skeleton_expandRestOfLine : forall rest col,
  skeleton (expandRestOfLine rest col) = skeleton rest.
Proof.
  induction rest as [|c r IH]; intros col; [reflexivity|]. cbn [expandRestOfLine].
  destruct (ceq c TAB) eqn:Ht.
  - rewrite skeleton_app, skeleton_repeat_SP, IH. cbn [app].
    rewrite skeleton_cons_drop; [reflexivity|]. unfold isSpaceTab. rewrite Ht. apply orb_true_r.
  - destruct (isSpaceTab c) eqn:Hs.
    + rewrite !skeleton_cons_drop by exact Hs. apply IH.
    + rewrite !skeleton_cons_keep by exact Hs. f_equal. apply IH.
Qed.

Lemma skeleton_removeIndent_loop : forall line indent removed,
  skeleton (removeIndent_loop line indent removed) = skeleton line.
Proof.
  induction line as [|c r IH]; intros indent removed; [reflexivity|].
  cbn [removeIndent_loop]. destruct (removed <? indent); [|reflexivity].
  destruct (ceq c SP) eqn:Hs.
  { rewrite IH. rewrite skeleton_cons_drop; [reflexivity|]. unfold isSpaceTab. rewrite Hs. reflexivity. }
  destruct (ceq c TAB) eqn:Ht; [|reflexivity].
  assert (Hd : skeleton (c :: r) = skeleton r).
  { apply skeleton_cons_drop. unfold isSpaceTab. rewrite Ht. apply orb_true_r. }
  rewrite Hd. destruct (_ <=? _); [apply IH|].
  rewrite skeleton_app, skeleton_repeat_SP. apply skeleton_expandRestOfLine.
Qed.

Lemma skeleton_removeIndent : forall line indent,
  skeleton (removeIndent line indent) = skeleton line.
Proof. intros. apply skeleton_removeIndent_loop. Qed.

Lemma safeLine_skeleton : forall l, safeLine l = forallb safeChar (skeleton l).
Proof.
  induction l as [|c l IH]; [reflexivity|]. unfold safeLine in *. cbn [forallb].
  destruct (isSpaceTab c) eqn:Hs.
  - rewrite skeleton_cons_drop by exact Hs. rewrite <- IH.
    replace (safeChar c) with true; [reflexivity|].
    unfold isSpaceTab in Hs. apply orb_true_iff in Hs as [H|H]; apply ceq_eq in H; subst c;
      reflexivity.
  - rewrite skeleton_cons_keep by exact Hs. cbn [forallb]. rewrite IH. reflexivity.
Qed.

Lemma safeLine_same_skeleton : forall a b,
  skeleton a = skeleton b -> safeLine a = safeLine b.
Proof.
  intros a b H. rewrite (safeLine_skeleton a), (safeLine_skeleton b), H. reflexivity.
Qed.

(** **** The measure of a skeleton *)

Lemma quoteDeg_le_visible : forall s, quoteDeg s <= visible s.
Proof.
  induction s as [|c r IH]; [apply Nat.le_refl|]. cbn [quoteDeg]. unfold visible in *.
  cbn [filter]. destruct (ceq c NUL); cbn [negb]; [exact IH|].
  destruct (ceq c GT && nulForm r); cbn [length]; lia.
Qed.

Lemma quoteDeg_plain : forall s, nulForm s = false -> quoteDeg s = visible s.
Proof.
  intros [|c r] H; [reflexivity|]. cbn [nulForm] in H. cbn [quoteDeg]. unfold visible.
  cbn [filter]. destruct (ceq c GT) eqn:Hg.
  - apply ceq_eq in Hg. subst c. rewrite H. reflexivity.
  - rewrite H. reflexivity.
Qed.

Lemma quoteDeg_gt : forall r,
  quoteDeg (GT :: r) = if nulForm r then quoteDeg r else S (quoteDeg r).
Proof.
  intros r. cbn [quoteDeg]. change (ceq GT NUL) with false. change (ceq GT GT) with true.
  cbn [andb]. destruct (nulForm r) eqn:H; [reflexivity|].
  rewrite (quoteDeg_plain r H). reflexivity.
Qed.

Lemma quoteDeg_nul : forall r, quoteDeg (NUL :: r) = quoteDeg r.
Proof. reflexivity. Qed.

Lemma nulForm_gt : forall r, nulForm (GT :: r) = nulForm r.
Proof. reflexivity. Qed.

Lemma nulForm_prefixed : forall q s, nulForm (repeat GT q ++ NUL :: s) = true.
Proof. induction q as [|q IH]; intros s; [reflexivity|]. cbn [repeat app]. rewrite nulForm_gt. apply IH. Qed.

Lemma leadGt_prefixed : forall q s, leadGt (repeat GT q ++ NUL :: s) = q.
Proof. induction q as [|q IH]; intros s; [reflexivity|]. cbn [repeat app leadGt]. change (ceq GT GT) with true. cbn iota. f_equal. apply IH. Qed.

Lemma quoteDeg_prefixed : forall q s, quoteDeg (repeat GT q ++ NUL :: s) = quoteDeg s.
Proof.
  induction q as [|q IH]; intros s; [reflexivity|]. cbn [repeat app].
  rewrite quoteDeg_gt, nulForm_prefixed. apply IH.
Qed.

Lemma preDeg_le_leadGt : forall s, preDeg s <= leadGt s.
Proof. intros s. unfold preDeg. destruct (nulForm s); lia. Qed.

Lemma visible_app : forall a b, visible (a ++ b) = visible a + visible b.
Proof. intros a b. unfold visible. rewrite filter_app, length_app. reflexivity. Qed.

Lemma visible_skipn : forall k s, visible (skipn k s) <= visible s.
Proof.
  intros k s. rewrite <- (firstn_skipn k s) at 2. rewrite visible_app. lia.
Qed.

Lemma skeleton_skipn : forall k l, exists j, skeleton (skipn k l) = skipn j (skeleton l).
Proof.
  induction k as [|k IH]; intros l.
  - exists 0. reflexivity.
  - destruct l as [|c l]; [exists 0; reflexivity|]. cbn [skipn].
    destruct (IH l) as [j Hj]. destruct (isSpaceTab c) eqn:Hs.
    + exists j. rewrite skeleton_cons_drop by exact Hs. exact Hj.
    + exists (S j). rewrite skeleton_cons_keep by exact Hs. exact Hj.
Qed.

Lemma forallb_skipn : forall (p : char -> bool) k l,
  forallb p l = true -> forallb p (skipn k l) = true.
Proof.
  intros p k l H. rewrite forallb_forall in *. intros c Hc. apply H.
  rewrite <- (firstn_skipn k l). apply in_or_app. right. exact Hc.
Qed.

(** **** What the parser's line operations do to the measure *)

Lemma skeleton_blockquote : forall line,
  isBlockquoteStart line = true ->
  skeleton line = GT :: skeleton (extractBlockquoteContent line).
Proof.
  intros line H. unfold isBlockquoteStart in H. unfold extractBlockquoteContent.
  unfold matchBlockquote in *.
  destruct (spanUpTo 3 isSP line) as [ind rest] eqn:E.
  destruct (spanUpTo_spec _ _ _ _ _ E) as (-> & Hind).
  rewrite skeleton_app, (skeleton_spaces ind Hind). cbn [app].
  destruct rest as [|c r]; [discriminate|].
  destruct (ceq c GT) eqn:Hg; [|discriminate]. apply ceq_eq in Hg. subst c.
  rewrite skeleton_cons_keep by reflexivity. f_equal.
  destruct r as [|d r'].
  - reflexivity.
  - destruct (isSpaceTab d) eqn:Hd.
    + rewrite skeleton_cons_drop by exact Hd.
      destruct (ceq d TAB).
      * rewrite skeleton_app, skeleton_repeat_SP, skeleton_expandRestOfLine. reflexivity.
      * rewrite skeleton_expandRestOfLine. reflexivity.
    + rewrite skeleton_expandRestOfLine. reflexivity.
Qed.

Lemma skeleton_getBlockquotePrefix : forall fuel line,
  exists q, skeleton (getBlockquotePrefix_loop fuel line) = repeat GT q
            /\ q <= leadGt (skeleton line).
Proof.
  induction fuel as [|fuel IH]; intros line; cbn [getBlockquotePrefix_loop].
  { exists 0. split; [reflexivity | lia]. }
  destruct (spanUpTo 3 isSP line) as [ind rest] eqn:E.
  destruct (spanUpTo_spec _ _ _ _ _ E) as (-> & Hind).
  rewrite skeleton_app, (skeleton_spaces ind Hind). cbn [app].
  destruct rest as [|c r]; [exists 0; split; [reflexivity | lia]|].
  destruct (ceq c GT) eqn:Hg; [|exists 0; split; [reflexivity | lia]].
  apply ceq_eq in Hg. subst c.
  rewrite (skeleton_cons_keep GT r) by reflexivity. cbn [leadGt].
  change (ceq GT GT) with true. cbn iota.
  destruct r as [|d r'].
  - exists 1. rewrite skeleton_app, (skeleton_spaces ind Hind). split; [reflexivity | lia].
  - destruct (isSpaceTab d) eqn:Hd.
    + destruct (IH r') as (q & Hq & Hle). exists (S q).
      rewrite skeleton_app, (skeleton_spaces ind Hind). cbn [app].
      rewrite skeleton_cons_keep by reflexivity.
      rewrite !skeleton_cons_drop by exact Hd. rewrite Hq. split; [reflexivity | lia].
    + destruct (IH (d :: r')) as (q & Hq & Hle). exists (S q).
      rewrite skeleton_app, (skeleton_spaces ind Hind). cbn [app].
      rewrite skeleton_cons_keep by reflexivity. rewrite Hq. split; [reflexivity | lia].
Qed.

Lemma lazy_line_skeleton : forall lastContent line,
  exists q, skeleton (getBlockquotePrefix lastContent ++ [LAZY_PREFIX] ++ line)
            = repeat GT q ++ NUL :: skeleton line
            /\ q <= leadGt (skeleton lastContent).
Proof.
  intros lc line. unfold getBlockquotePrefix.
  destruct (skeleton_getBlockquotePrefix (length lc) lc) as (q & Hq & Hle).
  exists q. rewrite skeleton_app, Hq. split; [reflexivity | exact Hle].
Qed.

Lemma lazy_strip : forall line0,
  startsWith line0 [LAZY_PREFIX] = true -> line0 = NUL :: sliceFrom line0 1.
Proof.
  intros [|c r] H; cbn [startsWith] in H; [discriminate|].
  rewrite andb_true_r in H. apply ceq_eq in H. subst c. reflexivity.
Qed.

Lemma lineDeg_lazy_strip : forall line0,
  startsWith line0 [LAZY_PREFIX] = true -> lineDeg (sliceFrom line0 1) = lineDeg line0.
Proof.
  intros line0 H. rewrite (lazy_strip line0 H) at 2. unfold lineDeg.
  rewrite skeleton_cons_keep by reflexivity. reflexivity.
Qed.

Lemma safeLine_lazy_strip : forall line0,
  safeLine line0 = true -> safeLine (sliceFrom line0 1) = true.
Proof. intros line0 H. apply forallb_skipn. exact H. Qed.

Lemma isDigit_solid : forall c, isDigit c = true -> solid c = true.
Proof.
  intros c H. unfold isDigit, inRange in H. apply andb_true_iff in H as [H1 H2].
  apply Z.leb_le in H1. apply Z.leb_le in H2.
  unfold solid, isSpaceTab, ceq, NUL, GT, SP, TAB.
  repeat match goal with |- context [Z.eqb c ?k] =>
    let E := fresh in destruct (Z.eqb_spec c k) as [E|E]; [lia|] end.
  reflexivity.
Qed.

Lemma span_forallb : forall p (s : str), forallb p (fst (span p s)) = true.
Proof.
  induction s as [|c r IH]; [reflexivity|]. cbn [span].
  destruct (p c) eqn:Hc; [|reflexivity].
  destruct (span p r) as [a b]. cbn [fst forallb] in *. rewrite Hc. exact IH.
Qed.

Lemma span_app_eq : forall p (s : str), s = fst (span p s) ++ snd (span p s).
Proof.
  induction s as [|c r IH]; [reflexivity|]. cbn [span].
  destruct (p c); [|reflexivity].
  destruct (span p r) as [a b]. cbn [fst snd app] in *. f_equal. exact IH.
Qed.

Lemma buildMarker_fields : forall ty ic mk bc st dl sp,
  mMarker (buildMarker ty ic mk bc st dl sp) = mk
  /\ mIndentChars (buildMarker ty ic mk bc st dl sp) = ic.
Proof.
  intros. unfold buildMarker.
  destruct (str_eqb sp [TAB]); [split; reflexivity|].
  destruct (5 <=? _); split; reflexivity.
Qed.

(** The shape of a line on which [parseListMarker] finds a marker. *)
Lemma parseListMarker_shape : forall line m,
  parseListMarker line = Some m ->
  exists ind rest,
    line = ind ++ mMarker m ++ rest
    /\ length ind = mIndentChars m
    /\ forallb isSP ind = true
    /\ mMarker m <> []
    /\ forallb solid (mMarker m) = true.
Proof.
  intros line m H. unfold parseListMarker in H.
  destruct (spanUpTo 3 isSP line) as [ind rest] eqn:E.
  destruct (spanUpTo_spec _ _ _ _ _ E) as (-> & Hind).
  exists ind.
  assert (Hbullet : forall c r sp,
            rest = c :: r -> (ceq c DASH || ceq c PLUS || ceq c STAR) = true ->
            m = buildMarker Bullet (length ind) [c] (Some c) None None sp ->
            exists rest0, ind ++ rest = ind ++ mMarker m ++ rest0
              /\ length ind = mIndentChars m /\ forallb isSP ind = true
              /\ mMarker m <> [] /\ forallb solid (mMarker m) = true).
  { intros c r sp -> Hc ->. exists r.
    destruct (buildMarker_fields Bullet (length ind) [c] (Some c) None None sp) as [-> ->].
    repeat split; try assumption; try discriminate.
    cbn [forallb]. rewrite andb_true_r.
    apply orb_true_iff in Hc as [Hc|Hc]; [apply orb_true_iff in Hc as [Hc|Hc]|];
      apply ceq_eq in Hc; subst c; reflexivity. }
  destruct rest as [|c r].
  { cbn [span] in H. discriminate. }
  destruct (ceq c DASH || ceq c PLUS || ceq c STAR) eqn:Hc.
  - destruct (matchSpacesAfter r) as [sp|] eqn:Hsp.
    + injection H as <-. eapply Hbullet; [reflexivity | exact Hc | reflexivity].
    + (* a bullet character is no digit *)
      assert (Hd : isDigit c = false).
      { apply orb_true_iff in Hc as [Hc|Hc]; [apply orb_true_iff in Hc as [Hc|Hc]|];
          apply ceq_eq in Hc; subst c; reflexivity. }
      cbn [span] in H. rewrite Hd in H. cbn [length Nat.leb andb] in H. discriminate.
  - pose proof (span_forallb isDigit (c :: r)) as Hdig.
    pose proof (span_app_eq isDigit (c :: r)) as Happ.
    destruct (span isDigit (c :: r)) as [digits r1]. cbn [fst snd] in *.
    destruct ((1 <=? length digits) && (length digits <=? 9)) eqn:Hlen; [|discriminate].
    destruct r1 as [|d r2]; [discriminate|].
    destruct (ceq d DOT || ceq d RPAREN) eqn:Hdl; [|discriminate].
    destruct (matchSpacesAfter r2) as [sp|]; [|discriminate].
    injection H as <-. exists r2.
    destruct (buildMarker_fields Ordered (length ind) (digits ++ [d]) None
                (parseInt digits 10) (Some d) sp) as [-> ->].
    repeat split; try assumption.
    + rewrite Happ, <- app_assoc. reflexivity.
    + intros Hnil. apply app_eq_nil in Hnil as [_ Hnil]. discriminate.
    + rewrite forallb_app. apply andb_true_iff. split.
      * rewrite forallb_forall in *. intros x Hx. apply isDigit_solid. auto.
      * cbn [forallb]. rewrite andb_true_r.
        apply orb_true_iff in Hdl as [Hd|Hd]; apply ceq_eq in Hd; subst d; reflexivity.
Qed.

Lemma skipn_app_exact : forall (a b : str) k, skipn (length a + k) (a ++ b) = skipn k b.
Proof. induction a as [|c a IH]; intros b k; [reflexivity|]. cbn [length Nat.add app skipn]. apply IH. Qed.

Lemma sumDeg_app : forall a b, sumDeg (a ++ b) = sumDeg a + sumDeg b.
Proof. intros a b. unfold sumDeg. rewrite map_app, list_sum_app. reflexivity. Qed.

Lemma sumDeg_cons : forall l ls, sumDeg (l :: ls) = lineDeg l + sumDeg ls.
Proof. reflexivity. Qed.

Lemma sumDeg_rev : forall ls, sumDeg (rev ls) = sumDeg ls.
Proof.
  induction ls as [|l ls IH]; [reflexivity|]. cbn [rev].
  rewrite sumDeg_app, IH, !sumDeg_cons. change (sumDeg []) with 0. lia.
Qed.

Lemma fits_refl : forall l, fits l l.
Proof. intros l. split; [apply Nat.le_refl | auto]. Qed.

Lemma fits_blank : forall l, fits l [].
Proof. intros l. split; [apply Nat.le_0_l | reflexivity]. Qed.

Lemma fits_removeIndent : forall l c k, fits l c -> fits l (removeIndent c k).
Proof.
  intros l c k [H1 H2]. split.
  - unfold lineDeg in *. rewrite skeleton_removeIndent. exact H1.
  - intros H. rewrite (safeLine_same_skeleton _ c (skeleton_removeIndent c k)). auto.
Qed.

Lemma fits_lazy_strip : forall l,
  fits l (if startsWith l [LAZY_PREFIX] then sliceFrom l 1 else l).
Proof.
  intros l. destruct (startsWith l [LAZY_PREFIX]) eqn:E; [|apply fits_refl]. split.
  - rewrite (lineDeg_lazy_strip l E). apply Nat.le_refl.
  - apply safeLine_lazy_strip.
Qed.

Lemma forallb_snoc : forall (p : str -> bool) a c,
  forallb p (a ++ [c]) = forallb p a && p c.
Proof. intros. rewrite forallb_app. cbn [forallb]. rewrite andb_true_r. reflexivity. Qed.

(** The lines [parseListItem] collects after the first weigh no more than
    the lines it passes. *)
Lemma itemLoop_fits : forall marker rest st st' n,
  itemLoop marker st rest = (st', n) ->
  n <= length rest
  /\ sumDeg (itemLines st') <= sumDeg (itemLines st) + sumDeg (firstn n rest)
  /\ (forallb safeLine rest = true -> forallb safeLine (itemLines st) = true ->
      forallb safeLine (itemLines st') = true).
Proof.
  intros marker. induction rest as [|line0 rest' IH]; intros st st' n H.
  { cbn [itemLoop] in H. injection H as <- <-. cbn [firstn length].
    change (sumDeg []) with 0. repeat split; [lia | lia | auto]. }
  cbn [itemLoop] in H. cbv zeta in H.
  pose proof (fits_lazy_strip line0) as Hline.
  set (line := if startsWith line0 [LAZY_PREFIX] then sliceFrom line0 1 else line0) in *.
  assert (Hstop : forall s, (st, 0) = (s, n) ->
            n <= length (line0 :: rest')
            /\ sumDeg (itemLines s) <= sumDeg (itemLines st) + sumDeg (firstn n (line0 :: rest'))
            /\ (forallb safeLine (line0 :: rest') = true -> forallb safeLine (itemLines st) = true ->
                forallb safeLine (itemLines s) = true)).
  { intros s E. injection E as <- <-. cbn [firstn length]. change (sumDeg []) with 0.
    repeat split; [lia | lia | auto]. }
  assert (Hgo : forall content st1,
            fits line0 content -> itemLines st1 = itemLines st ++ [content] ->
            (let (s, k) := itemLoop marker st1 rest' in (s, S k)) = (st', n) ->
            n <= length (line0 :: rest')
            /\ sumDeg (itemLines st') <= sumDeg (itemLines st) + sumDeg (firstn n (line0 :: rest'))
            /\ (forallb safeLine (line0 :: rest') = true -> forallb safeLine (itemLines st) = true ->
                forallb safeLine (itemLines st') = true)).
  { intros content st1 [Hd Hs] Hl E.
    destruct (itemLoop marker st1 rest') as [s k] eqn:E1. injection E as <- <-.
    destruct (IH _ _ _ E1) as (Hk & Hsum & Hsafe). rewrite Hl in Hsum, Hsafe.
    rewrite sumDeg_app, sumDeg_cons in Hsum. change (sumDeg []) with 0 in Hsum.
    cbn [firstn length]. rewrite sumDeg_cons. repeat split; [lia | lia |].
    cbn [forallb]. intros H0 Hst. apply andb_true_iff in H0 as [H0 Hr].
    apply Hsafe; [exact Hr|]. rewrite forallb_snoc, Hst, (Hs H0). reflexivity. }
  destruct (inFence st) as [fence|].
  { eapply Hgo; [| |exact H]; [|reflexivity].
    destruct (_ <=? _); [apply fits_removeIndent|]; exact Hline. }
  destruct (isBlank line).
  { eapply Hgo; [| |exact H]; [apply fits_blank | reflexivity]. }
  repeat match type of H with
         | (if ?c then _ else _) = _ => destruct c
         end;
    first [ apply Hstop; exact H
          | eapply Hgo; [| |exact H]; [|reflexivity];
            first [ apply fits_removeIndent; exact Hline | exact Hline ] ].
Qed.

Lemma dropLeadingEmpty_fits : forall ls,
  sumDeg (dropLeadingEmpty ls) <= sumDeg ls
  /\ (forallb safeLine ls = true -> forallb safeLine (dropLeadingEmpty ls) = true).
Proof.
  induction ls as [|l ls IH]; [split; [apply Nat.le_refl | auto]|].
  cbn [dropLeadingEmpty]. destruct (str_eqb l []); [|split; [apply Nat.le_refl | auto]].
  destruct IH as [H1 H2]. rewrite sumDeg_cons. split; [lia|].
  cbn [forallb]. intros H. apply andb_true_iff in H as [_ H]. auto.
Qed.

Lemma forallb_rev : forall (p : str -> bool) ls, forallb p (rev ls) = forallb p ls.
Proof.
  induction ls as [|l ls IH]; [reflexivity|]. cbn [rev forallb].
  rewrite forallb_snoc, IH. apply andb_comm.
Qed.

Lemma popTrailingEmpty_fits : forall ls,
  sumDeg (popTrailingEmpty ls) <= sumDeg ls
  /\ (forallb safeLine ls = true -> forallb safeLine (popTrailingEmpty ls) = true).
Proof.
  intros ls. unfold popTrailingEmpty.
  destruct (dropLeadingEmpty_fits (rev ls)) as [H1 H2]. rewrite sumDeg_rev in *.
  split; [exact H1|]. intros H. rewrite forallb_rev. apply H2. rewrite forallb_rev. exact H.
Qed.

Lemma marker_line_not_lazy : forall line m,
  parseListMarker line = Some m -> startsWith line [LAZY_PREFIX] = false.
Proof.
  intros line m H. destruct (parseListMarker_shape line m H) as (ind & rest & -> & _ & Hind & Hne & Hsolid).
  destruct ind as [|c ind].
  - destruct (mMarker m) as [|c mk]; [congruence|]. cbn [forallb] in Hsolid.
    apply andb_true_iff in Hsolid as [Hc _]. cbn [app startsWith]. rewrite andb_true_r.
    unfold solid in Hc. apply andb_true_iff in Hc as [Hc _]. apply andb_true_iff in Hc as [_ Hc].
    apply negb_true_iff in Hc. apply ceq_neq. apply ceq_neq in Hc.
    unfold LAZY_PREFIX. congruence.
  - cbn [forallb] in Hind. apply andb_true_iff in Hind as [Hc _]. apply ceq_eq in Hc. subst c.
    reflexivity.
Qed.

(** The first line of a list item loses its marker. *)
Lemma extractListItemContent_measure : forall line m,
  parseListMarker line = Some m ->
  lineDeg (extractListItemContent line m) < lineDeg line
  /\ (safeLine line = true -> safeLine (extractListItemContent line m) = true).
Proof.
  intros line m H.
  destruct (parseListMarker_shape line m H) as (ind & rest & -> & Hlen & Hind & Hne & Hsolid).
  assert (Hgen : forall res j col, skeleton res = [] ->
            lineDeg (res ++ expandRestOfLine
                       (sliceFrom (ind ++ mMarker m ++ rest) (length ind + length (mMarker m) + j)) col)
              < lineDeg (ind ++ mMarker m ++ rest)
            /\ (safeLine (ind ++ mMarker m ++ rest) = true ->
                safeLine (res ++ expandRestOfLine
                       (sliceFrom (ind ++ mMarker m ++ rest) (length ind + length (mMarker m) + j)) col)
                = true)).
  { intros res j col Hres. unfold sliceFrom.
    rewrite <- Nat.add_assoc, skipn_app_exact, skipn_app_exact.
    destruct (skeleton_skipn j rest) as [j' Hj].
    assert (Hsk : skeleton (res ++ expandRestOfLine (skipn j rest) col) = skipn j' (skeleton rest)).
    { rewrite skeleton_app, Hres, skeleton_expandRestOfLine. exact Hj. }
    destruct (mMarker m) as [|c mk]; [congruence|].
    cbn [forallb] in Hsolid. apply andb_true_iff in Hsolid as [Hc _].
    unfold solid in Hc. apply andb_true_iff in Hc as [Hc Hgt].
    apply andb_true_iff in Hc as [Hsp Hnul].
    apply negb_true_iff in Hsp, Hnul, Hgt.
    assert (Hline : skeleton (ind ++ (c :: mk) ++ rest) = c :: skeleton mk ++ skeleton rest).
    { rewrite skeleton_app, (skeleton_spaces ind Hind). cbn [app].
      rewrite skeleton_cons_keep by exact Hsp. rewrite skeleton_app. reflexivity. }
    split.
    - unfold lineDeg. rewrite Hsk, Hline. cbn [quoteDeg]. rewrite Hnul, Hgt. cbn [andb].
      pose proof (quoteDeg_le_visible (skipn j' (skeleton rest))).
      pose proof (visible_skipn j' (skeleton rest)). rewrite visible_app. lia.
    - rewrite (safeLine_skeleton (ind ++ _)), Hline.
      rewrite (safeLine_skeleton (res ++ _)), Hsk. cbn [forallb]. rewrite forallb_app.
      intros Hs. apply andb_true_iff in Hs as [_ Hs]. apply andb_true_iff in Hs as [_ Hs].
      apply forallb_skipn. exact Hs. }
  unfold extractListItemContent.
  replace (Nat.min (length (ind ++ mMarker m ++ rest)) (mIndentChars m)) with (length ind)
    by (rewrite length_app; lia).
  destruct (_ && _).
  - destruct (charIs _ _ TAB).
    + apply Hgen. apply skeleton_repeat_SP.
    + apply (Hgen []). reflexivity.
  - rewrite <- (Nat.add_0_r (length ind + length (mMarker m))). apply (Hgen []). reflexivity.
Qed.

(** The lines of a list item weigh less than the lines they are taken from. *)
Lemma collectListItem_measure : forall line rest m itemLines n b1 b2,
  parseListMarker line = Some m ->
  collectListItem m (line :: rest) = (itemLines, n, b1, b2) ->
  1 <= n <= length (line :: rest)
  /\ sumDeg itemLines < sumDeg (firstn n (line :: rest))
  /\ (forallb safeLine (line :: rest) = true -> forallb safeLine itemLines = true).
Proof.
  intros line rest m il n b1 b2 Hm H. unfold collectListItem in H. cbv zeta in H.
  rewrite (marker_line_not_lazy line m Hm) in H.
  destruct (extractListItemContent_measure line m Hm) as [Hdeg Hsafe].
  match type of H with context [itemLoop m ?s rest] => set (st0 := s) in H end.
  destruct (itemLoop m st0 rest) as [st k] eqn:E. injection H as <- <- _ _.
  destruct (itemLoop_fits _ _ _ _ _ E) as (Hk & Hsum & Hs).
  destruct (popTrailingEmpty_fits (itemLines st)) as [Hp1 Hp2].
  assert (Hfirst : sumDeg (itemLines st0) < lineDeg line
                   /\ (safeLine line = true -> forallb safeLine (itemLines st0) = true)).
  { subst st0. cbn [itemLines]. rewrite sumDeg_cons. change (sumDeg []) with 0.
    cbn [forallb]. destruct (_ && _).
    - split; [change (lineDeg []) with 0; lia | reflexivity].
    - split; [lia|]. intros Hl. rewrite (Hsafe Hl). reflexivity. }
  destruct Hfirst as [Hf1 Hf2]. cbn [firstn length]. rewrite sumDeg_cons.
  repeat split; [lia | lia | lia |].
  cbn [forallb]. intros H0. apply andb_true_iff in H0 as [H0 Hr]. auto.
Qed.

Lemma blockquote_content_deg : forall line,
  isBlockquoteStart line = true ->
  lineDeg (extractBlockquoteContent line) + (if plainQuote line then 1 else 0) = lineDeg line
  /\ nulForm (skeleton (extractBlockquoteContent line)) = nulForm (skeleton line)
  /\ leadGt (skeleton line) = S (leadGt (skeleton (extractBlockquoteContent line)))
  /\ (safeLine line = true -> safeLine (extractBlockquoteContent line) = true).
Proof.
  intros line H. pose proof (skeleton_blockquote line H) as Hsk.
  unfold plainQuote, lineDeg. rewrite H, Hsk. cbn [andb]. rewrite nulForm_gt, quoteDeg_gt.
  repeat split.
  - destruct (nulForm _); cbn [negb]; lia.
  - rewrite (safeLine_skeleton line), Hsk, (safeLine_skeleton (extractBlockquoteContent line)).
    cbn [forallb]. intros Hs. apply andb_true_iff in Hs as [_ Hs]. exact Hs.
Qed.

Lemma forallb_safeChar_prefixed : forall q s,
  forallb safeChar (repeat GT q ++ NUL :: s) = forallb safeChar s.
Proof. induction q as [|q IH]; intros s; [reflexivity|]. cbn [repeat app forallb]. rewrite IH. reflexivity. Qed.

Lemma lazy_line_deg : forall lastContent line,
  lineDeg (getBlockquotePrefix lastContent ++ [LAZY_PREFIX] ++ line) = lineDeg line
  /\ leadGt (skeleton (getBlockquotePrefix lastContent ++ [LAZY_PREFIX] ++ line))
       <= leadGt (skeleton lastContent)
  /\ safeLine (getBlockquotePrefix lastContent ++ [LAZY_PREFIX] ++ line) = safeLine line.
Proof.
  intros lc line. destruct (lazy_line_skeleton lc line) as (q & Hq & Hle).
  unfold lineDeg. rewrite (safeLine_skeleton (_ ++ _)), Hq.
  rewrite quoteDeg_prefixed, leadGt_prefixed, forallb_safeChar_prefixed, <- safeLine_skeleton.
  auto.
Qed.

Lemma lastNonBlankLine_In : forall ls l, lastNonBlankLine ls = Some l -> In l ls.
Proof.
  intros ls l H. unfold lastNonBlankLine in H. apply find_some in H as [H _].
  apply in_rev. exact H.
Qed.

(** The lines a block quote hands to the recursive parse weigh no more than
    the lines passed, and less by one for every [>] that counts. *)
Lemma quoteLoop_fits : forall rest quoteLines inFence ql n,
  quoteLoop quoteLines inFence rest = (ql, n) ->
  n <= length rest
  /\ length ql = length quoteLines + n
  /\ sumDeg ql + length (filter plainQuote (firstn n rest))
       <= sumDeg quoteLines + sumDeg (firstn n rest)
  /\ (forallb safeLine rest = true -> forallb safeLine quoteLines = true ->
      forallb safeLine ql = true).
Proof.
  induction rest as [|line rest' IH]; intros quoteLines inF ql n H; cbn [quoteLoop] in H.
  { injection H as <- <-. cbn [firstn filter length]. change (sumDeg []) with 0.
    repeat split; [lia | lia | lia | auto]. }
  assert (Hstop : (quoteLines, 0) = (ql, n) ->
            n <= length (line :: rest')
            /\ length ql = length quoteLines + n
            /\ sumDeg ql + length (filter plainQuote (firstn n (line :: rest')))
                 <= sumDeg quoteLines + sumDeg (firstn n (line :: rest'))
            /\ (forallb safeLine (line :: rest') = true -> forallb safeLine quoteLines = true ->
                forallb safeLine ql = true)).
  { intros E. injection E as <- <-. cbn [firstn filter length]. change (sumDeg []) with 0.
    repeat split; [lia | lia | lia | auto]. }
  assert (Hgo : forall content inF',
            lineDeg content + (if plainQuote line then 1 else 0) <= lineDeg line ->
            (safeLine line = true -> safeLine content = true) ->
            (let (ql0, k) := quoteLoop (quoteLines ++ [content]) inF' rest' in (ql0, S k)) = (ql, n) ->
            n <= length (line :: rest')
            /\ length ql = length quoteLines + n
            /\ sumDeg ql + length (filter plainQuote (firstn n (line :: rest')))
                 <= sumDeg quoteLines + sumDeg (firstn n (line :: rest'))
            /\ (forallb safeLine (line :: rest') = true -> forallb safeLine quoteLines = true ->
                forallb safeLine ql = true)).
  { intros content inF' Hd Hs E.
    destruct (quoteLoop (quoteLines ++ [content]) inF' rest') as [ql0 k] eqn:E1.
    injection E as <- <-.
    destruct (IH _ _ _ _ E1) as (Hk & Hlen & Hsum & Hsafe).
    rewrite length_app in Hlen. cbn [length] in Hlen.
    rewrite sumDeg_app, sumDeg_cons in Hsum. change (sumDeg []) with 0 in Hsum.
    cbn [firstn length filter]. rewrite sumDeg_cons.
    repeat split; [lia | lia | destruct (plainQuote line); cbn [length]; lia |].
    cbn [forallb]. intros H0 Hq. apply andb_true_iff in H0 as [H0 Hr].
    apply Hsafe; [exact Hr|]. rewrite forallb_snoc, Hq, (Hs H0). reflexivity. }
  destruct (isBlockquoteStart line) eqn:Hbq.
  { destruct (blockquote_content_deg line Hbq) as (Hd & _ & _ & Hs).
    eapply Hgo; [| |exact H]; [lia | exact Hs]. }
  destruct (isBlank line); [apply Hstop; exact H|].
  destruct quoteLines as [|q0 qs]; [apply Hstop; exact H|].
  destruct inF; [apply Hstop; exact H|].
  destruct (_ || _); [apply Hstop; exact H|].
  destruct (isBlank _); [apply Hstop; exact H|].
  destruct (lastNonBlankLine (q0 :: qs)) as [lastContent|]; [|apply Hstop; exact H].
  destruct (_ && _); [|apply Hstop; exact H].
  destruct (lazy_line_deg lastContent line) as (Hd & _ & Hs).
  eapply Hgo; [| |exact H].
  - unfold plainQuote. rewrite Hbq. cbn [andb]. lia.
  - rewrite Hs. auto.
Qed.

(** When every [>] passed belongs to such a prefix, the prefixes of the lines
    handed on are shorter by one. *)
Lemma quoteLoop_bound : forall M rest quoteLines inFence ql n,
  quoteLoop quoteLines inFence rest = (ql, n) ->
  (forall l, In l (firstn n rest) -> isBlockquoteStart l = true ->
     nulForm (skeleton l) = true /\ linePre l <= S M) ->
  Forall (fun c => leadGt (skeleton c) <= M) quoteLines ->
  Forall (fun c => leadGt (skeleton c) <= M) ql.
Proof.
  intros M. induction rest as [|line rest' IH]; intros quoteLines inF ql n H Hin Hq;
    cbn [quoteLoop] in H.
  { injection H as <- <-. exact Hq. }
  assert (Hstop : (quoteLines, 0) = (ql, n) -> Forall (fun c => leadGt (skeleton c) <= M) ql).
  { intros E. injection E as <- <-. exact Hq. }
  assert (Hgo : forall content inF',
            leadGt (skeleton content) <= M ->
            (let (ql0, k) := quoteLoop (quoteLines ++ [content]) inF' rest' in (ql0, S k)) = (ql, n) ->
            Forall (fun c => leadGt (skeleton c) <= M) ql).
  { intros content inF' Hc E.
    destruct (quoteLoop (quoteLines ++ [content]) inF' rest') as [ql0 k] eqn:E1.
    injection E as <- <-. eapply IH; [exact E1 | |].
    - intros l Hl. apply Hin. cbn [firstn]. right. exact Hl.
    - apply Forall_app. split; [exact Hq | constructor; [exact Hc | constructor]]. }
  destruct (isBlockquoteStart line) eqn:Hbq.
  { destruct (blockquote_content_deg line Hbq) as (_ & Hn & Hg & _).
    destruct (quoteLoop (quoteLines ++ [extractBlockquoteContent line]) _ rest') as [ql0 k] eqn:E1.
    injection H as <- <-.
    assert (Hl : nulForm (skeleton line) = true /\ linePre line <= S M).
    { apply Hin; [cbn [firstn]; left; reflexivity | exact Hbq]. }
    destruct Hl as [Hnul Hpre]. unfold linePre, preDeg in Hpre. rewrite Hnul in Hpre.
    eapply IH; [exact E1 | |].
    - intros l Hl. apply Hin. cbn [firstn]. right. exact Hl.
    - apply Forall_app. split; [exact Hq | constructor; [lia | constructor]]. }
  destruct (isBlank line); [apply Hstop; exact H|].
  destruct quoteLines as [|q0 qs]; [apply Hstop; exact H|].
  destruct inF; [apply Hstop; exact H|].
  destruct (_ || _); [apply Hstop; exact H|].
  destruct (isBlank _); [apply Hstop; exact H|].
  destruct (lastNonBlankLine (q0 :: qs)) as [lastContent|] eqn:El; [|apply Hstop; exact H].
  destruct (_ && _); [|apply Hstop; exact H].
  destruct (lazy_line_deg lastContent line) as (_ & Hg & _).
  eapply Hgo; [|exact H].
  apply lastNonBlankLine_In in El. rewrite Forall_forall in Hq. specialize (Hq _ El). lia.
Qed.

(** **** The lines of a recursive parse

    A recursive parse joins the collected lines with line feeds and the
    parser it calls splits them again; nothing changes, the collected lines
    holding no line terminator. *)

Lemma normalizeLineEndings_noCR : forall n s,
  length s <= n -> forallb noCR (normalizeLineEndings s) = true.
Proof.
  induction n as [|n IH]; intros s Hn.
  { destruct s; [reflexivity | cbn [length] in Hn; lia]. }
  destruct s as [|c r]; [reflexivity|]. cbn [length] in Hn. cbn [normalizeLineEndings].
  destruct (ceq c CR) eqn:Hc.
  - cbn [forallb]. change (noCR LF) with true. cbn [andb].
    destruct r as [|d r']; [reflexivity|]. cbn [length] in Hn.
    destruct (ceq d LF); apply IH; cbn [length]; lia.
  - cbn [forallb]. unfold noCR at 1. rewrite Hc. cbn [negb andb]. apply IH. lia.
Qed.

Lemma normalizeLineEndings_id : forall s,
  forallb noCR s = true -> normalizeLineEndings s = s.
Proof.
  induction s as [|c r IH]; intros H; [reflexivity|]. cbn [forallb] in H.
  apply andb_true_iff in H as [Hc Hr]. unfold noCR in Hc. apply negb_true_iff in Hc.
  cbn [normalizeLineEndings]. rewrite Hc. f_equal. auto.
Qed.

Lemma forallb_rev_chars : forall (p : char -> bool) s, forallb p (rev s) = forallb p s.
Proof.
  induction s as [|c s IH]; [reflexivity|]. cbn [rev forallb].
  rewrite forallb_app, IH. cbn [forallb]. rewrite andb_true_r. apply andb_comm.
Qed.

Lemma splitLF_aux_safe : forall s cur,
  forallb noCR s = true -> forallb safeChar cur = true ->
  forallb safeLine (splitLF_aux cur s) = true.
Proof.
  induction s as [|c r IH]; intros cur Hs Hcur; cbn [splitLF_aux].
  - cbn [forallb]. unfold safeLine. rewrite forallb_rev_chars, Hcur. reflexivity.
  - cbn [forallb] in Hs. apply andb_true_iff in Hs as [Hc Hr].
    destruct (ceq c LF) eqn:Hlf.
    + cbn [forallb]. unfold safeLine at 1. rewrite forallb_rev_chars, Hcur. cbn [andb].
      apply IH; [exact Hr | reflexivity].
    + apply IH; [exact Hr|]. cbn [forallb]. rewrite Hcur, andb_true_r.
      unfold safeChar. rewrite Hlf. unfold noCR in Hc. apply negb_true_iff in Hc.
      rewrite Hc. reflexivity.
Qed.

Lemma linesOf_safe : forall input, forallb safeLine (linesOf input) = true.
Proof.
  intros input. unfold linesOf, splitLF. apply splitLF_aux_safe; [|reflexivity].
  apply (normalizeLineEndings_noCR (length input)). apply Nat.le_refl.
Qed.

Lemma safeChar_noCR : forall l, forallb safeChar l = true -> forallb noCR l = true.
Proof.
  intros l H. rewrite forallb_forall in *. intros c Hc. specialize (H c Hc).
  unfold safeChar in H. unfold noCR. apply negb_true_iff in H. apply orb_false_iff in H as [_ H].
  rewrite H. reflexivity.
Qed.

Lemma joinLF_noCR : forall ls, forallb safeLine ls = true -> forallb noCR (joinLF ls) = true.
Proof.
  induction ls as [|l ls IH]; intros H; [reflexivity|]. cbn [forallb] in H.
  apply andb_true_iff in H as [Hl Hls]. unfold joinLF in *. cbn [join].
  destruct ls as [|l2 ls]; [apply safeChar_noCR; exact Hl|].
  rewrite forallb_app, (safeChar_noCR l Hl). cbn [app forallb andb].
  change (noCR LF) with true. cbn [andb]. apply IH. exact Hls.
Qed.

Lemma splitLF_aux_line : forall l cur s,
  forallb safeChar l = true -> splitLF_aux cur (l ++ s) = splitLF_aux (rev l ++ cur) s.
Proof.
  induction l as [|c l IH]; intros cur s H; [reflexivity|]. cbn [forallb] in H.
  apply andb_true_iff in H as [Hc Hl]. cbn [app splitLF_aux rev].
  unfold safeChar in Hc. apply negb_true_iff in Hc. apply orb_false_iff in Hc as [Hlf _].
  rewrite Hlf, (IH _ _ Hl), <- app_assoc. reflexivity.
Qed.

Lemma splitLF_aux_joinLF : forall ls l cur,
  forallb safeLine (l :: ls) = true ->
  splitLF_aux cur (joinLF (l :: ls)) = (rev cur ++ l) :: ls.
Proof.
  induction ls as [|l2 ls IH]; intros l cur H; cbn [forallb] in H;
    apply andb_true_iff in H as [Hl Hls]; unfold joinLF in *; cbn [join].
  - rewrite <- (app_nil_r l) at 1. rewrite (splitLF_aux_line l cur [] Hl).
    cbn [splitLF_aux]. rewrite rev_app_distr, rev_involutive. reflexivity.
  - rewrite (splitLF_aux_line l cur _ Hl). cbn [app splitLF_aux].
    change (ceq LF LF) with true. cbn iota.
    rewrite rev_app_distr, rev_involutive. f_equal. apply (IH l2 [] Hls).
Qed.

Lemma linesOf_joinLF : forall l ls,
  forallb safeLine (l :: ls) = true -> linesOf (joinLF (l :: ls)) = l :: ls.
Proof.
  intros l ls H. unfold linesOf.
  rewrite (normalizeLineEndings_id _ (joinLF_noCR _ H)).
  unfold splitLF. apply (splitLF_aux_joinLF ls l [] H).
Qed.

Lemma measure_joinLF : forall ls,
  forallb safeLine ls = true ->
  sumDeg (linesOf (joinLF ls)) = sumDeg ls /\ maxPre (linesOf (joinLF ls)) = maxPre ls.
Proof.
  intros [|l ls] H; [split; reflexivity|]. rewrite (linesOf_joinLF l ls H). split; reflexivity.
Qed.

(** **** The inputs of the recursive parses

    [subInputs lines] lists every string a parser over [lines] can hand to a
    recursive parse: at every line that starts a block quote, the quote
    collected from there; at every line that holds a list marker, the item
    collected from there. *)

Lemma maxPre_cons : forall l ls, maxPre (l :: ls) = Nat.max (linePre l) (maxPre ls).
Proof. reflexivity. Qed.

Lemma smaller_cons : forall s l ls, smaller s ls -> smaller s (l :: ls).
Proof.
  intros s l ls H. unfold smaller in *. rewrite sumDeg_cons, maxPre_cons. lia.
Qed.

Lemma firstn_measure : forall n ls,
  sumDeg (firstn n ls) <= sumDeg ls /\ maxPre (firstn n ls) <= maxPre ls.
Proof.
  induction n as [|n IH]; intros ls.
  { cbn [firstn]. change (sumDeg []) with 0. change (maxPre []) with 0. lia. }
  destruct ls as [|l ls]; [cbn [firstn]; lia|].
  cbn [firstn]. rewrite !sumDeg_cons, !maxPre_cons. destruct (IH ls). lia.
Qed.

Lemma smaller_firstn : forall s n ls, smaller s (firstn n ls) -> smaller s ls.
Proof.
  intros s n ls H. unfold smaller in *. destruct (firstn_measure n ls). lia.
Qed.

Lemma linePre_le_maxPre : forall ls x, In x ls -> linePre x <= maxPre ls.
Proof.
  induction ls as [|l ls IH]; intros x Hin; [contradiction|].
  rewrite maxPre_cons. destruct Hin as [->|H]; [lia|].
  specialize (IH x H). lia.
Qed.

Lemma maxPre_le : forall M ls, Forall (fun c => linePre c <= M) ls -> maxPre ls <= M.
Proof.
  intros M. induction ls as [|l ls IH]; intros H; [change (maxPre []) with 0; lia|].
  inversion H; subst. rewrite maxPre_cons. specialize (IH H3). lia.
Qed.

Lemma quoteLoop_starts : forall l rest quoteLines inFence ql n,
  isBlockquoteStart l = true -> quoteLoop quoteLines inFence (l :: rest) = (ql, n) -> 1 <= n.
Proof.
  intros l rest quoteLines inF ql n Hbq H. cbn [quoteLoop] in H. rewrite Hbq in H.
  destruct (quoteLoop _ _ rest). injection H as _ <-. lia.
Qed.

Lemma quoteCandidate_smaller : forall ls s,
  forallb safeLine ls = true -> In s (quoteCandidate ls) -> smaller s ls.
Proof.
  intros [|l rest] s Hsafe Hin; cbn [quoteCandidate] in Hin; [contradiction|].
  destruct (isBlockquoteStart l) eqn:Hbq; [|contradiction].
  destruct Hin as [<-|[]].
  destruct (quoteLoop [] None (l :: rest)) as [ql n] eqn:E. cbn [fst].
  destruct (quoteLoop_fits _ _ _ _ _ E) as (Hn & Hlen & Hsum & Hs).
  pose proof (quoteLoop_starts _ _ _ _ _ _ Hbq E) as Hn1.
  specialize (Hs Hsafe eq_refl).
  apply (smaller_firstn _ n). unfold smaller.
  destruct (measure_joinLF ql Hs) as [-> ->].
  change (sumDeg []) with 0 in Hsum. cbn [Nat.add] in Hsum.
  destruct (filter plainQuote (firstn n (l :: rest))) as [|x xs] eqn:Ef.
  2:{ left. cbn [length] in Hsum. lia. }
  right. cbn [length] in Hsum. split; [lia|].
  assert (Hnul : forall x, In x (firstn n (l :: rest)) -> isBlockquoteStart x = true ->
                   nulForm (skeleton x) = true).
  { intros x Hx Hxq. destruct (nulForm (skeleton x)) eqn:Hxn; [reflexivity|].
    assert (Hf : In x (filter plainQuote (firstn n (l :: rest)))).
    { apply filter_In. split; [exact Hx|]. unfold plainQuote. rewrite Hxq, Hxn. reflexivity. }
    rewrite Ef in Hf. contradiction. }
  assert (Hl : In l (firstn n (l :: rest))).
  { destruct n as [|n']; [lia|]. cbn [firstn]. left. reflexivity. }
  assert (Hpos : 1 <= linePre l).
  { unfold linePre, preDeg. rewrite (Hnul l Hl Hbq), (skeleton_blockquote l Hbq).
    cbn [leadGt]. change (ceq GT GT) with true. cbn iota. lia. }
  pose proof (linePre_le_maxPre _ _ Hl) as Hmax.
  set (taken := firstn n (l :: rest)) in *.
  assert (Hb : Forall (fun c => leadGt (skeleton c) <= maxPre taken - 1) ql).
  { eapply quoteLoop_bound; [exact E | | constructor].
    intros x Hx Hxq. split; [apply Hnul; assumption|].
    pose proof (linePre_le_maxPre _ _ Hx) as Hxm. fold taken in Hxm. lia. }
  assert (maxPre ql <= maxPre taken - 1); [|lia].
  apply maxPre_le. eapply Forall_impl; [|exact Hb].
  intros c Hc. cbn beta in Hc. pose proof (preDeg_le_leadGt (skeleton c)). unfold linePre. lia.
Qed.

Lemma itemCandidate_smaller : forall ls s,
  forallb safeLine ls = true -> In s (itemCandidate ls) -> smaller s ls.
Proof.
  intros [|l rest] s Hsafe Hin; cbn [itemCandidate] in Hin; [contradiction|].
  destruct (parseListMarker l) as [m|] eqn:Hm; [|contradiction].
  destruct Hin as [<-|[]].
  destruct (collectListItem m (l :: rest)) as [[[il n] b1] b2] eqn:E. cbn [fst].
  destruct (collectListItem_measure _ _ _ _ _ _ _ Hm E) as (Hn & Hsum & Hs).
  apply (smaller_firstn _ n). left.
  destruct (measure_joinLF il (Hs Hsafe)) as [-> _]. exact Hsum.
Qed.

Lemma subInputs_smaller : forall ls s,
  forallb safeLine ls = true -> In s (subInputs ls) -> smaller s ls.
Proof.
  induction ls as [|l ls IH]; intros s Hsafe Hin; [contradiction|].
  cbn [subInputs] in Hin. apply in_app_or in Hin as [Hin|Hin].
  { apply quoteCandidate_smaller; assumption. }
  apply in_app_or in Hin as [Hin|Hin].
  { apply itemCandidate_smaller; assumption. }
  apply smaller_cons. apply IH; [|exact Hin].
  cbn [forallb] in Hsafe. apply andb_true_iff in Hsafe as [_ H]. exact H.
Qed.

Lemma subInputs_from : forall i ls s,
  In s (quoteCandidate (linesFrom ls i)) \/ In s (itemCandidate (linesFrom ls i)) ->
  In s (subInputs ls).
Proof.
  unfold linesFrom. induction i as [|i IH]; intros ls s H.
  - cbn [skipn] in H. destruct ls as [|l ls].
    + destruct H as [H|H]; exact H.
    + cbn [subInputs]. destruct H as [H|H].
      * apply in_or_app. left. exact H.
      * apply in_or_app. right. apply in_or_app. left. exact H.
  - destruct ls as [|l ls].
    + cbn [skipn] in H. destruct H as [H|H]; exact H.
    + cbn [skipn] in H. cbn [subInputs]. apply in_or_app. right. apply in_or_app. right.
      apply IH. exact H.
Qed.

(** **** One parser, given that its recursive parses return *)

Lemma lineIndex_finishParagraph : forall st, lineIndex (finishParagraph st) = lineIndex st.
Proof.
  intros st. unfold finishParagraph. destruct (paragraphLines st); [reflexivity|].
  destruct (stripLinkRefs _ _) as [text refs]. destruct text; reflexivity.
Qed.

Lemma lineIndex_setextHeading : forall level fallback st,
  (forall s, lineIndex (fallback s) = lineIndex s) ->
  lineIndex (setextHeading level fallback st) = lineIndex st.
Proof.
  intros level fallback st Hf. unfold setextHeading.
  destruct (stripLinkRefs _ _) as [content refs]. destruct content; [rewrite Hf|]; reflexivity.
Qed.

Lemma listsMatch_refl : forall line m, parseListMarker line = Some m -> listsMatch m m = true.
Proof.
  intros line m H. unfold listsMatch.
  assert (Hc : forall o, optc_eqb o o = true).
  { intros [c|]; [|reflexivity]. cbn [optc_eqb]. apply ceq_eq. reflexivity. }
  destruct (mType m); apply Hc.
Qed.

Lemma nth_error_linesFrom : forall (lines : list str) i line,
  nth_error lines i = Some line -> exists rest, linesFrom lines i = line :: rest.
Proof.
  unfold linesFrom. induction lines as [|l ls IH]; intros [|i] line H; cbn in H; try discriminate.
  - injection H as ->. exists ls. reflexivity.
  - cbn [skipn]. apply IH. exact H.
Qed.

Lemma linesFrom_lt : forall (lines : list str) i line rest,
  linesFrom lines i = line :: rest -> i < length lines.
Proof.
  intros lines i line rest H. unfold linesFrom in H.
  destruct (Nat.lt_ge_cases i (length lines)) as [Hlt|Hge]; [exact Hlt|].
  rewrite skipn_all2 in H by exact Hge. discriminate.
Qed.

(** The list loop returns when the item parser does, which passes the
    marker's line at least. *)
Lemma parseList_loop_total :
  forall (T : Type)
         (parseItem : nat -> ListMarker -> T -> option (RawBlock * nat * T * bool * bool))
         (lines : list str) (firstMarker : ListMarker),
  (forall idx line rest marker t,
     linesFrom lines idx = line :: rest -> parseListMarker line = Some marker ->
     exists item k t' b1 b2, parseItem idx marker t = Some (item, idx + S k, t', b1, b2)) ->
  forall fuel lineIndex tables items b1 b2 b3,
  length lines - lineIndex < fuel ->
  exists items' idx' tables' tight,
    parseList_loop T parseItem lines firstMarker fuel lineIndex tables items b1 b2 b3
      = Some (items', idx', tables', tight)
    /\ lineIndex <= idx'.
Proof.
  intros T parseItem lines firstMarker Hitem.
  induction fuel as [|fuel IH]; intros idx tables items b1 b2 b3 Hfuel; [lia|].
  cbn [parseList_loop].
  destruct (linesFrom lines idx) as [|line rest] eqn:El.
  { do 4 eexists. split; [reflexivity | lia]. }
  pose proof (linesFrom_lt _ _ _ _ El) as Hlt.
  destruct (isThematicBreak line).
  { do 4 eexists. split; [reflexivity | lia]. }
  destruct (parseListMarker line) as [marker|] eqn:Em.
  - destruct (listsMatch firstMarker marker).
    + destruct (Hitem idx line rest marker tables El Em) as (item & k & t' & c1 & c2 & ->).
      destruct (IH (idx + S k) t' (items ++ [item]) c2 (b2 || c1) (b3 || b1))
        as (items' & idx' & tables' & tight & -> & Hle); [lia|].
      do 4 eexists. split; [reflexivity | lia].
    + destruct (isBlank line); [|do 4 eexists; split; [reflexivity | lia]].
      destruct (listContinuesAfterBlank firstMarker rest);
        [|do 4 eexists; split; [reflexivity | lia]].
      destruct (IH (S idx) tables items true b2 b3)
        as (items' & idx' & tables' & tight & -> & Hle); [lia|].
      do 4 eexists. split; [reflexivity | lia].
  - destruct (isBlank line); [|do 4 eexists; split; [reflexivity | lia]].
    destruct (listContinuesAfterBlank firstMarker rest);
      [|do 4 eexists; split; [reflexivity | lia]].
    destruct (IH (S idx) tables items true b2 b3)
      as (items' & idx' & tables' & tight & -> & Hle); [lia|].
    do 4 eexists. split; [reflexivity | lia].
Qed.

Lemma parseList_total :
  forall (T : Type)
         (parseItem : nat -> ListMarker -> T -> option (RawBlock * nat * T * bool * bool))
         (lines : list str) (firstMarker : ListMarker),
  (forall idx line rest marker t,
     linesFrom lines idx = line :: rest -> parseListMarker line = Some marker ->
     exists item k t' b1 b2, parseItem idx marker t = Some (item, idx + S k, t', b1, b2)) ->
  forall lineIndex line rest tables,
  linesFrom lines lineIndex = line :: rest ->
  isThematicBreak line = false ->
  parseListMarker line = Some firstMarker ->
  exists list idx' tables',
    parseList T parseItem lines firstMarker lineIndex tables = Some (list, idx', tables')
    /\ lineIndex < idx'.
Proof.
  intros T parseItem lines firstMarker Hitem idx line rest tables El Hth Em.
  pose proof (linesFrom_lt _ _ _ _ El) as Hlt.
  unfold parseList. cbn [parseList_loop]. rewrite El, Hth, Em, (listsMatch_refl line _ Em).
  destruct (Hitem idx line rest firstMarker tables El Em) as (item & k & t' & c1 & c2 & ->).
  destruct (parseList_loop_total T parseItem lines firstMarker Hitem
              (length lines - idx) (idx + S k) t' ([] ++ [item]) c2 (false || c1) (false || false))
    as (items' & idx' & tables' & tight & -> & Hle); [lia|].
  do 3 eexists. split; [reflexivity | lia].
Qed.

Section StepTotal.

Variable subParse : str -> option (list RawBlock * RefMap).
Variable lines : list str.
Hypothesis subParse_returns : forall s, In s (subInputs lines) -> exists r, subParse s = Some r.

Lemma parseListItem_total : forall idx line rest marker refs,
  linesFrom lines idx = line :: rest -> parseListMarker line = Some marker ->
  exists item k refs' b1 b2,
    parseListItem subParse lines idx marker refs = Some (item, idx + S k, refs', b1, b2).
Proof.
  intros idx line rest marker refs El Em. unfold parseListItem.
  assert (Hin : In (joinLF (fst (fst (fst (collectListItem marker (linesFrom lines idx))))))
                   (subInputs lines)).
  { apply (subInputs_from idx). right. rewrite El. cbn [itemCandidate]. rewrite Em.
    left. reflexivity. }
  rewrite El in *.
  destruct (collectListItem marker (line :: rest)) as [[[il n] bi] be] eqn:E. cbn [fst] in Hin.
  destruct (subParse_returns _ Hin) as [[ch childRefs] ->].
  assert (Hn : exists k, n = S k).
  { unfold collectListItem in E. cbv zeta in E.
    match type of E with context [itemLoop marker ?s rest] =>
      destruct (itemLoop marker s rest) as [st k] end.
    injection E as _ <- _ _. exists k. reflexivity. }
  destruct Hn as [k ->]. do 5 eexists. reflexivity.
Qed.

Ltac advances :=
  eexists; split;
  [ reflexivity
  | cbn [advanceBy pushChild setParagraphLines setLinkReferences lineIndex];
    rewrite ?lineIndex_setextHeading by reflexivity;
    rewrite ?lineIndex_finishParagraph; lia ].

(** Every turn of the loop of [parseBlocks] passes at least one line. *)
Lemma parseBlocks_step_total : forall line st,
  nth_error lines (lineIndex st) = Some line ->
  exists st', parseBlocks_step subParse lines line st = Some st'
              /\ lineIndex st < lineIndex st'.
Proof.
  intros line st Hnth. destruct (nth_error_linesFrom _ _ _ Hnth) as [rest El].
  unfold parseBlocks_step.
  destruct (startsWith line [LAZY_PREFIX]); [advances|].
  destruct (isBlank line); [advances|].
  destruct (isThematicBreak line) eqn:Hth.
  { destruct (_ && _); advances. }
  destruct (parseAtxHeading line) as [[level content]|]; [advances|].
  destruct (_ && isSetextEqualsLine line); [advances|].
  destruct (parseFenceOpen line) as [fenceInfo|].
  { destruct (fenceLoop _ _) as [[codeLines n] closed]. advances. }
  destruct (_ && (4 <=? _)).
  { destruct (indentedCodeLoop _) as [more n]. advances. }
  destruct (isBlockquoteStart line) eqn:Hbq.
  { rewrite lineIndex_finishParagraph.
    assert (Hin : In (joinLF (fst (quoteLoop [] None (linesFrom lines (lineIndex st)))))
                     (subInputs lines)).
    { apply (subInputs_from (lineIndex st)). left. rewrite El. cbn [quoteCandidate].
      rewrite Hbq. left. reflexivity. }
    rewrite El in *.
    destruct (quoteLoop [] None (line :: rest)) as [ql n] eqn:E. cbn [fst] in Hin.
    pose proof (quoteLoop_starts _ _ _ _ _ _ Hbq E) as Hn.
    destruct (subParse_returns _ Hin) as [[ch childRefs] ->]. advances. }
  destruct (parseListMarker line) as [listMarker|] eqn:Em.
  - destruct (listCanInterrupt (paragraphLines st) line listMarker).
    + destruct (parseList_total RefMap (parseListItem subParse lines) lines listMarker
                  (fun idx l r m t => parseListItem_total idx l r m t)
                  (lineIndex (finishParagraph st)) line rest
                  (linkReferences (finishParagraph st)))
        as (list & idx' & refs' & -> & Hlt);
        [rewrite lineIndex_finishParagraph; exact El | exact Hth | exact Em |].
      rewrite lineIndex_finishParagraph in Hlt.
      eexists. split; [reflexivity | exact Hlt].
    + destruct (getHtmlBlockType line _) as [htmlType|]; [|advances].
      destruct (_ && _); [advances|]. destruct (htmlLoop _ _) as [more n]. advances.
  - destruct (getHtmlBlockType line _) as [htmlType|]; [|advances].
    destruct (_ && _); [advances|]. destruct (htmlLoop _ _) as [more n]. advances.
Qed.

Lemma parseBlocks_loop_total : forall fuel st,
  length lines - lineIndex st < fuel ->
  exists st', parseBlocks_loop subParse lines fuel st = Some st'.
Proof.
  induction fuel as [|fuel IH]; intros st Hfuel; [lia|]. cbn [parseBlocks_loop].
  destruct (nth_error lines (lineIndex st)) as [line|] eqn:Hnth; [|eexists; reflexivity].
  assert (Hlt : lineIndex st < length lines) by (apply nth_error_Some; congruence).
  destruct (parseBlocks_step_total line st Hnth) as (st1 & -> & Hadv).
  apply IH. lia.
Qed.

Lemma parseBlocks_total : exists st, parseBlocks subParse lines = Some st.
Proof.
  unfold parseBlocks.
  destruct (parseBlocks_loop_total (S (length lines)) (mkPState 0 [] [] [])) as [st ->];
    [cbn [lineIndex]; lia|].
  eexists. reflexivity.
Qed.

End StepTotal.

(** **** The two inner loops of the block parser never run out of turns

    [getBlockquotePrefix] takes a [>] off the line in every turn, and the
    loop of [finishParagraph] takes a definition, at least its colon, off the
    text: with any bound from the length on, the embedded loops return what
    they return with the length as bound. *)

Lemma getBlockquotePrefix_loop_fuel : forall f1 f2 line,
  length line <= f1 -> length line <= f2 ->
  getBlockquotePrefix_loop f1 line = getBlockquotePrefix_loop f2 line.
Proof.
  assert (Hnil : forall f, getBlockquotePrefix_loop f [] = []) by (intros [|f]; reflexivity).
  induction f1 as [|f1 IH]; intros f2 line H1 H2.
  { destruct line; [rewrite !Hnil; reflexivity | cbn [length] in H1; lia]. }
  destruct f2 as [|f2].
  { destruct line; [rewrite !Hnil; reflexivity | cbn [length] in H2; lia]. }
  cbn [getBlockquotePrefix_loop].
  destruct (spanUpTo 3 isSP line) as [ind rest] eqn:E.
  destruct (spanUpTo_spec _ _ _ _ _ E) as (-> & _). rewrite length_app in H1, H2.
  destruct rest as [|c r]; [reflexivity|]. cbn [length] in H1, H2.
  destruct (ceq c GT); [|reflexivity].
  destruct r as [|d r']; [reflexivity|]. cbn [length] in H1, H2.
  destruct (isSpaceTab d).
  - rewrite (IH f2 r'); [reflexivity | lia | lia].
  - rewrite (IH f2 (d :: r')); [reflexivity | cbn [length]; lia | cbn [length]; lia].
Qed.

Lemma tryMatchTitle_end : forall text titlePos ttl endPos,
  tryMatchTitle text titlePos = Some (ttl, endPos) -> titlePos <= endPos.
Proof.
  intros text titlePos ttl endPos H. unfold tryMatchTitle in H. cbv zeta in H.
  destruct (match matchTitleDouble _ with Some m => Some m | None => _ end) as [[t len]|];
    [|discriminate].
  destruct (matchLineEnd _) as [k|]; [|discriminate]. injection H as _ <-. lia.
Qed.

Lemma parseLinkReferenceDefinition_consumed : forall text result,
  parseLinkReferenceDefinition text = Some result -> 1 <= consumed result.
Proof.
  intros text result H. unfold parseLinkReferenceDefinition in H. cbv zeta in H.
  destruct (matchLinkLabel _) as [[rawLabel labelLen]|]; [|discriminate].
  destruct (isBlank rawLabel); [discriminate|].
  destruct (negb _); [discriminate|].
  match type of H with
  | context [matchAngleDestination (sliceFrom text ?p)] => set (pos1 := p) in *
  end.
  assert (Hpos1 : 1 <= pos1) by (subst pos1; lia).
  assert (Hrest : forall destination pos,
            pos1 <= pos ->
            match
              match
                match span isSpaceTab (sliceFrom text pos) with
                | ((_ :: _) as ws, _) => tryMatchTitle text (pos + length ws)
                | ([], _) => None
                end
              with
              | Some r => Some r
              | None =>
                  match matchNewlineBeforeTitle (sliceFrom text pos) with
                  | Some k => tryMatchTitle text (pos + k)
                  | None => None
                  end
              end
            with
            | Some (ttl, endPos) => Some (mkResult rawLabel destination ttl endPos)
            | None =>
                match matchLineEnd (sliceFrom text pos) with
                | Some k => Some (mkResult rawLabel destination [] (pos + k))
                | None => None
                end
            end = Some result ->
            1 <= consumed result).
  { intros destination pos Hpos Hr.
    destruct (span isSpaceTab (sliceFrom text pos)) as [ws r0].
    assert (Htitle : forall p ttl endPos,
              pos <= p -> tryMatchTitle text p = Some (ttl, endPos) ->
              Some (mkResult rawLabel destination ttl endPos) = Some result ->
              1 <= consumed result).
    { intros p ttl endPos Hp Ht Hres. injection Hres as <-. cbn [mkResult consumed].
      apply tryMatchTitle_end in Ht. lia. }
    assert (Hend : match matchLineEnd (sliceFrom text pos) with
                   | Some k => Some (mkResult rawLabel destination [] (pos + k))
                   | None => None
                   end = Some result -> 1 <= consumed result).
    { destruct (matchLineEnd _) as [k|]; [|discriminate]. intros Hres.
      injection Hres as <-. cbn [mkResult consumed]. lia. }
    assert (Hnl : match
                    match matchNewlineBeforeTitle (sliceFrom text pos) with
                    | Some k => tryMatchTitle text (pos + k)
                    | None => None
                    end
                  with
                  | Some (ttl, endPos) => Some (mkResult rawLabel destination ttl endPos)
                  | None =>
                      match matchLineEnd (sliceFrom text pos) with
                      | Some k => Some (mkResult rawLabel destination [] (pos + k))
                      | None => None
                      end
                  end = Some result -> 1 <= consumed result).
    { destruct (matchNewlineBeforeTitle _) as [k|]; [|exact Hend].
      destruct (tryMatchTitle text (pos + k)) as [[ttl endPos]|] eqn:Et; [|exact Hend].
      apply (Htitle (pos + k) ttl endPos); [lia | exact Et]. }
    destruct ws as [|w ws]; [exact (Hnl Hr)|].
    destruct (tryMatchTitle text (pos + length (w :: ws))) as [[ttl endPos]|] eqn:Et;
      [|exact (Hnl Hr)].
    apply (Htitle (pos + length (w :: ws)) ttl endPos); [lia | exact Et | exact Hr]. }
  destruct (matchAngleDestination (sliceFrom text pos1)) as [[d len]|].
  - apply (Hrest d (pos1 + len)); [lia | exact H].
  - destruct (matchBareDestination (sliceFrom text pos1)) as [|c bare]; [discriminate|].
    apply (Hrest (c :: bare) (pos1 + length (c :: bare))); [lia | exact H].
Qed.

Lemma extractLinkRefs_fuel : forall f1 f2 text refs,
  length text <= f1 -> length text <= f2 ->
  extractLinkRefs f1 text refs = extractLinkRefs f2 text refs.
Proof.
  assert (Hnil : forall f refs, extractLinkRefs f [] refs = ([], refs))
    by (intros [|f] refs; reflexivity).
  induction f1 as [|f1 IH]; intros f2 text refs H1 H2.
  { destruct text; [rewrite !Hnil; reflexivity | cbn [length] in H1; lia]. }
  destruct f2 as [|f2].
  { destruct text; [rewrite !Hnil; reflexivity | cbn [length] in H2; lia]. }
  cbn [extractLinkRefs]. destruct text as [|c text]; [reflexivity|].
  destruct (parseLinkReferenceDefinition (c :: text)) as [result|] eqn:E; [|reflexivity].
  pose proof (parseLinkReferenceDefinition_consumed _ _ E) as Hc.
  assert (Hlen : length (sliceFrom (c :: text) (consumed result)) <= length text).
  { unfold sliceFrom. rewrite length_skipn. cbn [length]. lia. }
  cbn [length] in H1, H2. apply IH; lia.
Qed.

(** **** A larger bound on the nesting changes nothing

    What a parser returns with some bound on the nesting of recursive parses
    it returns with every larger bound. *)

Lemma parseList_loop_mono :
  forall (T : Type)
         (item1 item2 : nat -> ListMarker -> T -> option (RawBlock * nat * T * bool * bool))
         (lines : list str) (firstMarker : ListMarker),
  (forall idx marker t r, item1 idx marker t = Some r -> item2 idx marker t = Some r) ->
  forall fuel lineIndex tables items b1 b2 b3 r,
  parseList_loop T item1 lines firstMarker fuel lineIndex tables items b1 b2 b3 = Some r ->
  parseList_loop T item2 lines firstMarker fuel lineIndex tables items b1 b2 b3 = Some r.
Proof.
  intros T item1 item2 lines firstMarker Hitem.
  induction fuel as [|fuel IH]; intros idx tables items b1 b2 b3 r H; [discriminate|].
  cbn [parseList_loop] in *.
  destruct (linesFrom lines idx) as [|line rest]; [exact H|].
  destruct (isThematicBreak line); [exact H|].
  destruct (match parseListMarker line with
            | Some marker => if listsMatch firstMarker marker then Some marker else None
            | None => None
            end) as [marker|].
  - destruct (item1 idx marker tables) as [[[[[item i2] t2] bi] be]|] eqn:E; [|discriminate].
    rewrite (Hitem _ _ _ _ E). apply IH. exact H.
  - destruct (isBlank line); [|exact H].
    destruct (listContinuesAfterBlank firstMarker rest); [|exact H].
    apply IH. exact H.
Qed.

Lemma parseList_mono :
  forall (T : Type)
         (item1 item2 : nat -> ListMarker -> T -> option (RawBlock * nat * T * bool * bool))
         (lines : list str) (firstMarker : ListMarker),
  (forall idx marker t r, item1 idx marker t = Some r -> item2 idx marker t = Some r) ->
  forall lineIndex tables r,
  parseList T item1 lines firstMarker lineIndex tables = Some r ->
  parseList T item2 lines firstMarker lineIndex tables = Some r.
Proof.
  intros T item1 item2 lines firstMarker Hitem idx tables r H. unfold parseList in *.
  destruct (parseList_loop T item1 lines firstMarker _ idx tables [] false false false)
    as [[[[items i2] t2] tight]|] eqn:E; [|discriminate].
  rewrite (parseList_loop_mono T item1 item2 lines firstMarker Hitem _ _ _ _ _ _ _ _ E).
  exact H.
Qed.

Section Monotone.

Variables sub1 sub2 : str -> option (list RawBlock * RefMap).
Hypothesis sub_mono : forall s r, sub1 s = Some r -> sub2 s = Some r.
Variable lines : list str.

Lemma parseListItem_mono : forall idx marker refs r,
  parseListItem sub1 lines idx marker refs = Some r ->
  parseListItem sub2 lines idx marker refs = Some r.
Proof.
  intros idx marker refs r H. unfold parseListItem in *.
  destruct (collectListItem marker (linesFrom lines idx)) as [[[il n] bi] be].
  destruct (sub1 (joinLF il)) as [[ch childRefs]|] eqn:E; [|discriminate].
  rewrite (sub_mono _ _ E). exact H.
Qed.

Lemma parseBlocks_step_mono : forall line st st',
  parseBlocks_step sub1 lines line st = Some st' ->
  parseBlocks_step sub2 lines line st = Some st'.
Proof.
  intros line st st' H. unfold parseBlocks_step in *.
  destruct (startsWith line [LAZY_PREFIX]); [exact H|].
  destruct (isBlank line); [exact H|].
  destruct (isThematicBreak line); [exact H|].
  destruct (parseAtxHeading line) as [[level content]|]; [exact H|].
  destruct (_ && isSetextEqualsLine line); [exact H|].
  destruct (parseFenceOpen line) as [fenceInfo|]; [exact H|].
  destruct (_ && (4 <=? _)); [exact H|].
  destruct (isBlockquoteStart line).
  { destruct (quoteLoop [] None _) as [ql n].
    destruct (sub1 (joinLF ql)) as [[ch childRefs]|] eqn:E; [|discriminate].
    rewrite (sub_mono _ _ E). exact H. }
  destruct (match parseListMarker line with
            | Some listMarker =>
                if listCanInterrupt (paragraphLines st) line listMarker
                then Some listMarker else None
            | None => None
            end) as [listMarker|]; [|exact H].
  destruct (parseList RefMap (parseListItem sub1 lines) lines listMarker _ _)
    as [[[list idx] refs]|] eqn:E; [|discriminate].
  rewrite (parseList_mono RefMap _ (parseListItem sub2 lines) lines listMarker
             parseListItem_mono _ _ _ E).
  exact H.
Qed.

Lemma parseBlocks_loop_mono : forall fuel st st',
  parseBlocks_loop sub1 lines fuel st = Some st' ->
  parseBlocks_loop sub2 lines fuel st = Some st'.
Proof.
  induction fuel as [|fuel IH]; intros st st' H; [discriminate|].
  cbn [parseBlocks_loop] in *.
  destruct (nth_error lines (lineIndex st)) as [line|]; [|exact H].
  destruct (parseBlocks_step sub1 lines line st) as [st1|] eqn:E; [|discriminate].
  rewrite (parseBlocks_step_mono _ _ _ E). apply IH. exact H.
Qed.

Lemma parseBlocks_mono : forall st,
  parseBlocks sub1 lines = Some st -> parseBlocks sub2 lines = Some st.
Proof.
  intros st H. unfold parseBlocks in *.
  destruct (parseBlocks_loop sub1 lines _ _) as [st1|] eqn:E; [|discriminate].
  rewrite (parseBlocks_loop_mono _ _ _ E). exact H.
Qed.

End Monotone.

Lemma BlockParser_parse_mono : forall d1 d2 input r,
  d1 <= d2 -> BlockParser_parse d1 input = Some r -> BlockParser_parse d2 input = Some r.
Proof.
  induction d1 as [|d1 IH]; intros d2 input r Hle H; [discriminate|].
  destruct d2 as [|d2]; [lia|]. cbn [BlockParser_parse] in *. unfold parseWith in *.
  destruct (parseBlocks (BlockParser_parse d1) _) as [st|] eqn:E; [|discriminate].
  rewrite (parseBlocks_mono (BlockParser_parse d1) (BlockParser_parse d2)
             (fun s r0 => IH d2 s r0 ltac:(lia)) _ _ E).
  exact H.
Qed.

(** **** Every parse returns *)

Lemma uniform_depth : forall (Q : nat -> str -> Prop) (l : list str),
  (forall s, In s l -> exists D, forall d, D <= d -> Q d s) ->
  exists D, forall s, In s l -> forall d, D <= d -> Q d s.
Proof.
  intros Q. induction l as [|a l IH]; intros H.
  { exists 0. intros s []. }
  destruct (H a (or_introl eq_refl)) as [Da Ha].
  destruct IH as [Dl Hl]; [intros s Hs; apply H; right; exact Hs|].
  exists (Nat.max Da Dl). intros s [<-|Hs] d Hd.
  - apply Ha. lia.
  - apply Hl; [exact Hs | lia].
Qed.

Lemma BlockParser_parse_total_lex : forall a b input,
  sumDeg (linesOf input) = a -> maxPre (linesOf input) = b ->
  exists D, forall d, D <= d -> exists r, BlockParser_parse d input = Some r.
Proof.
  intros a. induction a as [a IHa] using lt_wf_ind.
  intros b. induction b as [b IHb] using lt_wf_ind.
  intros input Ha Hb.
  assert (Hsub : forall s, In s (subInputs (linesOf input)) ->
            exists D, forall d, D <= d -> exists r, BlockParser_parse d s = Some r).
  { intros s Hin.
    destruct (subInputs_smaller _ s (linesOf_safe input) Hin) as [Hlt | [Hle Hlt]].
    - apply (IHa (sumDeg (linesOf s))) with (b := maxPre (linesOf s)); [lia | reflexivity..].
    - destruct (Nat.eq_dec (sumDeg (linesOf s)) a) as [He|Hne].
      + apply (IHb (maxPre (linesOf s))); [lia | exact He | reflexivity].
      + apply (IHa (sumDeg (linesOf s))) with (b := maxPre (linesOf s)); [lia | reflexivity..]. }
  destruct (uniform_depth _ _ Hsub) as [D HD].
  exists (S D). intros d Hd. destruct d as [|d]; [lia|].
  cbn [BlockParser_parse]. unfold parseWith.
  destruct (parseBlocks_total (BlockParser_parse d) (linesOf input)) as [st Hst].
  { intros s Hin. apply (HD s Hin d). lia. }
  unfold linesOf in Hst. rewrite Hst. eexists. reflexivity.
Qed.

Lemma BlockParser_parse_total : forall input,
  exists D, forall d, D <= d -> exists r, BlockParser_parse d input = Some r.
Proof. intros input. eapply BlockParser_parse_total_lex; reflexivity. Qed.

(** C5: for every input string, [parse] returns a document, the same one
    with every bound on the nesting of recursive parses from some bound on,
    and the emphasis resolution [processEmphasis], which rebuilds its
    delimiter list and scans the closers again from the first after every
    match, returns on every list of nodes. *)
Theorem parse_terminates : forall input,
  (exists depth document, forall d, depth <= d -> parse d input = Some document)
  /\ (forall nodes, exists result, processEmphasis nodes = Some result).
Proof.
  intros input. split; [|exact processEmphasis_total].
  destruct (BlockParser_parse_total input) as [D HD].
  destruct (HD D (Nat.le_refl D)) as [[blocks refs] Hr].
  destruct (parse_total_from_blocks D input blocks refs Hr) as [document Hdoc].
  exists D, document. intros d Hd.
  unfold parse in *. rewrite Hr in Hdoc.
  rewrite (BlockParser_parse_mono D d input (blocks, refs) Hd Hr). exact Hdoc.
Qed.

(** *** The nesting of recursive parses grows with the input *)

Lemma expandRestOfLine_plain : forall rest col,
  forallb (fun c => negb (ceq c TAB)) rest = true -> expandRestOfLine rest col = rest.
Proof.
  induction rest as [|c r IH]; intros col H; [reflexivity|]. cbn [forallb] in H.
  apply andb_true_iff in H as [Hc Hr]. apply negb_true_iff in Hc.
  cbn [expandRestOfLine]. rewrite Hc. f_equal. auto.
Qed.

Lemma extractBlockquoteContent_quotes : forall n,
  extractBlockquoteContent (repeat GT (S n)) = repeat GT n.
Proof.
  intros n. unfold extractBlockquoteContent, matchBlockquote. cbn [repeat spanUpTo].
  change (isSP GT) with false. cbn iota. change (ceq GT GT) with true. cbn iota.
  destruct n as [|n]; [reflexivity|]. cbn [repeat]. change (isSpaceTab GT) with false.
  cbn iota. apply expandRestOfLine_plain.
  change (GT :: repeat GT n) with (repeat GT (S n)).
  apply forallb_forall. intros c Hc. apply repeat_spec in Hc. subst c. reflexivity.
Qed.

Lemma isBlockquoteStart_quotes : forall n, isBlockquoteStart (repeat GT (S n)) = true.
Proof. intros [|n]; reflexivity. Qed.

(** The parser of a single line of [>] hands the line without its first [>]
    to a recursive parse and wraps what that returns in a block quote. *)
Lemma parseBlocks_quotes : forall subParse n,
  parseBlocks subParse [repeat GT (S n)] =
  match subParse (repeat GT n) with
  | None => None
  | Some (quoteChildren, childRefs) =>
      Some (mkPState 1 [] [Blockquote quoteChildren] (refMerge [] childRefs))
  end.
Proof.
  intros subParse n. unfold parseBlocks. cbn [length parseBlocks_loop lineIndex nth_error].
  assert (Hstep : parseBlocks_step subParse [repeat GT (S n)] (repeat GT (S n))
                    (mkPState 0 [] [] []) =
                  match subParse (repeat GT n) with
                  | None => None
                  | Some (quoteChildren, childRefs) =>
                      Some (mkPState 1 [] [Blockquote quoteChildren] (refMerge [] childRefs))
                  end).
  { unfold parseBlocks_step.
    pose proof (extractBlockquoteContent_quotes n) as Hc.
    pose proof (isBlockquoteStart_quotes n) as Hq.
    cbn [repeat] in *. set (r := repeat GT n) in *.
    change (startsWith (GT :: r) [LAZY_PREFIX]) with false.
    change (isBlank (GT :: r)) with false.
    change (isThematicBreak (GT :: r)) with false.
    change (parseAtxHeading (GT :: r)) with (@None (nat * str)).
    change (parseFenceOpen (GT :: r)) with (@None FenceInfo).
    change (getIndent (GT :: r)) with 0.
    cbn [paragraphLines length Nat.eqb negb andb Nat.leb finishParagraph lineIndex linesFrom skipn
         quoteLoop app].
    rewrite !Hq, Hc.
    unfold joinLF. cbn [join fst].
    destruct (subParse r) as [[ch refs]|]; reflexivity. }
  rewrite Hstep. destruct (subParse (repeat GT n)) as [[ch refs]|]; reflexivity.
Qed.

Lemma linesOf_quotes : forall n, linesOf (repeat GT n) = [repeat GT n].
Proof.
  intros n. apply (linesOf_joinLF (repeat GT n) []). cbn [forallb]. rewrite andb_true_r.
  apply forallb_forall. intros c Hc. apply repeat_spec in Hc. subst c. reflexivity.
Qed.

Lemma BlockParser_parse_quotes_step : forall d n,
  BlockParser_parse (S d) (repeat GT (S n)) =
  match BlockParser_parse d (repeat GT n) with
  | None => None
  | Some (quoteChildren, childRefs) => Some ([Blockquote quoteChildren], refMerge [] childRefs)
  end.
Proof.
  intros d n. cbn [BlockParser_parse]. unfold parseWith.
  change (splitLF (normalizeLineEndings (repeat GT (S n)))) with (linesOf (repeat GT (S n))).
  rewrite linesOf_quotes, parseBlocks_quotes.
  destruct (BlockParser_parse d (repeat GT n)) as [[ch refs]|]; reflexivity.
Qed.

Lemma BlockParser_parse_quotes_none : forall d n,
  d <= n -> BlockParser_parse d (repeat GT n) = None.
Proof.
  induction d as [|d IH]; intros n Hn; [reflexivity|].
  destruct n as [|n]; [lia|]. rewrite BlockParser_parse_quotes_step, IH by lia. reflexivity.
Qed.

(** X1: the nesting of recursive parses is not bounded.  On the input of [n]
    characters [>] a chain of [n] recursive parses is not enough, and one more
    gives [n] block quotes, one inside the other. *)
Theorem nesting_grows_with_input : forall n,
  BlockParser_parse n (repeat GT n) = None
  /\ BlockParser_parse (S n) (repeat GT n) = Some (nestedQuotes n, []).
Proof.
  intros n. split; [apply BlockParser_parse_quotes_none; apply Nat.le_refl|].
  induction n as [|n IH]; [reflexivity|].
  rewrite BlockParser_parse_quotes_step, IH. reflexivity.
Qed.

(** *** The renderer's escaping *)

Lemma replaceChar_removes : forall c rep s, ~ In c rep -> ~ In c (replaceChar c rep s).
Proof.
  intros c rep s Hrep. unfold replaceChar. intros H. apply in_flat_map in H as (d & _ & Hd).
  destruct (ceq d c) eqn:E; [exact (Hrep Hd)|].
  destruct Hd as [->|[]]. apply ceq_neq in E. congruence.
Qed.

Lemma replaceChar_keeps_out : forall d c rep s,
  ~ In d s -> ~ In d rep -> ~ In d (replaceChar c rep s).
Proof.
  intros d c rep s Hs Hrep. unfold replaceChar. intros H.
  apply in_flat_map in H as (x & Hx & Hd).
  destruct (ceq x c); [exact (Hrep Hd)|]. destruct Hd as [->|[]]. exact (Hs Hx).
Qed.

(** X2: what [escapeXml] returns holds none of the characters [<], [>] and
    the double quote, whatever the string. *)
Theorem escapeXml_no_markup : forall s,
  ~ In LT (escapeXml s) /\ ~ In GT (escapeXml s) /\ ~ In DQUOTE (escapeXml s).
Proof.
  intros s. unfold escapeXml.
  assert (Hnot : forall (c : char) (l : str), forallb (fun d => negb (ceq d c)) l = true -> ~ In c l).
  { intros c l H Hin. rewrite forallb_forall in H. specialize (H c Hin).
    apply negb_true_iff in H. apply ceq_neq in H. congruence. }
  repeat split.
  - apply replaceChar_keeps_out; [|apply Hnot; reflexivity].
    apply replaceChar_keeps_out; [|apply Hnot; reflexivity].
    apply (replaceChar_removes 60%Z). apply Hnot. reflexivity.
  - apply replaceChar_keeps_out; [|apply Hnot; reflexivity].
    apply (replaceChar_removes 62%Z). apply Hnot. reflexivity.
  - apply (replaceChar_removes 34%Z). apply Hnot. reflexivity.
Qed.

(** ** C3: the table of an input that holds no [<] *)

(** *** The line operations of the block parser bring in no [<] *)

Lemma noLT_app : forall a b, noLT (a ++ b) = noLT a && noLT b.
Proof. intros a b. unfold noLT. apply forallb_app. Qed.

Lemma noLT_skeleton : forall l, noLT l = noLT (skeleton l).
Proof.
  induction l as [|c l IH]; [reflexivity|].
  destruct (isSpaceTab c) eqn:Hs.
  - rewrite skeleton_cons_drop by exact Hs. rewrite <- IH. unfold noLT. cbn [forallb].
    replace (negb (ceq c LT)) with true; [reflexivity|].
    unfold isSpaceTab in Hs. apply orb_true_iff in Hs as [H|H]; apply ceq_eq in H; subst c;
      reflexivity.
  - rewrite skeleton_cons_keep by exact Hs. unfold noLT in *. cbn [forallb]. rewrite IH.
    reflexivity.
Qed.

Lemma noLT_same_skeleton : forall a b, skeleton a = skeleton b -> noLT a = noLT b.
Proof. intros a b H. rewrite (noLT_skeleton a), (noLT_skeleton b), H. reflexivity. Qed.

Lemma noLT_removeIndent : forall line indent, noLT (removeIndent line indent) = noLT line.
Proof. intros line indent. apply noLT_same_skeleton, skeleton_removeIndent. Qed.

Lemma noLT_sliceFrom : forall s k, noLT s = true -> noLT (sliceFrom s k) = true.
Proof. intros s k H. unfold noLT, sliceFrom in *. apply forallb_skipn. exact H. Qed.

Lemma noLT_repeat_SP : forall n, noLT (repeat SP n) = true.
Proof. induction n as [|n IH]; [reflexivity | exact IH]. Qed.

Lemma noLT_expandRestOfLine : forall rest col, noLT (expandRestOfLine rest col) = noLT rest.
Proof. intros rest col. apply noLT_same_skeleton, skeleton_expandRestOfLine. Qed.

Lemma noLT_blockquoteContent : forall line,
  noLT line = true -> noLT (extractBlockquoteContent line) = true.
Proof.
  intros line H. destruct (isBlockquoteStart line) eqn:E.
  - rewrite (noLT_skeleton line), (skeleton_blockquote line E) in H.
    rewrite noLT_skeleton. unfold noLT in *. cbn [forallb] in H.
    apply andb_true_iff in H as [_ H]. exact H.
  - unfold isBlockquoteStart in E. unfold extractBlockquoteContent.
    destruct (matchBlockquote line); [discriminate | reflexivity].
Qed.

Lemma noLT_listItemContent : forall line marker,
  noLT line = true -> noLT (extractListItemContent line marker) = true.
Proof.
  intros line marker H. unfold extractListItemContent. cbv zeta.
  repeat match goal with
         | |- context [if ?c then _ else _] => destruct c
         end;
    rewrite noLT_app, noLT_expandRestOfLine, ?noLT_repeat_SP;
    cbn [noLT forallb andb]; apply noLT_sliceFrom; exact H.
Qed.

Lemma noLT_lazy_line : forall lastContent line,
  noLT (getBlockquotePrefix lastContent ++ [LAZY_PREFIX] ++ line) = noLT line.
Proof.
  intros lastContent line.
  destruct (lazy_line_skeleton lastContent line) as (q & Hq & _).
  rewrite noLT_skeleton, Hq, (noLT_skeleton line). clear Hq.
  induction q as [|q IH]; [reflexivity | exact IH].
Qed.

Lemma noLT_lazy_strip : forall line0,
  noLT line0 = true ->
  noLT (if startsWith line0 [LAZY_PREFIX] then sliceFrom line0 1 else line0) = true.
Proof.
  intros line0 H. destruct (startsWith line0 [LAZY_PREFIX]); [|exact H].
  apply noLT_sliceFrom. exact H.
Qed.

Lemma noLT_join : forall ls, forallb noLT ls = true -> noLT (joinLF ls) = true.
Proof.
  unfold joinLF. induction ls as [|l ls IH]; intros H; [reflexivity|].
  cbn [forallb] in H. apply andb_true_iff in H as [Hl Hls]. cbn [join].
  destruct ls as [|l' ls']; [exact Hl|].
  rewrite !noLT_app, Hl, (IH Hls). reflexivity.
Qed.

Lemma noLT_normalizeLineEndings : forall n s,
  length s <= n -> noLT s = true -> noLT (normalizeLineEndings s) = true.
Proof.
  induction n as [|n IH]; intros s Hn H.
  { destruct s; [reflexivity | cbn [length] in Hn; lia]. }
  destruct s as [|c r]; [reflexivity|]. cbn [length] in Hn. cbn [normalizeLineEndings].
  unfold noLT in H. cbn [forallb] in H. apply andb_true_iff in H as [Hc Hr].
  destruct (ceq c CR).
  - change (noLT (LF :: ?x)) with (noLT x).
    destruct r as [|d r']; [reflexivity|].
    destruct (ceq d LF).
    + cbn [forallb] in Hr. apply andb_true_iff in Hr as [_ Hr].
      apply IH; [cbn [length] in Hn; lia | exact Hr].
    + apply IH; [lia | exact Hr].
  - unfold noLT. cbn [forallb]. rewrite Hc. apply IH; [lia | exact Hr].
Qed.

Lemma noLT_splitLF_aux : forall s cur,
  noLT s = true -> noLT cur = true -> forallb noLT (splitLF_aux cur s) = true.
Proof.
  induction s as [|c r IH]; intros cur Hs Hcur; cbn [splitLF_aux].
  - cbn [forallb]. unfold noLT in *. rewrite forallb_rev_chars, Hcur. reflexivity.
  - unfold noLT in Hs. cbn [forallb] in Hs. apply andb_true_iff in Hs as [Hc Hr].
    destruct (ceq c LF).
    + cbn [forallb]. rewrite (IH [] Hr eq_refl). unfold noLT in *.
      rewrite forallb_rev_chars, Hcur. reflexivity.
    + apply IH; [exact Hr|]. unfold noLT in *. cbn [forallb]. rewrite Hc, Hcur. reflexivity.
Qed.

Lemma noLT_lines : forall input,
  noLT input = true -> forallb noLT (splitLF (normalizeLineEndings input)) = true.
Proof.
  intros input H. unfold splitLF. apply noLT_splitLF_aux; [|reflexivity].
  apply (noLT_normalizeLineEndings (length input)); [apply Nat.le_refl | exact H].
Qed.

Lemma forallb_linesFrom : forall (p : str -> bool) lines i,
  forallb p lines = true -> forallb p (linesFrom lines i) = true.
Proof.
  intros p lines i H. unfold linesFrom. rewrite forallb_forall in *. intros l Hl. apply H.
  rewrite <- (firstn_skipn i lines). apply in_or_app. right. exact Hl.
Qed.

Lemma forallb_nth_error : forall (p : str -> bool) lines i l,
  forallb p lines = true -> nth_error lines i = Some l -> p l = true.
Proof.
  intros p lines i l H E. rewrite forallb_forall in H. apply H. eapply nth_error_In. exact E.
Qed.

Lemma forallb_popTrailingEmpty : forall (p : str -> bool) ls,
  forallb p ls = true -> forallb p (popTrailingEmpty ls) = true.
Proof.
  intros p ls H. unfold popTrailingEmpty. rewrite forallb_rev.
  assert (Hd : forall l, forallb p l = true -> forallb p (dropLeadingEmpty l) = true).
  { induction l as [|a l IH]; intros Hl; [reflexivity|]. cbn [dropLeadingEmpty].
    destruct (str_eqb a []); [|exact Hl].
    cbn [forallb] in Hl. apply andb_true_iff in Hl as [_ Hl]. auto. }
  apply Hd. rewrite forallb_rev. exact H.
Qed.

(** *** The lines handed to a recursive parse hold no [<] *)

Lemma quoteLoop_noLT : forall rest quoteLines inFence,
  forallb noLT rest = true -> forallb noLT quoteLines = true ->
  forallb noLT (fst (quoteLoop quoteLines inFence rest)) = true.
Proof.
  induction rest as [|line rest' IH]; intros quoteLines inF Hrest Hq; cbn [quoteLoop];
    [exact Hq|].
  cbn [forallb] in Hrest. apply andb_true_iff in Hrest as [Hline Hrest].
  assert (Hgo : forall content inF',
            noLT content = true ->
            forallb noLT
              (fst (let (ql0, k) := quoteLoop (quoteLines ++ [content]) inF' rest' in (ql0, S k)))
              = true).
  { intros content inF' Hc.
    pose proof (IH (quoteLines ++ [content]) inF' Hrest) as H1.
    destruct (quoteLoop (quoteLines ++ [content]) inF' rest') as [ql0 k]. cbn [fst] in *.
    apply H1. rewrite forallb_snoc, Hq, Hc. reflexivity. }
  destruct (isBlockquoteStart line).
  { apply Hgo. apply noLT_blockquoteContent. exact Hline. }
  destruct (isBlank line); [exact Hq|].
  destruct quoteLines as [|q0 qs]; [exact Hq|].
  destruct inF; [exact Hq|].
  destruct (_ || _); [exact Hq|].
  destruct (isBlank _); [exact Hq|].
  destruct (lastNonBlankLine (q0 :: qs)) as [lastContent|]; [|exact Hq].
  destruct (_ && _); [|exact Hq].
  apply Hgo. rewrite noLT_lazy_line. exact Hline.
Qed.

Lemma itemLoop_noLT : forall marker rest st,
  forallb noLT rest = true -> forallb noLT (itemLines st) = true ->
  forallb noLT (itemLines (fst (itemLoop marker st rest))) = true.
Proof.
  intros marker. induction rest as [|line0 rest' IH]; intros st Hrest Hst; [exact Hst|].
  cbn [itemLoop]. cbv zeta.
  cbn [forallb] in Hrest. apply andb_true_iff in Hrest as [Hline0 Hrest].
  pose proof (noLT_lazy_strip line0 Hline0) as Hline.
  set (line := if startsWith line0 [LAZY_PREFIX] then sliceFrom line0 1 else line0) in *.
  assert (Hgo : forall content st1,
            noLT content = true -> itemLines st1 = itemLines st ++ [content] ->
            forallb noLT
              (itemLines (fst (let (s, k) := itemLoop marker st1 rest' in (s, S k)))) = true).
  { intros content st1 Hc Hl.
    pose proof (IH st1 Hrest) as H1.
    destruct (itemLoop marker st1 rest') as [s k]. cbn [fst] in *.
    apply H1. rewrite Hl, forallb_snoc, Hst, Hc. reflexivity. }
  destruct (inFence st) as [fence|].
  { eapply Hgo; [|reflexivity].
    destruct (_ <=? _); [rewrite noLT_removeIndent|]; exact Hline. }
  destruct (isBlank line).
  { apply (Hgo []); reflexivity. }
  repeat match goal with
         | |- context [if ?c then _ else _] => destruct c
         end;
    first [ exact Hst
          | eapply Hgo; [|reflexivity];
            first [ rewrite noLT_removeIndent; exact Hline | exact Hline ] ].
Qed.

Lemma collectListItem_noLT : forall marker rest,
  forallb noLT rest = true ->
  forallb noLT (fst (fst (fst (collectListItem marker rest)))) = true.
Proof.
  intros marker [|firstLine0 rest'] Hrest; [reflexivity|].
  cbn [forallb] in Hrest. apply andb_true_iff in Hrest as [Hfirst Hrest].
  unfold collectListItem. cbv zeta.
  pose proof (noLT_lazy_strip firstLine0 Hfirst) as Hline.
  set (firstLine := if startsWith firstLine0 [LAZY_PREFIX] then sliceFrom firstLine0 1
                    else firstLine0) in *.
  match goal with
  | |- context [itemLoop marker ?st0 rest'] =>
      pose proof (itemLoop_noLT marker rest' st0 Hrest) as H1;
      destruct (itemLoop marker st0 rest') as [st n]
  end.
  cbn [fst] in *. apply forallb_popTrailingEmpty. apply H1.
  cbn [itemLines forallb]. rewrite andb_true_r.
  destruct (_ && _); [reflexivity|].
  apply noLT_listItemContent. exact Hline.
Qed.

(** *** A definition read off a text without [<] has a destination *)

Lemma startsWith_noLT : forall s, noLT s = true -> startsWith s [LT] = false.
Proof.
  intros [|c s] H; [reflexivity|]. unfold noLT in H. cbn [forallb] in H.
  apply andb_true_iff in H as [H _]. cbn [startsWith]. rewrite ceq_sym.
  destruct (ceq c LT); [discriminate | reflexivity].
Qed.

Lemma destinationSite_noLT : forall text, noLT text = true -> noLT (destinationSite text) = true.
Proof.
  intros text H. unfold destinationSite. cbv zeta.
  destruct (matchLinkLabel _) as [[rawLabel labelLen]|]; [|reflexivity].
  apply noLT_sliceFrom. exact H.
Qed.

Lemma parseLinkReferenceDefinition_noLT : forall text result,
  noLT text = true ->
  parseLinkReferenceDefinition text = Some result ->
  destination (definition result) <> [].
Proof.
  intros text result Hn H.
  destruct (parseLinkReferenceDefinition_shape text result H)
    as (rawLabel & dest & ttl & endPos & -> & _ & Hbare & _).
  cbn [mkResult definition destination].
  apply decodeHtmlEntities_nonempty, unescapeString_nonempty, Hbare.
  apply startsWith_noLT, destinationSite_noLT. exact Hn.
Qed.

(** *** The table of a parse over lines without [<] *)

Lemma extractLinkRefs_noLT : forall fuel text refs,
  noLT text = true -> Forall hasDestination refs ->
  Forall hasDestination (snd (extractLinkRefs fuel text refs)).
Proof.
  induction fuel as [|fuel IH]; intros text refs Ht Hr; cbn [extractLinkRefs]; [exact Hr|].
  destruct text as [|c text]; [exact Hr|].
  destruct (parseLinkReferenceDefinition (c :: text)) as [result|] eqn:E; [|exact Hr].
  apply IH; [apply noLT_sliceFrom; exact Ht|].
  apply refAdd_invariant; [exact Hr|].
  unfold hasDestination. cbn [snd]. eapply parseLinkReferenceDefinition_noLT; eassumption.
Qed.

Lemma stripLinkRefs_noLT : forall paragraphLines refs,
  forallb noLT paragraphLines = true -> Forall hasDestination refs ->
  Forall hasDestination (snd (stripLinkRefs paragraphLines refs)).
Proof.
  intros pl refs Hp Hr. unfold stripLinkRefs.
  pose proof (extractLinkRefs_noLT (length (joinLF pl)) (joinLF pl) refs
                (noLT_join pl Hp) Hr) as H.
  destruct (extractLinkRefs (length (joinLF pl)) (joinLF pl) refs). exact H.
Qed.

Lemma finishParagraph_clean : forall st,
  cleanState st ->
  paragraphLines (finishParagraph st) = [] /\ cleanState (finishParagraph st).
Proof.
  intros st [Hp Hr]. unfold finishParagraph.
  destruct (paragraphLines st) as [|l ls] eqn:E.
  { split; [exact E|]. split; [rewrite E; reflexivity | exact Hr]. }
  pose proof (stripLinkRefs_noLT (l :: ls) (linkReferences st) Hp Hr) as H.
  destruct (stripLinkRefs (l :: ls) (linkReferences st)) as [text refs].
  destruct text; (split; [reflexivity | split; [reflexivity | exact H]]).
Qed.

Lemma setextHeading_clean : forall level fallback st,
  (forall st', paragraphLines st' = [] -> Forall hasDestination (linkReferences st') ->
               cleanState (fallback st')) ->
  cleanState st -> cleanState (setextHeading level fallback st).
Proof.
  intros level fallback st Hf [Hp Hr]. unfold setextHeading.
  pose proof (stripLinkRefs_noLT (paragraphLines st) (linkReferences st) Hp Hr) as H.
  destruct (stripLinkRefs (paragraphLines st) (linkReferences st)) as [content refs].
  destruct content; [apply Hf; [reflexivity | exact H]|].
  split; [reflexivity | exact H].
Qed.

Section CleanStep.

Variable subParse : str -> option (list RawBlock * RefMap).
Hypothesis subParse_clean : forall s blocks refs,
  noLT s = true -> subParse s = Some (blocks, refs) -> Forall hasDestination refs.
Variable lines : list str.
Hypothesis lines_clean : forallb noLT lines = true.

Lemma parseListItem_clean : forall idx marker refs item idx' refs' b1 b2,
  Forall hasDestination refs ->
  parseListItem subParse lines idx marker refs = Some (item, idx', refs', b1, b2) ->
  Forall hasDestination refs'.
Proof.
  intros idx marker refs item idx' refs' b1 b2 Hr H. unfold parseListItem in H.
  pose proof (collectListItem_noLT marker (linesFrom lines idx)
                (forallb_linesFrom noLT lines idx lines_clean)) as Hc.
  destruct (collectListItem marker (linesFrom lines idx)) as [[[itemLines n] bi] be].
  cbn [fst] in Hc.
  destruct (subParse (joinLF itemLines)) as [[ch childRefs]|] eqn:E; [|discriminate].
  injection H as _ _ <- _ _.
  apply refMerge_invariant; [exact Hr|].
  eapply subParse_clean; [|exact E]. apply noLT_join. exact Hc.
Qed.

Lemma parseBlocks_step_clean : forall line st st',
  noLT line = true -> cleanState st ->
  parseBlocks_step subParse lines line st = Some st' ->
  cleanState st'.
Proof.
  intros line st st' Hline Hst H. unfold parseBlocks_step in H.
  destruct (finishParagraph_clean st Hst) as [Hnil [Hfp Hfr]].
  destruct Hst as [Hp Hr].
  assert (Hpush : forall l, noLT l = true ->
            forallb noLT (paragraphLines st ++ [l]) = true).
  { intros l Hl. rewrite forallb_snoc, Hp, Hl. reflexivity. }
  repeat match type of H with
         | (if ?c then _ else _) = _ => destruct c
         | match ?x with Some _ => _ | None => _ end = _ => destruct x eqn:?
         | (let (_, _) := ?x in _) = _ => destruct x eqn:?
         | Some _ = Some _ => injection H as <-
         | None = Some _ => discriminate
         end;
    try (first
           [ apply setextHeading_clean;
             [ intros st1 Hn1 Hr1; split;
               cbn [paragraphLines linkReferences pushChild setParagraphLines forallb];
               [ first [ rewrite Hn1; reflexivity | rewrite Hline; reflexivity ] | exact Hr1 ]
             | split; assumption ]
           | split;
             cbn [paragraphLines linkReferences advanceBy pushChild setParagraphLines
                  setLinkReferences];
             [ first [ exact Hfp | exact Hp
                     | apply Hpush; rewrite noLT_removeIndent;
                       first [ exact Hline | apply (noLT_sliceFrom line 1); exact Hline ] ]
             | first [ exact Hfr | exact Hr ] ] ]).
  all: split;
    cbn [paragraphLines linkReferences advanceBy pushChild setParagraphLines setLinkReferences].
  all: try exact Hfp.
  - apply refMerge_invariant; [exact Hfr|].
    match goal with
    | Hq : quoteLoop [] None ?rest = (?ql, _), Hs : subParse (joinLF ?ql) = Some _ |- _ =>
        eapply subParse_clean; [|exact Hs];
        apply noLT_join;
        pose proof (quoteLoop_noLT rest [] None) as Hx; rewrite Hq in Hx; apply Hx;
        [apply forallb_linesFrom; exact lines_clean | reflexivity]
    end.
  - eapply (parseList_invariant RefMap (Forall hasDestination)); [| exact Hfr | eassumption].
    intros idx marker t item idx' t' b1 b2 Ht Hi.
    eapply parseListItem_clean; eassumption.
Qed.

Lemma parseBlocks_loop_clean : forall fuel st st',
  cleanState st ->
  parseBlocks_loop subParse lines fuel st = Some st' ->
  cleanState st'.
Proof.
  induction fuel as [|fuel IH]; intros st st' Hst H; cbn [parseBlocks_loop] in H;
    [discriminate|].
  destruct (nth_error lines (lineIndex st)) as [line|] eqn:El.
  - destruct (parseBlocks_step subParse lines line st) as [st1|] eqn:E; [|discriminate].
    eapply IH; [|exact H]. eapply parseBlocks_step_clean; [|exact Hst|exact E].
    eapply forallb_nth_error; [exact lines_clean | exact El].
  - injection H as <-. exact Hst.
Qed.

Lemma parseBlocks_clean : forall st,
  parseBlocks subParse lines = Some st -> Forall hasDestination (linkReferences st).
Proof.
  intros st H. unfold parseBlocks in H.
  destruct (parseBlocks_loop subParse lines (S (length lines)) (mkPState 0 [] [] []))
    as [st1|] eqn:E; [|discriminate].
  injection H as <-. apply finishParagraph_clean.
  eapply parseBlocks_loop_clean; [|exact E]. split; [reflexivity | constructor].
Qed.

End CleanStep.

Lemma BlockParser_parse_clean : forall depth input blocks refs,
  noLT input = true ->
  BlockParser_parse depth input = Some (blocks, refs) -> Forall hasDestination refs.
Proof.
  induction depth as [|depth IH]; intros input blocks refs Hn H; cbn [BlockParser_parse] in H;
    [discriminate|].
  unfold parseWith in H.
  destruct (parseBlocks (BlockParser_parse depth) (splitLF (normalizeLineEndings input)))
    as [st|] eqn:E; [|discriminate].
  injection H as _ <-.
  eapply parseBlocks_clean; [| |exact E]; [exact IH | apply noLT_lines; exact Hn].
Qed.


(** ** More of the code: what the properties below are about *)

(** *** utils.ts: line endings *)

Lemma normalizeLineEndings_app : forall a s,
  endsWith a [CR] = false ->
  normalizeLineEndings (a ++ s) = normalizeLineEndings a ++ normalizeLineEndings s.
Proof.
  assert (Hlen : forall n a s, length a <= n -> endsWith a [CR] = false ->
            normalizeLineEndings (a ++ s) = normalizeLineEndings a ++ normalizeLineEndings s).
  { induction n as [|n IH]; intros a s Hn Ha.
    { destruct a; [reflexivity | cbn [length] in Hn; lia]. }
    destruct a as [|c a]; [reflexivity|]. cbn [length] in Hn.
    assert (Hends : forall x (y : str), y <> [] -> endsWith (x :: y) [CR] = endsWith y [CR]).
    { intros x y Hy. unfold endsWith. cbn [rev]. destruct (rev y) as [|z w] eqn:E.
      - apply (f_equal (@rev char)) in E. rewrite rev_involutive in E. contradiction.
      - reflexivity. }
    cbn [app normalizeLineEndings]. destruct (ceq c CR) eqn:Hc.
    - destruct a as [|d a].
      + apply ceq_eq in Hc. subst c. discriminate.
      + cbn [app]. cbn [length] in Hn.
        rewrite (Hends c (d :: a)) in Ha by discriminate.
        destruct (ceq d LF) eqn:Hd.
        * destruct a as [|e a].
          -- cbn [app normalizeLineEndings]. reflexivity.
          -- rewrite (Hends d (e :: a)) in Ha by discriminate.
             cbn [app]. f_equal. apply (IH (e :: a) s); [cbn [length] in *; lia | exact Ha].
        * f_equal. apply (IH (d :: a) s); [cbn [length]; lia | exact Ha].
    - change ((c :: normalizeLineEndings a) ++ normalizeLineEndings s)
        with (c :: normalizeLineEndings a ++ normalizeLineEndings s).
      f_equal. destruct a as [|d a]; [reflexivity|].
      rewrite (Hends c (d :: a)) in Ha by discriminate.
      apply (IH (d :: a) s); [lia | exact Ha]. }
  intros a s. apply (Hlen (length a)). apply Nat.le_refl.
Qed.

(** X3: [normalizeLineEndings] leaves no carriage return, and changes nothing
    in what it returns when applied again. *)
Theorem normalizeLineEndings_is_normal : forall s,
  ~ In CR (normalizeLineEndings s)
  /\ normalizeLineEndings (normalizeLineEndings s) = normalizeLineEndings s.
Proof.
  intros s. pose proof (normalizeLineEndings_noCR (length s) s (Nat.le_refl _)) as H.
  split.
  - intros Hin. rewrite forallb_forall in H. specialize (H CR Hin). discriminate.
  - apply normalizeLineEndings_id. exact H.
Qed.

(** X4: a carriage return followed by a line feed, and a carriage return
    alone, are read as one line feed: the rendered document is the same,
    provided the text before does not end in a carriage return of its own
    (which would pair up differently) and, for the carriage return alone,
    that no line feed follows it. *)
Theorem line_endings_do_not_matter : forall depth a b,
  endsWith a [CR] = false ->
  markdown depth (a ++ [CR; LF] ++ b) = markdown depth (a ++ [LF] ++ b)
  /\ (startsWith b [LF] = false ->
      markdown depth (a ++ [CR] ++ b) = markdown depth (a ++ [LF] ++ b)).
Proof.
  intros depth a b Ha.
  assert (Hsame : forall s1 s2, normalizeLineEndings s1 = normalizeLineEndings s2 ->
            markdown depth s1 = markdown depth s2).
  { intros s1 s2 H. unfold markdown, parse. destruct depth as [|d]; [reflexivity|].
    cbn [BlockParser_parse]. unfold parseWith. rewrite H. reflexivity. }
  split; [|intros Hb]; apply Hsame; rewrite !(normalizeLineEndings_app a) by exact Ha;
    apply f_equal; [reflexivity|].
  destruct b as [|c b]; [reflexivity|]. cbn [startsWith] in Hb. rewrite andb_true_r in Hb.
  cbn [app normalizeLineEndings]. change (ceq CR CR) with true. change (ceq LF CR) with false.
  cbn iota. assert (Hc : ceq c LF = false).
  { apply ceq_neq. apply ceq_neq in Hb. congruence. }
  rewrite Hc. reflexivity.
Qed.

(** *** renderer.ts: [encodeUrl] *)

Lemma memc_In : forall c l, memc c l = true -> In c l.
Proof.
  intros c l H. unfold memc in H. apply existsb_exists in H as (d & Hd & E).
  apply ceq_eq in E. subst d. exact Hd.
Qed.

Lemma isAlnum_ascii : forall c, isAlnum c = true -> (48 <= c < 123)%Z.
Proof.
  intros c H. unfold isAlnum, isAlpha, isUpper, isLower, isDigit, inRange in H.
  repeat match type of H with
         | (_ || _) = true => apply orb_true_iff in H; destruct H as [H|H]
         | (_ && _) = true => let H1 := fresh in apply andb_true_iff in H as [H H1];
                              apply Z.leb_le in H, H1
         end; lia.
Qed.

Lemma isUrlSafeChar_ascii : forall c, isUrlSafeChar c = true -> (33 <= c < 127)%Z.
Proof.
  intros c H. unfold isUrlSafeChar in H. apply orb_true_iff in H as [H|H].
  - apply isAlnum_ascii in H. lia.
  - apply memc_In in H. vm_compute in H.
    repeat match type of H with _ \/ _ => destruct H as [H|H] end;
      [subst c; lia .. | contradiction].
Qed.

Lemma isUriUnreserved_safe : forall c, isUriUnreserved c = true -> isUrlSafeChar c = true.
Proof.
  intros c H. unfold isUriUnreserved in H. unfold isUrlSafeChar.
  apply orb_true_iff in H as [H|H]; [rewrite H; reflexivity|].
  apply memc_In in H. vm_compute in H.
  repeat match type of H with _ \/ _ => destruct H as [H|H] end;
    [subst c; reflexivity .. | contradiction].
Qed.

Lemma ascii_not_surrogate : forall c,
  (c < 55296)%Z -> isHighSurrogate c = false /\ isLowSurrogate c = false.
Proof.
  intros c H. unfold isHighSurrogate, isLowSurrogate, inRange.
  split; apply andb_false_iff; left; apply Z.leb_gt; lia.
Qed.

Lemma isHexDigit_ascii : forall c, isHexDigit c = true -> (48 <= c < 103)%Z.
Proof.
  intros c H. unfold isHexDigit, isDigit, inRange in H.
  repeat match type of H with
         | (_ || _) = true => apply orb_true_iff in H; destruct H as [H|H]
         | (_ && _) = true => let H1 := fresh in apply andb_true_iff in H as [H H1];
                              apply Z.leb_le in H, H1
         end; lia.
Qed.

(** The four ways in which [encodeUrl] reads the start of a string. *)
Lemma encodeUrl_view : forall c r,
  (exists a b r2, r = a :: b :: r2 /\ c = PERCENT /\ isHexDigit a = true /\ isHexDigit b = true
     /\ encodeUrl (c :: r)
        = option_map (fun rest => c :: asciiUpper a :: asciiUpper b :: rest) (encodeUrl r2))
  \/ (isUrlSafeChar c = true
      /\ encodeUrl (c :: r) = option_map (cons c) (encodeUrl r))
  \/ (exists a r1, r = a :: r1 /\ isUrlSafeChar c = false /\ isHighSurrogate c = true
      /\ encodeUrl (c :: r)
         = match encodeURIComponent [c; a], encodeUrl r1 with
           | Some e, Some rest => Some (e ++ rest)
           | _, _ => None
           end)
  \/ (isUrlSafeChar c = false /\ (isHighSurrogate c = false \/ r = [])
      /\ encodeUrl (c :: r)
         = match encodeURIComponent [c], encodeUrl r with
           | Some e, Some rest => Some (e ++ rest)
           | _, _ => None
           end).
Proof.
  intros c r.
  assert (Hpct : isUrlSafeChar PERCENT = false) by reflexivity.
  assert (Hother :
    (forall a b r2, r = a :: b :: r2 ->
       (ceq c PERCENT && isHexDigit a && isHexDigit b) = false) ->
    encodeUrl (c :: r)
    = match r with
      | a :: r1 =>
          if negb (isUrlSafeChar c) && isHighSurrogate c then
            match encodeURIComponent [c; a], encodeUrl r1 with
            | Some e, Some rest => Some (e ++ rest)
            | _, _ => None
            end
          else if isUrlSafeChar c then option_map (cons c) (encodeUrl r)
          else match encodeURIComponent [c], encodeUrl r with
               | Some e, Some rest => Some (e ++ rest)
               | _, _ => None
               end
      | [] =>
          if isUrlSafeChar c then option_map (cons c) (encodeUrl r)
          else match encodeURIComponent [c], encodeUrl r with
               | Some e, Some rest => Some (e ++ rest)
               | _, _ => None
               end
      end).
  { intros Hno. destruct r as [|a [|b r2]]; cbn [encodeUrl]; try reflexivity.
    rewrite (Hno a b r2 eq_refl). reflexivity. }
  destruct r as [|a r1].
  - rewrite Hother by (intros; discriminate).
    destruct (isUrlSafeChar c) eqn:Hs; [right; left; auto|].
    right; right; right. auto.
  - assert (Hrest :
      encodeUrl (c :: a :: r1)
      = (if negb (isUrlSafeChar c) && isHighSurrogate c then
           match encodeURIComponent [c; a], encodeUrl r1 with
           | Some e, Some rest => Some (e ++ rest)
           | _, _ => None
           end
         else if isUrlSafeChar c then option_map (cons c) (encodeUrl (a :: r1))
         else match encodeURIComponent [c], encodeUrl (a :: r1) with
              | Some e, Some rest => Some (e ++ rest)
              | _, _ => None
              end) ->
      (isUrlSafeChar c = true
         /\ encodeUrl (c :: a :: r1) = option_map (cons c) (encodeUrl (a :: r1)))
      \/ (exists a0 r0, a :: r1 = a0 :: r0 /\ isUrlSafeChar c = false /\ isHighSurrogate c = true
          /\ encodeUrl (c :: a :: r1)
             = match encodeURIComponent [c; a0], encodeUrl r0 with
               | Some e, Some rest => Some (e ++ rest)
               | _, _ => None
               end)
      \/ (isUrlSafeChar c = false /\ (isHighSurrogate c = false \/ a :: r1 = [])
          /\ encodeUrl (c :: a :: r1)
             = match encodeURIComponent [c], encodeUrl (a :: r1) with
               | Some e, Some rest => Some (e ++ rest)
               | _, _ => None
               end)).
    { intros E. destruct (isUrlSafeChar c) eqn:Hs; cbn [negb andb] in E.
      - left. auto.
      - destruct (isHighSurrogate c) eqn:Hh.
        + right; left. exists a, r1. auto.
        + right; right. auto. }
    destruct r1 as [|b r2].
    + right. apply Hrest. apply Hother. intros; discriminate.
    + destruct (ceq c PERCENT && isHexDigit a && isHexDigit b) eqn:Hc.
      * left. exists a, b, r2.
        apply andb_true_iff in Hc as [Hc Hb]. apply andb_true_iff in Hc as [Hc Ha].
        apply ceq_eq in Hc. subst c. repeat split; try assumption.
        cbn [encodeUrl]. rewrite Ha, Hb. reflexivity.
      * right. apply Hrest. apply Hother. intros a0 b0 r0 E. injection E as <- <- <-. exact Hc.
Qed.

Lemma hexDigitUpper_upper : forall n, (0 <= n < 16)%Z -> isUpperHex (hexDigitUpper n) = true.
Proof.
  intros n Hn. unfold hexDigitUpper, isUpperHex, isDigit, inRange.
  destruct (n <? 10)%Z eqn:E; [apply Z.ltb_lt in E | apply Z.ltb_ge in E].
  - apply orb_true_iff. left. apply andb_true_iff. split; apply Z.leb_le; lia.
  - apply orb_true_iff. right. apply andb_true_iff. split; apply Z.leb_le; lia.
Qed.

Lemma isUpperHex_facts : forall c,
  isUpperHex c = true -> isHexDigit c = true /\ asciiUpper c = c /\ isUrlSafeChar c = true.
Proof.
  intros c H. unfold isUpperHex in H.
  assert (Hhex : isHexDigit c = true).
  { unfold isHexDigit. apply orb_true_iff in H as [H|H]; rewrite H;
      [reflexivity | rewrite orb_true_r; reflexivity]. }
  split; [exact Hhex|]. split.
  - unfold asciiUpper, isLower, inRange. apply orb_true_iff in H as [H|H];
      unfold isDigit, inRange in H; apply andb_true_iff in H as [H1 H2];
      apply Z.leb_le in H1, H2;
      replace (97 <=? c)%Z with false by (symmetry; apply Z.leb_gt; lia); reflexivity.
  - unfold isUrlSafeChar, isAlnum, isAlpha, isUpper. apply orb_true_iff in H as [H|H].
    + rewrite H, orb_true_r. reflexivity.
    + unfold inRange in *. apply andb_true_iff in H as [H1 H2]. apply Z.leb_le in H1, H2.
      replace (65 <=? c)%Z with true by (symmetry; apply Z.leb_le; lia).
      replace (c <=? 90)%Z with true by (symmetry; apply Z.leb_le; lia). reflexivity.
Qed.

Lemma Encoded_app : forall a b, Encoded a -> Encoded b -> Encoded (a ++ b).
Proof.
  intros a b Ha Hb. induction Ha; cbn [app]; [exact Hb | constructor; assumption..].
Qed.

Lemma utf8_bytes : forall cp,
  (0 <= cp < 1114112)%Z -> Forall (fun b => (0 <= b < 256)%Z) (utf8 cp).
Proof.
  intros cp H. unfold utf8.
  destruct (cp <? 128)%Z eqn:E1; [apply Z.ltb_lt in E1 | apply Z.ltb_ge in E1].
  { repeat constructor; lia. }
  destruct (cp <? 2048)%Z eqn:E2; [apply Z.ltb_lt in E2 | apply Z.ltb_ge in E2].
  { repeat constructor; try lia.
    all: pose proof (Z.mod_pos_bound cp 64 ltac:(lia));
      pose proof (Z.div_pos cp 64 ltac:(lia) ltac:(lia));
      pose proof (Z.div_lt_upper_bound cp 64 32 ltac:(lia) ltac:(lia)); lia. }
  destruct (cp <? 65536)%Z eqn:E3; [apply Z.ltb_lt in E3 | apply Z.ltb_ge in E3].
  { repeat constructor; try lia.
    all: pose proof (Z.mod_pos_bound cp 64 ltac:(lia));
      pose proof (Z.mod_pos_bound (cp / 64) 64 ltac:(lia));
      pose proof (Z.div_pos cp 4096 ltac:(lia) ltac:(lia));
      pose proof (Z.div_lt_upper_bound cp 4096 16 ltac:(lia) ltac:(lia)); lia. }
  repeat constructor; try lia.
  all: pose proof (Z.mod_pos_bound cp 64 ltac:(lia));
    pose proof (Z.mod_pos_bound (cp / 64) 64 ltac:(lia));
    pose proof (Z.mod_pos_bound (cp / 4096) 64 ltac:(lia));
    pose proof (Z.div_pos cp 262144 ltac:(lia) ltac:(lia));
    pose proof (Z.div_lt_upper_bound cp 262144 16 ltac:(lia) ltac:(lia)); lia.
Qed.

Lemma percentBytes_encoded : forall bytes,
  Forall (fun b => (0 <= b < 256)%Z) bytes -> Encoded (flat_map percentByte bytes).
Proof.
  induction bytes as [|b bytes IH]; intros H; [constructor|].
  inversion H; subst. cbn [flat_map]. apply Encoded_app; [|auto].
  unfold percentByte. apply Encoded_escape; [| |constructor].
  - apply hexDigitUpper_upper.
    pose proof (Z.div_pos b 16 ltac:(lia) ltac:(lia)).
    pose proof (Z.div_lt_upper_bound b 16 16 ltac:(lia) ltac:(lia)). lia.
  - apply hexDigitUpper_upper. apply Z.mod_pos_bound. lia.
Qed.

Lemma encodeURIComponent_single : forall c,
  match encodeURIComponent [c] with
  | Some e => isHighSurrogate c = false /\ isLowSurrogate c = false
              /\ (isCodeUnit c = true -> Encoded e)
  | None => (isHighSurrogate c || isLowSurrogate c) = true
  end.
Proof.
  intros c. cbn [encodeURIComponent].
  destruct (isUriUnreserved c) eqn:Hu.
  { cbn [option_map]. apply isUriUnreserved_safe in Hu.
    destruct (ascii_not_surrogate c) as [H1 H2]; [apply isUrlSafeChar_ascii in Hu; lia|].
    repeat split; try assumption. intros _. constructor; [exact Hu | constructor]. }
  destruct (isLowSurrogate c) eqn:Hl; [apply orb_true_r|].
  destruct (isHighSurrogate c) eqn:Hh; [reflexivity|].
  cbn [option_map]. repeat split. intros Hc. rewrite app_nil_r.
  apply percentBytes_encoded. apply utf8_bytes.
  unfold isCodeUnit, inRange in Hc. apply andb_true_iff in Hc as [H1 H2].
  apply Z.leb_le in H1, H2. lia.
Qed.

Lemma encodeURIComponent_pair : forall c a,
  isHighSurrogate c = true ->
  match encodeURIComponent [c; a] with
  | Some e => isLowSurrogate a = true /\ Encoded e
  | None => isLowSurrogate a = false
  end.
Proof.
  intros c a Hh. cbn [encodeURIComponent].
  assert (Hc : (55296 <= c <= 56319)%Z).
  { unfold isHighSurrogate, inRange in Hh. apply andb_true_iff in Hh as [H1 H2].
    apply Z.leb_le in H1, H2. lia. }
  destruct (isUriUnreserved c) eqn:Hu.
  { apply isUriUnreserved_safe, isUrlSafeChar_ascii in Hu. lia. }
  replace (isLowSurrogate c) with false.
  2:{ symmetry. unfold isLowSurrogate, inRange. apply andb_false_iff. left. apply Z.leb_gt. lia. }
  rewrite Hh. destruct (isLowSurrogate a) eqn:Hl; [|reflexivity].
  cbn [option_map]. split; [reflexivity|]. rewrite app_nil_r.
  apply percentBytes_encoded. apply utf8_bytes.
  unfold isLowSurrogate, inRange in Hl. apply andb_true_iff in Hl as [H1 H2].
  apply Z.leb_le in H1, H2. lia.
Qed.

Lemma encodeUrl_spec : forall n url,
  length url <= n ->
  match encodeUrl url with
  | Some o => wellFormedUtf16 url = true /\ (forallb isCodeUnit url = true -> Encoded o)
  | None => wellFormedUtf16 url = false
  end.
Proof.
  induction n as [|n IH]; intros url Hn.
  { destruct url; [split; [reflexivity | constructor] | cbn [length] in Hn; lia]. }
  destruct url as [|c r]; [split; [reflexivity | constructor]|]. cbn [length] in Hn.
  destruct (encodeUrl_view c r)
    as [(a & b & r2 & -> & -> & Ha & Hb & ->)
       |[(Hs & ->)
        |[(a & r1 & -> & Hs & Hh & ->)
         |(Hs & Hh & ->)]]].
  - cbn [length] in Hn. specialize (IH r2 ltac:(lia)).
    assert (Hwf : wellFormedUtf16 (PERCENT :: a :: b :: r2) = wellFormedUtf16 r2).
    { destruct (ascii_not_surrogate a) as [H1 H2]; [apply isHexDigit_ascii in Ha; lia|].
      destruct (ascii_not_surrogate b) as [H3 H4]; [apply isHexDigit_ascii in Hb; lia|].
      cbn [wellFormedUtf16]. change (isHighSurrogate PERCENT) with false.
      change (isLowSurrogate PERCENT) with false. rewrite H1, H2, H3, H4. reflexivity. }
    rewrite Hwf. destruct (encodeUrl r2) as [o|]; cbn [option_map]; [|exact IH].
    destruct IH as [IH1 IH2]. split; [exact IH1|]. intros Hcu. cbn [forallb] in Hcu.
    apply andb_true_iff in Hcu as [_ Hcu]. apply andb_true_iff in Hcu as [_ Hcu].
    apply andb_true_iff in Hcu as [_ Hcu].
    assert (Hup : forall h, isHexDigit h = true -> isUpperHex (asciiUpper h) = true).
    { intros h Hx. unfold isHexDigit in Hx. unfold asciiUpper, isUpperHex, isLower.
      unfold isDigit, inRange in *.
      repeat match type of Hx with
             | (_ || _) = true => apply orb_true_iff in Hx; destruct Hx as [Hx|Hx]
             | (_ && _) = true => let H1 := fresh in apply andb_true_iff in Hx as [Hx H1];
                                  apply Z.leb_le in Hx, H1
             end.
      - replace (97 <=? h)%Z with false by (symmetry; apply Z.leb_gt; lia). cbn [andb].
        apply orb_true_iff. left. apply andb_true_iff. split; apply Z.leb_le; lia.
      - replace (97 <=? h)%Z with false by (symmetry; apply Z.leb_gt; lia). cbn [andb].
        apply orb_true_iff. right. apply andb_true_iff. split; apply Z.leb_le; lia.
      - replace (97 <=? h)%Z with true by (symmetry; apply Z.leb_le; lia).
        replace (h <=? 122)%Z with true by (symmetry; apply Z.leb_le; lia). cbn [andb].
        apply orb_true_iff. right. apply andb_true_iff. split; apply Z.leb_le; lia. }
    apply Encoded_escape; auto.
  - specialize (IH r ltac:(lia)).
    assert (Hwf : wellFormedUtf16 (c :: r) = wellFormedUtf16 r).
    { destruct (ascii_not_surrogate c) as [H1 H2]; [apply isUrlSafeChar_ascii in Hs; lia|].
      cbn [wellFormedUtf16]. rewrite H1, H2. reflexivity. }
    rewrite Hwf. destruct (encodeUrl r) as [o|]; cbn [option_map]; [|exact IH].
    destruct IH as [IH1 IH2]. split; [exact IH1|]. intros Hcu. cbn [forallb] in Hcu.
    apply andb_true_iff in Hcu as [_ Hcu]. apply Encoded_safe; auto.
  - cbn [length] in Hn. specialize (IH r1 ltac:(lia)).
    pose proof (encodeURIComponent_pair c a Hh) as Hp.
    cbn [wellFormedUtf16]. rewrite Hh.
    destruct (encodeURIComponent [c; a]) as [e|].
    + destruct Hp as [Hl He]. rewrite Hl. cbn [andb].
      destruct (encodeUrl r1) as [o|]; [|exact IH].
      destruct IH as [IH1 IH2]. split; [exact IH1|]. intros Hcu. cbn [forallb] in Hcu.
      apply andb_true_iff in Hcu as [_ Hcu]. apply andb_true_iff in Hcu as [_ Hcu].
      apply Encoded_app; auto.
    + rewrite Hp. reflexivity.
  - specialize (IH r ltac:(lia)).
    pose proof (encodeURIComponent_single c) as Hp.
    destruct (encodeURIComponent [c]) as [e|].
    + destruct Hp as (H1 & H2 & He). cbn [wellFormedUtf16]. rewrite H1, H2. cbn [negb andb].
      destruct (encodeUrl r) as [o|]; [|exact IH].
      destruct IH as [IH1 IH2]. split; [exact IH1|]. intros Hcu. cbn [forallb] in Hcu.
      apply andb_true_iff in Hcu as [Hc Hcu]. apply Encoded_app; auto.
    + cbn [wellFormedUtf16]. destruct (isHighSurrogate c) eqn:Hc.
      * destruct Hh as [Hh|Hh]; [discriminate|]. subst r. reflexivity.
      * cbn [orb] in Hp. rewrite Hp. reflexivity.
Qed.

(** X5: [encodeUrl] throws exactly on the strings that are not well-formed
    UTF-16: it returns a string when every surrogate of [url] has its
    partner, and raises a [URIError] when one stands alone. *)
Theorem encodeUrl_fails_iff_ill_formed : forall url,
  encodeUrl url = None <-> wellFormedUtf16 url = false.
Proof.
  intros url. pose proof (encodeUrl_spec (length url) url (Nat.le_refl _)) as H.
  destruct (encodeUrl url) as [o|].
  - destruct H as [H _]. split; [discriminate | congruence].
  - split; auto.
Qed.

Lemma Encoded_chars : forall o, Encoded o -> forallb isUrlOutChar o = true.
Proof.
  intros o H. induction H; cbn [forallb]; [reflexivity | |].
  - unfold isUrlOutChar at 1. rewrite H. exact IHEncoded.
  - destruct (isUpperHex_facts a H) as (_ & _ & Ha).
    destruct (isUpperHex_facts b H0) as (_ & _ & Hb).
    unfold isUrlOutChar at 1 2 3. rewrite Ha, Hb. exact IHEncoded.
Qed.

Lemma encodeUrl_Encoded : forall n o, length o <= n -> Encoded o -> encodeUrl o = Some o.
Proof.
  induction n as [|n IH]; intros o Hn H.
  { destruct o; [reflexivity | cbn [length] in Hn; lia]. }
  inversion H as [|c r Hs Hr|a b r Ha Hb Hr]; subst; [reflexivity| |].
  - cbn [length] in Hn.
    destruct (encodeUrl_view c r)
      as [(a & b & r2 & _ & -> & _)
         |[(_ & ->)
          |[(a & r1 & _ & Hs' & _)
           |(Hs' & _)]]]; try congruence.
    + discriminate.
    + rewrite (IH r ltac:(lia) Hr). reflexivity.
  - cbn [length] in Hn.
    destruct (isUpperHex_facts a Ha) as (Hxa & Hua & _).
    destruct (isUpperHex_facts b Hb) as (Hxb & Hub & _).
    cbn [encodeUrl]. change (ceq PERCENT PERCENT) with true. rewrite Hxa, Hxb. cbn [andb].
    rewrite (IH r ltac:(lia) Hr), Hua, Hub. reflexivity.
Qed.

(** X6: what [encodeUrl] returns for a JavaScript string holds only
    characters of its pass-through class and percent signs, and encoding it
    again changes nothing. *)
Theorem encodeUrl_output : forall url o,
  forallb isCodeUnit url = true ->
  encodeUrl url = Some o ->
  forallb isUrlOutChar o = true /\ encodeUrl o = Some o.
Proof.
  intros url o Hcu H. pose proof (encodeUrl_spec (length url) url (Nat.le_refl _)) as Hs.
  rewrite H in Hs. destruct Hs as [_ He]. specialize (He Hcu).
  split; [apply Encoded_chars; exact He|].
  apply (encodeUrl_Encoded (length o)); [apply Nat.le_refl | exact He].
Qed.

(** *** utils.ts and code-block-indented.ts: columns of indentation *)

Lemma getIndent_from_shift : forall line k i,
  k mod 4 = 0 -> getIndent_from (k + i) line = k + getIndent_from i line.
Proof.
  induction line as [|c r IH]; intros k i Hk; cbn [getIndent_from]; [reflexivity|].
  destruct (ceq c SP); [rewrite <- Nat.add_assoc; apply IH; exact Hk|].
  destruct (ceq c TAB); [|reflexivity].
  assert (Hm : (k + i) mod 4 = i mod 4).
  { rewrite Nat.Div0.add_mod, Hk, Nat.add_0_l, Nat.Div0.mod_mod. reflexivity. }
  rewrite Hm, <- Nat.add_assoc. apply IH. exact Hk.
Qed.

Lemma tab_fits : forall N removed,
  N mod 4 = 0 -> removed < N -> removed + (4 - removed mod 4) <= N.
Proof.
  intros N removed HN Hlt.
  pose proof (Nat.div_mod_eq N 4) as H1. pose proof (Nat.div_mod_eq removed 4) as H2.
  pose proof (Nat.mod_upper_bound removed 4 ltac:(lia)) as H3. lia.
Qed.

Lemma getIndent_from_ge : forall line i, i <= getIndent_from i line.
Proof.
  induction line as [|c r IH]; intros i; cbn [getIndent_from]; [lia|].
  destruct (ceq c SP); [specialize (IH (i + 1)); lia|].
  destruct (ceq c TAB); [|lia].
  specialize (IH (i + (4 - i mod 4))). lia.
Qed.

Lemma removeIndent_loop_columns : forall line N removed,
  N mod 4 = 0 -> removed <= N -> N <= getIndent_from removed line ->
  getIndent (removeIndent_loop line N removed) = getIndent_from removed line - N.
Proof.
  assert (Hdone : forall line N, N mod 4 = 0 ->
            getIndent line = getIndent_from N line - N).
  { intros line N HN. unfold getIndent.
    pose proof (getIndent_from_shift line N 0 HN) as H. rewrite Nat.add_0_r in H. lia. }
  induction line as [|c r IH]; intros N removed HN Hle Hge.
  { cbn [getIndent_from] in *. cbn [removeIndent_loop]. unfold getIndent. cbn. lia. }
  cbn [removeIndent_loop]. destruct (removed <? N) eqn:Hlt.
  - apply Nat.ltb_lt in Hlt. cbn [getIndent_from] in *.
    destruct (ceq c SP).
    { apply IH; [exact HN | lia | exact Hge]. }
    destruct (ceq c TAB); [|lia].
    pose proof (tab_fits N removed HN Hlt) as Hfit.
    replace (removed + (4 - removed mod 4) <=? N) with true
      by (symmetry; apply Nat.leb_le; exact Hfit).
    apply IH; [exact HN | exact Hfit | exact Hge].
  - apply Nat.ltb_ge in Hlt. assert (removed = N) by lia. subst removed.
    apply Hdone. exact HN.
Qed.

(** X7: removing [N] columns of indentation, [N] a multiple of 4 such as the
    4 of an indented code block, from a line indented by at least [N]
    columns leaves a line indented by exactly [N] columns less. *)
Theorem removeIndent_keeps_columns : forall line N,
  N mod 4 = 0 -> N <= getIndent line ->
  getIndent (removeIndent line N) = getIndent line - N.
Proof.
  intros line N HN Hge. unfold removeIndent.
  apply removeIndent_loop_columns; [exact HN | lia | exact Hge].
Qed.

Lemma removeIndentation_loop_suffix : forall line amount removed,
  exists ws, line = ws ++ removeIndentation_loop line amount removed
             /\ forallb isSpaceTab ws = true.
Proof.
  induction line as [|c r IH]; intros amount removed.
  { exists []. split; reflexivity. }
  cbn [removeIndentation_loop].
  destruct (removed <? amount); [|exists []; split; reflexivity].
  destruct (ceq c SP) eqn:Hs.
  { destruct (IH amount (removed + 1)) as (ws & Hws & Hb). exists (c :: ws).
    cbn [app forallb]. unfold isSpaceTab at 1. rewrite Hs, Hb. split; [f_equal; exact Hws | reflexivity]. }
  destruct (ceq c TAB) eqn:Ht; [|exists []; split; reflexivity].
  destruct (_ <=? _); [|exists []; split; reflexivity].
  destruct (IH amount (removed + (4 - removed mod 4))) as (ws & Hws & Hb). exists (c :: ws).
  cbn [app forallb]. unfold isSpaceTab at 1. rewrite Ht, orb_true_r, Hb.
  split; [f_equal; exact Hws | reflexivity].
Qed.

Lemma removeIndentation_loop_agrees : forall line amount removed,
  amount mod 4 = 0 ->
  removeIndentation_loop line amount removed = removeIndent_loop line amount removed.
Proof.
  induction line as [|c r IH]; intros amount removed Ha; [reflexivity|].
  cbn [removeIndentation_loop removeIndent_loop].
  destruct (removed <? amount) eqn:Hlt; [|reflexivity]. apply Nat.ltb_lt in Hlt.
  destruct (ceq c SP); [apply IH; exact Ha|].
  destruct (ceq c TAB); [|reflexivity].
  replace (removed + (4 - removed mod 4) <=? amount) with true
    by (symmetry; apply Nat.leb_le; apply tab_fits; assumption).
  apply IH. exact Ha.
Qed.

(** X8: [removeIndentation] takes spaces and tabs off the start of the line
    and changes nothing else, and for an amount that is a multiple of 4, its
    default 4 among them, it returns what [removeIndent] of utils.ts
    returns. *)
Theorem removeIndentation_suffix_and_sibling : forall line amount,
  (exists ws, line = ws ++ removeIndentation line amount /\ forallb isSpaceTab ws = true)
  /\ (amount mod 4 = 0 -> removeIndentation line amount = removeIndent line amount).
Proof.
  intros line amount. split.
  - apply removeIndentation_loop_suffix.
  - apply removeIndentation_loop_agrees.
Qed.

(** *** utils.ts: the tag filter *)

Lemma applyTagFilter_head : forall c r,
  exists d rest, applyTagFilter (c :: r) = d :: rest
    /\ ((d = c /\ rest = applyTagFilter r) \/ (c = LT /\ d = AMP)).
Proof.
  intros c r. cbn [applyTagFilter]. destruct (ceq c LT && tagFilterLookahead r) eqn:E.
  - apply andb_true_iff in E as [E _]. apply ceq_eq in E.
    eexists _, _. split; [reflexivity|]. right. split; [exact E | reflexivity].
  - eexists _, _. split; [reflexivity|]. left. split; reflexivity.
Qed.

Lemma applyTagFilter_keeps : forall c r,
  ceq c LT = false -> applyTagFilter (c :: r) = c :: applyTagFilter r.
Proof. intros c r H. cbn [applyTagFilter]. rewrite H. reflexivity. Qed.

Lemma applyTagFilter_dropWhile : forall s,
  dropWhile isTagSpace (applyTagFilter s) = applyTagFilter (dropWhile isTagSpace s).
Proof.
  induction s as [|c r IH]; [reflexivity|]. cbn [dropWhile].
  destruct (isTagSpace c) eqn:Hc.
  - assert (Hlt : ceq c LT = false).
    { unfold isTagSpace in Hc.
      repeat (apply orb_true_iff in Hc; destruct Hc as [Hc|Hc]);
        apply ceq_eq in Hc; subst c; reflexivity. }
    rewrite (applyTagFilter_keeps c r Hlt). cbn [dropWhile]. rewrite Hc. exact IH.
  - destruct (applyTagFilter_head c r) as (d & rest & E & [[-> ->]|[-> ->]]); rewrite E.
    + cbn [dropWhile]. rewrite Hc. reflexivity.
    + reflexivity.
Qed.

Lemma applyTagFilter_startsWithCI : forall p s,
  forallb isLower p = true ->
  startsWithCI (applyTagFilter s) p = startsWithCI s p
  /\ (startsWithCI s p = true ->
      skipn (length p) (applyTagFilter s) = applyTagFilter (skipn (length p) s)).
Proof.
  induction p as [|x p IH]; intros s Hp; [split; reflexivity|].
  cbn [forallb] in Hp. apply andb_true_iff in Hp as [Hx Hp].
  assert (Hxl : (97 <= asciiLower x <= 122)%Z).
  { unfold isLower, inRange in Hx. apply andb_true_iff in Hx as [H1 H2].
    apply Z.leb_le in H1, H2. unfold asciiLower, isUpper, inRange.
    replace (x <=? 90)%Z with false by (symmetry; apply Z.leb_gt; lia).
    rewrite andb_false_r. lia. }
  destruct s as [|c r]; [split; [reflexivity | discriminate]|].
  destruct (applyTagFilter_head c r) as (d & rest & E & [[-> ->]|[-> ->]]); rewrite E.
  - cbn [startsWithCI length skipn]. destruct (IH r Hp) as [H1 H2]. rewrite H1. split; [reflexivity|].
    intros H. apply andb_true_iff in H as [_ H]. auto.
  - cbn [startsWithCI].
    assert (H1 : ceq (asciiLower x) (asciiLower AMP) = false).
    { apply ceq_neq. change (asciiLower AMP) with 38%Z. lia. }
    assert (H2 : ceq (asciiLower x) (asciiLower LT) = false).
    { apply ceq_neq. change (asciiLower LT) with 60%Z. lia. }
    rewrite H1, H2. split; [reflexivity | discriminate].
Qed.

Lemma applyTagFilter_boundary : forall t,
  match applyTagFilter t with c :: _ => negb (isWordChar c) | [] => true end
  = match t with c :: _ => negb (isWordChar c) | [] => true end.
Proof.
  intros [|c r]; [reflexivity|].
  destruct (applyTagFilter_head c r) as (d & rest & E & [[-> ->]|[-> ->]]); rewrite E; reflexivity.
Qed.

Lemma TAG_FILTER_lower : forall name, In name TAG_FILTER -> forallb isLower name = true.
Proof.
  intros name H. unfold TAG_FILTER in H. cbn [In] in H.
  repeat match type of H with _ \/ _ => destruct H as [H|H] end;
    [subst name; reflexivity .. | contradiction].
Qed.

(** The look-ahead reads the same in the filtered text as in the text. *)
Lemma tagFilterLookahead_filtered : forall s,
  tagFilterLookahead (applyTagFilter s) = tagFilterLookahead s.
Proof.
  intros s. unfold tagFilterLookahead. cbv zeta. rewrite applyTagFilter_dropWhile.
  set (s1 := dropWhile isTagSpace s).
  assert (Hs2 :
    match applyTagFilter s1 with
    | c :: r => if ceq c SLASH then dropWhile isTagSpace r else applyTagFilter s1
    | [] => applyTagFilter s1
    end
    = applyTagFilter
        match s1 with
        | c :: r => if ceq c SLASH then dropWhile isTagSpace r else s1
        | [] => s1
        end).
  { destruct s1 as [|c r]; [reflexivity|].
    destruct (applyTagFilter_head c r) as (d & rest & E & [[-> ->]|[-> ->]]); rewrite E.
    - destruct (ceq c SLASH); [apply applyTagFilter_dropWhile | symmetry; exact E].
    - change (ceq AMP SLASH) with false. change (ceq LT SLASH) with false. cbn iota.
      symmetry. exact E. }
  rewrite Hs2.
  set (s2 := match s1 with
             | c :: r => if ceq c SLASH then dropWhile isTagSpace r else s1
             | [] => s1
             end).
  assert (Hall : forall names, (forall name, In name names -> forallb isLower name = true) ->
            existsb (nameThenBoundary (applyTagFilter s2)) names
            = existsb (nameThenBoundary s2) names).
  { induction names as [|name names IH]; intros Hn; [reflexivity|]. cbn [existsb].
    rewrite IH by (intros x Hx; apply Hn; right; exact Hx). f_equal.
    unfold nameThenBoundary.
    destruct (applyTagFilter_startsWithCI name s2 (Hn name (or_introl eq_refl))) as [H1 H2].
    rewrite H1. destruct (startsWithCI s2 name); [|reflexivity]. cbn [andb].
    rewrite (H2 eq_refl). apply applyTagFilter_boundary. }
  apply Hall. exact TAG_FILTER_lower.
Qed.

Lemma applyTagFilter_idempotent : forall html,
  applyTagFilter (applyTagFilter html) = applyTagFilter html.
Proof.
  induction html as [|c r IH]; [reflexivity|]. cbn [applyTagFilter].
  destruct (ceq c LT && tagFilterLookahead r) eqn:E.
  - cbn [js]. change (js "&lt;") with [AMP; 108%Z; 116%Z; SEMI].
    cbn [app applyTagFilter]. change (ceq AMP LT) with false. change (ceq 108%Z LT) with false.
    change (ceq 116%Z LT) with false. change (ceq SEMI LT) with false. cbn [andb]. cbn iota.
    rewrite IH. reflexivity.
  - cbn [applyTagFilter]. rewrite tagFilterLookahead_filtered, E, IH. reflexivity.
Qed.

(** X9: in what [applyTagFilter] returns no [<] opens or closes one of the
    nine filtered tags (title, textarea, style, xmp, iframe, noembed,
    noframes, script, plaintext, in any case, with white space before or
    after the [/]), and filtering once more changes nothing. *)
Theorem applyTagFilter_neutralizes : forall html,
  (forall a r, applyTagFilter html = a ++ LT :: r -> tagFilterLookahead r = false)
  /\ applyTagFilter (applyTagFilter html) = applyTagFilter html.
Proof.
  intros html. split; [|apply applyTagFilter_idempotent].
  induction html as [|c r0 IH]; intros a r H.
  { destruct a; discriminate. }
  cbn [applyTagFilter] in H. destruct (ceq c LT && tagFilterLookahead r0) eqn:E.
  - change (js "&lt;") with [AMP; 108%Z; 116%Z; SEMI] in H. cbn [app] in H.
    destruct a as [|a1 [|a2 [|a3 [|a4 a]]]]; cbn [app] in H; try discriminate.
    injection H as _ _ _ _ H. exact (IH a r H).
  - destruct a as [|x a]; cbn [app] in H; injection H as Hc H.
    + subst c. change (ceq LT LT) with true in E. cbn [andb] in E.
      rewrite <- H, tagFilterLookahead_filtered. exact E.
    + exact (IH a r H).
Qed.

(** *** utils.ts: [escapeXml] and [decodeHtmlEntities] *)

Lemma flat_map_compose : forall (f g : char -> str) s,
  flat_map g (flat_map f s) = flat_map (fun x => flat_map g (f x)) s.
Proof.
  induction s as [|c s IH]; [reflexivity|]. cbn [flat_map].
  rewrite flat_map_app, IH. reflexivity.
Qed.

(** What [escapeXml] writes for one character. *)
Lemma escapeXml_pointwise : forall s,
  escapeXml s
  = flat_map (fun c => if ceq c AMP then js "&amp;"
                       else if ceq c LT then js "&lt;"
                       else if ceq c GT then js "&gt;"
                       else if ceq c DQUOTE then js "&quot;"
                       else [c]) s.
Proof.
  intros s. unfold escapeXml, replaceChar. rewrite !flat_map_compose.
  apply flat_map_ext. intros c.
  destruct (ceq c AMP) eqn:Ha; [reflexivity|]. cbn [flat_map app].
  destruct (ceq c 60) eqn:Hl.
  { apply ceq_eq in Hl. subst c. reflexivity. }
  change (ceq c LT) with (ceq c 60). rewrite Hl. cbn [flat_map app].
  destruct (ceq c 62) eqn:Hg.
  { apply ceq_eq in Hg. subst c. reflexivity. }
  change (ceq c GT) with (ceq c 62). rewrite Hg. cbn [flat_map app].
  change (ceq c DQUOTE) with (ceq c 34). destruct (ceq c 34); reflexivity.
Qed.

Lemma decode_loop_skip : forall a b,
  decodeHtmlEntities_loop (length a) (a ++ b) = decodeHtmlEntities_loop 0 b.
Proof.
  induction a as [|c a IH]; intros b; [reflexivity|].
  cbn [length app decodeHtmlEntities_loop]. apply IH.
Qed.

Lemma decode_named_then : forall c nm v0 v rest,
  isAlpha c = true -> forallb isAlnum nm = true ->
  HTML_ENTITIES (c :: nm) = Some (v0 :: v) ->
  decodeHtmlEntities_loop 0 (AMP :: c :: nm ++ SEMI :: rest)
  = (v0 :: v) ++ decodeHtmlEntities_loop 0 rest.
Proof.
  intros c nm v0 v rest Hc Hn Hv.
  rewrite (decode_loop_match _ _ _ (matchEntityRef_named c nm rest Hc Hn)).
  assert (Hcap : decodeCapture (c :: nm) = v0 :: v).
  { unfold decodeCapture.
    assert (Hh : ceq 35 c = false) by (charcases; lia).
    change (js "#x") with [35%Z; 120%Z]. change (js "#X") with [35%Z; 88%Z].
    change (js "#") with [35%Z]. cbn [startsWith]. rewrite Hh. cbn [andb orb].
    rewrite Hv. reflexivity. }
  rewrite Hcap. f_equal.
  change (c :: nm ++ SEMI :: rest) with ((c :: nm) ++ SEMI :: rest).
  replace ((c :: nm) ++ SEMI :: rest) with (((c :: nm) ++ [SEMI]) ++ rest)
    by (rewrite <- app_assoc; reflexivity).
  replace (S (length (c :: nm))) with (length ((c :: nm) ++ [SEMI]))
    by (rewrite length_app; cbn [length]; lia).
  apply decode_loop_skip.
Qed.

(** X10: decoding what [escapeXml] wrote gives the string back, for every
    string, when the entity table maps [amp], [lt], [gt] and [quot] to the
    four characters [escapeXml] replaces. *)
Theorem escapeXml_round_trip :
  HTML_ENTITIES (js "amp") = Some [AMP] ->
  HTML_ENTITIES (js "lt") = Some [LT] ->
  HTML_ENTITIES (js "gt") = Some [GT] ->
  HTML_ENTITIES (js "quot") = Some [DQUOTE] ->
  forall s, decodeHtmlEntities (escapeXml s) = s.
Proof.
  intros Hamp Hlt Hgt Hquot s. rewrite escapeXml_pointwise. unfold decodeHtmlEntities.
  induction s as [|c s IH]; [reflexivity|]. cbn [flat_map].
  match type of IH with decodeHtmlEntities_loop 0 ?r = _ => set (rest := r) in * end.
  destruct (ceq c AMP) eqn:Ea.
  { apply ceq_eq in Ea. subst c.
    change (js "&amp;" ++ rest) with (AMP :: 97%Z :: js "mp" ++ SEMI :: rest).
    rewrite (decode_named_then 97%Z (js "mp") AMP [] _ eq_refl eq_refl Hamp), IH. reflexivity. }
  destruct (ceq c LT) eqn:El.
  { apply ceq_eq in El. subst c.
    change (js "&lt;" ++ rest) with (AMP :: 108%Z :: js "t" ++ SEMI :: rest).
    rewrite (decode_named_then 108%Z (js "t") LT [] _ eq_refl eq_refl Hlt), IH. reflexivity. }
  destruct (ceq c GT) eqn:Eg.
  { apply ceq_eq in Eg. subst c.
    change (js "&gt;" ++ rest) with (AMP :: 103%Z :: js "t" ++ SEMI :: rest).
    rewrite (decode_named_then 103%Z (js "t") GT [] _ eq_refl eq_refl Hgt), IH. reflexivity. }
  destruct (ceq c DQUOTE) eqn:Eq.
  { apply ceq_eq in Eq. subst c.
    change (js "&quot;" ++ rest) with (AMP :: 113%Z :: js "uot" ++ SEMI :: rest).
    rewrite (decode_named_then 113%Z (js "uot") DQUOTE [] _ eq_refl eq_refl Hquot), IH.
    reflexivity. }
  cbn [app]. rewrite decode_loop_nomatch; [rewrite IH; reflexivity|].
  unfold matchEntityRef. rewrite Ea. reflexivity.
Qed.

(** *** Where rendering fails *)

Lemma encodeUrl_None : forall url, encodeUrl url = None <-> wellFormedUtf16 url = false.
Proof.
  intro url. pose proof (encodeUrl_spec (length url) url (Nat.le_refl _)) as H.
  destruct (encodeUrl url) as [o|].
  - destruct H as [H _]. rewrite H. split; discriminate.
  - tauto.
Qed.

Lemma joinOpt_None : forall (A : Type) (f : A -> option str) sep (l : list A),
  joinOpt sep (map f l) = None <-> exists x, In x l /\ f x = None.
Proof.
  intros A f sep l. unfold joinOpt.
  induction l as [|x l IH]; cbn [map mapOpt].
  - cbn. split; [discriminate | intros (x & [] & _)].
  - fold (mapOpt (fun o : option str => o) (map f l)).
    destruct (f x) as [y|] eqn:Hx.
    + destruct (mapOpt (fun o : option str => o) (map f l)) as [ys|] eqn:Hl; cbn [option_map] in *.
      * split; [discriminate|]. intros (z & [<-|Hz] & Hn); [congruence|].
        assert (E := proj2 IH (ex_intro _ z (conj Hz Hn))). discriminate E.
      * split; [|reflexivity]. intros _. destruct (proj1 IH eq_refl) as (z & Hz & Hn).
        exists z. split; [right; exact Hz | exact Hn].
    + split; [|reflexivity]. intros _. exists x. split; [left; reflexivity | exact Hx].
Qed.

Lemma In_flat_map_None : forall (A : Type) (f : A -> option str) (g : A -> list str)
    (l : list A),
  Forall (fun x => f x = None <->
            exists d, In d (g x) /\ wellFormedUtf16 d = false) l ->
  ((exists x, In x l /\ f x = None) <->
   exists d, In d (flat_map g l) /\ wellFormedUtf16 d = false).
Proof.
  intros A f g l H. split.
  - intros (x & Hx & Hn). rewrite Forall_forall in H.
    destruct (proj1 (H x Hx) Hn) as (d & Hd & Hw). exists d. split; [|exact Hw].
    apply in_flat_map. eauto.
  - intros (d & Hd & Hw). apply in_flat_map in Hd. destruct Hd as (x & Hx & Hd).
    rewrite Forall_forall in H. exists x. split; [exact Hx|]. apply (H x Hx). eauto.
Qed.

Lemma option_map_None : forall (A B : Type) (f : A -> B) (o : option A),
  option_map f o = None <-> o = None.
Proof. intros A B f [a|]; cbn; split; congruence. Qed.

Lemma renderInline_None : forall inline,
  renderInline inline = None <->
  exists d, In d (inlineDestinations inline) /\ wellFormedUtf16 d = false.
Proof.
  fix IH 1. intro inline.
  assert (Hlist : forall l : list Inline,
            (fix all (l : list Inline) : Prop :=
               match l with
               | [] => True
               | x :: r => (renderInline x = None <->
                            exists d, In d (inlineDestinations x) /\ wellFormedUtf16 d = false)
                           /\ all r
               end) l ->
            (joinOpt [] (map renderInline l) = None <->
             exists d, In d (flat_map inlineDestinations l) /\ wellFormedUtf16 d = false)).
  { intros l H. rewrite joinOpt_None. apply In_flat_map_None.
    induction l as [|x l IHl]; [constructor|]. destruct H as (Hx & Hl). constructor; auto. }
  assert (Hnone : forall d : str, In d [] /\ wellFormedUtf16 d = false -> False)
    by (intros d [[] _]).
  destruct inline as [l nd ns dl | | | l | ch | ch | ch | lbl key | dest ttl ch
                     | dest ttl alt | l];
    cbn [renderInline inlineDestinations];
    try (split; [discriminate | intros (d & Hd); destruct (Hnone d Hd)]).
  - rewrite option_map_None. apply Hlist.
    induction ch as [|x ch IHch]; [exact I|]. split; [apply IH | exact IHch].
  - rewrite option_map_None. apply Hlist.
    induction ch as [|x ch IHch]; [exact I|]. split; [apply IH | exact IHch].
  - assert (Hch : joinOpt [] (map renderInline ch) = None <->
             exists d, In d (flat_map inlineDestinations ch) /\ wellFormedUtf16 d = false).
    { apply Hlist. induction ch as [|x ch IHch]; [exact I|]. split; [apply IH | exact IHch]. }
    pose proof (encodeUrl_None dest) as Hd.
    destruct (encodeUrl dest) as [url|].
    + destruct (joinOpt [] (map renderInline ch)) as [c|].
      * split; [discriminate|]. intros (d & [<-|Hin] & Hw).
        -- discriminate (proj2 Hd Hw).
        -- assert (E := proj2 Hch (ex_intro _ d (conj Hin Hw))). discriminate E.
      * split; [|reflexivity]. intros _. destruct (proj1 Hch eq_refl) as (d & Hin & Hw).
        exists d. split; [right; exact Hin | exact Hw].
    + split; [|reflexivity]. intros _. exists dest. split; [left; reflexivity | tauto].
  - pose proof (encodeUrl_None dest) as Hd.
    destruct (encodeUrl dest) as [url|].
    + split; [discriminate|]. intros (d & [<-|[]] & Hw). discriminate (proj2 Hd Hw).
    + split; [|reflexivity]. intros _. exists dest. split; [left; reflexivity | tauto].
Qed.

Lemma renderInlines_None : forall inlines,
  renderInlines inlines = None <->
  exists d, In d (flat_map inlineDestinations inlines) /\ wellFormedUtf16 d = false.
Proof.
  intro inlines. unfold renderInlines. rewrite joinOpt_None. apply In_flat_map_None.
  apply Forall_forall. intros x _. apply renderInline_None.
Qed.

Lemma renderBlockWith_None : forall block itemTight tight,
  renderBlockWith itemTight tight block = None <->
  exists d, In d (blockDestinations block) /\ wellFormedUtf16 d = false.
Proof.
  fix IH 1. intros block itemTight tight.
  assert (Hlist : forall (l : list (Block (list Inline))) it t,
            (fix all (l : list (Block (list Inline))) : Prop :=
               match l with
               | [] => True
               | x :: r => (forall it t, renderBlockWith it t x = None <->
                            exists d, In d (blockDestinations x) /\ wellFormedUtf16 d = false)
                           /\ all r
               end) l ->
            (joinOpt [LF] (map (renderBlockWith it t) l) = None <->
             exists d, In d (flat_map blockDestinations l) /\ wellFormedUtf16 d = false)).
  { intros l it t H. rewrite joinOpt_None. apply In_flat_map_None.
    induction l as [|x l IHl]; [constructor|]. destruct H as (Hx & Hl). constructor; auto. }
  assert (Hnone : forall d : str, In d [] /\ wellFormedUtf16 d = false -> False)
    by (intros d [[] _]).
  destruct block as [c | lvl c | | i l f | ch | t s listTight d b items | checked ch | l
                    | al rows];
    cbn [renderBlockWith blockDestinations];
    try (split; [discriminate | intros (d0 & Hd); destruct (Hnone d0 Hd)]).
  - rewrite option_map_None. apply renderInlines_None.
  - rewrite option_map_None. apply renderInlines_None.
  - destruct i; (split; [discriminate | intros (d0 & Hd); destruct (Hnone d0 Hd)]).
  - rewrite option_map_None. apply Hlist.
    induction ch as [|x ch IHch]; [exact I|]. split; [intros; apply IH | exact IHch].
  - rewrite option_map_None. apply Hlist.
    induction items as [|x items IHi]; [exact I|]. split; [intros; apply IH | exact IHi].
  - destruct ch as [|first others].
    + split; [discriminate | intros (d0 & Hd); destruct (Hnone d0 Hd)].
    + rewrite option_map_None. apply Hlist.
      split; [intros; apply IH|].
      induction others as [|x ch IHch]; [exact I|]. split; [intros; apply IH | exact IHch].
Qed.

(** X11: rendering fails exactly when the document holds, where the renderer
    reaches it, a link or image destination that is not well-formed UTF-16
    (a surrogate without its partner, which [encodeURIComponent] rejects);
    every other document has a rendering. *)
Theorem render_fails_iff_ill_formed_destination : forall document,
  render document = None <->
  exists dest, In dest (flat_map blockDestinations document)
               /\ wellFormedUtf16 dest = false.
Proof.
  intro document. unfold render, renderBlocks, renderBlock.
  assert (H : joinOpt [LF] (map (fun block => renderBlockWith false false block) document)
              = None <->
              exists dest, In dest (flat_map blockDestinations document)
                           /\ wellFormedUtf16 dest = false).
  { rewrite joinOpt_None. apply In_flat_map_None. apply Forall_forall.
    intros x _. apply renderBlockWith_None. }
  rewrite <- H.
  destruct (joinOpt [LF] (map (fun block => renderBlockWith false false block) document))
    as [[|c r]|]; split; congruence.
Qed.

(** *** The link-reference table only grows *)

Lemma refGet_app : forall m extra k v,
  refGet m k = Some v -> refGet (m ++ extra) k = Some v.
Proof.
  induction m as [|[k' v'] m IH]; intros extra k v H; cbn [refGet app] in *; [discriminate|].
  destruct (str_eqb k' k); [exact H | apply IH; exact H].
Qed.

Section TableGrowth.

Variable m0 : RefMap.

Lemma refAdd_grown : forall m k v, grown m0 m -> grown m0 (refAdd m k v).
Proof.
  intros m k v (extra & ->). unfold refAdd. destruct (refHas (m0 ++ extra) k).
  - exists extra. reflexivity.
  - exists (extra ++ [(k, v)]). rewrite app_assoc. reflexivity.
Qed.

Lemma refMerge_grown : forall child m, grown m0 m -> grown m0 (refMerge m child).
Proof.
  unfold refMerge. induction child as [|[k v] child IH]; intros m Hm; cbn [fold_left].
  - exact Hm.
  - apply IH. apply refAdd_grown. exact Hm.
Qed.

Lemma extractLinkRefs_grown : forall fuel text refs,
  grown m0 refs -> grown m0 (snd (extractLinkRefs fuel text refs)).
Proof.
  induction fuel as [|fuel IH]; intros text refs Hr; cbn [extractLinkRefs]; [exact Hr|].
  destruct text as [|c text]; [exact Hr|].
  destruct (parseLinkReferenceDefinition (c :: text)) as [result|] eqn:E; [|exact Hr].
  apply IH. apply refAdd_grown. exact Hr.
Qed.

Lemma stripLinkRefs_grown : forall paragraphLines refs,
  grown m0 refs -> grown m0 (snd (stripLinkRefs paragraphLines refs)).
Proof.
  intros pl refs Hr. unfold stripLinkRefs.
  pose proof (extractLinkRefs_grown (length (joinLF pl)) (joinLF pl) refs Hr) as H.
  destruct (extractLinkRefs (length (joinLF pl)) (joinLF pl) refs). exact H.
Qed.

Lemma finishParagraph_grown : forall st,
  grown m0 (linkReferences st) -> grown m0 (linkReferences (finishParagraph st)).
Proof.
  intros st Hr. unfold finishParagraph.
  destruct (paragraphLines st) as [|l ls] eqn:E; [exact Hr|].
  pose proof (stripLinkRefs_grown (l :: ls) (linkReferences st) Hr) as H.
  destruct (stripLinkRefs (l :: ls) (linkReferences st)) as [text refs].
  destruct text; exact H.
Qed.

Lemma setextHeading_grown : forall level fallback st,
  (forall st', linkReferences (fallback st') = linkReferences st') ->
  grown m0 (linkReferences st) ->
  grown m0 (linkReferences (setextHeading level fallback st)).
Proof.
  intros level fallback st Hf Hr. unfold setextHeading.
  pose proof (stripLinkRefs_grown (paragraphLines st) (linkReferences st) Hr) as H.
  destruct (stripLinkRefs (paragraphLines st) (linkReferences st)) as [content refs].
  destruct content; [rewrite Hf|]; exact H.
Qed.

Variable subParse : str -> option (list RawBlock * RefMap).
Variable lines : list str.

Lemma parseListItem_grown : forall idx marker refs item idx' refs' b1 b2,
  grown m0 refs ->
  parseListItem subParse lines idx marker refs = Some (item, idx', refs', b1, b2) ->
  grown m0 refs'.
Proof.
  intros idx marker refs item idx' refs' b1 b2 Hr H. unfold parseListItem in H.
  destruct (collectListItem marker (linesFrom lines idx)) as [[[itemLines n] bi] be].
  destruct (subParse (joinLF itemLines)) as [[ch childRefs]|] eqn:E; [|discriminate].
  injection H as _ _ <- _ _.
  apply refMerge_grown. exact Hr.
Qed.

Lemma parseBlocks_step_grown : forall line st st',
  grown m0 (linkReferences st) ->
  parseBlocks_step subParse lines line st = Some st' ->
  grown m0 (linkReferences st').
Proof.
  intros line st st' Hr H. unfold parseBlocks_step in H.
  pose proof (finishParagraph_grown st Hr) as Hfin.
  repeat match type of H with
         | (if ?c then _ else _) = _ => destruct c
         | match ?x with Some _ => _ | None => _ end = _ => destruct x eqn:?
         | (let (_, _) := ?x in _) = _ => destruct x eqn:?
         | (let '(_, _) := ?x in _) = _ => destruct x eqn:?
         | match ?x with (_, _) => _ end = _ => destruct x eqn:?
         | Some _ = Some _ => injection H as <-
         | None = Some _ => discriminate
         end;
    try (cbn [linkReferences advanceBy pushChild setParagraphLines setLinkReferences];
         first [ exact Hr | exact Hfin
               | apply setextHeading_grown; [reflexivity | exact Hr] ]).
  all: cbn [linkReferences advanceBy pushChild setParagraphLines setLinkReferences].
  - apply refMerge_grown. exact Hfin.
  - eapply (parseList_invariant RefMap (grown m0)); [| exact Hfin | eassumption].
    intros idx marker t item idx' t' b1 b2 Ht Hi.
    eapply parseListItem_grown; eassumption.
Qed.

Lemma parseBlocks_loop_grown : forall fuel st st',
  grown m0 (linkReferences st) ->
  parseBlocks_loop subParse lines fuel st = Some st' ->
  grown m0 (linkReferences st').
Proof.
  induction fuel as [|fuel IH]; intros st st' Hr H; cbn [parseBlocks_loop] in H;
    [discriminate|].
  destruct (nth_error lines (lineIndex st)) as [line|].
  - destruct (parseBlocks_step subParse lines line st) as [st1|] eqn:E; [|discriminate].
    eapply IH; [|exact H]. eapply parseBlocks_step_grown; eassumption.
  - injection H as <-. exact Hr.
Qed.

End TableGrowth.

(** X12: the first definition of a label wins.  Whatever the block parser
    reads after a definition is stored, in this container or, through the
    recursive parses, in the block quotes and list items inside it, the
    entry stays as it is: the table only grows at its end. *)
Theorem first_definition_wins : forall subParse lines fuel st st' lbl def,
  refGet (linkReferences st) lbl = Some def ->
  parseBlocks_loop subParse lines fuel st = Some st' ->
  refGet (linkReferences (finishParagraph st')) lbl = Some def
  /\ exists later, linkReferences (finishParagraph st') = linkReferences st ++ later.
Proof.
  intros subParse lines fuel st st' lbl def Hget H.
  assert (Hg : grown (linkReferences st) (linkReferences (finishParagraph st'))).
  { apply finishParagraph_grown.
    eapply parseBlocks_loop_grown; [|exact H]. exists []. symmetry. apply app_nil_r. }
  destruct Hg as (later & Hl). split; [|exists later; exact Hl].
  rewrite Hl. apply refGet_app. exact Hget.
Qed.

(** *** Labels and white space *)

Lemma dropWhileEnd_snoc : forall p (s : str) c,
  dropWhileEnd p (s ++ [c]) = if p c then dropWhileEnd p s else s ++ [c].
Proof.
  intros p s c. unfold dropWhileEnd. rewrite rev_app_distr. cbn [rev app dropWhile].
  destruct (p c); [reflexivity|].
  change (c :: rev s) with ([c] ++ rev s). rewrite rev_app_distr, rev_involutive. reflexivity.
Qed.

Lemma collapse_lead : forall s r r',
  dropWhile isJsSpace (collapseLabelSpace_from r s) =
  collapseLabelSpace_from r' (dropWhile isJsSpace s).
Proof.
  induction s as [|c s IH]; intros r r'; [reflexivity|].
  cbn [collapseLabelSpace_from dropWhile].
  destruct (isLabelSpace c) eqn:El.
  - rewrite (isLabelSpace_isJsSpace c El).
    destruct r; [apply IH|]. cbn [dropWhile].
    change (isJsSpace SP) with true. cbn iota. apply IH.
  - cbn [dropWhile]. destruct (isJsSpace c) eqn:Ej; [apply IH|].
    cbn [collapseLabelSpace_from]. rewrite El. reflexivity.
Qed.

Lemma collapse_snoc : forall s r c,
  exists r2, collapseLabelSpace_from r (s ++ [c]) =
             collapseLabelSpace_from r s ++ collapseLabelSpace_from r2 [c].
Proof.
  induction s as [|d s IH]; intros r c.
  - exists r. reflexivity.
  - cbn [app collapseLabelSpace_from]. destruct (isLabelSpace d).
    + destruct (IH true c) as (r2 & ->). exists r2. destruct r; reflexivity.
    + destruct (IH false c) as (r2 & ->). exists r2. reflexivity.
Qed.

Lemma collapse_tail : forall s r,
  dropWhileEnd isJsSpace (collapseLabelSpace_from r s) =
  collapseLabelSpace_from r (dropWhileEnd isJsSpace s).
Proof.
  induction s as [|c s IH] using rev_ind; intro r; [reflexivity|].
  destruct (collapse_snoc s r c) as (r2 & Hs). rewrite Hs, dropWhileEnd_snoc.
  cbn [collapseLabelSpace_from].
  destruct (isLabelSpace c) eqn:El.
  - rewrite (isLabelSpace_isJsSpace c El). destruct r2.
    + rewrite app_nil_r. apply IH.
    + rewrite dropWhileEnd_snoc. change (isJsSpace SP) with true. cbn iota. apply IH.
  - rewrite dropWhileEnd_snoc. destruct (isJsSpace c); [apply IH|].
    rewrite Hs. cbn [collapseLabelSpace_from]. rewrite El. reflexivity.
Qed.

Lemma collapse_trim : forall s,
  collapseLabelSpace (trim s) = trim (collapseLabelSpace s).
Proof.
  intro s. unfold collapseLabelSpace, trim, trimEnd, trimStart.
  rewrite <- collapse_tail. rewrite (collapse_lead s false false). reflexivity.
Qed.

Lemma collapse_run : forall ws r b,
  ws <> [] -> forallb isLabelSpace ws = true ->
  collapseLabelSpace_from r (ws ++ b) =
  (if r then [] else [SP]) ++ collapseLabelSpace_from true b.
Proof.
  induction ws as [|c ws IH]; intros r b Hne Hws; [congruence|].
  cbn [forallb] in Hws. apply andb_true_iff in Hws. destruct Hws as [Hc Hws].
  cbn [app collapseLabelSpace_from]. rewrite Hc.
  destruct ws as [|d ws].
  - destruct r; reflexivity.
  - rewrite (IH true b); [destruct r; reflexivity | discriminate | exact Hws].
Qed.

Lemma collapse_same_run : forall a r ws1 ws2 b,
  ws1 <> [] -> ws2 <> [] ->
  forallb isLabelSpace ws1 = true -> forallb isLabelSpace ws2 = true ->
  collapseLabelSpace_from r (a ++ ws1 ++ b) = collapseLabelSpace_from r (a ++ ws2 ++ b).
Proof.
  induction a as [|c a IH]; intros r ws1 ws2 b H1 H2 Hw1 Hw2.
  - cbn [app]. rewrite !collapse_run by assumption. reflexivity.
  - cbn [app collapseLabelSpace_from].
    destruct (isLabelSpace c); [destruct r|]; rewrite (IH _ ws1 ws2) by assumption;
      reflexivity.
Qed.

(** X13: two labels that differ only in the length or the make-up of a run of
    spaces, tabs and line ends, or in white space at their ends, have the
    same normal form, so that one finds the definition stored under the
    other. *)
Theorem normalizeLabel_ignores_white_space : forall a b ws1 ws2,
  ws1 <> [] -> ws2 <> [] ->
  forallb isLabelSpace ws1 = true -> forallb isLabelSpace ws2 = true ->
  normalizeLabel (a ++ ws1 ++ b) = normalizeLabel (a ++ ws2 ++ b)
  /\ normalizeLabel (ws1 ++ a ++ ws2) = normalizeLabel a.
Proof.
  intros a b ws1 ws2 H1 H2 Hw1 Hw2. unfold normalizeLabel. split.
  - rewrite !collapse_trim. unfold collapseLabelSpace.
    rewrite (collapse_same_run a false ws1 ws2 b) by assumption. reflexivity.
  - do 2 f_equal. f_equal. unfold trim, trimStart, trimEnd.
    assert (Hj : forall ws, forallb isLabelSpace ws = true -> forallb isJsSpace ws = true).
    { intros ws Hws. apply forallb_forall. intros x Hx.
      apply isLabelSpace_isJsSpace. rewrite forallb_forall in Hws. apply Hws, Hx. }
    rewrite dropWhile_app_all by (apply Hj; exact Hw1).
    assert (Hend : forall (s ws : str), forallb isJsSpace ws = true ->
              dropWhileEnd isJsSpace (s ++ ws) = dropWhileEnd isJsSpace s).
    { intros s ws. induction ws as [|c ws IHw] using rev_ind; intro Hws.
      - rewrite app_nil_r. reflexivity.
      - rewrite forallb_app in Hws. apply andb_true_iff in Hws. destruct Hws as [Hws Hc].
        cbn [forallb] in Hc. rewrite andb_true_r in Hc.
        rewrite app_assoc, dropWhileEnd_snoc, Hc. apply IHw. exact Hws. }
    assert (Hmid : forall (s ws : str), forallb isJsSpace ws = true ->
              exists ws', forallb isJsSpace ws' = true /\
                          dropWhile isJsSpace (s ++ ws) = dropWhile isJsSpace s ++ ws').
    { intros s ws Hws. induction s as [|c s IHs]; cbn [app dropWhile].
      - exists []. split; [reflexivity|].
        rewrite <- (app_nil_r ws), dropWhile_app_all by exact Hws. reflexivity.
      - destruct (isJsSpace c); [exact IHs|]. exists ws. split; [exact Hws | reflexivity]. }
    destruct (Hmid a ws2 (Hj _ Hw2)) as (ws' & Hws' & ->).
    apply Hend. exact Hws'.
Qed.

(** *** A fenced code block holds its lines as they are *)

Lemma span_repeat : forall c n,
  span (fun d => ceq d c) (repeat c n) = (repeat c n, []).
Proof.
  intros c n. induction n as [|n IH]; [reflexivity|]. cbn [repeat span].
  unfold ceq at 1. rewrite Z.eqb_refl, IH. reflexivity.
Qed.

Lemma parseFenceOpen_repeat : forall c n,
  c = BACKTICK \/ c = TILDE -> 3 <= n ->
  parseFenceOpen (repeat c n) = Some (mkFence 0 c n []).
Proof.
  intros c n Hc Hn. unfold parseFenceOpen.
  destruct n as [|n]; [lia|].
  assert (Hsp : spanUpTo 3 isSP (repeat c (S n)) = ([], repeat c (S n))).
  { cbn [repeat spanUpTo]. destruct Hc as [-> | ->]; reflexivity. }
  rewrite Hsp. destruct Hc as [-> | ->].
  - rewrite span_repeat. rewrite repeat_length.
    replace (3 <=? S n) with true by (symmetry; apply Nat.leb_le; lia). reflexivity.
  - assert (Hb : span (fun c => ceq c BACKTICK) (repeat TILDE (S n))
                 = ([], repeat TILDE (S n))) by reflexivity.
    rewrite Hb. change (3 <=? length (@nil char)) with false. cbn [andb].
    rewrite span_repeat, repeat_length.
    replace (3 <=? S n) with true by (symmetry; apply Nat.leb_le; lia). reflexivity.
Qed.

Lemma isFenceClose_repeat : forall c n m info,
  c = BACKTICK \/ c = TILDE -> n <= m -> 1 <= m ->
  isFenceClose (repeat c m) (mkFence 0 c n info) = true.
Proof.
  intros c n m info Hc Hn Hm. unfold isFenceClose, stripUpTo3Spaces.
  destruct m as [|m]; [lia|].
  assert (Hsp : spanUpTo 3 isSP (repeat c (S m)) = ([], repeat c (S m))).
  { cbn [repeat spanUpTo]. destruct Hc as [-> | ->]; reflexivity. }
  rewrite Hsp. cbn [snd fenceChar fenceLength]. rewrite span_repeat, repeat_length.
  cbn [forallb]. rewrite andb_true_r. apply Nat.leb_le. exact Hn.
Qed.

Lemma fenceLoop_closed : forall fence codeLines close rest,
  forallb (fun l => negb (isFenceClose l fence)) codeLines = true ->
  isFenceClose close fence = true ->
  fenceLoop fence (codeLines ++ close :: rest) = (codeLines, S (length codeLines), true).
Proof.
  intros fence codeLines close rest. induction codeLines as [|l ls IH]; intros Hls Hclose.
  - cbn [app fenceLoop]. rewrite Hclose. reflexivity.
  - cbn [forallb] in Hls. apply andb_true_iff in Hls as [Hl Hls].
    apply negb_true_iff in Hl. cbn [app fenceLoop]. rewrite Hl, (IH Hls Hclose). reflexivity.
Qed.

Lemma parseBlocks_fenced : forall subParse c n m codeLines,
  c = BACKTICK \/ c = TILDE -> 3 <= n -> n <= m ->
  forallb (fun l => negb (isFenceClose l (mkFence 0 c n []))) codeLines = true ->
  parseBlocks subParse (repeat c n :: codeLines ++ [repeat c m]) =
  Some (mkPState (S (S (length codeLines))) []
          [createFencedCodeBlock [] codeLines 0] []).
Proof.
  intros subParse c n m codeLines Hc Hn Hm Hls. unfold parseBlocks.
  cbn [length parseBlocks_loop lineIndex nth_error].
  assert (Hstep : parseBlocks_step subParse (repeat c n :: codeLines ++ [repeat c m])
                    (repeat c n) (mkPState 0 [] [] []) =
                  Some (mkPState (S (S (length codeLines))) []
                          [createFencedCodeBlock [] codeLines 0] [])).
  { unfold parseBlocks_step.
    rewrite (parseFenceOpen_repeat c n Hc Hn).
    assert (Hhead : exists r, repeat c n = c :: r).
    { destruct n as [|k]; [lia|]. exists (repeat c k). reflexivity. }
    destruct Hhead as (r & Hr). rewrite Hr.
    assert (H1 : startsWith (c :: r) [LAZY_PREFIX] = false)
      by (destruct Hc as [-> | ->]; reflexivity).
    assert (H2 : isBlank (c :: r) = false) by (destruct Hc as [-> | ->]; reflexivity).
    assert (H3 : isThematicBreak (c :: r) = false)
      by (destruct Hc as [-> | ->]; reflexivity).
    assert (H4 : parseAtxHeading (c :: r) = None)
      by (destruct Hc as [-> | ->]; reflexivity).
    rewrite H1, H2, H3, H4.
    cbn [paragraphLines length Nat.eqb negb andb finishParagraph lineIndex linesFrom skipn].
    match goal with
    | |- context [fenceLoop ?f ?l] =>
        replace (fenceLoop f l) with (codeLines, S (length codeLines), true)
          by (symmetry;
              exact (fenceLoop_closed (mkFence 0 c n []) codeLines (repeat c m) [] Hls
                       (isFenceClose_repeat c n m [] Hc Hm ltac:(lia))))
    end.
    cbn [fenceInfoString fenceIndent].
    unfold advanceBy, pushChild. cbn [lineIndex paragraphLines children linkReferences app].
    reflexivity. }
  rewrite Hstep. cbn [lineIndex].
  assert (Hend : nth_error (repeat c n :: codeLines ++ [repeat c m])
                   (S (S (length codeLines))) = None).
  { apply nth_error_None. cbn [length]. rewrite length_app. cbn [length]. lia. }
  unfold str in *. rewrite Hend. reflexivity.
Qed.

Lemma join_map_strip0 : forall codeLines,
  joinLF (map (fun line => snd (spanUpTo 0 isSP line)) codeLines) = joinLF codeLines.
Proof.
  intro codeLines. f_equal. rewrite <- (map_id codeLines) at 2. apply map_ext.
  intros [|x l]; reflexivity.
Qed.

Lemma createFencedCodeBlock_content : forall codeLines,
  joinLF codeLines <> [] ->
  createFencedCodeBlock [] codeLines 0 = CodeBlock [] (joinLF codeLines ++ [LF]) true.
Proof.
  intros codeLines H. unfold createFencedCodeBlock. rewrite join_map_strip0.
  destruct codeLines as [|l [|l2 ls]].
  - destruct H. reflexivity.
  - destruct l; [destruct H; reflexivity | reflexivity].
  - reflexivity.
Qed.

(** X14: what stands between a fence of three or more backticks or tildes
    and the next line that closes it (here a fence of the same character, at
    least as long) is rendered as it is, as one [pre] and [code] element: the
    lines are not read as Markdown, only escaped for HTML. *)
Theorem fenced_code_is_verbatim : forall depth c n m codeLines,
  c = BACKTICK \/ c = TILDE -> 3 <= n -> n <= m ->
  forallb safeLine codeLines = true ->
  forallb (fun l => negb (isFenceClose l (mkFence 0 c n []))) codeLines = true ->
  joinLF codeLines <> [] ->
  markdown (S depth) (joinLF (repeat c n :: codeLines ++ [repeat c m])) =
  Some (js "<pre><code>" ++ escapeHtml (joinLF codeLines ++ [LF]) ++ js "</code></pre>"
        ++ [LF]).
Proof.
  intros depth c n m codeLines Hc Hn Hm Hsafe Hls Hne.
  assert (Hrep : forall k, safeLine (repeat c k) = true).
  { intro k. apply forallb_forall. intros x Hx. apply repeat_spec in Hx. subst x.
    destruct Hc as [-> | ->]; reflexivity. }
  unfold markdown, parse. cbn [BlockParser_parse]. unfold parseWith.
  change (splitLF (normalizeLineEndings ?s)) with (linesOf s).
  rewrite linesOf_joinLF.
  2:{ cbn [forallb]. rewrite Hrep, forallb_app, Hsafe. cbn [forallb]. rewrite Hrep.
      reflexivity. }
  rewrite (parseBlocks_fenced _ c n m codeLines Hc Hn Hm Hls).
  cbn [children linkReferences]. rewrite (createFencedCodeBlock_content _ Hne).
  transitivity (Some ((js "<pre><code>" ++ escapeHtml (joinLF codeLines ++ [LF])
                       ++ js "</code></pre>") ++ [LF])); [reflexivity|].
  f_equal. rewrite <- !app_assoc. reflexivity.
Qed.

(** *** Plain text *)

Lemma alpha_not : forall c d,
  isAlpha c = true -> isAlpha d = false -> ceq c d = false.
Proof.
  intros c d Hc Hd. unfold ceq. destruct (Z.eqb_spec c d); [|reflexivity].
  subst d. congruence.
Qed.

Lemma alpha_not_sym : forall c d,
  isAlpha c = true -> isAlpha d = false -> ceq d c = false.
Proof.
  intros c d Hc Hd. unfold ceq. rewrite Z.eqb_sym. apply alpha_not; assumption.
Qed.

Lemma alpha_spanUpTo : forall c r n (p : char -> bool),
  p c = false -> spanUpTo n p (c :: r) = ([], c :: r).
Proof. intros c r [|n] p H; cbn [spanUpTo]; [reflexivity|]. rewrite H. reflexivity. Qed.

Lemma asciiLower_alpha : forall c, isAlpha c = true -> isAlpha (asciiLower c) = true.
Proof.
  intros c H. unfold asciiLower. destruct (isUpper c) eqn:E; [|exact H].
  unfold isAlpha, isUpper, isLower, inRange in *. lia.
Qed.

(** What the block parser finds at a line that starts with a letter: none
    of its block starts. *)
Lemma alpha_line_block_tests : forall c r,
  isAlpha c = true ->
  startsWith (c :: r) [LAZY_PREFIX] = false
  /\ isBlank (c :: r) = false
  /\ isThematicBreak (c :: r) = false
  /\ parseAtxHeading (c :: r) = None
  /\ isSetextEqualsLine (c :: r) = false
  /\ parseFenceOpen (c :: r) = None
  /\ getIndent (c :: r) = 0
  /\ isBlockquoteStart (c :: r) = false
  /\ parseListMarker (c :: r) = None
  /\ (forall b, getHtmlBlockType (c :: r) b = None)
  /\ removeIndent (c :: r) 0 = c :: r.
Proof.
  intros c r Hc.
  assert (Hn : forall d, isAlpha d = false -> ceq c d = false)
    by (intros d Hd; apply alpha_not; assumption).
  assert (Hsp : forall n, spanUpTo n isSP (c :: r) = ([], c :: r)).
  { intro n. apply alpha_spanUpTo. apply (Hn SP). reflexivity. }
  assert (Hstrip : stripUpTo3Spaces (c :: r) = c :: r).
  { unfold stripUpTo3Spaces. rewrite Hsp. reflexivity. }
  assert (Hdigit : isDigit c = false).
  { unfold isAlpha, isUpper, isLower, isDigit, inRange in *. lia. }
  assert (Hjs : isJsSpace c = false).
  { unfold isAlpha, isUpper, isLower, isJsSpace, inRange, ceq in *. lia. }
  assert (Hm : forall d, isAlpha d = false -> ceq d c = false)
    by (intros d Hd; apply alpha_not_sym; assumption).
  repeat split.
  - cbn [startsWith]. rewrite (Hm LAZY_PREFIX eq_refl). reflexivity.
  - unfold isBlank. cbn [forallb]. rewrite Hjs. reflexivity.
  - unfold isThematicBreak. rewrite Hstrip.
    rewrite (Hn DASH eq_refl), (Hn STAR eq_refl), (Hn UNDERSCORE eq_refl). reflexivity.
  - unfold parseAtxHeading. rewrite Hstrip. cbn [span]. rewrite (Hn HASH eq_refl).
    reflexivity.
  - unfold isSetextEqualsLine, isRunThenBlank. rewrite Hstrip. cbn [span].
    rewrite (Hn EQUALS eq_refl). reflexivity.
  - unfold parseFenceOpen. rewrite Hsp. cbn [span].
    rewrite (Hn BACKTICK eq_refl), (Hn TILDE eq_refl). reflexivity.
  - unfold getIndent. cbn [getIndent_from]. rewrite (Hn SP eq_refl), (Hn TAB eq_refl).
    reflexivity.
  - unfold isBlockquoteStart, matchBlockquote. rewrite Hsp. rewrite (Hn GT eq_refl).
    reflexivity.
  - unfold parseListMarker. rewrite Hsp.
    rewrite (Hn DASH eq_refl), (Hn PLUS eq_refl), (Hn STAR eq_refl). cbn [orb span].
    rewrite Hdigit. reflexivity.
  - intro b. unfold getHtmlBlockType. rewrite Hstrip.
    assert (Hci : forall p, startsWithCI (c :: r) (LT :: p) = false).
    { intro p. cbn [startsWithCI]. change (asciiLower LT) with LT.
      rewrite (alpha_not_sym (asciiLower c) LT (asciiLower_alpha c Hc) eq_refl).
      reflexivity. }
    assert (Hcs : forall p, startsWith (c :: r) (LT :: p) = false).
    { intro p. cbn [startsWith]. rewrite (Hm LT eq_refl). reflexivity. }
    unfold type1Open. cbn [map existsb]. rewrite !Hci. cbn [andb orb].
    change (js "<!--") with (LT :: js "!--"). change (js "<?") with (LT :: js "?").
    change (js "<!") with (LT :: js "!"). change (js "<![CDATA[") with (LT :: js "![CDATA[").
    rewrite !Hcs, Hci. cbn [andb].
    unfold type6Open, matchOpenTag, matchCloseTag. rewrite (Hn LT eq_refl).
    destruct r as [|d [|e r]]; cbn [andb]; destruct b; reflexivity.
Qed.

Lemma plainLine_head : forall l,
  plainLine l = true ->
  exists c r, l = c :: r /\ isAlpha c = true /\ forallb isInert l = true.
Proof.
  intros [|c r] H; [discriminate|]. unfold plainLine in H.
  apply andb_true_iff in H as [H _]. apply andb_true_iff in H as [Hc Hi].
  exists c, r. auto.
Qed.

Lemma plainLine_last : forall l,
  plainLine l = true -> exists s x, l = s ++ [x] /\ isJsSpace x = false.
Proof.
  intros [|c r] H; [discriminate|]. unfold plainLine in H.
  apply andb_true_iff in H as [_ Hl]. apply negb_true_iff in Hl.
  exists (removelast (c :: r)), (last (c :: r) c). split; [|exact Hl].
  apply app_removelast_last. discriminate.
Qed.

Lemma parseBlocks_step_plain : forall subParse lines line st,
  plainLine line = true ->
  parseBlocks_step subParse lines line st =
  Some (advanceBy 1 (setParagraphLines (paragraphLines st ++ [line]) st)).
Proof.
  intros subParse lines line st H.
  destruct (plainLine_head line H) as (c & r & -> & Hc & _).
  destruct (alpha_line_block_tests c r Hc)
    as (H1 & H2 & H3 & H4 & H5 & H6 & H7 & H8 & H9 & H10 & H11).
  unfold parseBlocks_step.
  rewrite H1, H2, H3, H4, H5, H6, H7, H8, H9, H10. rewrite !andb_false_r.
  change (Nat.min 0 3) with 0. rewrite H11. reflexivity.
Qed.

Lemma parseBlocks_loop_plain : forall subParse ls pre fuel st,
  forallb plainLine ls = true ->
  lineIndex st = length pre -> length ls < fuel ->
  parseBlocks_loop subParse (pre ++ ls) fuel st =
  Some (mkPState (length pre + length ls) (paragraphLines st ++ ls) (children st)
          (linkReferences st)).
Proof.
  intros subParse ls. induction ls as [|l ls IH]; intros pre fuel st Hls Hi Hf;
    (destruct fuel as [|fuel]; [cbn [length] in Hf; lia|]); cbn [parseBlocks_loop].
  - rewrite Hi, app_nil_r.
    replace (nth_error pre (length pre)) with (@None str)
      by (symmetry; apply nth_error_None; lia).
    destruct st as [i pl ch refs]. cbn [lineIndex paragraphLines children linkReferences] in *.
    rewrite app_nil_r. cbn [length]. rewrite Nat.add_0_r. subst i. reflexivity.
  - cbn [forallb] in Hls. apply andb_true_iff in Hls as [Hl Hls]. cbn [length] in Hf.
    rewrite Hi, nth_error_app2 by lia. rewrite Nat.sub_diag. cbn [nth_error].
    rewrite (parseBlocks_step_plain _ _ _ _ Hl).
    replace (pre ++ l :: ls) with ((pre ++ [l]) ++ ls) by (rewrite <- app_assoc; reflexivity).
    rewrite (IH (pre ++ [l]) fuel); [| exact Hls | | lia].
    + unfold advanceBy, setParagraphLines.
      cbn [lineIndex paragraphLines children linkReferences].
      rewrite length_app, <- !app_assoc. cbn [length app].
      replace (length pre + 1 + length ls) with (length pre + S (length ls)) by lia.
      reflexivity.
    + unfold advanceBy, setParagraphLines. cbn [lineIndex]. rewrite length_app, Hi.
      reflexivity.
Qed.

Lemma isInert_facts : forall x,
  isInert x = true ->
  ceq x BSLASH = false /\ ceq x AMP = false /\ ceq x BACKTICK = false
  /\ ceq x LT = false /\ ceq x GT = false /\ ceq x DQUOTE = false
  /\ ceq x STAR = false /\ ceq x UNDERSCORE = false /\ ceq x LBRACKET = false
  /\ ceq x RBRACKET = false /\ ceq x LF = false /\ ceq x CR = false.
Proof.
  intros x H. unfold isInert, memc in H. cbn [existsb] in H. apply negb_true_iff in H.
  repeat (apply orb_false_iff in H; destruct H as [? H]).
  repeat split; assumption.
Qed.

Lemma plainLine_safe : forall l, plainLine l = true -> safeLine l = true.
Proof.
  intros l H. destruct (plainLine_head l H) as (c & r & _ & _ & Hi).
  unfold safeLine. eapply forallb_weaken; [|exact Hi].
  intros x Hx. destruct (isInert_facts x Hx) as (_ & _ & _ & _ & _ & _ & _ & _ & _ & _ & Hlf & Hcr).
  unfold safeChar. rewrite Hlf, Hcr. reflexivity.
Qed.

Lemma join_cons : forall sep a r, r <> [] -> join sep (a :: r) = a ++ sep ++ join sep r.
Proof. intros sep a [|b r] H; [congruence | reflexivity]. Qed.

(** A paragraph of plain lines starts with a letter and ends with a
    character that is not white space. *)
Lemma joinLF_plain_ends : forall ls,
  ls <> [] -> forallb plainLine ls = true ->
  (exists c r, joinLF ls = c :: r /\ isAlpha c = true)
  /\ (exists s x, joinLF ls = s ++ [x] /\ isJsSpace x = false).
Proof.
  induction ls as [|l ls IH]; intros Hne Hls; [congruence|].
  cbn [forallb] in Hls. apply andb_true_iff in Hls as [Hl Hls].
  destruct (plainLine_head l Hl) as (c & r & El & Hc & _).
  destruct ls as [|l2 ls].
  - unfold joinLF. cbn [join]. split; [eauto|]. apply plainLine_last. exact Hl.
  - unfold joinLF in *. rewrite join_cons by discriminate.
    destruct (IH ltac:(discriminate) Hls) as (_ & (s & x & Es & Hx)). split.
    + exists c, (r ++ [LF] ++ join [LF] (l2 :: ls)). rewrite El. split; [reflexivity | exact Hc].
    + exists (l ++ [LF] ++ s), x. rewrite Es, <- !app_assoc. split; [reflexivity | exact Hx].
Qed.

Lemma dropWhileEnd_last_kept : forall p (s : str) x,
  p x = false -> dropWhileEnd p (s ++ [x]) = s ++ [x].
Proof. intros p s x H. rewrite dropWhileEnd_snoc, H. reflexivity. Qed.

Lemma parseLinkReferenceDefinition_alpha : forall c r,
  isAlpha c = true -> parseLinkReferenceDefinition (c :: r) = None.
Proof.
  intros c r Hc. unfold parseLinkReferenceDefinition.
  rewrite (alpha_spanUpTo c r 3 (fun c => ceq c SP) (alpha_not c SP Hc eq_refl)).
  cbn [fst length sliceFrom skipn matchLinkLabel].
  rewrite (alpha_not c LBRACKET Hc eq_refl). reflexivity.
Qed.

Lemma stripLinkRefs_plain : forall ls refs,
  ls <> [] -> forallb plainLine ls = true ->
  stripLinkRefs ls refs = (joinLF ls, refs).
Proof.
  intros ls refs Hne Hls. unfold stripLinkRefs.
  destruct (joinLF_plain_ends ls Hne Hls) as ((c & r & Ec & Hc) & (s & x & Es & Hx)).
  assert (He : extractLinkRefs (length (joinLF ls)) (joinLF ls) refs = (joinLF ls, refs)).
  { rewrite Ec. cbn [length extractLinkRefs].
    rewrite (parseLinkReferenceDefinition_alpha c r Hc). reflexivity. }
  rewrite He. f_equal. unfold trim, trimStart, trimEnd.
  assert (Hjs : isJsSpace c = false).
  { unfold isAlpha, isUpper, isLower, isJsSpace, inRange, ceq in *. lia. }
  rewrite Ec at 1. cbn [dropWhile]. rewrite Hjs, <- Ec, Es.
  apply dropWhileEnd_last_kept. exact Hx.
Qed.

(** The block phase on plain lines: one paragraph that holds them. *)
Lemma BlockParser_parse_plain : forall depth ls,
  ls <> [] -> forallb plainLine ls = true ->
  BlockParser_parse (S depth) (joinLF ls) = Some ([Paragraph (joinLF ls)], []).
Proof.
  intros depth ls Hne Hls. cbn [BlockParser_parse]. unfold parseWith.
  change (splitLF (normalizeLineEndings ?s)) with (linesOf s).
  destruct ls as [|l ls]; [congruence|].
  rewrite linesOf_joinLF
    by (eapply forallb_forall; intros x Hx; apply plainLine_safe;
        rewrite forallb_forall in Hls; apply Hls; exact Hx).
  unfold parseBlocks.
  rewrite (parseBlocks_loop_plain _ (l :: ls) [] (S (length (l :: ls)))
             (mkPState 0 [] [] []) Hls eq_refl (Nat.lt_succ_diag_r _)).
  unfold finishParagraph. cbn [paragraphLines lineIndex children linkReferences app length].
  rewrite (stripLinkRefs_plain (l :: ls) [] Hne Hls).
  destruct (joinLF_plain_ends (l :: ls) Hne Hls) as ((c & r & Ec & _) & _).
  rewrite Ec. reflexivity.
Qed.

(** **** The inline phase on plain lines *)

Lemma sliceFrom_cons_lt : forall (text : str) p c r,
  sliceFrom text p = c :: r -> p < length text.
Proof.
  intros text p c r H. unfold sliceFrom in H.
  destruct (Nat.lt_ge_cases p (length text)) as [Hlt|Hge]; [exact Hlt|].
  rewrite skipn_all2 in H by exact Hge. discriminate.
Qed.

Lemma charAt_offset : forall (text : str) p k,
  charAt text (p + k) = nth_error (sliceFrom text p) k.
Proof. intros text p k. unfold charAt, sliceFrom. symmetry. apply nth_error_skipn. Qed.

Lemma parse_step_inert : forall refs text st c r,
  sliceFrom text (pos st) = c :: r -> isInert c = true ->
  (ceq c SP = true ->
   charIs text (pos st + runLength SP (sliceFrom text (pos st))) LF = false) ->
  (ceq c BANG = true -> charIs text (pos st + 1) LBRACKET = false) ->
  parse_step refs text st = Some (setPos (pos st + 1) (addText [c] st)).
Proof.
  intros refs text st c r Hs Hc Hsp Hbang. unfold parse_step.
  pose proof (charAt_sliceFrom _ _ _ _ Hs) as H. rewrite H.
  destruct (isInert_facts c Hc) as (H1 & H2 & H3 & H4 & _ & _ & H7 & H8 & H9 & H10 & H11 & _).
  rewrite (parseEscape_other _ _ _ H H1), (parseEntity_other _ _ _ H H2).
  rewrite H3, H4.
  destruct (ceq c SP) eqn:Es.
  { rewrite (Hsp eq_refl). reflexivity. }
  rewrite H11, H7, H8. cbn [orb].
  destruct (ceq c BANG) eqn:Eb.
  { rewrite (Hbang eq_refl). cbn [andb]. rewrite H9, H10. reflexivity. }
  cbn [andb]. rewrite H9, H10. reflexivity.
Qed.

(** The first character after a run of spaces inside a line is not a line
    feed, the line not ending in a space. *)
Lemma space_run_end : forall t post,
  forallb isInert t = true -> (forall s, t <> s ++ [SP]) -> t <> [] ->
  exists x, nth_error (t ++ post) (runLength SP (t ++ post)) = Some x /\ ceq x LF = false.
Proof.
  induction t as [|c t IH]; intros post Hi Hend Hne; [congruence|].
  cbn [forallb] in Hi. apply andb_true_iff in Hi as [Hc Hi].
  unfold runLength in *. cbn [app span].
  destruct (ceq c SP) eqn:Es.
  - assert (Hne' : t <> []).
    { intros ->. apply (Hend []). apply ceq_eq in Es. subst c. reflexivity. }
    assert (Hend' : forall s, t <> s ++ [SP]).
    { intros s ->. apply (Hend (c :: s)). reflexivity. }
    destruct (IH post Hi Hend' Hne') as (x & Hx & Hlf).
    destruct (span (fun d => ceq d SP) (t ++ post)) as [a b]. cbn [fst length nth_error] in *.
    eauto.
  - cbn [fst length nth_error]. exists c. split; [reflexivity|].
    apply (isInert_facts c Hc).
Qed.

Lemma parse_loop_line_tail : forall refs text t post fuel st,
  sliceFrom text (pos st) = t ++ post ->
  forallb isInert t = true ->
  (forall s, t <> s ++ [SP]) ->
  startsWith post [LBRACKET] = false ->
  length t <= fuel ->
  parse_loop refs text fuel st =
  parse_loop refs text (fuel - length t) (setPos (pos st + length t) (addText t st)).
Proof.
  intros refs text t. induction t as [|c t IH]; intros post fuel st Hs Hi Hend Hpost Hf.
  - cbn [length]. rewrite Nat.sub_0_r, Nat.add_0_r. destruct st as [n b p tb].
    unfold setPos, addText. cbn [nodes bracketStack pos textBuffer]. rewrite app_nil_r.
    reflexivity.
  - cbn [forallb] in Hi. apply andb_true_iff in Hi as [Hc Hi]. cbn [length] in Hf.
    destruct fuel as [|fuel]; [lia|]. cbn [app] in Hs. cbn [parse_loop].
    pose proof (sliceFrom_cons_lt _ _ _ _ Hs) as Hlt.
    apply Nat.ltb_lt in Hlt. rewrite Hlt.
    assert (Hend' : forall s, t <> s ++ [SP]).
    { intros s ->. apply (Hend (c :: s)). reflexivity. }
    rewrite (parse_step_inert refs text st c (t ++ post) Hs Hc).
    + rewrite (IH post fuel (setPos (pos st + 1) (addText [c] st))); [| | exact Hi | exact Hend'
                                                                       | exact Hpost | lia].
      * cbn [length Nat.sub]. destruct st as [n b p tb]. unfold setPos, addText.
        cbn [nodes bracketStack pos textBuffer]. rewrite <- app_assoc. cbn [app].
        replace (p + 1 + length t) with (p + S (length t)) by lia. reflexivity.
      * unfold setPos. cbn [pos]. rewrite Nat.add_1_r. eapply sliceFrom_S. exact Hs.
    + intro Es. unfold charIs. rewrite charAt_offset, Hs.
      assert (Hne' : t <> []).
      { intros ->. apply (Hend []). apply ceq_eq in Es. subst c. reflexivity. }
      destruct (space_run_end t post Hi Hend' Hne') as (x & Hx & Hlf).
      unfold runLength in *. cbn [span]. rewrite Es.
      destruct (span (fun d => ceq d SP) (t ++ post)) as [a b]. cbn [fst length nth_error] in *.
      rewrite Hx. exact Hlf.
    + intro Eb. unfold charIs. rewrite charAt_offset, Hs. cbn [nth_error].
      destruct t as [|d t].
      * cbn [app]. destruct post as [|e post]; [reflexivity|]. cbn [nth_error].
        cbn [startsWith] in Hpost. rewrite andb_true_r in Hpost.
        unfold ceq in *. rewrite Z.eqb_sym. exact Hpost.
      * cbn [app nth_error]. cbn [forallb] in Hi. apply andb_true_iff in Hi as [Hd _].
        apply (isInert_facts d Hd).
Qed.

Lemma plainLine_no_final_space : forall l,
  plainLine l = true -> forall s, l <> s ++ [SP].
Proof.
  intros l H s E. destruct (plainLine_last l H) as (s' & x & E' & Hx).
  rewrite E in E'. apply app_inj_tail in E'. destruct E' as [_ <-]. discriminate.
Qed.

Lemma parse_loop_done : forall refs text fuel st,
  length text <= pos st -> parse_loop refs text fuel st = Some st.
Proof.
  intros refs text fuel st H.
  assert (E : (pos st <? length text) = false) by (apply Nat.ltb_ge; exact H).
  destruct fuel; cbn [parse_loop]; rewrite E; reflexivity.
Qed.

Lemma sliceFrom_app_exact : forall (pre s : str), sliceFrom (pre ++ s) (length pre) = s.
Proof.
  intros pre s. unfold sliceFrom. rewrite skipn_app, skipn_all, Nat.sub_diag. reflexivity.
Qed.

Lemma sliceFrom_add : forall (text : str) p t post,
  sliceFrom text p = t ++ post -> sliceFrom text (p + length t) = post.
Proof.
  intros text p t post H. unfold sliceFrom in *.
  rewrite Nat.add_comm, <- skipn_skipn, H. apply (sliceFrom_app_exact t post).
Qed.

(** The line feed between two plain lines: the line read so far becomes a
    text node, a soft break follows it, and the next line starts with an
    empty buffer. *)
Lemma parse_step_softbreak : forall refs text st s x c r,
  sliceFrom text (pos st) = LF :: c :: r -> isAlpha c = true ->
  textBuffer st = s ++ [x] -> isJsSpace x = false ->
  parse_step refs text st =
  Some (mkIState (nodes st ++ [createTextNode (s ++ [x]); Softbreak]) (bracketStack st)
          (pos st + 1) []).
Proof.
  intros refs text st s x c r Hs Hc Hb Hx. unfold parse_step.
  pose proof (charAt_sliceFrom _ _ _ _ Hs) as H. rewrite H.
  rewrite (parseEscape_other _ _ _ H eq_refl), (parseEntity_other _ _ _ H eq_refl).
  change (ceq LF BACKTICK) with false. change (ceq LF LT) with false.
  change (ceq LF SP) with false. change (ceq LF LF) with true. cbn iota.
  unfold lineBreak, trimBuffer, flushText, pushNode, setPos, skipWhile.
  cbn [nodes bracketStack pos textBuffer].
  assert (Hsp : isSP x = false).
  { unfold isSP, ceq, isJsSpace, inRange, ceq, SP in *. lia. }
  rewrite Hb, (dropWhileEnd_last_kept isSP s x Hsp).
  rewrite length_app. cbn [length]. replace (0 <? length s + 1) with true
    by (symmetry; apply Nat.ltb_lt; lia).
  cbn [nodes bracketStack pos textBuffer].
  rewrite Nat.add_1_r, (sliceFrom_S _ _ _ _ Hs). cbn [span].
  replace (isSP c) with false by (symmetry; apply (alpha_not c SP Hc eq_refl)).
  cbn [fst length]. rewrite Nat.add_0_r, <- app_assoc. reflexivity.
Qed.

Lemma parse_loop_plain : forall refs text ls pre fuel st,
  ls <> [] -> forallb plainLine ls = true ->
  text = pre ++ joinLF ls -> pos st = length pre -> textBuffer st = [] ->
  length (joinLF ls) <= fuel ->
  exists st', parse_loop refs text fuel st = Some st'
              /\ nodes (flushText st') = nodes st ++ plainNodes ls.
Proof.
  intros refs text ls. induction ls as [|l ls IH]; intros pre fuel st Hne Hls Ht Hp Hb Hf;
    [congruence|].
  cbn [forallb] in Hls. apply andb_true_iff in Hls as [Hl Hls].
  destruct (plainLine_head l Hl) as (c & r & El & Hc & Hi).
  pose proof (plainLine_no_final_space l Hl) as Hend.
  destruct ls as [|l2 ls].
  - unfold joinLF in *. cbn [join] in *.
    assert (Hs : sliceFrom text (pos st) = l ++ []).
    { rewrite Ht, Hp, app_nil_r. apply sliceFrom_app_exact. }
    rewrite (parse_loop_line_tail refs text l [] fuel st Hs Hi Hend eq_refl Hf).
    rewrite parse_loop_done.
    + eexists. split; [reflexivity|].
      unfold flushText, setPos, addText. cbn [nodes bracketStack pos textBuffer].
      rewrite Hb, El. reflexivity.
    + unfold setPos. cbn [pos]. rewrite Ht, Hp, length_app. lia.
  - unfold joinLF in *. rewrite (join_cons [LF] l (l2 :: ls)) in * by discriminate.
    set (J := join [LF] (l2 :: ls)) in *.
    rewrite !length_app in Hf. cbn [length] in Hf.
    assert (Hs : sliceFrom text (pos st) = l ++ ([LF] ++ J)).
    { rewrite Ht, Hp. apply sliceFrom_app_exact. }
    rewrite (parse_loop_line_tail refs text l ([LF] ++ J) fuel st Hs Hi Hend eq_refl
               ltac:(lia)).
    destruct (fuel - length l) as [|f] eqn:Ef; [lia|]. cbn [parse_loop].
    set (st1 := setPos (pos st + length l) (addText l st)).
    assert (Hs1 : sliceFrom text (pos st1) = [LF] ++ J).
    { unfold st1, setPos. cbn [pos]. apply (sliceFrom_add _ _ _ _ Hs). }
    destruct (plainLine_head l2 ltac:(cbn [forallb] in Hls; apply andb_true_iff in Hls;
                                      apply Hls)) as (c2 & r2 & El2 & Hc2 & _).
    assert (HJ : exists rJ, J = c2 :: rJ).
    { unfold J. destruct ls as [|l3 ls]; cbn [join]; rewrite El2; cbn [app]; eauto. }
    destruct HJ as (rJ & HJ). rewrite HJ in Hs1. cbn [app] in Hs1.
    pose proof (sliceFrom_cons_lt _ _ _ _ Hs1) as Hlt. apply Nat.ltb_lt in Hlt. rewrite Hlt.
    destruct (plainLine_last l Hl) as (s & x & Es & Hx).
    assert (Hb1 : textBuffer st1 = s ++ [x]).
    { unfold st1, setPos, addText. cbn [textBuffer]. rewrite Hb, Es. reflexivity. }
    rewrite (parse_step_softbreak refs text st1 s x c2 rJ Hs1 Hc2 Hb1 Hx).
    destruct (IH (pre ++ l ++ [LF]) f
                (mkIState (nodes st1 ++ [createTextNode (s ++ [x]); Softbreak])
                   (bracketStack st1) (pos st1 + 1) []))
      as (st' & Hrun & Hnodes).
    + discriminate.
    + exact Hls.
    + rewrite Ht, <- !app_assoc. reflexivity.
    + cbn [pos]. unfold st1, setPos. cbn [pos]. rewrite Hp, !length_app. cbn [length]. lia.
    + reflexivity.
    + fold J. lia.
    + exists st'. split; [exact Hrun|]. rewrite Hnodes. cbn [nodes].
      unfold st1, setPos, addText. cbn [nodes]. rewrite <- Es, <- app_assoc.
      reflexivity.
Qed.

Lemma buildNodeDelims_plain : forall ls before i,
  forallb plainLine ls = true ->
  buildNodeDelims before i (plainNodes ls) = (plainNodes ls, []).
Proof.
  assert (Htext : forall l, plainLine l = true -> isDelimLiteral l = false).
  { intros l Hl. destruct (plainLine_head l Hl) as (c & r & -> & Hc & _).
    unfold isDelimLiteral.
    rewrite (alpha_not c STAR Hc eq_refl), (alpha_not c UNDERSCORE Hc eq_refl). reflexivity. }
  induction ls as [|l ls IH]; intros before i Hls; [reflexivity|].
  cbn [forallb] in Hls. apply andb_true_iff in Hls as [Hl Hls].
  destruct ls as [|l2 ls].
  - cbn [plainNodes buildNodeDelims]. unfold createTextNode.
    rewrite (Htext l Hl), andb_false_r. reflexivity.
  - change (plainNodes (l :: l2 :: ls))
      with (createTextNode l :: Softbreak :: plainNodes (l2 :: ls)).
    cbn [buildNodeDelims]. unfold createTextNode at 1 2.
    rewrite (Htext l Hl), andb_false_r.
    rewrite (IH (Some Softbreak) (S (S i)) Hls). reflexivity.
Qed.

Lemma processEmphasis_plain : forall ls,
  forallb plainLine ls = true -> processEmphasis (plainNodes ls) = Some (plainNodes ls).
Proof.
  intros ls Hls. unfold processEmphasis. rewrite (buildNodeDelims_plain ls None 0 Hls).
  reflexivity.
Qed.

Lemma escapeHtml_inert : forall s, forallb isInert s = true -> escapeHtml s = s.
Proof.
  intros s H. unfold escapeHtml. rewrite escapeXml_pointwise.
  induction s as [|c s IH]; [reflexivity|]. cbn [forallb] in H.
  apply andb_true_iff in H as [Hc Hs]. cbn [flat_map].
  destruct (isInert_facts c Hc) as (_ & H2 & _ & H4 & H5 & H6 & _).
  rewrite H2, H4, H5, H6, (IH Hs). reflexivity.
Qed.

Lemma renderInlines_plain : forall ls,
  forallb plainLine ls = true -> renderInlines (plainNodes ls) = Some (joinLF ls).
Proof.
  intros ls Hls. unfold renderInlines, joinOpt.
  assert (H : exists pieces,
            mapOpt (fun x : option str => x) (map renderInline (plainNodes ls)) = Some pieces
            /\ concat pieces = joinLF ls).
  { induction ls as [|l ls IH]; [exists []; split; reflexivity|].
    cbn [forallb] in Hls. apply andb_true_iff in Hls as [Hl Hls].
    destruct (plainLine_head l Hl) as (c & r & _ & _ & Hi).
    destruct ls as [|l2 ls].
    - exists [l]. cbn [plainNodes map renderInline mapOpt createTextNode].
      unfold createTextNode. cbn [renderInline]. rewrite (escapeHtml_inert l Hi).
      split; [reflexivity|]. cbn [concat]. apply app_nil_r.
    - destruct (IH Hls) as (pieces & Hp & Hc).
      exists (l :: [LF] :: pieces).
      change (plainNodes (l :: l2 :: ls))
        with (createTextNode l :: Softbreak :: plainNodes (l2 :: ls)).
      cbn [map mapOpt]. unfold createTextNode at 1. cbn [renderInline].
      rewrite (escapeHtml_inert l Hi).
      fold (mapOpt (fun x : option str => x) (map renderInline (plainNodes (l2 :: ls)))).
      rewrite Hp. split; [reflexivity|]. cbn [concat]. rewrite Hc.
      unfold joinLF. rewrite (join_cons [LF] l (l2 :: ls)) by discriminate. reflexivity. }
  destruct H as (pieces & -> & Hc). cbn [option_map]. f_equal. rewrite <- Hc.
  clear. induction pieces as [|a [|b pieces] IH]; [reflexivity | |].
  - cbn [join concat]. symmetry. apply app_nil_r.
  - change (join [] (a :: b :: pieces)) with (a ++ [] ++ join [] (b :: pieces)).
    rewrite IH. reflexivity.
Qed.

(** The inline phase on a paragraph of plain lines. *)
Lemma InlineParser_parse_plain : forall refs ls,
  ls <> [] -> forallb plainLine ls = true ->
  InlineParser_parse refs (joinLF ls) = Some (plainNodes ls).
Proof.
  intros refs ls Hne Hls. unfold InlineParser_parse.
  destruct (parse_loop_plain refs (joinLF ls) ls [] (length (joinLF ls))
              (mkIState [] [] 0 []) Hne Hls eq_refl eq_refl eq_refl (Nat.le_refl _))
    as (st' & -> & Hnodes).
  rewrite Hnodes. cbn [nodes app]. apply processEmphasis_plain. exact Hls.
Qed.

(** X15: text that no Markdown construct claims comes out as it went in.
    A block of lines that each start with a letter, hold none of the
    characters the inline parser or the HTML escaping reacts to, and do not
    end in white space is rendered as one paragraph with these very
    lines. *)
Theorem plain_text_is_a_paragraph : forall depth ls,
  ls <> [] -> forallb plainLine ls = true ->
  parse (S depth) (joinLF ls) = Some [Paragraph (plainNodes ls)]
  /\ markdown (S depth) (joinLF ls) = Some (js "<p>" ++ joinLF ls ++ js "</p>" ++ [LF]).
Proof.
  intros depth ls Hne Hls.
  assert (Hparse : parse (S depth) (joinLF ls) = Some [Paragraph (plainNodes ls)]).
  { unfold parse. rewrite (BlockParser_parse_plain depth ls Hne Hls).
    cbn [mapOpt processBlock]. unfold inlineChildren.
    destruct (joinLF_plain_ends ls Hne Hls) as ((c & r & Ec & _) & _).
    rewrite Ec at 1. rewrite (InlineParser_parse_plain [] ls Hne Hls).
    reflexivity. }
  split; [exact Hparse|]. unfold markdown. rewrite Hparse.
  unfold render, renderBlocks, renderBlock. cbn [map renderBlockWith].
  rewrite (renderInlines_plain ls Hls).
  transitivity (Some (tag (js "p") (joinLF ls) ++ [LF])); [reflexivity|].
  f_equal. unfold tag. rewrite <- !app_assoc. reflexivity.
Qed.

(** *** Code spans *)

Lemma run_decompose : forall c (s : str),
  exists rest, s = repeat c (runLength c s) ++ rest /\ startsWith rest [c] = false.
Proof.
  intros c s. unfold runLength. induction s as [|d s IH].
  - exists []. split; reflexivity.
  - cbn [span]. destruct (ceq d c) eqn:E.
    + destruct IH as (rest & Hs & Hr).
      destruct (span (fun x => ceq x c) s) as [a b]. cbn [fst length repeat] in *.
      exists rest. apply ceq_eq in E. subst d. split; [|exact Hr].
      cbn [app]. f_equal. exact Hs.
    + exists (d :: s). cbn [fst length repeat app startsWith]. split; [reflexivity|].
      unfold ceq in *. rewrite Z.eqb_sym, E. reflexivity.
Qed.

Lemma codeSpanClose_run : forall s openingLength skip off,
  codeSpanClose openingLength skip s = Some off ->
  runLength BACKTICK (sliceFrom s off) = openingLength.
Proof.
  induction s as [|c r IH]; intros n skip off H; cbn [codeSpanClose] in H; [discriminate|].
  assert (Hrec : forall k, option_map S (codeSpanClose n k r) = Some off ->
                 runLength BACKTICK (sliceFrom (c :: r) off) = n).
  { intros k Hk. destruct (codeSpanClose n k r) as [off'|] eqn:E; [|discriminate].
    injection Hk as <-. apply (IH n k off' E). }
  destruct skip as [|k]; [|exact (Hrec k H)].
  destruct (ceq c BACKTICK).
  - destruct (runLength BACKTICK (c :: r) =? n) eqn:En.
    + injection H as <-. apply Nat.eqb_eq in En. exact En.
    + exact (Hrec _ H).
  - exact (Hrec 0 H).
Qed.

Lemma strip_one_space : forall (s : str),
  (2 <=? length s) && startsWith s [SP] && endsWith s [SP] = true ->
  s = SP :: slice s 1 (length s - 1) ++ [SP].
Proof.
  intros s H. apply andb_true_iff in H as [H He]. apply andb_true_iff in H as [Hl Hs].
  apply Nat.leb_le in Hl.
  destruct s as [|a s]; [discriminate|]. cbn [startsWith] in Hs.
  rewrite andb_true_r in Hs. apply ceq_eq in Hs. subst a.
  destruct (exists_last (l := s)) as (m & z & ->).
  { intros ->. cbn [length] in Hl. lia. }
  unfold endsWith in He. cbn [rev] in He. rewrite rev_app_distr in He.
  cbn [rev app startsWith] in He. rewrite andb_true_r in He. apply ceq_eq in He. subst z.
  unfold slice. cbn [length skipn]. rewrite length_app. cbn [length].
  replace (S (length m + 1) - 1 - 1) with (length m) by lia.
  rewrite firstn_app, firstn_all, Nat.sub_diag. cbn [firstn]. rewrite app_nil_r. reflexivity.
Qed.

(** X16: what [parseCodeSpan] accepts is a code span: a run of backticks,
    the content, and the next run of backticks of the same length, neither
    run being part of a longer one.  The length returned covers exactly
    these, and the literal is the content with its line feeds turned into
    spaces, less one space at each end when it has both; the literal holds
    no line feed. *)
Theorem parseCodeSpan_shape : forall text pos literal len,
  parseCodeSpan text pos = Some (literal, len) ->
  exists n content post,
    1 <= n
    /\ sliceFrom text pos = repeat BACKTICK n ++ content ++ repeat BACKTICK n ++ post
    /\ startsWith content [BACKTICK] = false
    /\ startsWith post [BACKTICK] = false
    /\ len = n + length content + n
    /\ (literal = map (fun c => if ceq c LF then SP else c) content
        \/ SP :: literal ++ [SP] = map (fun c => if ceq c LF then SP else c) content)
    /\ ~ In LF literal.
Proof.
  intros text pos literal len H. unfold parseCodeSpan in H.
  destruct (charIs text pos BACKTICK) eqn:Hc; [|discriminate]. cbn [negb] in H.
  set (n := runLength BACKTICK (sliceFrom text pos)) in *.
  destruct (codeSpanClose n 0 (sliceFrom text (pos + n))) as [off|] eqn:Hclose;
    [|discriminate].
  destruct (run_decompose BACKTICK (sliceFrom text pos)) as (s1 & Hs & Hs1). fold n in Hs.
  assert (Hs1' : sliceFrom text (pos + n) = s1).
  { rewrite <- (repeat_length BACKTICK n) at 1. apply (sliceFrom_add _ _ _ _ Hs). }
  rewrite Hs1' in Hclose.
  pose proof (codeSpanClose_run _ _ _ _ Hclose) as Hrun.
  destruct (run_decompose BACKTICK (sliceFrom s1 off)) as (post & Hp & Hpost).
  rewrite Hrun in Hp.
  assert (Hn : 1 <= n).
  { unfold charIs in Hc. destruct (charAt text pos) as [c|] eqn:E; [|discriminate].
    apply ceq_eq in Hc. subst c. destruct (charAt_sliceFrom_cons _ _ _ E) as (r & Hr).
    apply (runLength_head BACKTICK _ r Hr). }
  assert (Hoff : off < length s1).
  { destruct (Nat.lt_ge_cases off (length s1)) as [Hlt|Hge]; [exact Hlt|].
    unfold sliceFrom in Hp. rewrite skipn_all2 in Hp by exact Hge.
    destruct n; [lia | discriminate]. }
  set (content := firstn off s1).
  assert (Hcontent : slice text (pos + n) (pos + n + off) = content).
  { unfold slice. replace (pos + n + off - (pos + n)) with off by lia.
    fold (sliceFrom text (pos + n)). rewrite Hs1'. reflexivity. }
  rewrite Hcontent in H.
  set (mapped := map (fun c => if ceq c LF then SP else c) content) in *.
  assert (Hmapped : ~ In LF mapped).
  { unfold mapped. intro Hin. apply in_map_iff in Hin. destruct Hin as (x & Hx & _).
    destruct (ceq x LF) eqn:E; [discriminate|]. apply ceq_eq in Hx.
    unfold ceq in *. congruence. }
  exists n, content, post. split; [exact Hn|]. split; [|split; [|split; [exact Hpost|]]].
  - rewrite Hs. f_equal. rewrite <- (firstn_skipn off s1) at 1. fold content.
    f_equal. exact Hp.
  - unfold content. destruct s1 as [|c s1]; [destruct off; reflexivity|].
    destruct off; [reflexivity|]. cbn [firstn]. exact Hs1.
  - assert (Hlen : length content = off).
    { unfold content. apply firstn_length_le. lia. }
    destruct ((2 <=? length mapped) && startsWith mapped [SP] && endsWith mapped [SP]
              && negb (isBlank mapped)) eqn:Estrip.
    + injection H as <- <-. apply andb_true_iff in Estrip as [Estrip _].
      pose proof (strip_one_space mapped Estrip) as Hm.
      split; [lia|]. split; [right; symmetry; exact Hm|].
      intro Hin. apply Hmapped. rewrite Hm. right. apply in_or_app. left. exact Hin.
    + injection H as <- <-. split; [lia|]. split; [left; reflexivity | exact Hmapped].
Qed.

(** *** List markers *)

Lemma spanUpTo_length : forall n p (s : str), length (fst (spanUpTo n p s)) <= n.
Proof.
  induction n as [|n IH]; intros p s; [cbn; lia|]. destruct s as [|c r]; cbn [spanUpTo].
  - cbn. lia.
  - destruct (p c); [|cbn; lia]. specialize (IH p r).
    destruct (spanUpTo n p r) as [a b]. cbn [fst length] in *. lia.
Qed.

Lemma forallb_isSP_repeat : forall s, forallb isSP s = true -> s = repeat SP (length s).
Proof.
  induction s as [|c s IH]; intro H; [reflexivity|]. cbn [forallb] in H.
  apply andb_true_iff in H as [Hc Hs]. apply ceq_eq in Hc. subst c.
  cbn [length repeat]. f_equal. exact (IH Hs).
Qed.

Lemma matchSpacesAfter_spec : forall s sa,
  matchSpacesAfter s = Some sa ->
  exists rest, s = sa ++ rest
    /\ (sa = [] \/ sa = [TAB] \/ exists k, sa = repeat SP (S k)).
Proof.
  intros [|c r] sa H; unfold matchSpacesAfter in H.
  - injection H as <-. exists []. auto.
  - destruct (ceq c SP) eqn:Es.
    + assert (Hsa : sa = fst (span isSP (c :: r))) by (injection H as <-; reflexivity).
      clear H. rewrite Hsa. exists (snd (span isSP (c :: r))).
      split; [apply (span_app_eq isSP (c :: r))|]. right. right.
      pose proof (span_forallb isSP (c :: r)) as Hf.
      apply forallb_isSP_repeat in Hf. rewrite Hf.
      assert (Hl : exists k, length (fst (span isSP (c :: r))) = S k).
      { cbn [span]. unfold isSP at 1. rewrite Es.
        destruct (span isSP r) as [a b]. cbn [fst length]. eauto. }
      destruct Hl as (k & ->). exists k. reflexivity.
    + destruct (ceq c TAB) eqn:Et; [|discriminate]. injection H as <-.
      apply ceq_eq in Et. subst c. exists r. auto.
Qed.

Lemma buildMarker_geometry : forall type k marker bulletChar start delimiter sa,
  sa = [] \/ sa = [TAB] \/ (exists n, sa = repeat SP (S n)) ->
  let m := buildMarker type k marker bulletChar start delimiter sa in
  mType m = type /\ mIndent m = k /\ mMarker m = marker /\ mBulletChar m = bulletChar
  /\ mStart m = start
  /\ 1 <= mPadding m <= 4
  /\ mContentIndent m = k + length marker + mPadding m
  /\ k + length marker <= mContentCharIndex m <= k + length marker + length sa.
Proof.
  intros type k marker bulletChar start delimiter sa H m. subst m. unfold buildMarker.
  destruct H as [-> | [-> | (n & ->)]].
  - cbn. repeat split; lia.
  - cbn. repeat split; lia.
  - cbn [repeat str_eqb]. change (ceq SP TAB) with false. cbn [andb].
    cbn [length]. rewrite repeat_length.
    destruct (5 <=? S n) eqn:E;
      cbn [mType mIndent mMarker mBulletChar mStart mPadding mContentIndent mContentCharIndex].
    + repeat split; cbn; lia.
    + apply Nat.leb_gt in E. repeat split; lia.
Qed.

Lemma decimal_bound : forall ds acc,
  forallb isDigit ds = true -> (0 <= acc)%Z ->
  (parseInt_acc 10 acc ds < (acc + 1) * 10 ^ Z.of_nat (length ds))%Z.
Proof.
  induction ds as [|c ds IH]; intros acc H Ha.
  - cbn. lia.
  - cbn [forallb] in H. apply andb_true_iff in H as [Hc Hd].
    destruct (digitValue_digit c Hc) as (d & Ed & Hd10).
    cbn [parseInt_acc length]. rewrite Ed.
    replace (d <? 10)%Z with true by (symmetry; apply Z.ltb_lt; lia).
    specialize (IH (acc * 10 + d)%Z Hd ltac:(lia)).
    rewrite Nat2Z.inj_succ, Z.pow_succ_r by lia.
    assert (Hp : (0 < 10 ^ Z.of_nat (length ds))%Z) by (apply Z.pow_pos_nonneg; lia).
    nia.
Qed.

(** X17: the geometry of a list marker.  The marker stands after at most
    three spaces; the padding after it counts as one to four columns, and
    the content column is the indentation, the marker and the padding added
    up; the index where the content starts is inside the line, after the
    marker and after white space only.  A bullet is one of [-], [+], [*];
    the number of an ordered marker is below [10^9]. *)
Theorem parseListMarker_geometry : forall line m,
  parseListMarker line = Some m ->
  mIndent m <= 3
  /\ 1 <= mPadding m <= 4
  /\ mContentIndent m = mIndent m + length (mMarker m) + mPadding m
  /\ mContentCharIndex m <= length line
  /\ firstn (mIndent m + length (mMarker m)) line = repeat SP (mIndent m) ++ mMarker m
  /\ forallb isSpaceTab
       (slice line (mIndent m + length (mMarker m)) (mContentCharIndex m)) = true
  /\ match mType m with
     | Bullet => exists c, mMarker m = [c] /\ mBulletChar m = Some c
                           /\ In c [DASH; PLUS; STAR]
     | Ordered => exists n, mStart m = Some n /\ (0 <= n < 10 ^ 9)%Z
     end.
Proof.
  intros line m H. unfold parseListMarker in H.
  destruct (spanUpTo 3 isSP line) as [ind rest] eqn:Eind.
  pose proof (spanUpTo_length 3 isSP line) as Hind. rewrite Eind in Hind. cbn [fst] in Hind.
  destruct (spanUpTo_spec _ _ _ _ _ Eind) as (Hline & Hsp).
  apply forallb_isSP_repeat in Hsp.
  assert (Hgeo : forall type marker bulletChar start delimiter sa tail after,
            rest = marker ++ after -> after = sa ++ tail ->
            sa = [] \/ sa = [TAB] \/ (exists n, sa = repeat SP (S n)) ->
            m = buildMarker type (length ind) marker bulletChar start delimiter sa ->
            mType m = type /\ mMarker m = marker /\ mBulletChar m = bulletChar
            /\ mStart m = start
            /\ mIndent m <= 3
            /\ 1 <= mPadding m <= 4
            /\ mContentIndent m = mIndent m + length (mMarker m) + mPadding m
            /\ mContentCharIndex m <= length line
            /\ firstn (mIndent m + length (mMarker m)) line
               = repeat SP (mIndent m) ++ mMarker m
            /\ forallb isSpaceTab
                 (slice line (mIndent m + length (mMarker m)) (mContentCharIndex m)) = true).
  { intros type marker bulletChar start delimiter sa tail after Hr Ha Hsa ->.
    destruct (buildMarker_geometry type (length ind) marker bulletChar start delimiter sa Hsa)
      as (H1 & H2 & H3 & H4 & H5 & H6 & H7 & H8).
    set (b := buildMarker type (length ind) marker bulletChar start delimiter sa) in *.
    rewrite H2, H3.
    split; [exact H1|]. split; [reflexivity|]. split; [exact H4|]. split; [exact H5|].
    split; [exact Hind|]. split; [exact H6|]. split; [exact H7|].
    split; [|split].
    - rewrite Hline, Hr, Ha, !length_app. lia.
    - rewrite Hline, Hr, app_assoc, <- Hsp.
      rewrite firstn_app, firstn_all2 by (rewrite length_app; lia).
      rewrite length_app. replace (length ind + length marker - (length ind + length marker))
        with 0 by lia. cbn [firstn]. rewrite app_nil_r. reflexivity.
    - unfold slice. rewrite Hline, Hr, app_assoc.
      rewrite skipn_app, skipn_all2 by (rewrite length_app; lia).
      rewrite length_app. replace (length ind + length marker - (length ind + length marker))
        with 0 by lia. cbn [skipn app]. rewrite Ha.
      rewrite firstn_app. rewrite forallb_app. apply andb_true_iff. split.
      + apply forallb_forall. intros x Hx.
        assert (Hx' : In x sa)
          by (rewrite <- (firstn_skipn (mContentCharIndex b - (length ind + length marker)) sa);
              apply in_or_app; left; exact Hx).
        clear Hx. rename Hx' into Hx.
        destruct Hsa as [-> | [-> | (n & ->)]].
        * destruct Hx.
        * destruct Hx as [<- | []]. reflexivity.
        * apply repeat_spec in Hx. subst x. reflexivity.
      + replace (mContentCharIndex b - (length ind + length marker) - length sa) with 0
          by lia. reflexivity. }
  assert (Hord : (let (digits, r1) := span isDigit rest in
                  if (1 <=? length digits) && (length digits <=? 9)
                  then
                    match r1 with
                    | [] => None
                    | d :: r2 =>
                        if ceq d DOT || ceq d RPAREN
                        then
                          match matchSpacesAfter r2 with
                          | Some spacesAfter =>
                              Some (buildMarker Ordered (length ind) (digits ++ [d]) None
                                      (parseInt digits 10) (Some d) spacesAfter)
                          | None => None
                          end
                        else None
                    end
                  else None) = Some m ->
                 mIndent m <= 3
                 /\ 1 <= mPadding m <= 4
                 /\ mContentIndent m = mIndent m + length (mMarker m) + mPadding m
                 /\ mContentCharIndex m <= length line
                 /\ firstn (mIndent m + length (mMarker m)) line
                    = repeat SP (mIndent m) ++ mMarker m
                 /\ forallb isSpaceTab
                      (slice line (mIndent m + length (mMarker m)) (mContentCharIndex m))
                    = true
                 /\ match mType m with
                    | Bullet => exists c, mMarker m = [c] /\ mBulletChar m = Some c
                                          /\ In c [DASH; PLUS; STAR]
                    | Ordered => exists n, mStart m = Some n /\ (0 <= n < 10 ^ 9)%Z
                    end).
  { clear H. intro H.
    pose proof (span_app_eq isDigit rest) as Hrest.
    pose proof (span_forallb isDigit rest) as Hdig.
    destruct (span isDigit rest) as [digits r1]. cbn [fst snd] in Hrest, Hdig.
    destruct ((1 <=? length digits) && (length digits <=? 9)) eqn:El; [|discriminate].
    apply andb_true_iff in El as [El1 El9]. apply Nat.leb_le in El1, El9.
    destruct r1 as [|d r2]; [discriminate|].
    destruct (ceq d DOT || ceq d RPAREN); [|discriminate].
    destruct (matchSpacesAfter r2) as [sa|] eqn:Esa; [|discriminate].
    injection H as Hm. symmetry in Hm.
    destruct (matchSpacesAfter_spec r2 sa Esa) as (tail & Hr & Hsa).
    destruct (Hgeo Ordered (digits ++ [d]) None (parseInt digits 10) (Some d) sa tail r2
                ltac:(rewrite Hrest, <- app_assoc; reflexivity) Hr Hsa Hm)
      as (H1 & H2 & H3 & H4 & H5 & H6 & H7 & H8 & H9 & H10).
    rewrite H1. repeat (split; [assumption|]).
    assert (Hne : digits <> []) by (intros ->; cbn [length] in El1; lia).
    exists (decimalValue digits). rewrite H4. split; [apply parseInt_digits; assumption|].
    unfold decimalValue. split; [apply parseInt_acc_nonneg; lia|].
    pose proof (decimal_bound digits 0 Hdig ltac:(lia)) as Hb.
    assert (Hp : (10 ^ Z.of_nat (length digits) <= 10 ^ 9)%Z)
      by (apply Z.pow_le_mono_r; lia).
    lia. }
  destruct rest as [|c r].
  - apply Hord. exact H.
  - destruct (ceq c DASH || ceq c PLUS || ceq c STAR) eqn:Eb.
    + destruct (matchSpacesAfter r) as [sa|] eqn:Esa.
      * injection H as Hm. symmetry in Hm.
        destruct (matchSpacesAfter_spec r sa Esa) as (tail & Hr & Hsa).
        destruct (Hgeo Bullet [c] (Some c) None None sa tail r eq_refl Hr Hsa Hm)
          as (H1 & H2 & H3 & H4 & H5 & H6 & H7 & H8 & H9 & H10).
        rewrite H1. repeat (split; [assumption|]).
        exists c. split; [exact H2|]. split; [exact H3|].
        apply orb_true_iff in Eb as [Eb|Eb]; [apply orb_true_iff in Eb as [Eb|Eb]|];
          apply ceq_eq in Eb; subst c; cbn; auto.
      * apply Hord. exact H.
    + apply Hord. exact H.
Qed.

(** *** A block quote is a container *)

Lemma refHas_refGet : forall m k, refHas m k = true <-> refGet m k <> None.
Proof.
  induction m as [|[k' v] m IH]; intro k; cbn [refHas refGet].
  - split; [discriminate | congruence].
  - destruct (str_eqb k' k); cbn [orb]; [split; [discriminate | reflexivity] | apply IH].
Qed.

Lemma refGet_snoc : forall m k1 v1 k,
  refGet (m ++ [(k1, v1)]) k =
  match refGet m k with
  | Some v => Some v
  | None => if str_eqb k1 k then Some v1 else None
  end.
Proof.
  induction m as [|[k' v] m IH]; intros k1 v1 k; cbn [app refGet]; [reflexivity|].
  destruct (str_eqb k' k); [reflexivity | apply IH].
Qed.

(** Merging tables keeps what the first one has and adds what only the
    second one has. *)
Lemma refGet_refMerge : forall child m k,
  refGet (refMerge m child) k =
  match refGet m k with
  | Some v => Some v
  | None => refGet child k
  end.
Proof.
  unfold refMerge. induction child as [|[k1 v1] child IH]; intros m k; cbn [fold_left refGet].
  - destruct (refGet m k); reflexivity.
  - rewrite IH. cbn [fst snd]. unfold refAdd.
    destruct (refHas m k1) eqn:Eh.
    + destruct (refGet m k) eqn:Eg; [reflexivity|].
      destruct (str_eqb k1 k) eqn:Ek; [|reflexivity].
      apply str_eqb_eq in Ek. subst k1. apply refHas_refGet in Eh. congruence.
    + rewrite refGet_snoc. destruct (refGet m k); [reflexivity|].
      destruct (str_eqb k1 k); reflexivity.
Qed.

(** The inline phase reads the table through [get] only. *)
Section SameTable.

Variables r1 r2 : RefMap.
Hypothesis same : forall k, refGet r1 k = refGet r2 k.

Lemma lookupRef_same : forall lbl consumed, lookupRef r1 lbl consumed = lookupRef r2 lbl consumed.
Proof. intros lbl consumed. unfold lookupRef. rewrite same. reflexivity. Qed.

Lemma closeBracket_same : forall text st opener prev,
  closeBracket r1 text st opener prev = closeBracket r2 text st opener prev.
Proof.
  intros text st opener prev. unfold closeBracket.
  repeat first
    [ rewrite lookupRef_same
    | match goal with
      | |- context [if ?x then _ else _] =>
          lazymatch x with
          | context [lookupRef] => fail
          | _ => destruct x eqn:?
          end
      | |- context [match ?x with _ => _ end] =>
          lazymatch x with
          | context [lookupRef] => fail
          | _ => destruct x eqn:?
          end
      end ];
    reflexivity.
Qed.

Lemma parse_step_same : forall text st, parse_step r1 text st = parse_step r2 text st.
Proof.
  intros text st. unfold parse_step.
  destruct (bracketStack st) as [|opener prev]; [reflexivity|].
  rewrite closeBracket_same. reflexivity.
Qed.

Lemma parse_loop_same : forall text fuel st,
  parse_loop r1 text fuel st = parse_loop r2 text fuel st.
Proof.
  intros text. induction fuel as [|fuel IH]; intro st; cbn [parse_loop]; [reflexivity|].
  rewrite parse_step_same. destruct (pos st <? length text); [|reflexivity].
  destruct (parse_step r2 text st); [apply IH | reflexivity].
Qed.

Lemma processBlock_same : forall block : RawBlock,
  processBlock r1 block = processBlock r2 block.
Proof.
  fix IH 1. intro block.
  assert (Hmap : forall l : list RawBlock,
            (fix all (l : list RawBlock) : Prop :=
               match l with
               | [] => True
               | x :: r => processBlock r1 x = processBlock r2 x /\ all r
               end) l ->
            mapOpt (processBlock r1) l = mapOpt (processBlock r2) l).
  { induction l as [|x l IHl]; intro H; [reflexivity|]. destruct H as [Hx Hl].
    cbn [mapOpt]. rewrite Hx. fold (mapOpt (processBlock r1) l).
    fold (mapOpt (processBlock r2) l). rewrite (IHl Hl). reflexivity. }
  assert (Hinl : forall c, inlineChildren r1 c = inlineChildren r2 c).
  { intros [|c s]; [reflexivity|]. unfold inlineChildren, InlineParser_parse.
    rewrite parse_loop_same. reflexivity. }
  destruct block as [c | lvl c | | i l f | ch | t s tight d b items | checked ch | l | al rows];
    cbn [processBlock]; try reflexivity.
  - rewrite Hinl. reflexivity.
  - rewrite Hinl. reflexivity.
  - rewrite (Hmap ch); [reflexivity|].
    induction ch as [|x ch IHch]; [exact I|]. split; [apply IH | exact IHch].
  - rewrite (Hmap items); [reflexivity|].
    induction items as [|x items IHi]; [exact I|]. split; [apply IH | exact IHi].
  - rewrite (Hmap ch); [reflexivity|].
    induction ch as [|x ch IHch]; [exact I|]. split; [apply IH | exact IHch].
Qed.

End SameTable.

Lemma quoteLoop_quoted : forall ls acc inFence,
  forallb (fun l => negb (memc TAB l)) ls = true ->
  quoteLoop acc inFence (map (fun l => GT :: SP :: l) ls) = (acc ++ ls, length ls).
Proof.
  induction ls as [|l ls IH]; intros acc inFence H; cbn [map quoteLoop length].
  - rewrite app_nil_r. reflexivity.
  - cbn [forallb] in H. apply andb_true_iff in H as [Hl Hls].
    change (isBlockquoteStart (GT :: SP :: l)) with true. cbn iota.
    assert (Hc : extractBlockquoteContent (GT :: SP :: l) = l).
    { unfold extractBlockquoteContent, matchBlockquote. cbn [spanUpTo].
      change (isSP GT) with false. cbn iota. change (ceq GT GT) with true. cbn iota.
      change (isSpaceTab SP) with true. cbn iota. change (ceq SP TAB) with false. cbn iota.
      apply expandRestOfLine_plain. apply forallb_forall. intros x Hx.
      apply negb_true_iff. destruct (ceq x TAB) eqn:E; [|reflexivity].
      apply ceq_eq in E. subst x. apply negb_true_iff in Hl.
      unfold memc in Hl. rewrite <- Hl. symmetry. apply existsb_exists.
      exists TAB. split; [exact Hx | reflexivity]. }
    rewrite Hc, (IH _ _ Hls), <- app_assoc. reflexivity.
Qed.

Lemma parseBlocks_quoted : forall subParse l ls,
  forallb (fun l => negb (memc TAB l)) (l :: ls) = true ->
  parseBlocks subParse (map (fun l => GT :: SP :: l) (l :: ls)) =
  match subParse (joinLF (l :: ls)) with
  | None => None
  | Some (quoteChildren, childRefs) =>
      Some (mkPState (S (length ls)) [] [Blockquote quoteChildren] (refMerge [] childRefs))
  end.
Proof.
  intros subParse l ls Hls. unfold parseBlocks.
  cbn [map length parseBlocks_loop lineIndex nth_error].
  set (lines := (GT :: SP :: l) :: map (fun l => GT :: SP :: l) ls).
  assert (Hstep : parseBlocks_step subParse lines (GT :: SP :: l) (mkPState 0 [] [] []) =
                  match subParse (joinLF (l :: ls)) with
                  | None => None
                  | Some (quoteChildren, childRefs) =>
                      Some (mkPState (S (length ls)) [] [Blockquote quoteChildren]
                              (refMerge [] childRefs))
                  end).
  { unfold parseBlocks_step.
    change (startsWith (GT :: SP :: l) [LAZY_PREFIX]) with false.
    change (isBlank (GT :: SP :: l)) with false.
    change (isThematicBreak (GT :: SP :: l)) with false.
    change (parseAtxHeading (GT :: SP :: l)) with (@None (nat * str)).
    change (parseFenceOpen (GT :: SP :: l)) with (@None FenceInfo).
    change (getIndent (GT :: SP :: l)) with 0.
    change (isBlockquoteStart (GT :: SP :: l)) with true.
    cbn [paragraphLines length Nat.eqb negb andb Nat.leb finishParagraph lineIndex linesFrom
         skipn].
    unfold lines. change ((GT :: SP :: l) :: map (fun l => GT :: SP :: l) ls)
      with (map (fun l => GT :: SP :: l) (l :: ls)).
    rewrite (quoteLoop_quoted (l :: ls) [] None Hls). cbn [app length].
    destruct (subParse (joinLF (l :: ls))) as [[ch refs]|]; reflexivity. }
  rewrite Hstep. destruct (subParse (joinLF (l :: ls))) as [[ch refs]|]; [|reflexivity].
  cbn [lineIndex].
  assert (Hend : nth_error lines (S (length ls)) = None).
  { apply nth_error_None. unfold lines. cbn [length]. rewrite length_map. apply Nat.le_refl. }
  unfold str in *. rewrite Hend. reflexivity.
Qed.

(** X18: a block quote is a container.  When every line of the input starts
    with [>] and a space, the document is one block quote, and its content
    is the document that the lines without these two characters make: the
    same blocks, with the same links resolved. *)
Theorem blockquote_is_a_container : forall depth ls,
  ls <> [] ->
  forallb safeLine ls = true ->
  forallb (fun l => negb (memc TAB l)) ls = true ->
  parse (S depth) (joinLF (map (fun l => GT :: SP :: l) ls)) =
  option_map (fun document => [Blockquote document]) (parse depth (joinLF ls)).
Proof.
  intros depth ls Hne Hsafe Htab. destruct ls as [|l ls]; [congruence|].
  unfold parse. cbn [BlockParser_parse]. unfold parseWith.
  change (splitLF (normalizeLineEndings ?s)) with (linesOf s).
  cbn [map]. rewrite linesOf_joinLF.
  2:{ change (forallb safeLine (map (fun l => GT :: SP :: l) (l :: ls)) = true).
      apply forallb_forall. intros x Hx. apply in_map_iff in Hx.
      destruct Hx as (y & <- & Hy). rewrite forallb_forall in Hsafe.
      apply (Hsafe y) in Hy. exact Hy. }
  change ((GT :: SP :: l) :: map (fun l => GT :: SP :: l) ls)
    with (map (fun l => GT :: SP :: l) (l :: ls)).
  rewrite (parseBlocks_quoted _ l ls Htab).
  destruct (BlockParser_parse depth (joinLF (l :: ls))) as [[ch refs]|]; [|reflexivity].
  cbn [children linkReferences mapOpt processBlock].
  assert (Hsame : mapOpt (processBlock (refMerge [] refs)) ch = mapOpt (processBlock refs) ch).
  { clear. induction ch as [|x ch IH]; [reflexivity|]. cbn [mapOpt].
    rewrite (processBlock_same (refMerge [] refs) refs) by (intro k; apply refGet_refMerge).
    fold (mapOpt (processBlock (refMerge [] refs)) ch). fold (mapOpt (processBlock refs) ch).
    rewrite IH. reflexivity. }
  fold (mapOpt (processBlock (refMerge [] refs)) ch). rewrite Hsame.
  destruct (mapOpt (processBlock refs) ch); reflexivity.
Qed.

(** *** A fence that is not closed *)

Lemma fenceLoop_open : forall fence codeLines,
  forallb (fun l => negb (isFenceClose l fence)) codeLines = true ->
  fenceLoop fence codeLines = (codeLines, length codeLines, false).
Proof.
  intros fence codeLines. induction codeLines as [|l ls IH]; intro Hls; [reflexivity|].
  cbn [forallb] in Hls. apply andb_true_iff in Hls as [Hl Hls].
  apply negb_true_iff in Hl. cbn [fenceLoop length]. rewrite Hl, (IH Hls). reflexivity.
Qed.

Lemma popTrailingEmpty_app_empty : forall (ls : list str) k,
  popTrailingEmpty (ls ++ repeat [] k) = popTrailingEmpty ls.
Proof.
  intros ls k. unfold popTrailingEmpty. f_equal. rewrite rev_app_distr, rev_repeat.
  induction k as [|k IH]; [reflexivity|]. cbn [repeat app dropLeadingEmpty]. exact IH.
Qed.

Lemma parseBlocks_unclosed : forall subParse c n codeLines,
  c = BACKTICK \/ c = TILDE -> 3 <= n ->
  forallb (fun l => negb (isFenceClose l (mkFence 0 c n []))) codeLines = true ->
  parseBlocks subParse (repeat c n :: codeLines) =
  Some (mkPState (S (length codeLines)) []
          [createFencedCodeBlock [] (popTrailingEmpty codeLines) 0] []).
Proof.
  intros subParse c n codeLines Hc Hn Hls. unfold parseBlocks.
  cbn [length parseBlocks_loop lineIndex nth_error].
  assert (Hstep : parseBlocks_step subParse (repeat c n :: codeLines)
                    (repeat c n) (mkPState 0 [] [] []) =
                  Some (mkPState (S (length codeLines)) []
                          [createFencedCodeBlock [] (popTrailingEmpty codeLines) 0] [])).
  { unfold parseBlocks_step.
    rewrite (parseFenceOpen_repeat c n Hc Hn).
    assert (Hhead : exists r, repeat c n = c :: r).
    { destruct n as [|k]; [lia|]. exists (repeat c k). reflexivity. }
    destruct Hhead as (r & Hr). rewrite Hr.
    assert (H1 : startsWith (c :: r) [LAZY_PREFIX] = false)
      by (destruct Hc as [-> | ->]; reflexivity).
    assert (H2 : isBlank (c :: r) = false) by (destruct Hc as [-> | ->]; reflexivity).
    assert (H3 : isThematicBreak (c :: r) = false)
      by (destruct Hc as [-> | ->]; reflexivity).
    assert (H4 : parseAtxHeading (c :: r) = None)
      by (destruct Hc as [-> | ->]; reflexivity).
    rewrite H1, H2, H3, H4.
    cbn [paragraphLines length Nat.eqb negb andb finishParagraph lineIndex linesFrom skipn].
    rewrite (fenceLoop_open (mkFence 0 c n []) codeLines Hls).
    cbn [fenceInfoString fenceIndent].
    unfold advanceBy, pushChild. cbn [lineIndex paragraphLines children linkReferences app].
    reflexivity. }
  rewrite Hstep. cbn [lineIndex].
  assert (Hend : nth_error (repeat c n :: codeLines) (S (length codeLines)) = None).
  { apply nth_error_None. cbn [length]. apply Nat.le_refl. }
  unfold str in *. rewrite Hend. reflexivity.
Qed.

(** X19: a fence that nothing closes runs to the end of the input.  All the
    lines after it are the content of one code block, whatever they hold,
    and empty lines at the end of the input are not part of it: with or
    without them the result is the same. *)
Theorem unclosed_fence_runs_to_the_end : forall depth c n codeLines k,
  c = BACKTICK \/ c = TILDE -> 3 <= n ->
  forallb safeLine codeLines = true ->
  forallb (fun l => negb (isFenceClose l (mkFence 0 c n []))) codeLines = true ->
  BlockParser_parse (S depth) (joinLF (repeat c n :: codeLines ++ repeat [] k)) =
  Some ([createFencedCodeBlock [] (popTrailingEmpty codeLines) 0], []).
Proof.
  intros depth c n codeLines k Hc Hn Hsafe Hls.
  assert (Hrep : safeLine (repeat c n) = true).
  { apply forallb_forall. intros x Hx. apply repeat_spec in Hx. subst x.
    destruct Hc as [-> | ->]; reflexivity. }
  cbn [BlockParser_parse]. unfold parseWith.
  change (splitLF (normalizeLineEndings ?s)) with (linesOf s).
  rewrite linesOf_joinLF.
  2:{ cbn [forallb]. rewrite Hrep, forallb_app, Hsafe. cbn [andb].
      apply forallb_forall. intros x Hx. apply repeat_spec in Hx. subst x. reflexivity. }
  rewrite (parseBlocks_unclosed _ c n (codeLines ++ repeat [] k) Hc Hn).
  - cbn [children linkReferences]. rewrite popTrailingEmpty_app_empty. reflexivity.
  - rewrite forallb_app, Hls. cbn [andb]. apply forallb_forall. intros x Hx.
    apply repeat_spec in Hx. subst x. unfold isFenceClose, stripUpTo3Spaces.
    cbn [spanUpTo snd span fenceLength length forallb].
    replace (n <=? 0) with false by (symmetry; apply Nat.leb_gt; lia). reflexivity.
Qed.

(** *** Indented code *)

Lemma indented_line_tests : forall l,
  startsWith (js "    " ++ l) [LAZY_PREFIX] = false
  /\ isBlank (js "    " ++ l) = isBlank l
  /\ isThematicBreak (js "    " ++ l) = false
  /\ parseAtxHeading (js "    " ++ l) = None
  /\ parseFenceOpen (js "    " ++ l) = None
  /\ (4 <=? getIndent (js "    " ++ l)) = true
  /\ removeIndent (js "    " ++ l) 4 = l.
Proof.
  intro l. repeat split.
  - apply Nat.leb_le. unfold getIndent. cbn [js app getIndent_from].
    change (ceq 32 SP) with true. cbn iota. apply (getIndent_from_ge l 4).
  - unfold removeIndent. cbn. destruct l; reflexivity.
Qed.

Lemma indentedCodeLoop_indented : forall ls,
  indentedCodeLoop (map (fun l => js "    " ++ l) ls) = (ls, length ls).
Proof.
  induction ls as [|l ls IH]; [reflexivity|]. cbn [map indentedCodeLoop length].
  destruct (indented_line_tests l) as (_ & _ & _ & _ & _ & H6 & H7).
  rewrite H6, H7, IH. reflexivity.
Qed.

Lemma popTrailingEmpty_kept : forall (ls : list str) x,
  x <> [] -> popTrailingEmpty (ls ++ [x]) = ls ++ [x].
Proof.
  intros ls x Hx. unfold popTrailingEmpty. rewrite rev_app_distr. cbn [rev app dropLeadingEmpty].
  destruct x as [|c x]; [congruence|]. cbn [str_eqb].
  change ((c :: x) :: rev ls) with ([c :: x] ++ rev ls).
  rewrite rev_app_distr, rev_involutive. reflexivity.
Qed.

(** X20: lines indented by four spaces are code.  When every line of the
    input, one line or more, starts with four spaces, the first is not blank
    after them and the last is not empty after them, the document is one
    code block that holds the lines without the four spaces, and they are
    rendered as they are, only escaped for HTML. *)
Theorem indented_code_is_verbatim : forall depth first others,
  forallb safeLine (first :: others) = true ->
  isBlank first = false -> last (first :: others) [] <> [] ->
  let codeLines := first :: others in
  BlockParser_parse (S depth) (joinLF (map (fun l => js "    " ++ l) codeLines)) =
    Some ([CodeBlock [] (joinLF codeLines ++ [LF]) false], [])
  /\ markdown (S depth) (joinLF (map (fun l => js "    " ++ l) codeLines)) =
     Some (js "<pre><code>" ++ escapeHtml (joinLF codeLines ++ [LF]) ++ js "</code></pre>"
           ++ [LF]).
Proof.
  intros depth first others Hsafe Hfirst Hlast codeLines.
  assert (Hblocks : BlockParser_parse (S depth)
                      (joinLF (map (fun l => js "    " ++ l) codeLines)) =
                    Some ([CodeBlock [] (joinLF codeLines ++ [LF]) false], [])).
  { cbn [BlockParser_parse]. unfold parseWith.
    change (splitLF (normalizeLineEndings ?s)) with (linesOf s).
    unfold codeLines. cbn [map]. rewrite linesOf_joinLF.
    2:{ change (forallb safeLine (map (fun l => js "    " ++ l) (first :: others)) = true).
        apply forallb_forall. intros x Hx. apply in_map_iff in Hx.
        destruct Hx as (y & <- & Hy). rewrite forallb_forall in Hsafe.
        apply (Hsafe y) in Hy. exact Hy. }
    unfold parseBlocks. cbn [length parseBlocks_loop lineIndex nth_error].
    destruct (indented_line_tests first) as (H1 & H2 & H3 & H4 & H5 & H6 & H7).
    assert (Hpop : popTrailingEmpty (first :: others) = first :: others).
    { assert (Hne : first :: others <> []) by discriminate.
      rewrite (app_removelast_last [] Hne) at 1 2.
      apply popTrailingEmpty_kept. exact Hlast. }
    set (lines := (js "    " ++ first) :: map (fun l => js "    " ++ l) others).
    assert (Hstep : parseBlocks_step (BlockParser_parse depth) lines (js "    " ++ first)
                      (mkPState 0 [] [] []) =
                    Some (mkPState (S (length others)) []
                            [CodeBlock [] (joinLF (first :: others) ++ [LF]) false]
                            [])).
    { unfold parseBlocks_step. rewrite H1, H2, Hfirst, H3, H4, H5, H6.
      cbn [paragraphLines length Nat.eqb negb andb lineIndex linesFrom skipn].
      unfold lines. cbn [skipn]. rewrite H7, indentedCodeLoop_indented.
      unfold str in *. rewrite Hpop. reflexivity. }
    assert (Hend : nth_error lines (S (length others)) = None).
    { apply nth_error_None. unfold lines. cbn [length]. rewrite length_map.
      apply Nat.le_refl. }
    unfold lines, str in *. rewrite Hstep. cbn [lineIndex]. rewrite Hend. reflexivity. }
  split; [exact Hblocks|]. unfold markdown, parse. rewrite Hblocks.
  transitivity (Some ((js "<pre><code>" ++ escapeHtml (joinLF codeLines ++ [LF])
                       ++ js "</code></pre>") ++ [LF])); [reflexivity|].
  f_equal. rewrite <- !app_assoc. reflexivity.
Qed.

(** *** The end of an extended autolink *)

Lemma trimLoop_suffix : forall r skip, exists pre, r = pre ++ trimLoop skip r.
Proof.
  induction r as [|c rest IH]; intro skip; [exists []; reflexivity|].
  assert (Hrec : forall k, exists pre, c :: rest = pre ++ trimLoop k rest).
  { intro k. destruct (IH k) as (pre & Hp). exists (c :: pre). cbn [app]. f_equal. exact Hp. }
  assert (Hstay : exists pre, c :: rest = pre ++ c :: rest) by (exists []; reflexivity).
  cbn [trimLoop]. destruct skip as [|k]; [|apply Hrec].
  destruct (memc c (js "?!.,:*_~" ++ [DQUOTE; SQUOTE])); [apply Hrec|].
  destruct (ceq c RPAREN && (countChar LPAREN (c :: rest) <? countChar RPAREN (c :: rest)));
    [apply Hrec|].
  destruct (ceq c SEMI); [|exact Hstay].
  destruct (span isAlnum rest) as [[|n name] [|amp tl]]; try exact Hstay.
  destruct (ceq amp AMP); [apply Hrec | exact Hstay].
Qed.

Lemma trimLoop_fixed : forall r skip, trimLoop 0 (trimLoop skip r) = trimLoop skip r.
Proof.
  induction r as [|c rest IH]; intro skip; [reflexivity|].
  cbn [trimLoop]. destruct skip as [|k]; [|apply IH].
  destruct (memc c (js "?!.,:*_~" ++ [DQUOTE; SQUOTE])) eqn:E1; [apply IH|].
  destruct (ceq c RPAREN && (countChar LPAREN (c :: rest) <? countChar RPAREN (c :: rest)))
    eqn:E2; [apply IH|].
  destruct (ceq c SEMI) eqn:E3.
  - destruct (span isAlnum rest) as [[|n name] [|amp tl]] eqn:E4;
      try (cbn [trimLoop]; rewrite E1, E2, E3, E4; reflexivity).
    destruct (ceq amp AMP) eqn:E5; [apply IH|].
    cbn [trimLoop]. rewrite E1, E2, E3, E4, E5. reflexivity.
  - cbn [trimLoop]. rewrite E1, E2, E3. reflexivity.
Qed.

Lemma trimLoop_head : forall r skip c rest,
  trimLoop skip r = c :: rest -> memc c (js "?!.,:*_~" ++ [DQUOTE; SQUOTE]) = false.
Proof.
  intros r skip c rest H. pose proof (trimLoop_fixed r skip) as Hfix. rewrite H in Hfix.
  cbn [trimLoop] in Hfix.
  destruct (memc c (js "?!.,:*_~" ++ [DQUOTE; SQUOTE])); [|reflexivity].
  destruct (trimLoop_suffix rest 0) as (pre & Hp).
  apply (f_equal (@length char)) in Hp. rewrite Hfix, length_app in Hp. cbn [length] in Hp.
  lia.
Qed.

(** X21: what [trimAutolinkPath] keeps of the text after an extended
    autolink is a prefix of it that holds no [<] and does not end in one of
    the characters [?!.,:*_~] or a quote; trimming it again changes
    nothing. *)
Theorem trimAutolinkPath_result : forall url,
  (exists rest, url = trimAutolinkPath url ++ rest)
  /\ ~ In LT (trimAutolinkPath url)
  /\ (forall s c, trimAutolinkPath url = s ++ [c] ->
        memc c (js "?!.,:*_~" ++ [DQUOTE; SQUOTE]) = false)
  /\ trimAutolinkPath (trimAutolinkPath url) = trimAutolinkPath url.
Proof.
  intro url. unfold trimAutolinkPath.
  set (result := fst (span (fun c => negb (ceq c LT)) url)).
  pose proof (span_forallb (fun c => negb (ceq c LT)) url) as Hlt. fold result in Hlt.
  pose proof (span_app_eq (fun c => negb (ceq c LT)) url) as Hurl. fold result in Hurl.
  destruct (trimLoop_suffix (rev result) 0) as (pre & Hpre).
  set (t := trimLoop 0 (rev result)) in *.
  assert (Hres : result = rev t ++ rev pre).
  { rewrite <- rev_app_distr, <- Hpre, rev_involutive. reflexivity. }
  assert (Hnolt : forallb (fun c => negb (ceq c LT)) (rev t) = true).
  { rewrite Hres, forallb_app in Hlt. apply andb_true_iff in Hlt. apply Hlt. }
  split; [|split; [|split]].
  - exists (rev pre ++ snd (span (fun c => negb (ceq c LT)) url)).
    rewrite app_assoc, <- Hres. exact Hurl.
  - intro Hin. rewrite forallb_forall in Hnolt. apply Hnolt in Hin. discriminate.
  - intros s c Hs. apply (f_equal (@rev char)) in Hs.
    rewrite rev_involutive, rev_app_distr in Hs. cbn [rev app] in Hs.
    apply (trimLoop_head (rev result) 0 c (rev s)). exact Hs.
  - rewrite (span_no_stop _ _ Hnolt). cbn [fst]. rewrite rev_involutive.
    unfold t. rewrite trimLoop_fixed. reflexivity.
Qed.

(** *** Autolinks *)

Lemma span_spec : forall p (s a b : str),
  span p s = (a, b) -> s = a ++ b /\ forallb p a = true.
Proof.
  intros p s a b H. pose proof (span_app_eq p s) as H1. pose proof (span_forallb p s) as H2.
  rewrite H in H1, H2. auto.
Qed.

Lemma matchEmailDomain_spec : forall fuel s dom,
  matchEmailDomain fuel s = Some dom ->
  exists rest, s = dom ++ GT :: rest
    /\ forallb (fun c => isDomainLabelChar c || ceq c DOT) dom = true
    /\ dom <> [].
Proof.
  induction fuel as [|fuel IH]; intros s dom H; cbn [matchEmailDomain] in H; [discriminate|].
  destruct (span isDomainLabelChar s) as [l r] eqn:Es.
  destruct (span_spec _ _ _ _ Es) as (Hs & Hl).
  destruct (isDomainLabel l) eqn:El; [|discriminate].
  assert (Hne : l <> []) by (intros ->; discriminate).
  assert (Hl' : forallb (fun c => isDomainLabelChar c || ceq c DOT) l = true).
  { eapply forallb_weaken; [|exact Hl]. intros c Hc. rewrite Hc. reflexivity. }
  destruct r as [|c r']; [discriminate|].
  destruct (ceq c GT) eqn:Eg.
  - injection H as <-. apply ceq_eq in Eg. subst c. exists r'. auto.
  - destruct (ceq c DOT) eqn:Ed; [|discriminate].
    destruct (matchEmailDomain fuel r') as [more|] eqn:Em; [|discriminate].
    injection H as <-. destruct (IH _ _ Em) as (rest & Hr & Hm & _).
    exists rest. split; [|split].
    + rewrite Hs, Hr, <- !app_assoc. reflexivity.
    + rewrite forallb_app, Hl'. cbn [app forallb andb]. rewrite Ed, orb_true_r, Hm.
      reflexivity.
    + intro E. apply app_eq_nil in E. destruct E as [E _]. exact (Hne E).
Qed.

(** X22: what [parseAutolink] accepts is an autolink: a [<], a body that
    holds no white space, no [<] and no [>], and a [>].  The length returned
    covers exactly these; the text of the link is the body, and its
    destination the body, after [mailto:] for an address. *)
Theorem parseAutolink_shape : forall text pos node len,
  parseAutolink text pos = Some (node, len) ->
  exists body rest,
    sliceFrom text pos = LT :: body ++ GT :: rest
    /\ len = length body + 2
    /\ body <> []
    /\ forallb (fun c => negb (isJsSpace c || ceq c LT || ceq c GT)) body = true
    /\ (node = Link body [] [Text body false false None]
        \/ node = Link (js "mailto:" ++ body) [] [Text body false false None]).
Proof.
  intros text pos node len H. unfold parseAutolink in H.
  destruct (charIs text pos LT); [|discriminate]. cbn [negb] in H.
  set (remaining := sliceFrom text pos) in *.
  destruct (matchAutolinkUri remaining) as [uri|] eqn:Eu.
  - injection H as <- <-. unfold matchAutolinkUri in Eu.
    destruct remaining as [|lt [|a r]]; try discriminate.
    destruct (ceq lt LT && isAlpha a) eqn:E1; [|discriminate].
    apply andb_true_iff in E1 as [Elt Ea]. apply ceq_eq in Elt. subst lt.
    destruct (span isSchemeChar r) as [scheme r1] eqn:Es.
    destruct (span_spec _ _ _ _ Es) as (Hr & Hscheme).
    destruct ((1 <=? length scheme) && (length scheme <=? 31)); [|discriminate].
    destruct r1 as [|colon r2]; [discriminate|].
    destruct (ceq colon COLON) eqn:Ec; [|discriminate]. apply ceq_eq in Ec. subst colon.
    destruct (span (fun c => negb (isJsSpace c || ceq c LT || ceq c GT)) r2) as [body r3] eqn:Eb.
    destruct (span_spec _ _ _ _ Eb) as (Hr2 & Hbody).
    destruct r3 as [|gt r4]; [discriminate|].
    destruct (ceq gt GT) eqn:Eg; [|discriminate]. apply ceq_eq in Eg. subst gt.
    injection Eu as <-. exists (a :: scheme ++ [COLON] ++ body), r4.
    split; [|split; [|split; [|split]]].
    + rewrite Hr, Hr2. cbn [app]. rewrite <- !app_assoc. reflexivity.
    + reflexivity.
    + discriminate.
    + cbn [forallb]. rewrite !forallb_app, Hbody. cbn [forallb].
      assert (Ha : negb (isJsSpace a || ceq a LT || ceq a GT) = true).
      { unfold isAlpha, isUpper, isLower, isJsSpace, inRange, ceq, LT, GT in *. lia. }
      rewrite Ha. change (negb (isJsSpace COLON || ceq COLON LT || ceq COLON GT)) with true.
      cbn [andb]. rewrite andb_true_r. eapply forallb_weaken; [|exact Hscheme].
      intros c Hc. unfold isSchemeChar, isAlnum, isAlpha, isUpper, isLower, isDigit,
        isJsSpace, inRange, ceq, PLUS, DOT, DASH, LT, GT in *. lia.
    + left. reflexivity.
  - destruct (matchAutolinkEmail remaining) as [email|] eqn:Ee; [|discriminate].
    injection H as <- <-. unfold matchAutolinkEmail in Ee.
    destruct remaining as [|lt r]; [discriminate|].
    destruct (ceq lt LT) eqn:Elt; [|discriminate]. apply ceq_eq in Elt. subst lt.
    destruct (span isEmailLocalChar r) as [loc r1] eqn:El.
    destruct (span_spec _ _ _ _ El) as (Hr & Hloc).
    destruct loc as [|l0 loc]; [discriminate|].
    destruct r1 as [|at_ r2]; [discriminate|].
    destruct (ceq at_ 64) eqn:Eat; [|discriminate]. apply ceq_eq in Eat. subst at_.
    destruct (matchEmailDomain (S (length r2)) r2) as [dom|] eqn:Ed; [|discriminate].
    injection Ee as <-. destruct (matchEmailDomain_spec _ _ _ Ed) as (rest & Hr2 & Hdom & _).
    exists ((l0 :: loc) ++ [64%Z] ++ dom), rest.
    split; [|split; [|split; [|split]]].
    + rewrite Hr, Hr2. rewrite <- !app_assoc. reflexivity.
    + reflexivity.
    + discriminate.
    + rewrite !forallb_app. apply andb_true_iff. split; [|apply andb_true_iff; split].
      * eapply forallb_weaken; [|exact Hloc]. intros c Hc.
        unfold isEmailLocalChar, memc in Hc. cbn [js existsb] in Hc.
        unfold isAlnum, isAlpha, isUpper, isLower, isDigit, isJsSpace, inRange, ceq,
          LT, GT in *. cbn in Hc. lia.
      * reflexivity.
      * eapply forallb_weaken; [|exact Hdom]. intros c Hc.
        unfold isDomainLabelChar, isAlnum, isAlpha, isUpper, isLower, isDigit,
          isJsSpace, inRange, ceq, DOT, DASH, LT, GT in *. lia.
    + right. reflexivity.
Qed.

(** *** Headings *)

Lemma parseAtxHeading_plain : forall level title,
  1 <= level -> level <= 6 ->
  plainLine title = true -> forallb isDot title = true ->
  endsWith title [HASH] = false ->
  parseAtxHeading (repeat HASH level ++ SP :: title) = Some (level, title).
Proof.
  intros level title H1 H6 Hp Hdot Hhash.
  destruct (plainLine_head title Hp) as (c & r & Et & Hc & _).
  destruct (plainLine_last title Hp) as (s & x & Es & Hx).
  unfold parseAtxHeading.
  assert (Hstrip : stripUpTo3Spaces (repeat HASH level ++ SP :: title)
                   = repeat HASH level ++ SP :: title).
  { destruct level as [|k]; [lia|]. reflexivity. }
  rewrite Hstrip.
  assert (Hspan : span (fun c => ceq c HASH) (repeat HASH level ++ SP :: title)
                  = (repeat HASH level, SP :: title)).
  { clear. induction level as [|k IH]; [reflexivity|]. cbn [repeat app span].
    change (ceq HASH HASH) with true. cbn iota. rewrite IH. reflexivity. }
  rewrite Hspan, repeat_length.
  replace (1 <=? level) with true by (symmetry; apply Nat.leb_le; lia).
  replace (level <=? 6) with true by (symmetry; apply Nat.leb_le; lia).
  cbn [andb]. change (isSpaceTab SP) with true. rewrite Hdot. cbn [andb].
  assert (Hx1 : isSpaceTab x = false).
  { unfold isSpaceTab, isJsSpace, inRange, ceq, SP, TAB in *. lia. }
  assert (Hx2 : ceq x HASH = false).
  { destruct (ceq x HASH) eqn:E; [|reflexivity]. apply ceq_eq in E. subst x.
    rewrite Es in Hhash. unfold endsWith in Hhash. rewrite rev_app_distr in Hhash.
    cbn [rev app startsWith] in Hhash. discriminate Hhash. }
  assert (Hclose : stripClosingHashes (SP :: title) = SP :: title).
  { unfold stripClosingHashes. rewrite Es.
    change (SP :: s ++ [x]) with ((SP :: s) ++ [x]).
    rewrite (dropWhileEnd_last_kept isSpaceTab (SP :: s) x Hx1).
    rewrite (dropWhileEnd_last_kept (fun c => ceq c HASH) (SP :: s) x Hx2).
    rewrite Nat.ltb_irrefl. reflexivity. }
  rewrite Hclose. do 2 f_equal. unfold trim, trimStart, trimEnd. cbn [dropWhile].
  change (isJsSpace SP) with true. cbn iota. rewrite Et. cbn [dropWhile].
  assert (Hjs : isJsSpace c = false).
  { unfold isAlpha, isUpper, isLower, isJsSpace, inRange, ceq in *. lia. }
  rewrite Hjs, <- Et, Es. apply dropWhileEnd_last_kept. exact Hx.
Qed.

(** X23: a line of one to six [#], a space and plain text is a heading of
    that level with that text: the rendered document is the text between
    the tags of the level.  The text holds no line or paragraph separator
    (U+2028, U+2029) and does not end in [#], which would be read as a
    closing sequence. *)
Theorem atx_heading_of_plain_text : forall depth level title,
  1 <= level -> level <= 6 ->
  plainLine title = true -> forallb isDot title = true ->
  endsWith title [HASH] = false ->
  parse (S depth) (repeat HASH level ++ SP :: title) =
    Some [Heading level [createTextNode title]]
  /\ markdown (S depth) (repeat HASH level ++ SP :: title) =
     Some (tag (js "h" ++ numberToString (Z.of_nat level)) title ++ [LF]).
Proof.
  intros depth level title H1 H6 Hp Hdot Hhash.
  set (line := repeat HASH level ++ SP :: title).
  assert (Hsafe : forallb safeLine [line] = true).
  { cbn [forallb]. rewrite andb_true_r. unfold line, safeLine.
    rewrite forallb_app. apply andb_true_iff. split.
    - apply forallb_forall. intros x Hx. apply repeat_spec in Hx. subst x. reflexivity.
    - cbn [forallb]. change (safeChar SP) with true. cbn [andb].
      apply (plainLine_safe title Hp). }
  assert (Hblocks : BlockParser_parse (S depth) line = Some ([Heading level title], [])).
  { cbn [BlockParser_parse]. unfold parseWith.
    change (splitLF (normalizeLineEndings line)) with (linesOf (joinLF [line])).
    pose proof (linesOf_joinLF line [] Hsafe) as Hlines. unfold str in *. rewrite Hlines.
    unfold parseBlocks. cbn [length parseBlocks_loop lineIndex nth_error].
    assert (Hstep : parseBlocks_step (BlockParser_parse depth) [line] line
                      (mkPState 0 [] [] []) =
                    Some (mkPState 1 [] [Heading level title] [])).
    { pose proof (parseAtxHeading_plain level title H1 H6 Hp Hdot Hhash) as Hatx.
      fold line in Hatx.
      assert (Ht : startsWith line [LAZY_PREFIX] = false /\ isBlank line = false
                   /\ isThematicBreak line = false).
      { unfold line. destruct level as [|k]; [lia|]. repeat split. }
      destruct Ht as (Ht1 & Ht2 & Ht3).
      unfold parseBlocks_step. rewrite Ht1, Ht2, Ht3, Hatx. reflexivity. }
    rewrite Hstep. reflexivity. }
  assert (Hparse : parse (S depth) line = Some [Heading level [createTextNode title]]).
  { unfold parse. rewrite Hblocks. cbn [mapOpt processBlock]. unfold inlineChildren.
    destruct (plainLine_head title Hp) as (c & r & Et & _ & _).
    rewrite Et at 1.
    change title with (joinLF [title]).
    rewrite (InlineParser_parse_plain [] [title]);
      [reflexivity | discriminate | cbn [forallb]; rewrite Hp; reflexivity]. }
  split; [exact Hparse|]. unfold markdown. rewrite Hparse.
  unfold render, renderBlocks, renderBlock. cbn [map renderBlockWith].
  change [createTextNode title] with (plainNodes [title]).
  rewrite (renderInlines_plain [title]) by (cbn [forallb]; rewrite Hp; reflexivity).
  reflexivity.
Qed.

(** *** Emphasis *)

Lemma runLength_repeat_app : forall c n (r : str),
  startsWith r [c] = false -> runLength c (repeat c n ++ r) = n.
Proof.
  intros c n r Hr. unfold runLength. induction n as [|n IH].
  - cbn [repeat app]. destruct r as [|t b]; [reflexivity|]. cbn [startsWith] in Hr.
    rewrite andb_true_r in Hr. cbn [span]. unfold ceq in *. rewrite Z.eqb_sym, Hr. reflexivity.
  - cbn [repeat app span]. unfold ceq at 1. rewrite Z.eqb_refl.
    destruct (span (fun d => ceq d c) (repeat c n ++ r)) as [a b]. cbn [fst length] in *.
    rewrite IH. reflexivity.
Qed.

(** A run of [*] becomes a text node of its own, marked as a delimiter. *)
Lemma parse_step_stars : forall refs text st n r,
  sliceFrom text (pos st) = repeat STAR (S n) ++ r -> startsWith r [STAR] = false ->
  parse_step refs text st =
  Some (setPos (pos st + S n)
          (pushNode (Text (repeat STAR (S n)) false false (Some (S n))) (flushText st))).
Proof.
  intros refs text st n r Hs Hr. unfold parse_step.
  assert (Hs' : sliceFrom text (pos st) = STAR :: repeat STAR n ++ r) by exact Hs.
  pose proof (charAt_sliceFrom _ _ _ _ Hs') as H. rewrite H.
  rewrite (parseEscape_other _ _ _ H eq_refl), (parseEntity_other _ _ _ H eq_refl).
  change (ceq STAR BACKTICK) with false. change (ceq STAR LT) with false.
  change (ceq STAR SP) with false. change (ceq STAR LF) with false.
  change (ceq STAR STAR) with true. cbn [orb]. cbv iota.
  unfold parseDelimiterRun. rewrite H. change (ceq STAR STAR) with true. cbn [orb]. cbv iota.
  rewrite runLen_flanking, Hs, (runLength_repeat_app STAR (S n) r Hr).
  unfold slice. replace (pos st + S n - pos st) with (S n) by lia.
  fold (sliceFrom text (pos st)). rewrite Hs.
  rewrite firstn_app, repeat_length, Nat.sub_diag, firstn_all2 by (rewrite repeat_length; lia).
  cbn [firstn]. rewrite app_nil_r. reflexivity.
Qed.

Lemma parse_loop_starred : forall refs n word,
  plainLine word = true ->
  exists st, parse_loop refs (repeat STAR (S n) ++ word ++ repeat STAR (S n))
               (length (repeat STAR (S n) ++ word ++ repeat STAR (S n)))
               (mkIState [] [] 0 []) = Some st
             /\ nodes (flushText st) =
                [Text (repeat STAR (S n)) false false (Some (S n)); createTextNode word;
                 Text (repeat STAR (S n)) false false (Some (S n))].
Proof.
  intros refs n word Hp.
  destruct (plainLine_head word Hp) as (c & w & Ew & Hc & Hi).
  pose proof (plainLine_no_final_space word Hp) as Hend.
  set (stars := repeat STAR (S n)). set (text := stars ++ word ++ stars).
  assert (Hlen : length text = S n + length word + S n).
  { unfold text, stars. rewrite !length_app, !repeat_length. lia. }
  rewrite Hlen.
  assert (Hword : startsWith (word ++ stars) [STAR] = false).
  { rewrite Ew. cbn [app startsWith]. rewrite (alpha_not_sym c STAR Hc eq_refl). reflexivity. }
  (* the opening run *)
  cbn [Nat.add parse_loop pos]. replace (0 <? length text) with true
    by (symmetry; apply Nat.ltb_lt; lia).
  rewrite (parse_step_stars refs text (mkIState [] [] 0 []) n (word ++ stars) eq_refl Hword).
  match goal with |- context [parse_loop _ _ _ ?s] => set (st1 := s) end.
  (* the word *)
  assert (Hs1 : sliceFrom text (pos st1) = word ++ stars).
  { unfold st1, setPos. cbn [pos Nat.add]. rewrite <- (repeat_length STAR (S n)).
    apply (sliceFrom_app_exact stars (word ++ stars)). }
  rewrite (parse_loop_line_tail refs text word stars (n + length word + S n) st1 Hs1 Hi Hend
             eq_refl ltac:(lia)).
  replace (n + length word + S n - length word) with (S (n + n)) by lia.
  match goal with |- context [parse_loop _ _ _ ?s] => set (st2 := s) end.
  (* the closing run *)
  assert (Hs2 : sliceFrom text (pos st2) = stars ++ []).
  { unfold st2, setPos. cbn [pos]. rewrite app_nil_r. apply (sliceFrom_add _ _ _ _ Hs1). }
  cbn [parse_loop].
  replace (pos st2 <? length text) with true.
  2:{ symmetry. apply Nat.ltb_lt. unfold st2, st1, setPos. cbn [pos]. lia. }
  rewrite (parse_step_stars refs text st2 n [] Hs2 eq_refl).
  rewrite parse_loop_done.
  2:{ unfold st2, st1, setPos, pushNode. cbn [pos]. lia. }
  eexists. split; [reflexivity|].
  unfold st2, st1, flushText, setPos, pushNode, addText.
  cbn [nodes bracketStack pos textBuffer length Nat.ltb Nat.leb app].
  rewrite Ew. reflexivity.
Qed.

Lemma getFirstChar_plain : forall word,
  plainLine word = true -> isWhitespaceChar (getFirstChar word) = false.
Proof.
  intros word Hp. destruct (plainLine_head word Hp) as (c & w & -> & Hc & _).
  assert (Hjs : isJsSpace c = false)
    by (unfold isAlpha, isUpper, isLower, isJsSpace, inRange, ceq in *; lia).
  assert (Hlf : ceq c LF = false) by (apply (alpha_not c LF Hc eq_refl)).
  assert (Hhi : isHighSurrogate c = false)
    by (unfold isAlpha, isUpper, isLower, isHighSurrogate, inRange in *; lia).
  unfold getFirstChar. destruct w as [|d w]; [|rewrite Hhi; cbn [andb]];
    unfold isWhitespaceChar; cbn [existsb str_eqb]; rewrite Hjs, Hlf; reflexivity.
Qed.

Lemma getLastChar_plain : forall word,
  plainLine word = true -> isWhitespaceChar (getLastChar word) = false.
Proof.
  intros word Hp. destruct (plainLine_last word Hp) as (s & x & -> & Hx).
  destruct (plainLine_head _ Hp) as (_ & _ & _ & _ & Hi).
  rewrite forallb_app in Hi. apply andb_true_iff in Hi as [_ Hi]. cbn [forallb] in Hi.
  rewrite andb_true_r in Hi.
  assert (Hlf : ceq x LF = false) by (apply (isInert_facts x Hi)).
  unfold getLastChar. rewrite rev_app_distr. cbn [rev app].
  destruct (rev s) as [|hi rs].
  - unfold isWhitespaceChar. cbn [existsb str_eqb]. rewrite Hx, Hlf. reflexivity.
  - destruct (isHighSurrogate hi && isLowSurrogate x) eqn:E.
    + apply andb_true_iff in E as [Eh _].
      assert (Hh : isJsSpace hi = false)
        by (unfold isHighSurrogate, isJsSpace, inRange, ceq in *; lia).
      unfold isWhitespaceChar. cbn [existsb str_eqb]. rewrite Hh, Hx.
      cbn [orb]. rewrite andb_false_r. reflexivity.
    + unfold isWhitespaceChar. cbn [existsb str_eqb]. rewrite Hx, Hlf. reflexivity.
Qed.

Lemma processEmphasis_starred : forall word,
  plainLine word = true ->
  processEmphasis [Text [STAR] false false (Some 1); createTextNode word;
                   Text [STAR] false false (Some 1)]
    = Some [Emphasis [createTextNode word]]
  /\ processEmphasis [Text [STAR; STAR] false false (Some 2); createTextNode word;
                      Text [STAR; STAR] false false (Some 2)]
     = Some [Strong [createTextNode word]].
Proof.
  intros word Hp.
  pose proof (getFirstChar_plain word Hp) as Hf.
  pose proof (getLastChar_plain word Hp) as Hl.
  assert (Hd : isDelimLiteral word = false).
  { destruct (plainLine_head word Hp) as (c & r & -> & Hc & _). unfold isDelimLiteral.
    rewrite (alpha_not c STAR Hc eq_refl), (alpha_not c UNDERSCORE Hc eq_refl). reflexivity. }
  split.
  - unfold processEmphasis, createTextNode. cbn [buildNodeDelims].
    rewrite Hd, andb_false_r. cbn [length Nat.eqb negb andb isDelimLiteral forallb orb].
    change (ceq STAR STAR) with true. cbn [orb andb neighbourChar].
    rewrite (computeDelimiterRun_star_opening [STAR] (getFirstChar word) eq_refl Hf).
    rewrite (computeDelimiterRun_star_closing [STAR] (getLastChar word) eq_refl Hl).
    cbn. destruct (length word + 1); reflexivity.
  - unfold processEmphasis, createTextNode. cbn [buildNodeDelims].
    rewrite Hd, andb_false_r. cbn [length Nat.eqb negb andb isDelimLiteral forallb orb].
    change (ceq STAR STAR) with true. cbn [orb andb neighbourChar].
    rewrite (computeDelimiterRun_star_opening [STAR; STAR] (getFirstChar word) eq_refl Hf).
    rewrite (computeDelimiterRun_star_closing [STAR; STAR] (getLastChar word) eq_refl Hl).
    cbn. destruct (length word + 1); reflexivity.
Qed.

(** A line that starts with [*] and is no thematic break and no list item
    is paragraph text. *)
Lemma parseBlocks_step_star : forall subParse lines r st,
  forallb (fun d => ceq d STAR || isSpaceTab d) r = false ->
  matchSpacesAfter r = None ->
  parseBlocks_step subParse lines (STAR :: r) st =
  Some (advanceBy 1 (setParagraphLines (paragraphLines st ++ [STAR :: r]) st)).
Proof.
  intros subParse lines r st Hbreak Hitem. unfold parseBlocks_step.
  change (startsWith (STAR :: r) [LAZY_PREFIX]) with false.
  change (isBlank (STAR :: r)) with false.
  assert (H3 : isThematicBreak (STAR :: r) = false).
  { unfold isThematicBreak. change (stripUpTo3Spaces (STAR :: r)) with (STAR :: r).
    change (ceq STAR DASH || ceq STAR STAR || ceq STAR UNDERSCORE) with true.
    cbn [andb]. rewrite Hbreak. reflexivity. }
  rewrite H3.
  change (parseAtxHeading (STAR :: r)) with (@None (nat * str)).
  change (isSetextEqualsLine (STAR :: r)) with false. rewrite andb_false_r.
  change (parseFenceOpen (STAR :: r)) with (@None FenceInfo).
  change (getIndent (STAR :: r)) with 0. rewrite andb_false_r.
  change (isBlockquoteStart (STAR :: r)) with false.
  assert (H9 : parseListMarker (STAR :: r) = None).
  { unfold parseListMarker. change (spanUpTo 3 isSP (STAR :: r)) with (@nil char, STAR :: r).
    cbv iota. change (ceq STAR DASH || ceq STAR PLUS || ceq STAR STAR) with true.
    cbv iota. rewrite Hitem. reflexivity. }
  rewrite H9.
  assert (H10 : forall b, getHtmlBlockType (STAR :: r) b = None).
  { intro b. unfold getHtmlBlockType.
    change (stripUpTo3Spaces (STAR :: r)) with (STAR :: r).
    change (type1Open (STAR :: r)) with false.
    unfold type6Open, matchOpenTag, matchCloseTag. cbn [startsWith startsWithCI js].
    change (ceq STAR LT) with false.
    destruct r as [|d [|e r]]; destruct b; reflexivity. }
  rewrite H10. reflexivity.
Qed.

Lemma BlockParser_parse_starred : forall depth n word,
  plainLine word = true -> n <= 1 ->
  BlockParser_parse (S depth) (repeat STAR (S n) ++ word ++ repeat STAR (S n)) =
  Some ([Paragraph (repeat STAR (S n) ++ word ++ repeat STAR (S n))], []).
Proof.
  intros depth n word Hp Hn.
  destruct (plainLine_head word Hp) as (c & w & Ew & Hc & Hi).
  set (r := repeat STAR n ++ word ++ repeat STAR (S n)).
  change (repeat STAR (S n) ++ word ++ repeat STAR (S n)) with (STAR :: r).
  assert (Hsafe : forallb safeLine [STAR :: r] = true).
  { cbn [forallb]. rewrite andb_true_r. unfold safeLine, r. cbn [forallb].
    change (safeChar STAR) with true. cbn [andb].
    assert (Hst : forall k, forallb safeChar (repeat STAR k) = true)
      by (intro k; apply forallb_forall; intros x Hx; apply repeat_spec in Hx; subst x;
          reflexivity).
    rewrite !forallb_app, !Hst. cbn [andb]. rewrite andb_true_r.
    apply (plainLine_safe word Hp). }
  assert (Hbreak : forallb (fun d => ceq d STAR || isSpaceTab d) r = false).
  { unfold r. rewrite Ew. rewrite forallb_app. cbn [app forallb].
    rewrite (alpha_not c STAR Hc eq_refl).
    replace (isSpaceTab c) with false
      by (symmetry; unfold isSpaceTab;
          rewrite (alpha_not c SP Hc eq_refl), (alpha_not c TAB Hc eq_refl); reflexivity).
    cbn [orb andb]. apply andb_false_r. }
  assert (Hitem : matchSpacesAfter r = None).
  { unfold r. destruct n as [|k]; [|reflexivity]. rewrite Ew. cbn [repeat app matchSpacesAfter].
    rewrite (alpha_not c SP Hc eq_refl), (alpha_not c TAB Hc eq_refl). reflexivity. }
  assert (Hlast : exists s, STAR :: r = s ++ [STAR]).
  { unfold r. exists (STAR :: repeat STAR n ++ word ++ repeat STAR n).
    cbn [app]. f_equal. rewrite <- !app_assoc. do 2 f_equal. apply repeat_cons. }
  destruct Hlast as (s & Hs).
  cbn [BlockParser_parse]. unfold parseWith.
  change (splitLF (normalizeLineEndings (STAR :: r))) with (linesOf (joinLF [STAR :: r])).
  pose proof (linesOf_joinLF (STAR :: r) [] Hsafe) as Hlines. unfold str in *. rewrite Hlines.
  unfold parseBlocks. cbn [length parseBlocks_loop lineIndex nth_error].
  rewrite (parseBlocks_step_star _ _ r _ Hbreak Hitem).
  unfold advanceBy, setParagraphLines, finishParagraph.
  cbn [lineIndex paragraphLines children linkReferences Nat.add nth_error app].
  assert (Hstrip : stripLinkRefs [STAR :: r] [] = (STAR :: r, [])).
  { unfold stripLinkRefs, joinLF. cbn [join length extractLinkRefs].
    change (parseLinkReferenceDefinition (STAR :: r)) with (@None LinkRefResult).
    cbv iota. f_equal. unfold trim, trimStart, trimEnd. cbn [dropWhile].
    change (isJsSpace STAR) with false. cbv iota. rewrite Hs.
    apply dropWhileEnd_last_kept. reflexivity. }
  unfold str in *. rewrite Hstrip. reflexivity.
Qed.

(** X24: plain text between two [*] is emphasised, and between two [**]
    strongly emphasised: the rendered paragraph holds the text inside one
    [em], respectively [strong], element, and the stars are gone from the
    output. *)
Theorem emphasis_of_plain_text : forall depth word,
  plainLine word = true ->
  markdown (S depth) (js "*" ++ word ++ js "*") =
    Some (js "<p><em>" ++ word ++ js "</em></p>" ++ [LF])
  /\ markdown (S depth) (js "**" ++ word ++ js "**") =
     Some (js "<p><strong>" ++ word ++ js "</strong></p>" ++ [LF]).
Proof.
  intros depth word Hp.
  destruct (processEmphasis_starred word Hp) as (Hem & Hstrong).
  pose proof (escapeHtml_inert word) as Hesc.
  destruct (plainLine_head word Hp) as (c & w & Ew & Hc & Hi). specialize (Hesc Hi).
  assert (Hinline : forall n,
            InlineParser_parse [] (repeat STAR (S n) ++ word ++ repeat STAR (S n)) =
            processEmphasis [Text (repeat STAR (S n)) false false (Some (S n));
                             createTextNode word;
                             Text (repeat STAR (S n)) false false (Some (S n))]).
  { intro n. unfold InlineParser_parse.
    destruct (parse_loop_starred [] n word Hp) as (st & -> & ->). reflexivity. }
  split.
  - unfold markdown, parse.
    change (js "*" ++ word ++ js "*") with (repeat STAR 1 ++ word ++ repeat STAR 1).
    rewrite (BlockParser_parse_starred depth 0 word Hp (Nat.le_0_l 1)).
    cbn [mapOpt processBlock]. unfold inlineChildren. cbn [repeat app].
    change (STAR :: word ++ [STAR]) with (repeat STAR 1 ++ word ++ repeat STAR 1).
    rewrite (Hinline 0). cbn [repeat]. rewrite Hem. cbn [option_map].
    unfold render, renderBlocks, renderBlock. cbn [map renderBlockWith].
    unfold renderInlines, createTextNode. cbn [map renderInline joinOpt mapOpt option_map join].
    rewrite Hesc.
    transitivity (Some (tag (js "p") (js "<em>" ++ word ++ js "</em>") ++ [LF]));
      [reflexivity|].
    f_equal. unfold tag. rewrite <- !app_assoc. reflexivity.
  - unfold markdown, parse.
    change (js "**" ++ word ++ js "**") with (repeat STAR 2 ++ word ++ repeat STAR 2).
    rewrite (BlockParser_parse_starred depth 1 word Hp (Nat.le_refl 1)).
    cbn [mapOpt processBlock]. unfold inlineChildren. cbn [repeat app].
    change (STAR :: STAR :: word ++ [STAR; STAR])
      with (repeat STAR 2 ++ word ++ repeat STAR 2).
    rewrite (Hinline 1). cbn [repeat]. rewrite Hstrong. cbn [option_map].
    unfold render, renderBlocks, renderBlock. cbn [map renderBlockWith].
    unfold renderInlines, createTextNode. cbn [map renderInline joinOpt mapOpt option_map join].
    rewrite Hesc.
    transitivity (Some (tag (js "p") (js "<strong>" ++ word ++ js "</strong>") ++ [LF]));
      [reflexivity|].
    f_equal. unfold tag. rewrite <- !app_assoc. reflexivity.
Qed.

(** *** Inline links *)

Lemma isPlainUrlChar_facts : forall c,
  isPlainUrlChar c = true ->
  ceq c BSLASH = false /\ ceq c LPAREN = false /\ ceq c RPAREN = false
  /\ ceq c LT = false /\ ceq c GT = false /\ ceq c AMP = false /\ ceq c DQUOTE = false
  /\ isDestStop c = false /\ (c <? 32)%Z = false /\ isSpTabLf c = false
  /\ isUrlSafeChar c = true.
Proof.
  intros c H. unfold isPlainUrlChar, memc in H. cbn [js existsb] in H.
  assert (Hsafe : isUrlSafeChar c = true).
  { unfold isUrlSafeChar, memc. cbn [js existsb].
    unfold isAlnum, isAlpha, isUpper, isLower, isDigit, inRange, ceq in *. cbn in *. lia. }
  unfold isDestStop, isSpTabLf, isAlnum, isAlpha, isUpper, isLower, isDigit, inRange, ceq,
    BSLASH, LPAREN, RPAREN, LT, GT, AMP, DQUOTE, SP, TAB, LF, CR in *. cbn in H.
  repeat split; try lia. exact Hsafe.
Qed.

Lemma linkDestLoop_plain : forall url,
  forallb isPlainUrlChar url = true ->
  linkDestLoop 0 (url ++ [RPAREN]) = Some (length url).
Proof.
  induction url as [|c r IH]; intro H; [reflexivity|].
  cbn [forallb] in H. apply andb_true_iff in H as [Hc Hr].
  destruct (isPlainUrlChar_facts c Hc) as (H1 & H2 & H3 & _ & _ & _ & _ & H8 & H9 & _).
  cbn [app linkDestLoop length].
  destruct (r ++ [RPAREN]) as [|next r'] eqn:E.
  { destruct r; discriminate. }
  rewrite H1, H2, H3, H8, H9. cbn [orb]. rewrite (IH Hr). reflexivity.
Qed.

Lemma unescapeString_plain : forall s,
  forallb (fun c => negb (ceq c BSLASH)) s = true -> unescapeString s = s.
Proof.
  induction s as [|c s IH]; intro H; [reflexivity|]. cbn [forallb] in H.
  apply andb_true_iff in H as [Hc Hs]. apply negb_true_iff in Hc.
  cbn [unescapeString]. rewrite Hc, (IH Hs). reflexivity.
Qed.

Lemma decodeHtmlEntities_plain : forall s,
  forallb (fun c => negb (ceq c AMP)) s = true -> decodeHtmlEntities s = s.
Proof.
  unfold decodeHtmlEntities. induction s as [|c s IH]; intro H; [reflexivity|].
  cbn [forallb] in H. apply andb_true_iff in H as [Hc Hs]. apply negb_true_iff in Hc.
  rewrite decode_loop_nomatch; [rewrite (IH Hs); reflexivity|].
  unfold matchEntityRef. rewrite Hc. reflexivity.
Qed.

Lemma escapeHtml_id : forall s,
  forallb (fun c => negb (ceq c AMP || ceq c LT || ceq c GT || ceq c DQUOTE)) s = true ->
  escapeHtml s = s.
Proof.
  intros s H. unfold escapeHtml. rewrite escapeXml_pointwise.
  induction s as [|c s IH]; [reflexivity|]. cbn [forallb] in H.
  apply andb_true_iff in H as [Hc Hs]. cbn [flat_map]. apply negb_true_iff in Hc.
  repeat (apply orb_false_iff in Hc; destruct Hc as [Hc ?]).
  rewrite Hc, H1, H0, H, (IH Hs). reflexivity.
Qed.

Lemma plain_url : forall url,
  forallb isPlainUrlChar url = true ->
  decodeHtmlEntities (unescapeString url) = url
  /\ encodeUrl url = Some url
  /\ escapeHtml url = url.
Proof.
  intros url H. split; [|split].
  - rewrite unescapeString_plain, decodeHtmlEntities_plain; [reflexivity| |];
      (eapply forallb_weaken; [|exact H]); intros c Hc;
      destruct (isPlainUrlChar_facts c Hc) as (H1 & _ & _ & _ & _ & H6 & _);
      [rewrite H6 | rewrite H1]; reflexivity.
  - apply (encodeUrl_Encoded (length url) url (Nat.le_refl _)).
    induction url as [|c r IH]; [constructor|]. cbn [forallb] in H.
    apply andb_true_iff in H as [Hc Hr]. apply Encoded_safe; [|exact (IH Hr)].
    apply (isPlainUrlChar_facts c Hc).
  - apply escapeHtml_id. eapply forallb_weaken; [|exact H]. intros c Hc.
    destruct (isPlainUrlChar_facts c Hc) as (_ & _ & _ & H4 & H5 & H6 & H7 & _).
    rewrite H4, H5, H6, H7. reflexivity.
Qed.

Lemma skipWhile_stop : forall q text i c r,
  sliceFrom text i = c :: r -> q c = false -> skipWhile q text i = i.
Proof.
  intros q text i c r Hs Hq. unfold skipWhile. rewrite Hs. cbn [span]. rewrite Hq.
  cbn [fst length]. apply Nat.add_0_r.
Qed.

Lemma charIs_sliceFrom : forall text i c r d,
  sliceFrom text i = c :: r -> charIs text i d = ceq c d.
Proof.
  intros text i c r d Hs. unfold charIs. rewrite (charAt_sliceFrom _ _ _ _ Hs). reflexivity.
Qed.

(** [(url)] with a plain destination and nothing else. *)
Lemma parseInlineLink_plain : forall text p url,
  url <> [] -> forallb isPlainUrlChar url = true ->
  sliceFrom text p = LPAREN :: url ++ [RPAREN] ->
  parseInlineLink text p = Some (url, [], length url + 2).
Proof.
  intros text p url Hne Hurl Hs.
  destruct (plain_url url Hurl) as (Hdec & _ & _).
  destruct url as [|c r]; [congruence|].
  pose proof Hurl as Hc. cbn [forallb] in Hc. apply andb_true_iff in Hc as [Hc _].
  destruct (isPlainUrlChar_facts c Hc) as (_ & H2 & H3 & H4 & _ & _ & _ & _ & _ & H10 & _).
  assert (Hs1 : sliceFrom text (p + 1) = c :: r ++ [RPAREN])
    by (rewrite Nat.add_1_r; apply (sliceFrom_S _ _ _ _ Hs)).
  assert (Hs2 : sliceFrom text (p + 1 + length (c :: r)) = [RPAREN])
    by (apply (sliceFrom_add text (p + 1) (c :: r) [RPAREN] Hs1)).
  unfold parseInlineLink.
  rewrite (charIs_sliceFrom _ _ _ _ LPAREN Hs). change (ceq LPAREN LPAREN) with true.
  cbn [negb]. cbv iota.
  rewrite (skipWhile_stop isSpTabLf text (p + 1) c _ Hs1 H10).
  rewrite (charIs_sliceFrom _ _ _ _ RPAREN Hs1), H3, Hs1.
  unfold parseLinkDestination.
  replace (startsWith (c :: r ++ [RPAREN]) [LT]) with false.
  2:{ cbn [startsWith]. unfold ceq in *. rewrite Z.eqb_sym, H4. reflexivity. }
  change (c :: r ++ [RPAREN]) with ((c :: r) ++ [RPAREN]).
  rewrite (linkDestLoop_plain (c :: r) Hurl). cbn [length].
  change (S (length r)) with (length (c :: r)).
  rewrite firstn_app, Nat.sub_diag, firstn_all. cbn [firstn]. rewrite app_nil_r, Hdec.
  rewrite (skipWhile_stop isSpaceTab text _ RPAREN [] Hs2 eq_refl).
  rewrite (charIs_sliceFrom _ _ _ _ LF Hs2). change (ceq RPAREN LF) with false. cbv iota.
  rewrite (charIs_sliceFrom _ _ _ _ DQUOTE Hs2), (charIs_sliceFrom _ _ _ _ SQUOTE Hs2),
    (charIs_sliceFrom _ _ _ _ LPAREN Hs2).
  change (ceq RPAREN DQUOTE || ceq RPAREN SQUOTE || ceq RPAREN LPAREN) with false. cbv iota.
  rewrite (skipWhile_stop isSpTabLf text _ RPAREN [] Hs2 eq_refl).
  rewrite (charIs_sliceFrom _ _ _ _ RPAREN Hs2). change (ceq RPAREN RPAREN) with true.
  cbv iota. do 2 f_equal. lia.
Qed.

Lemma matchLabelBody_inert : forall txt n rest,
  forallb isInert txt = true ->
  matchLabelBody n (txt ++ RBRACKET :: rest) = None
  \/ matchLabelBody n (txt ++ RBRACKET :: rest) = Some (txt, S (length txt)).
Proof.
  induction txt as [|c l IH]; intros n rest H.
  - right. destruct n; reflexivity.
  - cbn [forallb] in H. apply andb_true_iff in H as [Hc Hl].
    destruct (isInert_facts c Hc) as (H1 & _ & _ & _ & _ & _ & _ & _ & H9 & H10 & _).
    cbn [app length]. destruct n as [|n']; cbn [matchLabelBody]; rewrite H10, H9, H1;
      [left; reflexivity|].
    destruct (IH n' rest Hl) as [-> | ->]; [left | right]; reflexivity.
Qed.

Lemma parseLinkReferenceDefinition_link : forall txt rest,
  forallb isInert txt = true ->
  parseLinkReferenceDefinition (LBRACKET :: txt ++ RBRACKET :: LPAREN :: rest) = None.
Proof.
  intros txt rest H. unfold parseLinkReferenceDefinition.
  change (spanUpTo 3 (fun c => ceq c SP) (LBRACKET :: txt ++ RBRACKET :: LPAREN :: rest))
    with (@nil char, LBRACKET :: txt ++ RBRACKET :: LPAREN :: rest).
  cbn [fst length sliceFrom skipn matchLinkLabel]. change (ceq LBRACKET LBRACKET) with true.
  cbv iota.
  destruct (matchLabelBody_inert txt 999 (LPAREN :: rest) H) as [-> | ->]; [reflexivity|].
  destruct (isBlank txt); [reflexivity|].
  replace (charIs (LBRACKET :: txt ++ RBRACKET :: LPAREN :: rest)
             (0 + S (S (length txt))) COLON) with false; [reflexivity|].
  unfold charIs, charAt. cbn [Nat.add].
  change (nth_error (LBRACKET :: txt ++ RBRACKET :: LPAREN :: rest) (S (S (length txt))))
    with (nth_error (txt ++ RBRACKET :: LPAREN :: rest) (S (length txt))).
  rewrite nth_error_app2 by lia.
  replace (S (length txt) - length txt) with 1 by lia. reflexivity.
Qed.

Lemma parseBlocks_step_bracket : forall subParse lines r st,
  parseBlocks_step subParse lines (LBRACKET :: r) st =
  Some (advanceBy 1 (setParagraphLines (paragraphLines st ++ [LBRACKET :: r]) st)).
Proof.
  intros subParse lines r st. unfold parseBlocks_step.
  change (startsWith (LBRACKET :: r) [LAZY_PREFIX]) with false.
  change (isBlank (LBRACKET :: r)) with false.
  change (isThematicBreak (LBRACKET :: r)) with false.
  change (parseAtxHeading (LBRACKET :: r)) with (@None (nat * str)).
  change (isSetextEqualsLine (LBRACKET :: r)) with false. rewrite andb_false_r.
  change (parseFenceOpen (LBRACKET :: r)) with (@None FenceInfo).
  change (getIndent (LBRACKET :: r)) with 0. rewrite andb_false_r.
  change (isBlockquoteStart (LBRACKET :: r)) with false.
  change (parseListMarker (LBRACKET :: r)) with (@None ListMarker).
  assert (H10 : forall b, getHtmlBlockType (LBRACKET :: r) b = None).
  { intro b. unfold getHtmlBlockType.
    change (stripUpTo3Spaces (LBRACKET :: r)) with (LBRACKET :: r).
    change (type1Open (LBRACKET :: r)) with false.
    unfold type6Open, matchOpenTag, matchCloseTag. cbn [startsWith startsWithCI js].
    change (ceq LBRACKET LT) with false.
    destruct r as [|d [|e r]]; destruct b; reflexivity. }
  rewrite H10. change (4 <=? 0) with false. rewrite andb_false_r. reflexivity.
Qed.

(** A line that the block parser takes for paragraph text and that holds no
    link reference definition is a paragraph of its own. *)
Lemma BlockParser_parse_one_paragraph : forall depth first r last,
  safeLine (first :: r ++ [last]) = true ->
  isJsSpace first = false -> isJsSpace last = false ->
  (forall subParse lines st,
     parseBlocks_step subParse lines (first :: r ++ [last]) st =
     Some (advanceBy 1 (setParagraphLines (paragraphLines st ++ [first :: r ++ [last]]) st))) ->
  parseLinkReferenceDefinition (first :: r ++ [last]) = None ->
  BlockParser_parse (S depth) (first :: r ++ [last]) =
  Some ([Paragraph (first :: r ++ [last])], []).
Proof.
  intros depth first r last Hsafe Hfirst Hlast Hstep Hdef.
  set (line := first :: r ++ [last]) in *.
  cbn [BlockParser_parse]. unfold parseWith.
  change (splitLF (normalizeLineEndings line)) with (linesOf (joinLF [line])).
  assert (Hsafe' : forallb safeLine [line] = true) by (cbn [forallb]; rewrite Hsafe; reflexivity).
  pose proof (linesOf_joinLF line [] Hsafe') as Hlines. unfold str in *. rewrite Hlines.
  unfold parseBlocks. cbn [length parseBlocks_loop lineIndex nth_error].
  rewrite Hstep.
  unfold advanceBy, setParagraphLines, finishParagraph.
  cbn [lineIndex paragraphLines children linkReferences Nat.add nth_error app].
  assert (Hstrip : stripLinkRefs [line] [] = (line, [])).
  { unfold stripLinkRefs, joinLF. cbn [join]. unfold line at 1 2. cbn [length extractLinkRefs].
    fold line. rewrite Hdef. f_equal. unfold trim, trimStart, trimEnd, line. cbn [dropWhile].
    rewrite Hfirst. change (first :: r ++ [last]) with ((first :: r) ++ [last]).
    apply dropWhileEnd_last_kept. exact Hlast. }
  unfold str in *. rewrite Hstrip. reflexivity.
Qed.

Lemma parse_step_open_bracket : forall refs text r,
  sliceFrom text 0 = LBRACKET :: r ->
  parse_step refs text (mkIState [] [] 0 []) =
  Some (mkIState [createTextNode [LBRACKET]] [mkBracket LinkBracket 0 true 1] 1 []).
Proof.
  intros refs text r Hs. unfold parse_step. cbn [pos].
  pose proof (charAt_sliceFrom _ _ _ _ Hs) as H. rewrite H.
  rewrite (parseEscape_other _ _ _ H eq_refl), (parseEntity_other _ _ _ H eq_refl).
  reflexivity.
Qed.

(** The closing bracket of [[txt](url)]: the nodes after the opening
    bracket become the children of a link. *)
Lemma parse_step_close_link : forall refs text txt url,
  plainLine txt = true -> url <> [] -> forallb isPlainUrlChar url = true ->
  sliceFrom text (1 + length txt) = RBRACKET :: LPAREN :: url ++ [RPAREN] ->
  parse_step refs text
    (mkIState [createTextNode [LBRACKET]] [mkBracket LinkBracket 0 true 1]
       (1 + length txt) txt) =
  Some (mkIState [Link url [] [createTextNode txt]] []
          (1 + length txt + (1 + (length url + 2))) []).
Proof.
  intros refs text txt url Hp Hne Hurl Hs. unfold parse_step. cbn [pos bracketStack].
  pose proof (charAt_sliceFrom _ _ _ _ Hs) as H. rewrite H.
  rewrite (parseEscape_other _ _ _ H eq_refl), (parseEntity_other _ _ _ H eq_refl).
  change (ceq RBRACKET BACKTICK) with false. change (ceq RBRACKET LT) with false.
  change (ceq RBRACKET SP) with false. change (ceq RBRACKET LF) with false.
  change (ceq RBRACKET STAR || ceq RBRACKET UNDERSCORE) with false.
  change (ceq RBRACKET BANG) with false. change (ceq RBRACKET LBRACKET) with false.
  change (ceq RBRACKET RBRACKET) with true. cbn [andb]. cbv iota.
  destruct (plainLine_head txt Hp) as (c & w & Ew & _ & _).
  assert (Hflush : flushText (mkIState [createTextNode [LBRACKET]]
                                [mkBracket LinkBracket 0 true 1] (1 + length txt) txt)
                   = mkIState [createTextNode [LBRACKET]; createTextNode txt]
                       [mkBracket LinkBracket 0 true 1] (1 + length txt) []).
  { unfold flushText. cbn [textBuffer nodes bracketStack pos app]. rewrite Ew. reflexivity. }
  assert (Hs1 : sliceFrom text (1 + length txt + 1) = LPAREN :: url ++ [RPAREN])
    by (rewrite Nat.add_1_r; apply (sliceFrom_S _ _ _ _ Hs)).
  unfold closeBracket. rewrite Hflush. cbn [pos active negb nodes nodeIndex bracketType textBuffer].
  rewrite (charIs_sliceFrom _ _ _ _ LPAREN Hs1). change (ceq LPAREN LPAREN) with true.
  cbv iota. rewrite (parseInlineLink_plain text _ url Hne Hurl Hs1). cbv iota.
  cbn [Nat.add skipn firstn removelast app].
  change [createTextNode txt] with (plainNodes [txt]).
  rewrite (processEmphasis_plain [txt]) by (cbn [forallb]; rewrite Hp; reflexivity).
  reflexivity.
Qed.

Lemma InlineParser_parse_link : forall refs txt url,
  plainLine txt = true -> url <> [] -> forallb isPlainUrlChar url = true ->
  InlineParser_parse refs (LBRACKET :: txt ++ RBRACKET :: LPAREN :: url ++ [RPAREN]) =
  Some [Link url [] [createTextNode txt]].
Proof.
  intros refs txt url Hp Hne Hurl.
  destruct (plainLine_head txt Hp) as (c & w & Ew & Hc & Hi).
  pose proof (plainLine_no_final_space txt Hp) as Hend.
  set (post := RBRACKET :: LPAREN :: url ++ [RPAREN]).
  set (text := LBRACKET :: txt ++ post).
  assert (Hlen : length text = S (length txt + (2 + (length url + 1)))).
  { unfold text, post. cbn [length]. rewrite length_app. cbn [length].
    rewrite length_app. cbn [length]. lia. }
  unfold InlineParser_parse. rewrite Hlen. cbn [parse_loop pos].
  replace (0 <? length text) with true by (symmetry; apply Nat.ltb_lt; lia).
  rewrite (parse_step_open_bracket refs text (txt ++ post) eq_refl).
  set (st1 := mkIState [createTextNode [LBRACKET]] [mkBracket LinkBracket 0 true 1] 1 []).
  assert (Hs1 : sliceFrom text (pos st1) = txt ++ post) by reflexivity.
  rewrite (parse_loop_line_tail refs text txt post (length txt + (2 + (length url + 1)))
             st1 Hs1 Hi Hend eq_refl ltac:(lia)).
  replace (length txt + (2 + (length url + 1)) - length txt) with (S (S (length url + 1)))
    by lia.
  assert (Hs2 : sliceFrom text (1 + length txt) = post).
  { apply (sliceFrom_add text 1 txt post Hs1). }
  unfold st1, setPos, addText. cbn [nodes bracketStack pos textBuffer app parse_loop].
  replace (1 + length txt <? length text) with true by (symmetry; apply Nat.ltb_lt; lia).
  rewrite (parse_step_close_link refs text txt url Hp Hne Hurl Hs2).
  cbn [pos].
  replace (1 + length txt + (1 + (length url + 2)) <? length text) with false
    by (symmetry; apply Nat.ltb_ge; lia).
  reflexivity.
Qed.

(** X25: an inline link with plain text and a plain destination is a link.
    The text becomes the content of the [a] element and the destination its
    [href], both as they are written. *)
Theorem inline_link_of_plain_text : forall depth txt url,
  plainLine txt = true -> url <> [] -> forallb isPlainUrlChar url = true ->
  parse (S depth) (js "[" ++ txt ++ js "](" ++ url ++ js ")") =
    Some [Paragraph [Link url [] [createTextNode txt]]]
  /\ markdown (S depth) (js "[" ++ txt ++ js "](" ++ url ++ js ")") =
     Some (js "<p><a" ++ attribute (js "href") url ++ js ">" ++ txt ++ js "</a></p>" ++ [LF]).
Proof.
  intros depth txt url Hp Hne Hurl.
  destruct (plainLine_head txt Hp) as (c & w & Ew & Hc & Hi).
  destruct (plain_url url Hurl) as (_ & Henc & Hesc).
  change (js "[" ++ txt ++ js "](" ++ url ++ js ")")
    with (LBRACKET :: txt ++ RBRACKET :: LPAREN :: url ++ [RPAREN]).
  assert (Hline : LBRACKET :: txt ++ RBRACKET :: LPAREN :: url ++ [RPAREN]
                  = LBRACKET :: (txt ++ RBRACKET :: LPAREN :: url) ++ [RPAREN]).
  { f_equal. rewrite <- app_assoc. reflexivity. }
  assert (Hblocks : BlockParser_parse (S depth)
                      (LBRACKET :: txt ++ RBRACKET :: LPAREN :: url ++ [RPAREN]) =
                    Some ([Paragraph (LBRACKET :: txt ++ RBRACKET :: LPAREN :: url
                                      ++ [RPAREN])], [])).
  { rewrite Hline. apply BlockParser_parse_one_paragraph.
    - rewrite <- Hline. unfold safeLine. cbn [forallb]. change (safeChar LBRACKET) with true.
      cbn [andb]. rewrite forallb_app. fold (safeLine txt). rewrite (plainLine_safe txt Hp).
      cbn [forallb andb]. change (safeChar RBRACKET) with true.
      change (safeChar LPAREN) with true. cbn [andb]. rewrite forallb_app. cbn [forallb].
      change (safeChar RPAREN) with true. rewrite andb_true_r.
      eapply forallb_weaken; [|exact Hurl]. intros x Hx.
      destruct (isPlainUrlChar_facts x Hx) as (_ & _ & _ & _ & _ & _ & _ & H8 & _).
      unfold isDestStop in H8. unfold safeChar.
      repeat (apply orb_false_iff in H8; destruct H8 as [H8 ?]).
      rewrite H0, H. reflexivity.
    - reflexivity.
    - reflexivity.
    - intros subParse lines st. apply parseBlocks_step_bracket.
    - rewrite <- Hline. apply parseLinkReferenceDefinition_link. exact Hi. }
  assert (Hparse : parse (S depth) (LBRACKET :: txt ++ RBRACKET :: LPAREN :: url ++ [RPAREN])
                   = Some [Paragraph [Link url [] [createTextNode txt]]]).
  { unfold parse. rewrite Hblocks. cbn [mapOpt processBlock]. unfold inlineChildren.
    rewrite (InlineParser_parse_link [] txt url Hp Hne Hurl). reflexivity. }
  split; [exact Hparse|]. unfold markdown. rewrite Hparse.
  unfold render, renderBlocks, renderBlock. cbn [map renderBlockWith].
  unfold renderInlines, createTextNode. cbn [map renderInline]. rewrite Henc.
  cbn [map renderInline joinOpt mapOpt option_map join titleAttribute].
  rewrite Hesc, (escapeHtml_inert txt Hi).
  transitivity (Some (tag (js "p") (js "<a" ++ attribute (js "href") url ++ [] ++ js ">"
                                    ++ txt ++ js "</a>") ++ [LF])); [reflexivity|].
  f_equal. unfold tag. cbn [app]. rewrite <- !app_assoc. reflexivity.
Qed.

End Runtime.

(** * The code on concrete inputs

    Evaluations with the Basic Latin instances of the runtime parameters. *)

(** C9 (as stated) fails: in ["< www.example.com"] the autolink at position 2
    is preceded by a space, which is a valid preceding character, and the [<]
    is separated from it by that space; it is not recognized.  With a space in
    place of the [<] it is. *)
Lemma autolink_suppressed_across_space :
  charAt (js "< www.example.com") 1 = Some SP /\
  isValidPrecedingChar (Some SP) = true /\
  parseExtendedAutolink basicLatinLower (js "< www.example.com") 2 (Some SP) = None /\
  parseExtendedAutolink basicLatinLower (js "  www.example.com") 2 (Some SP) =
    Some (Link (js "http://www.example.com") []
            [Text (js "www.example.com") false false None], 15).
Proof. vm_compute. repeat split. Qed.

(** An autolink after a space, recognized as the theorem says; after a colon
    the [www.] form is not recognized. *)
Lemma extended_autolink_preceding_rule_witness :
  parseWwwAutolink basicLatinLower (js "see www.example.com now") 4 (Some SP) =
    Some (autolinkNode (js "http://www.example.com") (js "www.example.com"), 15)
  /\ parseWwwAutolink basicLatinLower (js "see:www.example.com now") 4 (Some COLON) = None.
Proof.
  split.
  - pose proof (extended_autolink_preceding_rule basicLatinLower
                  (js "see www.example.com now") 4 (Some SP)) as H.
    cbv zeta in H. destruct H as (H1 & _ & _ & _ & _ & _ & H7).
    rewrite H1. change (memc SP _ && negb _) with true. cbv iota.
    apply (proj1 (H7 (js "example") (js "com") (js " now")
                    ltac:(discriminate) ltac:(discriminate) eq_refl eq_refl
                    (or_intror (ex_intro _ (js "now") eq_refl)))).
    + reflexivity.
    + reflexivity.
  - pose proof (extended_autolink_preceding_rule basicLatinLower
                  (js "see:www.example.com now") 4 (Some COLON)) as H.
    cbv zeta in H. destruct H as (H1 & _). rewrite H1. reflexivity.
Defined.

(** C7 (as stated) fails for the GFM block parser: the buffer holds the
    single definition [[foo]: /url|] and the line is [---], but the buffered
    line is also a table row and [---] a delimiter row of one cell, so the
    table branch, which comes first, takes both lines: a table is emitted, no
    thematic break, and the definition is not stored.  The CommonMark parser
    stores it and emits the thematic break. *)
Lemma gfm_table_claims_dash_underline :
  stripLinkRefs basicLatinLower noEntities [js "[foo]: /url|"] [] =
    ([], [(js "foo", mkLinkRef (js "/url|") [])]) /\
  isSetextDashLine (js "---") = true /\
  isThematicBreak (js "---") = true /\
  GFMBlockParser_parse basicLatinLower noEntities 1 true true true
    (js "[foo]: /url|" ++ [LF] ++ js "---") =
    Some ([Table [None] [mkRow true [mkCell None true (js "[foo]: /url")]]], [], []) /\
  BlockParser_parse basicLatinLower noEntities 1 (js "[foo]: /url|" ++ [LF] ++ js "---") =
    Some ([ThematicBreak], [(js "foo", mkLinkRef (js "/url|") [])]).
Proof. vm_compute. repeat split. Qed.

(** A buffer with the one definition [[foo]: /url|] and the line [---]: a
    thematic break in the CommonMark parser and in the GFM parser without
    tables, a table with the buffered line as its header in the GFM parser
    with tables. *)
Lemma definitions_then_dash_underline_witness :
  (forall subParse lines,
     parseBlocks_step basicLatinLower noEntities subParse lines (js "---")
       (mkPState 1 [js "[foo]: /url|"] [] []) =
     Some (mkPState 2 [] [ThematicBreak] [(js "foo", mkLinkRef (js "/url|") [])])) /\
  (forall subParse lines enableFootnotes notes,
     gfm_parseBlocks_step basicLatinLower noEntities subParse lines false
       enableFootnotes (js "---") (mkGState (mkPState 1 [js "[foo]: /url|"] [] []) notes) =
     Some (mkGState (mkPState 2 [] [ThematicBreak] [(js "foo", mkLinkRef (js "/url|") [])])
             notes)) /\
  (forall subParse enableFootnotes notes,
     gfm_parseBlocks_step basicLatinLower noEntities subParse
       [js "[foo]: /url|"; js "---"] true
       enableFootnotes (js "---") (mkGState (mkPState 1 [js "[foo]: /url|"] [] []) notes) =
     Some (mkGState
             (mkPState 2 []
                [Table [None] [mkRow true [mkCell None true (js "[foo]: /url")]]] [])
             notes)).
Proof.
  destruct (definitions_then_dash_underline basicLatinLower noEntities
              (js "---") (mkPState 1 [js "[foo]: /url|"] [] [])
              [(js "foo", mkLinkRef (js "/url|") [])])
    as (H1 & H2 & H3).
  - discriminate.
  - vm_compute. reflexivity.
  - reflexivity.
  - reflexivity.
  - split; [exact H1|]. split.
    + intros subParse lines enableFootnotes notes. apply H2. left. reflexivity.
    + intros subParse enableFootnotes notes.
      destruct (H3 subParse [js "[foo]: /url|"; js "---"] enableFootnotes notes [None])
        as (text & refs & rows & n & Hs & Ht & Hstep); [vm_compute; reflexivity|].
      rewrite Hstep. vm_compute in Hs. vm_compute in Ht.
      injection Hs as <- <-. injection Ht as <- <-. vm_compute. reflexivity.
Defined.



(** C4 (as stated) fails: [&#x110000;] is a numeric character reference whose
    code point, 1114112, is greater than 0x10FFFF; the inline parser does not
    replace it with U+FFFD but keeps its ten characters as text. *)
Lemma reference_above_max_stays_literal :
  NumericRefAt (js "&#x110000;") 0 (js "&#x110000;") 1114112 /\
  InlineParser_parse basicLatinLower basicLatinPunct noEntities [] (js "&#x110000;") =
    Some [Text (js "&#x110000;") false false None] /\
  InlineParser_parse basicLatinLower basicLatinPunct noEntities [] (js "&#x110000;") <>
    Some [Text [REPLACEMENT] false false None] /\
  markdown basicLatinLower basicLatinPunct noEntities 1 (js "&#x110000;") =
    Some (js "<p>&amp;#x110000;</p>" ++ [LF]).
Proof.
  split.
  - change 1114112%Z with (hexValue (js "110000")).
    apply (HexRefAt (js "&#x110000;") 0 120%Z (js "110000") []); [reflexivity|].
    unfold isHexRef. split; [auto|]. split; [reflexivity | cbn; lia].
  - vm_compute. repeat split. discriminate.
Qed.

(** The three cases of the theorem on [&#0;], [&#x110000;] and [&zz;]. *)
Lemma character_references_out_of_range_witness :
  parse_step basicLatinLower basicLatinPunct noEntities [] (js "&#0;") (mkIState [] [] 0 []) =
    Some (mkIState [] [] 4 [REPLACEMENT]) /\
  parse_steps basicLatinLower basicLatinPunct noEntities [] (js "&#x110000;") 10
    (mkIState [] [] 0 []) = Some (mkIState [] [] 10 (js "&#x110000;")) /\
  parse_steps basicLatinLower basicLatinPunct noEntities [] (js "&zz;") 4
    (mkIState [] [] 0 []) = Some (mkIState [] [] 4 (js "&zz;")).
Proof.
  split; [|split].
  - apply (proj1 (character_references_out_of_range basicLatinLower basicLatinPunct
                    noEntities [] (js "&#0;") (mkIState [] [] 0 []) (js "&#0;")) 0%Z).
    + change 0%Z with (decimalValue (js "0")).
      apply (DecimalRefAt (js "&#0;") 0 (js "0") []); [reflexivity|].
      unfold isDecimalRef. split; [reflexivity | cbn; lia].
    + reflexivity.
  - refine (proj2 (proj1 (proj2 (character_references_out_of_range basicLatinLower
                                   basicLatinPunct noEntities [] (js "&#x110000;")
                                   (mkIState [] [] 0 []) (js "&#x110000;")))
                     1114112%Z _ _)).
    + change 1114112%Z with (hexValue (js "110000")).
      apply (HexRefAt (js "&#x110000;") 0 120%Z (js "110000") []); [reflexivity|].
      unfold isHexRef. split; [auto|]. split; [reflexivity | cbn; lia].
    + reflexivity.
  - refine (proj2 (proj2 (proj2 (character_references_out_of_range basicLatinLower
                                   basicLatinPunct noEntities [] (js "&zz;")
                                   (mkIState [] [] 0 []) (js "&zz;"))) _)).
    apply (UnknownRefAt noEntities (js "&zz;") 0 122%Z (js "z") []);
      [reflexivity | | reflexivity].
    unfold isNamedRef. split; [reflexivity|]. split; [reflexivity | cbn; lia].
Defined.


Lemma basicLatinLower_nonempty : forall s, s <> [] -> basicLatinLower s <> [].
Proof. intros [|c s] H; [congruence | discriminate]. Qed.


(** Rendering raises a [URIError] on a link whose destination holds a
    surrogate without its partner, and a numeric character reference writes
    one in plain ASCII: on [[a](&#xD800;)] [parse] returns a document whose
    link has the destination U+D800, [encodeUrl] hands that character to
    [encodeURIComponent], and [markdown] returns nothing. *)
Lemma render_throws_on_lone_surrogate : forall depth,
  parse basicLatinLower basicLatinPunct noEntities (S depth) (js "[a](&#xD800;)")
    = Some [Paragraph [Link [55296%Z] [] [Text (js "a") false false None]]]
  /\ markdown basicLatinLower basicLatinPunct noEntities (S depth) (js "[a](&#xD800;)") = None.
Proof. intro depth. vm_compute. split; reflexivity. Qed.

(** Two lines separated by a carriage return and a line feed, or by a
    carriage return alone. *)
Lemma line_endings_do_not_matter_witness :
  markdown basicLatinLower basicLatinPunct noEntities 1 (js "a" ++ [CR; LF] ++ js "b") =
    markdown basicLatinLower basicLatinPunct noEntities 1 (js "a" ++ [LF] ++ js "b")
  /\ (startsWith (js "b") [LF] = false ->
      markdown basicLatinLower basicLatinPunct noEntities 1 (js "a" ++ [CR] ++ js "b") =
        markdown basicLatinLower basicLatinPunct noEntities 1 (js "a" ++ [LF] ++ js "b")).
Proof.
  apply (line_endings_do_not_matter basicLatinLower basicLatinPunct noEntities 1
           (js "a") (js "b")).
  reflexivity.
Defined.

(** A destination with a space. *)
Lemma encodeUrl_output_witness :
  forallb isUrlOutChar (js "a%20b") = true /\ encodeUrl (js "a%20b") = Some (js "a%20b").
Proof.
  apply (encodeUrl_output (js "a b") (js "a%20b")); reflexivity.
Defined.

(** A tab followed by two spaces: six columns, of which four are removed. *)
Lemma removeIndent_keeps_columns_witness :
  getIndent (removeIndent (TAB :: js "  x") 4) = getIndent (TAB :: js "  x") - 4.
Proof.
  apply (removeIndent_keeps_columns (TAB :: js "  x") 4); [reflexivity | vm_compute; lia].
Defined.

(** The four entities of XML, in a table that holds nothing else. *)
Lemma escapeXml_round_trip_witness :
  decodeHtmlEntities xmlEntities (escapeXml (js "<a href=x>R&D</a>")) =
    js "<a href=x>R&D</a>".
Proof.
  apply (escapeXml_round_trip xmlEntities eq_refl eq_refl eq_refl eq_refl).
Defined.

(** A second definition of the label [a], read after the first is stored. *)
Lemma first_definition_wins_witness :
  refGet (linkReferences
            (finishParagraph basicLatinLower noEntities
               (mkPState 3 [js "[a]: /y"] [] [(js "a", mkLinkRef (js "/x") [])])))
    (js "a") = Some (mkLinkRef (js "/x") [])
  /\ exists later,
       linkReferences
         (finishParagraph basicLatinLower noEntities
            (mkPState 3 [js "[a]: /y"] [] [(js "a", mkLinkRef (js "/x") [])]))
       = [(js "a", mkLinkRef (js "/x") [])] ++ later.
Proof.
  apply (first_definition_wins basicLatinLower noEntities
           (BlockParser_parse basicLatinLower noEntities 0)
           [js "[a]: /x"; []; js "[a]: /y"] 2
           (mkPState 2 [] [] [(js "a", mkLinkRef (js "/x") [])])
           (mkPState 3 [js "[a]: /y"] [] [(js "a", mkLinkRef (js "/x") [])])
           (js "a") (mkLinkRef (js "/x") [])).
  - reflexivity.
  - vm_compute. reflexivity.
Defined.

(** One space against a tab and a line end. *)
Lemma normalizeLabel_ignores_white_space_witness :
  normalizeLabel basicLatinLower (js "Foo" ++ [SP] ++ js "bar") =
    normalizeLabel basicLatinLower (js "Foo" ++ [TAB; LF] ++ js "bar")
  /\ normalizeLabel basicLatinLower ([SP] ++ js "Foo" ++ [TAB; LF]) =
       normalizeLabel basicLatinLower (js "Foo").
Proof.
  apply (normalizeLabel_ignores_white_space basicLatinLower (js "Foo") (js "bar")
           [SP] [TAB; LF]); [discriminate | discriminate | reflexivity | reflexivity].
Defined.

(** A heading marker and a tag inside a fence. *)
Lemma fenced_code_is_verbatim_witness :
  markdown basicLatinLower basicLatinPunct noEntities 1
    (joinLF (repeat BACKTICK 3 :: [js "# title"; js "<b>"] ++ [repeat BACKTICK 3])) =
  Some (js "<pre><code>" ++ escapeHtml (joinLF [js "# title"; js "<b>"] ++ [LF])
        ++ js "</code></pre>" ++ [LF]).
Proof.
  apply (fenced_code_is_verbatim basicLatinLower basicLatinPunct noEntities 0 BACKTICK 3 3
           [js "# title"; js "<b>"]);
    [left; reflexivity | lia | lia | reflexivity | reflexivity | discriminate].
Defined.

(** Two lines of prose. *)
Lemma plain_text_is_a_paragraph_witness :
  parse basicLatinLower basicLatinPunct noEntities 1
    (joinLF [js "Hello, world!"; js "How are you?"]) =
    Some [Paragraph (plainNodes [js "Hello, world!"; js "How are you?"])]
  /\ markdown basicLatinLower basicLatinPunct noEntities 1
       (joinLF [js "Hello, world!"; js "How are you?"]) =
     Some (js "<p>" ++ joinLF [js "Hello, world!"; js "How are you?"] ++ js "</p>" ++ [LF]).
Proof.
  apply (plain_text_is_a_paragraph basicLatinLower basicLatinPunct noEntities 0
           [js "Hello, world!"; js "How are you?"]); [discriminate | reflexivity].
Defined.

(** A span delimited by two backticks that holds a single one. *)
Lemma parseCodeSpan_shape_witness :
  exists n content post,
    1 <= n
    /\ sliceFrom (js "a `` x ` y `` b") 2
       = repeat BACKTICK n ++ content ++ repeat BACKTICK n ++ post
    /\ startsWith content [BACKTICK] = false
    /\ startsWith post [BACKTICK] = false
    /\ 11 = n + length content + n
    /\ (js "x ` y" = map (fun c => if ceq c LF then SP else c) content
        \/ SP :: js "x ` y" ++ [SP] = map (fun c => if ceq c LF then SP else c) content)
    /\ ~ In LF (js "x ` y").
Proof.
  apply (parseCodeSpan_shape (js "a `` x ` y `` b") 2 (js "x ` y") 11). reflexivity.
Defined.

(** An ordered marker after two spaces. *)
Lemma parseListMarker_geometry_witness :
  let m := mkMarker Ordered 2 2 (js "12)") None (Some 12%Z) (Some RPAREN) 1 1 6 6 in
  mIndent m <= 3
  /\ 1 <= mPadding m <= 4
  /\ mContentIndent m = mIndent m + length (mMarker m) + mPadding m
  /\ mContentCharIndex m <= length (js "  12) item")
  /\ firstn (mIndent m + length (mMarker m)) (js "  12) item")
     = repeat SP (mIndent m) ++ mMarker m
  /\ forallb isSpaceTab
       (slice (js "  12) item") (mIndent m + length (mMarker m)) (mContentCharIndex m))
     = true
  /\ match mType m with
     | Bullet => exists c, mMarker m = [c] /\ mBulletChar m = Some c
                           /\ In c [DASH; PLUS; STAR]
     | Ordered => exists n, mStart m = Some n /\ (0 <= n < 10 ^ 9)%Z
     end.
Proof.
  apply (parseListMarker_geometry (js "  12) item")
           (mkMarker Ordered 2 2 (js "12)") None (Some 12%Z) (Some RPAREN) 1 1 6 6)).
  reflexivity.
Defined.

(** A quoted heading and a quoted line of text. *)
Lemma blockquote_is_a_container_witness :
  parse basicLatinLower basicLatinPunct noEntities 2
    (joinLF (map (fun l => GT :: SP :: l) [js "# Title"; js "text"])) =
  option_map (fun document => [Blockquote document])
    (parse basicLatinLower basicLatinPunct noEntities 1 (joinLF [js "# Title"; js "text"])).
Proof.
  apply (blockquote_is_a_container basicLatinLower basicLatinPunct noEntities 1
           [js "# Title"; js "text"]); [discriminate | reflexivity | reflexivity].
Defined.

(** A fence, a line of code and two empty lines. *)
Lemma unclosed_fence_runs_to_the_end_witness :
  BlockParser_parse basicLatinLower noEntities 1
    (joinLF (repeat BACKTICK 3 :: [js "a"] ++ repeat [] 2)) =
  Some ([createFencedCodeBlock [] (popTrailingEmpty [js "a"]) 0], []).
Proof.
  apply (unclosed_fence_runs_to_the_end basicLatinLower noEntities 0 BACKTICK 3 [js "a"] 2);
    [left; reflexivity | lia | reflexivity | reflexivity].
Defined.

(** Three indented lines, the second one empty. *)
Lemma indented_code_is_verbatim_witness :
  BlockParser_parse basicLatinLower noEntities 1
    (joinLF (map (fun l => js "    " ++ l) [js "*a*"; []; js "<c>"])) =
    Some ([CodeBlock [] (joinLF [js "*a*"; []; js "<c>"] ++ [LF]) false], [])
  /\ markdown basicLatinLower basicLatinPunct noEntities 1
       (joinLF (map (fun l => js "    " ++ l) [js "*a*"; []; js "<c>"])) =
     Some (js "<pre><code>" ++ escapeHtml (joinLF [js "*a*"; []; js "<c>"] ++ [LF])
           ++ js "</code></pre>" ++ [LF]).
Proof.
  apply (indented_code_is_verbatim basicLatinLower basicLatinPunct noEntities 0
           (js "*a*") [[]; js "<c>"]); [reflexivity | reflexivity | discriminate].
Defined.

(** An address between angle brackets. *)
Lemma parseAutolink_shape_witness :
  exists body rest,
    sliceFrom (js "to <me@example.org>.") 3 = LT :: body ++ GT :: rest
    /\ 16 = length body + 2
    /\ body <> []
    /\ forallb (fun c => negb (isJsSpace c || ceq c LT || ceq c GT)) body = true
    /\ (Link (js "mailto:me@example.org") [] [Text (js "me@example.org") false false None]
        = Link body [] [Text body false false None]
        \/ Link (js "mailto:me@example.org") [] [Text (js "me@example.org") false false None]
           = Link (js "mailto:" ++ body) [] [Text body false false None]).
Proof.
  apply (parseAutolink_shape (js "to <me@example.org>.") 3
           (Link (js "mailto:me@example.org") []
              [Text (js "me@example.org") false false None]) 16).
  reflexivity.
Defined.

(** A heading of level two. *)
Lemma atx_heading_of_plain_text_witness :
  parse basicLatinLower basicLatinPunct noEntities 1 (repeat HASH 2 ++ SP :: js "Usage") =
    Some [Heading 2 [createTextNode (js "Usage")]]
  /\ markdown basicLatinLower basicLatinPunct noEntities 1 (repeat HASH 2 ++ SP :: js "Usage") =
     Some (tag (js "h" ++ numberToString (Z.of_nat 2)) (js "Usage") ++ [LF]).
Proof.
  apply (atx_heading_of_plain_text basicLatinLower basicLatinPunct noEntities 0 2 (js "Usage"));
    [lia | lia | reflexivity | reflexivity | reflexivity].
Defined.

(** Two words between stars. *)
Lemma emphasis_of_plain_text_witness :
  markdown basicLatinLower basicLatinPunct noEntities 1 (js "*" ++ js "so it is" ++ js "*") =
    Some (js "<p><em>" ++ js "so it is" ++ js "</em></p>" ++ [LF])
  /\ markdown basicLatinLower basicLatinPunct noEntities 1
       (js "**" ++ js "so it is" ++ js "**") =
     Some (js "<p><strong>" ++ js "so it is" ++ js "</strong></p>" ++ [LF]).
Proof.
  apply (emphasis_of_plain_text basicLatinLower basicLatinPunct noEntities 0 (js "so it is")).
  reflexivity.
Defined.

(** A link to a page. *)
Lemma inline_link_of_plain_text_witness :
  parse basicLatinLower basicLatinPunct noEntities 1
    (js "[" ++ js "the docs" ++ js "](" ++ js "https://example.org/a?b=1#c" ++ js ")") =
    Some [Paragraph [Link (js "https://example.org/a?b=1#c") []
                       [createTextNode (js "the docs")]]]
  /\ markdown basicLatinLower basicLatinPunct noEntities 1
       (js "[" ++ js "the docs" ++ js "](" ++ js "https://example.org/a?b=1#c" ++ js ")") =
     Some (js "<p><a" ++ attribute (js "href") (js "https://example.org/a?b=1#c") ++ js ">"
           ++ js "the docs" ++ js "</a></p>" ++ [LF]).
Proof.
  apply (inline_link_of_plain_text basicLatinLower basicLatinPunct noEntities 0
           (js "the docs") (js "https://example.org/a?b=1#c"));
    [reflexivity | discriminate | reflexivity].
Defined.
